(** * Compound elementwise kernels of nervanagpu: [float_ew.py]

    A shallow embedding of the expression builder ([_build_tree]), the stage
    splitter ([_post_order], [_process_node], [_split_stages]), the argument
    signature prepared by [_get_compound_kernel], the dimension helper
    [_get_fast_ew_dims] and the call driver [call_compound_kernel].

    Conventions.
    - Python integers are [Z]; [//] and [%] with a positive divisor are
      [Z.div] and [Z.modulo].
    - A Python list used as a stack ([stack], [shape_stack], [parents]) is
      kept with its top at the head, so [stack.pop()] takes the head and
      [stack[0]] is the last element; lists that are only appended to
      ([type_args], [kernel_args], [stages]) keep the source order.
    - An exception is a value [inl e] of [result]; a function that returns
      normally yields [inr v].
    - The text of the generated CUDA source is not modelled; what is kept of
      [_get_compound_kernel] is the stage list, the bookkeeping that decides
      the prepared argument signature, and the lookups that can raise. *)

From Stdlib Require Import String ZArith List Bool Lia Arith PeanoNat.
Import ListNotations.
Open Scope string_scope.
Open Scope list_scope.
Open Scope Z_scope.

Set Implicit Arguments.
Set Warnings "-register-all".

(** ** Exceptions *)

Inductive pyerr : Type :=
| IndexError
| KeyError
| NameError
| AttributeError
| ZeroDivisionError
| RecursionError
| ValueError (msg : string)
| TypeError (msg : string).

Definition result (A : Type) : Type := (pyerr + A)%type.

Definition bind {A B : Type} (x : result A) (f : A -> result B) : result B :=
  match x with
  | inl e => inl e
  | inr a => f a
  end.

Notation "x <- e ;; k" := (bind e (fun x => k))
  (at level 61, e at next level, right associativity).
Notation "' p <- e ;; k" := (bind e (fun x => let p := x in k))
  (at level 61, p pattern, e at next level, right associativity).

Definition is_err {A : Type} (x : result A) : Prop :=
  match x with inl _ => True | inr _ => False end.

(** ** Entries of [type_args] *)

(** [arg.dtype.str[1:]], the keys of [_ew_types]. *)
Inductive dtype : Type := f4 | f2 | i4 | u4 | i2 | u2 | i1 | u1.

(** What follows [(op_name, op_cnt)] in an operation tuple. *)
Inductive op_rest : Type :=
| NoRest                                        (* (op_name, op_cnt) *)
| AssignRest (rounding : bool) (threads : Z)    (* ("assign", op_cnt, rounding > 0, threads) *)
| OnehotRest (hot_axis : Z).                    (* ("onehot", op_cnt, hot_axis) *)

Inductive targ : Type :=
| TTensor (indx : Z) (dt : dtype) (take_axis : Z)   (* (ng.GPUTensor, indx, dtype, take_axis) *)
| TFloat (indx : Z)                                 (* (float, indx) *)
| TOp (name : string) (op_cnt : Z) (rest : op_rest).

Definition dtype_eqb (a b : dtype) : bool :=
  match a, b with
  | f4, f4 | f2, f2 | i4, i4 | u4, u4 | i2, i2 | u2, u2 | i1, i1 | u1, u1 => true
  | _, _ => false
  end.

Definition op_rest_eqb (a b : op_rest) : bool :=
  match a, b with
  | NoRest, NoRest => true
  | AssignRest r1 t1, AssignRest r2 t2 => Bool.eqb r1 r2 && (t1 =? t2)
  | OnehotRest h1, OnehotRest h2 => h1 =? h2
  | _, _ => false
  end.

Definition targ_eqb (a b : targ) : bool :=
  match a, b with
  | TTensor x1 d1 t1, TTensor x2 d2 t2 => (x1 =? x2) && dtype_eqb d1 d2 && (t1 =? t2)
  | TFloat x1, TFloat x2 => x1 =? x2
  | TOp n1 c1 r1, TOp n2 c2 r2 => String.eqb n1 n2 && (c1 =? c2) && op_rest_eqb r1 r2
  | _, _ => false
  end.

(** [arg[0]] when it is a string, that is the operation name. *)
Definition op_name (a : targ) : option string :=
  match a with
  | TOp n _ _ => Some n
  | _ => None
  end.

(** ** The operation tables *)

(** [_float_ops]: name and number of operands (the code templates are left out). *)
Definition _float_ops : list (string * nat) :=
  [ ("assign", 2); ("add", 2); ("sub", 2); ("mul", 2); ("div", 2);
    ("eq", 2); ("ne", 2); ("lt", 2); ("le", 2); ("gt", 2); ("ge", 2);
    ("minimum", 2); ("maximum", 2); ("pow", 2);
    ("finite", 1); ("neg", 1); ("abs", 1); ("sgn", 1); ("sqrt", 1); ("sqr", 1);
    ("exp", 1); ("log", 1); ("exp2", 1); ("log2", 1); ("sig", 1); ("sig2", 1);
    ("tanh", 1); ("tanh2", 1); ("rand", 0); ("onehot", 0) ]%nat.

(** [_reduction_ops]: the names only. *)
Definition _reduction_ops : list string := [ "sum"; "max"; "min"; "argmax"; "argmin" ].

Fixpoint float_op_arity_in (tbl : list (string * nat)) (name : string) : option nat :=
  match tbl with
  | [] => None
  | (n, k) :: tbl' => if String.eqb n name then Some k else float_op_arity_in tbl' name
  end.

(** [_float_ops[name][0]], [None] when [name not in _float_ops]. *)
Definition float_op_arity (name : string) : option nat := float_op_arity_in _float_ops name.

(** [name in _reduction_ops]. *)
Definition in_reduction_ops (name : string) : bool :=
  existsb (String.eqb name) _reduction_ops.

(** [arg[0] in _reduction_ops] for a tuple of [type_args]. *)
Definition is_reduction (a : targ) : bool :=
  match op_name a with
  | Some n => in_reduction_ops n
  | None => false
  end.

(** [arg[0] in _float_ops]. *)
Definition is_float_op (a : targ) : bool :=
  match op_name a with
  | Some n => match float_op_arity n with Some _ => true | None => false end
  | None => false
  end.

(** ** Expression builder: [_build_tree] *)

(** A node is the Python list [[arg, is_scalar, red_count, child, ...]];
    tensors and constants stay the tuples of [type_args]. *)
Inductive tree : Type :=
| Leaf (a : targ)
| Node (arg : targ) (is_scalar : bool) (red_count : Z) (children : list tree).

(** The inner loop [for i in range(numops)] of the operator branch: pops an
    operand, accumulates its reduction count, clears the scalar flag when
    the operand is a non-scalar node or an input tensor ([indx > 0]), and
    inserts it at position 3, in front of the children already there. *)
Fixpoint take_operands (numops : nat) (sc : bool) (reds : Z) (kids : list tree)
         (stack : list tree) : result (bool * Z * list tree * list tree) :=
  match numops with
  | O => inr (sc, reds, kids, stack)
  | S n =>
      match stack with
      | [] => inl IndexError
      | operand :: stack' =>
          let '(sc', reds') :=
            match operand with
            | Node _ osc ored _ => (if osc then sc else false, reds + ored)
            | Leaf (TTensor indx _ _) => (if indx >? 0 then false else sc, reds)
            | Leaf _ => (sc, reds)
            end in
          take_operands n sc' reds' (operand :: kids) stack'
      end
  end.

(** One iteration of [for arg in type_args]. *)
Definition build_step (stack : list tree) (arg : targ) : result (list tree) :=
  match arg with
  | TOp name _ _ =>
      match float_op_arity name with
      | Some numops =>
          ' (sc, reds, kids, stack') <- take_operands numops (0 <? numops)%nat 0 [] stack ;;
          inr (Node arg sc reds kids :: stack')
      | None =>
          if in_reduction_ops name then
            match stack with
            | [] => inl IndexError
            | operand :: stack' =>
                let reds := 1 + match operand with Node _ _ r _ => r | Leaf _ => 0 end in
                inr (Node arg true reds [operand] :: stack')
            end
          else inr (Leaf arg :: stack)
      end
  | _ => inr (Leaf arg :: stack)
  end.

Fixpoint build_stack (stack : list tree) (type_args : list targ) : result (list tree) :=
  match type_args with
  | [] => inr stack
  | arg :: rest => stack' <- build_step stack arg ;; build_stack stack' rest
  end.

(** [stack[0]]: the entry pushed first. *)
Definition stack_bottom (stack : list tree) : result tree :=
  match rev stack with
  | [] => inl IndexError
  | t :: _ => inr t
  end.

Definition _build_tree (type_args : list targ) : result tree :=
  stack <- build_stack [] type_args ;; stack_bottom stack.

(** ** Stage splitter: [_post_order], [_process_node], [_split_stages] *)

(** [_split_stages] updates the nodes in place (reduction counters of the
    parents, the alias written into [node[0]], the children dropped), through
    the references held by [parents] and by the enclosing calls.  The tree is
    therefore loaded into a store of cells; an operand is either a tuple of
    [type_args] or the address of a cell. *)
Inductive operand : Type :=
| OTup (a : targ)
| ORef (addr : nat).

Record cell : Type := mkCell {
  c_arg : targ;             (* node[0] *)
  c_scalar : bool;          (* node[1] *)
  c_reds : Z;               (* node[2] *)
  c_kids : list operand     (* node[3:] *)
}.

Definition heap : Type := list cell.

Fixpoint heap_set (h : heap) (addr : nat) (c : cell) : heap :=
  match h, addr with
  | [], _ => []
  | _ :: h', O => c :: h'
  | x :: h', S n => x :: heap_set h' n c
  end.

(** Loads a tree: children first, left to right, then the node itself. *)
Fixpoint alloc (t : tree) (h : heap) : operand * heap :=
  match t with
  | Leaf a => (OTup a, h)
  | Node arg sc reds kids =>
      let '(okids, h1) :=
        (fix alloc_list (ts : list tree) (h : heap) : list operand * heap :=
           match ts with
           | [] => ([], h)
           | t' :: ts' =>
               let '(o, h1) := alloc t' h in
               let '(os, h2) := alloc_list ts' h1 in
               (o :: os, h2)
           end) kids h in
      (ORef (length h1), h1 ++ [mkCell arg sc reds okids])
  end.

(** [_post_order(node, stack)].  The recursion follows references of the
    store, hence the fuel; [None] is reached only with too little fuel or a
    dangling address.  A chain of references never repeats a cell, so the
    callers give one unit of fuel more than the store has cells. *)
Fixpoint _post_order (fuel : nat) (h : heap) (node : operand) (stack : list targ)
  : option (list targ) :=
  match fuel with
  | O => None
  | S fuel' =>
      match node with
      | OTup a => Some (stack ++ [a])
      | ORef addr =>
          match nth_error h addr with
          | None => None
          | Some c =>
              match (match nth_error (c_kids c) 0 with
                     | Some k => _post_order fuel' h k stack
                     | None => Some stack
                     end) with
              | None => None
              | Some stack1 =>
                  match (match nth_error (c_kids c) 1 with
                         | Some k => _post_order fuel' h k stack1
                         | None => Some stack1
                         end) with
                  | None => None
                  | Some stack2 => Some (stack2 ++ [c_arg c])
                  end
              end
          end
      end
  end.

(** An element of the key built by [_process_node]: the name alone for an
    operation that is not an alias, [item[0:2]] otherwise. *)
Inductive key_item : Type :=
| KName (name : string)
| KTensor (indx : Z)          (* (ng.GPUTensor, indx) *)
| KFloat (indx : Z)           (* (float, indx) *)
| KOp (name : string) (op_cnt : Z).

Definition key_item_eqb (a b : key_item) : bool :=
  match a, b with
  | KName n1, KName n2 => String.eqb n1 n2
  | KTensor x1, KTensor x2 => x1 =? x2
  | KFloat x1, KFloat x2 => x1 =? x2
  | KOp n1 c1, KOp n2 c2 => String.eqb n1 n2 && (c1 =? c2)
  | _, _ => false
  end.

Fixpoint key_eqb (k1 k2 : list key_item) : bool :=
  match k1, k2 with
  | [], [] => true
  | a :: k1', b :: k2' => key_item_eqb a b && key_eqb k1' k2'
  | _, _ => false
  end.

(** [item in aliases]. *)
Definition in_aliases (aliases : list targ) (item : targ) : bool :=
  existsb (targ_eqb item) aliases.

Definition key_of_item (aliases : list targ) (item : targ) : key_item :=
  match item with
  | TOp name cnt _ => if in_aliases aliases item then KOp name cnt else KName name
  | TTensor indx _ _ => KTensor indx
  | TFloat indx => KFloat indx
  end.

(** [duplicates.get(key, False)]. *)
Fixpoint dup_get (duplicates : list (list key_item * targ)) (key : list key_item)
  : option targ :=
  match duplicates with
  | [] => None
  | (k, v) :: rest => if key_eqb k key then Some v else dup_get rest key
  end.

Inductive stage_type : Type := reduction_stage | scalar_stage | red_out | ew_out.

(** The mutable objects threaded through [_split_stages]. *)
Record split_state : Type := mkSplit {
  s_heap : heap;
  s_duplicates : list (list key_item * targ);
  s_aliases : list targ;
  s_stages : list (stage_type * list targ);
  s_parents : list nat          (* addresses, nearest parent first *)
}.

(** [_process_node(node, aliases, duplicates)]; the result is the new store,
    the dictionaries and the returned stack ([None] for a duplicate). *)
Definition _process_node (addr : nat) (st : split_state)
  : option (split_state * option (list targ)) :=
  match _post_order (S (List.length (s_heap st))) (s_heap st) (ORef addr) [] with
  | None => None
  | Some stack =>
      match nth_error (s_heap st) addr with
      | None => None
      | Some c =>
          let key := map (key_of_item (s_aliases st)) stack in
          match dup_get (s_duplicates st) key with
          | Some dup_node =>
              Some (mkSplit (heap_set (s_heap st) addr
                               (mkCell dup_node (c_scalar c) (c_reds c) []))
                            (s_duplicates st) (s_aliases st) (s_stages st) (s_parents st),
                    None)
          | None =>
              let top := last stack (c_arg c) in
              Some (mkSplit (heap_set (s_heap st) addr
                               (mkCell (c_arg c) (c_scalar c) (c_reds c) []))
                            (s_duplicates st ++ [(key, top)])
                            (top :: s_aliases st) (s_stages st) (s_parents st),
                    Some stack)
          end
      end
  end.

(** [for parent in parents: parent[2] -= 1]. *)
Fixpoint decrement_parents (h : heap) (parents : list nat) : heap :=
  match parents with
  | [] => h
  | p :: rest =>
      let h' := match nth_error h p with
                | Some c => heap_set h p (mkCell (c_arg c) (c_scalar c) (c_reds c - 1) (c_kids c))
                | None => h
                end in
      decrement_parents h' rest
  end.

(** The walk [for parent in parents[::-1]]: the highest parent reached
    while each one is scalar with a zero reduction count. *)
Fixpoint find_scalar_parent (h : heap) (parents : list nat) (found : option nat)
  : option nat :=
  match parents with
  | [] => found
  | p :: rest =>
      match nth_error h p with
      | Some c =>
          if c_scalar c && (c_reds c =? 0) then find_scalar_parent h rest (Some p)
          else found
      | None => found
      end
  end.

Definition add_stage (ty : stage_type) (stack : option (list targ)) (st : split_state)
  : split_state :=
  match stack with
  | Some s => mkSplit (s_heap st) (s_duplicates st) (s_aliases st)
                      (s_stages st ++ [(ty, s)]) (s_parents st)
  | None => st
  end.

Definition set_parents (st : split_state) (ps : list nat) : split_state :=
  mkSplit (s_heap st) (s_duplicates st) (s_aliases st) (s_stages st) ps.

Definition set_heap (st : split_state) (h : heap) : split_state :=
  mkSplit h (s_duplicates st) (s_aliases st) (s_stages st) (s_parents st).

(** The body of [if node[0][0] in _reduction_ops:]. *)
Definition split_reduction (addr : nat) (st : split_state) : option split_state :=
  match _process_node addr st with
  | None => None
  | Some (st1, red_stack) =>
      let st2 := add_stage reduction_stage red_stack st1 in
      let st3 := set_heap st2 (decrement_parents (s_heap st2) (s_parents st2)) in
      match find_scalar_parent (s_heap st3) (s_parents st3) None with
      | None => Some st3
      | Some scalar_parent =>
          match _process_node scalar_parent st3 with
          | None => None
          | Some (st4, scalar_stack) => Some (add_stage scalar_stage scalar_stack st4)
          end
      end
  end.

(** [node[0][0] != "assign"]. *)
Definition not_assign (a : targ) : bool :=
  match op_name a with
  | Some n => negb (String.eqb n "assign")
  | None => true
  end.

(** [_split_stages(node, duplicates, aliases, stages, parents)].  Every
    field of the node is read from the store at the point where the source
    reads it: the children and [node[0]] are looked up again after the
    recursive calls, which may have changed them. *)
Fixpoint _split_stages (fuel : nat) (node : operand) (st : split_state)
  : option split_state :=
  match fuel with
  | O => None
  | S fuel' =>
      match node with
      | OTup _ => Some st
      | ORef addr =>
          match nth_error (s_heap st) addr with
          | None => None
          | Some c =>
              let st0 := if not_assign (c_arg c)
                         then set_parents st (addr :: s_parents st) else st in
              match (match nth_error (c_kids c) 0 with
                     | Some k => _split_stages fuel' k st0
                     | None => Some st0
                     end) with
              | None => None
              | Some st1 =>
                  match nth_error (s_heap st1) addr with
                  | None => None
                  | Some c1 =>
                      match (match nth_error (c_kids c1) 1 with
                             | Some k => _split_stages fuel' k st1
                             | None => Some st1
                             end) with
                      | None => None
                      | Some st2 =>
                          let st3 := set_parents st2 (tl (s_parents st2)) in
                          match nth_error (s_heap st3) addr with
                          | None => None
                          | Some c3 =>
                              if is_reduction (c_arg c3)
                              then split_reduction addr st3
                              else Some st3
                          end
                      end
                  end
              end
          end
      end
  end.

(** [tree[1]], compared with 1 to name the last stage. *)
Definition root_scalar (t : tree) : Z :=
  match t with
  | Node _ sc _ _ => if sc then 1 else 0
  | Leaf (TTensor indx _ _) => indx       (* tree[1] of a tuple *)
  | Leaf (TFloat indx) => indx
  | Leaf (TOp _ cnt _) => cnt
  end.

(** The call [_split_stages(tree)] of [_get_compound_kernel] on a freshly
    built tree: the tree is loaded into an empty store and the recursion
    gets one unit of fuel more than there are cells. *)
Definition split_tree (t : tree) : option (heap * operand * list (stage_type * list targ)) :=
  let '(root, h) := alloc t [] in
  match _split_stages (S (List.length h)) root (mkSplit h [] [] [] []) with
  | None => None
  | Some st => Some (s_heap st, root, s_stages st)
  end.

(** [stages = _split_stages(tree)] followed by
    [stages.append((last_stage, _post_order(tree)))]. *)
Definition all_stages (t : tree) : option (list (stage_type * list targ)) :=
  match split_tree t with
  | None => None
  | Some (h, root, stages) =>
      let last_stage := if root_scalar t =? 1 then red_out else ew_out in
      match _post_order (S (List.length h)) h root [] with
      | None => None
      | Some stack => Some (stages ++ [(last_stage, stack)])
      end
  end.

(** ** The prepared argument signature of [_get_compound_kernel] *)

(** A character of the string given to [kernel.prepare]. *)
Inductive sigc : Type := SigP | SigI | SigF.

(** A register name on the code generator's stack: ["a%d"], ["c%d"],
    ["r%d"], ["i%d"]. *)
Inductive reg : Type := RegA (id : Z) | RegC (id : Z) | RegR (id : Z) | RegI (id : Z).

Record gen_state : Type := mkGen {
  g_stack : list reg;
  g_stage_out_reg : list (targ * reg);
  g_arg_dict : list (targ * list sigc);
  g_array_ids : list Z;                 (* the integers of array_ids *)
  g_array_stage_ids : list (Z * nat);   (* the pairs (arg_id, stage) of array_ids *)
  g_out : option (dtype * Z)            (* out_dtype, out_take once bound *)
}.

Fixpoint assoc_get {V : Type} (d : list (targ * V)) (k : targ) : option V :=
  match d with
  | [] => None
  | (k', v) :: rest => if targ_eqb k' k then Some v else assoc_get rest k
  end.

(** [d[k] = v]: replaces the entry in place or appends it. *)
Fixpoint assoc_set {V : Type} (d : list (targ * V)) (k : targ) (v : V) : list (targ * V) :=
  match d with
  | [] => [(k, v)]
  | (k', v') :: rest =>
      if targ_eqb k' k then (k', v) :: rest else (k', v') :: assoc_set rest k v
  end.

(** [del d[k]]. *)
Fixpoint assoc_del {V : Type} (d : list (targ * V)) (k : targ) : list (targ * V) :=
  match d with
  | [] => []
  | (k', v') :: rest => if targ_eqb k' k then rest else (k', v') :: assoc_del rest k
  end.

Definition mem_Z (x : Z) (l : list Z) : bool := existsb (Z.eqb x) l.

Definition mem_stage_id (x : Z * nat) (l : list (Z * nat)) : bool :=
  existsb (fun y => (fst x =? fst y) && Nat.eqb (snd x) (snd y)) l.

(** The stage kinds whose template holds a [loads%d] placeholder, and the one
    that holds [shfl_red%d]. *)
Definition has_loads (ty : stage_type) : bool :=
  match ty with reduction_stage | ew_out => true | _ => false end.

Definition has_shfl_red (ty : stage_type) : bool :=
  match ty with reduction_stage => true | _ => false end.

(** [_ew_strings["in%d" % take_axis]] and ["out%d"] exist for 0, 1, 2;
    [_ew_strings["onehot" + str(hot_axis)]] for 0 and 1. *)
Definition take_key_ok (take_axis : Z) : bool :=
  (take_axis =? 0) || (take_axis =? 1) || (take_axis =? 2).

Definition onehot_key_ok (hot_axis : Z) : bool := (hot_axis =? 0) || (hot_axis =? 1).

(** [arg[2]] of an operation tuple, as a truth value. *)
Definition arg2_true (rest : op_rest) : result bool :=
  match rest with
  | NoRest => inl IndexError
  | AssignRest r _ => inr r
  | OnehotRest h => inr (negb (h =? 0))
  end.

(** [arg[2]] of an operation tuple, as the one-hot axis. *)
Definition arg2_axis (rest : op_rest) : result Z :=
  match rest with
  | NoRest => inl IndexError
  | AssignRest r _ => inr (if r then 1 else 0)
  | OnehotRest h => inr h
  end.

Definition pop_reg (stack : list reg) : result (reg * list reg) :=
  match stack with
  | [] => inl IndexError
  | r :: stack' => inr (r, stack')
  end.

Fixpoint pop_regs (n : nat) (stack : list reg) : result (list reg) :=
  match n with
  | O => inr stack
  | S n' => ' (_, stack') <- pop_reg stack ;; pop_regs n' stack'
  end.

Definition set_stack (g : gen_state) (stack : list reg) : gen_state :=
  mkGen stack (g_stage_out_reg g) (g_arg_dict g) (g_array_ids g) (g_array_stage_ids g) (g_out g).

Definition set_arg_dict (g : gen_state) (k : targ) (sig : list sigc) : gen_state :=
  mkGen (g_stack g) (g_stage_out_reg g) (assoc_set (g_arg_dict g) k sig)
        (g_array_ids g) (g_array_stage_ids g) (g_out g).

Definition set_stage_out_reg (g : gen_state) (k : targ) (r : reg) : gen_state :=
  mkGen (g_stack g) (assoc_set (g_stage_out_reg g) k r) (g_arg_dict g)
        (g_array_ids g) (g_array_stage_ids g) (g_out g).

(** One iteration of [for arg_i, arg in enumerate(stage_stack)]. *)
Definition gen_arg (nstages stage : nat) (ty : stage_type) (stack_len arg_i : nat)
           (arg : targ) (g : gen_state) : result gen_state :=
  match arg with
  | TTensor arg_id dt take_axis =>
      let is_out_tensor := Nat.eqb stage (nstages - 1) && Nat.eqb arg_i 0 in
      let g1 := if is_out_tensor
                then mkGen (g_stack g) (g_stage_out_reg g) (g_arg_dict g) (g_array_ids g)
                           (g_array_stage_ids g) (Some (dt, take_axis))
                else set_stack g (RegA arg_id :: g_stack g) in
      if negb (mem_Z arg_id (g_array_ids g1)) then
        let g2 := mkGen (g_stack g1) (g_stage_out_reg g1) (g_arg_dict g1)
                        (arg_id :: g_array_ids g1)
                        ((arg_id, stage) :: g_array_stage_ids g1) (g_out g1) in
        let sig := [SigP; SigI; SigI] ++ (if take_axis >? 0 then [SigP] else []) in
        if negb (take_key_ok take_axis) then inl KeyError
        else if negb is_out_tensor && negb (has_loads ty) then inl KeyError
        else inr (set_arg_dict g2 arg sig)
      else if negb (mem_stage_id (arg_id, stage) (g_array_stage_ids g1)) then
        if negb (take_key_ok take_axis) then inl KeyError
        else if negb (has_loads ty) then inl KeyError
        else inr (mkGen (g_stack g1) (g_stage_out_reg g1) (g_arg_dict g1) (g_array_ids g1)
                        ((arg_id, stage) :: g_array_stage_ids g1) (g_out g1))
      else inr g1
  | TFloat arg_id =>
      let g1 := set_stack g (RegC arg_id :: g_stack g) in
      match assoc_get (g_arg_dict g1) arg with
      | Some _ => inr g1
      | None => inr (set_arg_dict g1 arg [SigF])
      end
  | TOp arg_type arg_id rest =>
      if String.eqb arg_type "assign" then
        rounding <- arg2_true rest ;;
        let sig := [SigI] ++ (if rounding then [SigI] else []) in
        let g1 := set_arg_dict g arg sig in
        ' (out_val, stack') <- pop_reg (g_stack g1) ;;
        match g_out g1 with
        | None => inl NameError
        | Some (_, out_take) =>
            if take_key_ok out_take then inr (set_stack g1 stack') else inl KeyError
        end
      else
        match assoc_get (g_stage_out_reg g) arg with
        | Some r => inr (set_stack g (r :: g_stack g))
        | None =>
            match float_op_arity arg_type with
            | Some num_ops =>
                stack' <- pop_regs num_ops (g_stack g) ;;
                g1 <- (if String.eqb arg_type "onehot" then
                         hot_axis <- arg2_axis rest ;;
                         if negb (onehot_key_ok hot_axis) then inl KeyError
                         else if negb (has_loads ty) then inl KeyError
                         else inr (set_arg_dict g arg [SigP])
                       else inr g) ;;
                if Nat.eqb arg_i (stack_len - 1)
                then inr (set_stage_out_reg (set_stack g1 stack') arg (RegR arg_id))
                else inr (set_stack g1 (RegR arg_id :: stack'))
            | None =>
                if in_reduction_ops arg_type then
                  let g1 := set_arg_dict g arg [SigI] in
                  let red_arg := if String.eqb (substring 0 3 arg_type) "arg"
                                 then RegI arg_id else RegR arg_id in
                  ' (_, stack') <- pop_reg (g_stack g1) ;;
                  if negb (has_shfl_red ty) then inl KeyError
                  else inr (set_stage_out_reg (set_stack g1 stack') arg red_arg)
                else inl (ValueError "Bad op type.")
            end
        end
  end.

Fixpoint gen_stage (nstages stage : nat) (ty : stage_type) (stack_len arg_i : nat)
         (stage_stack : list targ) (g : gen_state) : result gen_state :=
  match stage_stack with
  | [] => inr g
  | arg :: rest =>
      g' <- gen_arg nstages stage ty stack_len arg_i arg g ;;
      gen_stage nstages stage ty stack_len (S arg_i) rest g'
  end.

(** [for stage, stage_data in enumerate(stages)]. *)
Fixpoint gen_stages (nstages stage : nat) (stages : list (stage_type * list targ))
         (g : gen_state) : result gen_state :=
  match stages with
  | [] => inr g
  | (ty, stage_stack) :: rest =>
      g' <- gen_stage nstages stage ty (List.length stage_stack) 0 stage_stack g ;;
      gen_stages nstages (S stage) rest g'
  end.

(** The closing loop over [type_args]: the signature in the original order,
    one unused integer for each reduction that left no entry in [arg_dict]. *)
Fixpoint final_sig (type_args : list targ) (arg_dict : list (targ * list sigc))
  : list sigc :=
  match type_args with
  | [] => []
  | arg :: rest =>
      match assoc_get arg_dict arg with
      | Some params => params ++ final_sig rest (assoc_del arg_dict arg)
      | None =>
          if is_reduction arg then SigI :: final_sig rest arg_dict
          else final_sig rest arg_dict
      end
  end.

(** [type_args[-1][3]]. *)
Definition last_index3 (type_args : list targ) : result Z :=
  match rev type_args with
  | [] => inl IndexError
  | TTensor _ _ take_axis :: _ => inr take_axis
  | TFloat _ :: _ => inl IndexError
  | TOp _ _ (AssignRest _ threads) :: _ => inr threads
  | TOp _ _ _ :: _ => inl IndexError
  end.

Record kernel : Type := mkKernel {
  k_sig : list sigc;                           (* the string given to kernel.prepare *)
  k_threads : Z;
  k_stages : list (stage_type * list targ)
}.

(** The body of [_get_compound_kernel], without the memoization.  The
    recursion of the splitter is given one unit of fuel more than the
    store has cells; [RecursionError] stands for its exhaustion. *)
Definition _get_compound_kernel (type_args : list targ) : result kernel :=
  tree <- _build_tree type_args ;;
  match all_stages tree with
  | None => inl RecursionError
  | Some stages =>
      threads <- last_index3 type_args ;;
      g <- gen_stages (List.length stages) 0 stages (mkGen [] [] [] [] [] None) ;;
      inr (mkKernel (SigP :: final_sig type_args (g_arg_dict g)) threads stages)
  end.

(** ** [_get_fast_ew_dims] *)

(** [while ew_size > 0: if size % ew_size == 0: break; ew_size -= step]. *)
Fixpoint scan_down (fuel : nat) (size step ew_size : Z) : Z :=
  match fuel with
  | O => ew_size
  | S fuel' =>
      if ew_size >? 0 then
        if size mod ew_size =? 0 then ew_size
        else scan_down fuel' size step (ew_size - step)
      else ew_size
  end.

(** [ng._contiguous_strides] is defined in [nervanagpu.py], which is not
    among the sources at hand; for the two-dimensional shapes it receives
    here it is taken to be the row-major element strides. *)
Definition _contiguous_strides (shape : Z * Z) : Z * Z := (snd shape, 1).

Definition _get_fast_ew_dims (size : Z) : result ((Z * Z) * (Z * Z)) :=
  let ew_size := scan_down 256 size 32 256 in
  let ew_size := if ew_size =? 0 then scan_down 256 size 1 255 else ew_size in
  if ew_size =? 0 then inl ZeroDivisionError
  else
    let shape := (size / ew_size, ew_size) in
    inr (shape, _contiguous_strides shape).

(** ** The call driver: [call_compound_kernel] *)

(** [out.rounding]: [False], [True] or a number of mantissa bits. *)
Inductive rounding_t : Type := RoundBool (b : bool) | RoundInt (n : Z).

(** What the driver reads of a [GPUTensor]. *)
Record GPUTensor : Type := mkTensor {
  t_ident : nat;                        (* the object, as a key of array_ids *)
  t_shape : list Z;
  t_strides : list Z;
  t_dtype : dtype;
  t_gpudata : Z;
  t_take_array : option (Z * Z);        (* (take_array[0].gpudata, take_array[1]) *)
  t_is_trans : bool;
  t_is_contiguous : bool;
  t_rounding : rounding_t;
  t_bench : Z                           (* backend.bench *)
}.

(** An operation dictionary. *)
Record op_desc : Type := mkOp {
  o_op : string;
  o_axis : option Z;
  o_idx : option Z                      (* arg["idx"].gpudata *)
}.

(** A positional argument; a constant is the value of [float(arg)]. *)
Inductive arg : Type :=
| ATensor (t : GPUTensor)
| AConst (c : Z)
| AOp (d : op_desc).

Inductive karg : Type := KPtr (p : Z) | KInt (n : Z) | KFlt (c : Z).

Record flags : Type := mkFlags {
  f_contiguous : bool;
  f_reduction : bool;
  f_broadcast : bool;
  f_transpose : bool;
  f_argminmax : bool;
  f_takeop : bool;
  f_axis : Z
}.

Definition init_flags : flags := mkFlags true false false false false false 1.

(** [arg.get("axis", None) not in (0, 1)]. *)
Definition axis_ok (ax : option Z) : bool :=
  match ax with
  | Some a => (a =? 0) || (a =? 1)
  | None => false
  end.

(** [len(shape) < 2 or (len(shape) == 2 and (shape[0] == 1 or shape[1] == 1))]. *)
Definition implies_broadcast (shape : list Z) : bool :=
  match shape with
  | [] | [_] => true
  | [s0; s1] => (s0 =? 1) || (s1 =? 1)
  | _ => false
  end.

(** One iteration of the first loop over [args]. *)
Definition scan_arg (f : flags) (a : arg) : result flags :=
  match a with
  | AOp d =>
      if in_reduction_ops (o_op d) then
        let argminmax := if String.eqb (substring 0 3 (o_op d)) "arg"
                         then true else f_argminmax f in
        match o_axis d with
        | Some ax =>
            if negb (axis_ok (Some ax))
            then inl (ValueError "Only reduction along an axis currently supported")
            else if f_reduction f then
              if negb (ax =? f_axis f)
              then inl (ValueError "Reduction only allowed along one axis per kernel.")
              else inr (mkFlags (f_contiguous f) true (f_broadcast f) (f_transpose f)
                                argminmax (f_takeop f) (f_axis f))
            else inr (mkFlags (f_contiguous f) true (f_broadcast f) (f_transpose f)
                              argminmax (f_takeop f) ax)
        | None => inl (ValueError "Only reduction along an axis currently supported")
        end
      else if String.eqb (o_op d) "onehot" then
        inr (mkFlags (f_contiguous f) (f_reduction f) (f_broadcast f) (f_transpose f)
                     (f_argminmax f) true (f_axis f))
      else inr f
  | ATensor t =>
      if implies_broadcast (t_shape t) then
        inr (mkFlags (f_contiguous f) (f_reduction f) true (f_transpose f)
                     (f_argminmax f) (f_takeop f) (f_axis f))
      else if t_is_trans t then
        inr (mkFlags (f_contiguous f) (f_reduction f) (f_broadcast f) true
                     (f_argminmax f) (f_takeop f) (f_axis f))
      else if (match t_take_array t with Some _ => true | None => false end) then
        inr (mkFlags (f_contiguous f) (f_reduction f) (f_broadcast f) (f_transpose f)
                     (f_argminmax f) true (f_axis f))
      else if negb (t_is_contiguous t) then
        inr (mkFlags false (f_reduction f) (f_broadcast f) (f_transpose f)
                     (f_argminmax f) (f_takeop f) (f_axis f))
      else inr f
  | AConst _ => inr f
  end.

Fixpoint scan_args (f : flags) (args : list arg) : result flags :=
  match args with
  | [] => inr f
  | a :: rest => f' <- scan_arg f a ;; scan_args f' rest
  end.

(** The objects the second loop updates. *)
Record call_state : Type := mkCall {
  cs_out : option GPUTensor;
  cs_arg_cnt : Z;
  cs_op_cnt : Z;
  cs_array_ids : list (nat * Z);
  cs_const_ids : list (Z * Z);
  cs_kernel_args : list karg;
  cs_type_args : list targ;
  cs_shape_stack : list (Z * Z);
  cs_threads : Z;
  cs_red_depth : Z;
  cs_max_shape : option (Z * Z)         (* bound once an operation of _float_ops was seen *)
}.

Definition init_call (rand_state : Z) : call_state :=
  mkCall None 0 0 [] [] [KPtr rand_state] [] [] 32 0 None.

Fixpoint ids_get {K : Type} (eqb : K -> K -> bool) (d : list (K * Z)) (k : K) : option Z :=
  match d with
  | [] => None
  | (k', v) :: rest => if eqb k' k then Some v else ids_get eqb rest k
  end.

(** [l[i]] and [l[i] = v] for an index that is 0 or 1. *)
Definition list_get (l : list Z) (i : Z) : result Z :=
  match nth_error l (Z.to_nat i) with
  | Some v => inr v
  | None => inl IndexError
  end.

Fixpoint list_put (l : list Z) (i : nat) (v : Z) : result (list Z) :=
  match l, i with
  | [], _ => inl IndexError
  | _ :: l', O => inr (v :: l')
  | x :: l', S i' => l'' <- list_put l' i' v ;; inr (x :: l'')
  end.

(** [p[i]] and [p[i] = v] of a pair, for the axis, which is 0 or 1. *)
Definition pair_get (p : Z * Z) (i : Z) : Z := if i =? 0 then fst p else snd p.

Definition pair_put (p : Z * Z) (i : Z) (v : Z) : Z * Z :=
  if i =? 0 then (v, snd p) else (fst p, v).

(** [l[::stride_order]]. *)
Definition slice_step (stride_order : Z) (l : list Z) : list Z :=
  if stride_order =? 1 then l else rev l.

Definition tensor_size (t : GPUTensor) : Z := fold_right Z.mul 1 (t_shape t).

(** The shape and strides chosen for a tensor operand: the native ones for
    the complex operations, those of [_get_fast_ew_dims] for plain ones. *)
Definition tensor_dims (f : flags) (t : GPUTensor) : result ((Z * Z) * list Z) :=
  let stride_order := if f_axis f =? 1 then 1 else -1 in
  if f_broadcast f || f_reduction f || f_transpose f || f_takeop f || negb (f_contiguous f)
  then
    match t_shape t with
    | [s0; s1] => inr ((s0, s1), slice_step stride_order (t_strides t))
    | _ => inl (ValueError
        "Operations that are not simple elementwise are only currently supported in 2 dimensions.")
    end
  else
    dims <- _get_fast_ew_dims (tensor_size t) ;;
    inr (fst dims, slice_step stride_order [fst (snd dims); snd (snd dims)]).

Definition take_axis_of (f : flags) (t : GPUTensor) : Z :=
  match t_take_array t with
  | Some (_, tk) => if negb (f_axis f =? 1) then 2 - tk else tk + 1
  | None => 0
  end.

(** The consolidation of a tensor operand into one kernel argument: the
    index it already has, or a new one, with its pointer, its two strides
    (zeroed along a broadcast extent) and its take pointer appended to
    [kernel_args].  The first tensor becomes [out] and is not recorded in
    [array_ids]. *)
Definition register_tensor (f : flags) (t : GPUTensor) (shape : Z * Z) (strides : list Z)
           (st : call_state) : result (Z * call_state) :=
  match ids_get Nat.eqb (cs_array_ids st) (t_ident t) with
  | Some indx => inr (indx, st)
  | None =>
      let indx := cs_arg_cnt st in
      let out := match cs_out st with None => Some t | Some o => Some o end in
      let array_ids := match cs_out st with
                       | None => cs_array_ids st
                       | Some _ => cs_array_ids st ++ [(t_ident t, indx)]
                       end in
      strides1 <- (if fst shape =? 1 then list_put strides (Z.to_nat (1 - f_axis f)) 0
                   else inr strides) ;;
      strides2 <- (if snd shape =? 1 then list_put strides1 (Z.to_nat (f_axis f)) 0
                   else inr strides1) ;;
      str0 <- list_get strides2 0 ;;
      str1 <- list_get strides2 1 ;;
      let kargs := cs_kernel_args st ++ [KPtr (t_gpudata t); KInt str0; KInt str1]
                   ++ match t_take_array t with
                      | Some (ptr, _) => [KPtr ptr]
                      | None => []
                      end in
      inr (indx, mkCall out (cs_arg_cnt st + 1) (cs_op_cnt st) array_ids (cs_const_ids st)
                        kargs (cs_type_args st) (cs_shape_stack st) (cs_threads st)
                        (cs_red_depth st) (cs_max_shape st))
  end.

(** The [Array operand] branch. *)
Definition step_tensor (f : flags) (t : GPUTensor) (st : call_state) : result call_state :=
  dims <- tensor_dims f t ;;
  reg <- register_tensor f t (fst dims) (snd dims) st ;;
  let indx := fst reg in
  let st1 := snd reg in
  inr (mkCall (cs_out st1) (cs_arg_cnt st1) (cs_op_cnt st1) (cs_array_ids st1)
              (cs_const_ids st1) (cs_kernel_args st1)
              (cs_type_args st1 ++ [TTensor indx (t_dtype t) (take_axis_of f t)])
              (fst dims :: cs_shape_stack st1) (cs_threads st1) (cs_red_depth st1)
              (cs_max_shape st1)).

(** The [Constant operand] branch. *)
Definition step_const (c : Z) (st : call_state) : call_state :=
  match ids_get Z.eqb (cs_const_ids st) c with
  | Some indx =>
      mkCall (cs_out st) (cs_arg_cnt st) (cs_op_cnt st) (cs_array_ids st) (cs_const_ids st)
             (cs_kernel_args st) (cs_type_args st ++ [TFloat indx])
             ((1, 1) :: cs_shape_stack st) (cs_threads st) (cs_red_depth st) (cs_max_shape st)
  | None =>
      mkCall (cs_out st) (cs_arg_cnt st + 1) (cs_op_cnt st) (cs_array_ids st)
             (cs_const_ids st ++ [(c, cs_arg_cnt st)]) (cs_kernel_args st ++ [KFlt c])
             (cs_type_args st ++ [TFloat (cs_arg_cnt st)])
             ((1, 1) :: cs_shape_stack st) (cs_threads st) (cs_red_depth st) (cs_max_shape st)
  end.

(** The test on one axis of the shape arithmetic. *)
Definition unify_axis (max_i shape_i : Z) : result Z :=
  if negb (shape_i =? max_i) then
    if (shape_i =? 1) || (max_i =? 1) then inr (Z.max max_i shape_i)
    else inl (TypeError "Input shape not compatible")
  else inr max_i.

(** [for op_num in range(numops)]: pops the operand shapes into [max_shape]. *)
Fixpoint unify_shapes (numops : nat) (max_shape : Z * Z) (shape_stack : list (Z * Z))
  : result ((Z * Z) * list (Z * Z)) :=
  match numops with
  | O => inr (max_shape, shape_stack)
  | S n =>
      match shape_stack with
      | [] => inl IndexError
      | shape :: rest =>
          m0 <- unify_axis (fst max_shape) (fst shape) ;;
          m1 <- unify_axis (snd max_shape) (snd shape) ;;
          unify_shapes n (m0, m1) rest
      end
  end.

(** The mantissa pushed for [out.rounding], and the value tested by
    [rounding > 0]. *)
Definition rounding_value (dt : dtype) (r : rounding_t) : option Z :=
  match r with
  | RoundBool false => None
  | RoundBool true => Some 10
  | RoundInt n =>
      if n =? 0 then None
      else match dt with
           | f4 => Some (Z.min n 15)
           | f2 => Some (Z.min n 10)
           | _ => Some n
           end
  end.

(** The thread count chosen while the [assign] is processed. *)
Definition choose_threads (f : flags) (red_depth : Z) (max_shape : Z * Z) (threads : Z) : Z :=
  if f_reduction f && negb (f_argminmax f) then
    if red_depth >=? 4096 then 1024
    else if red_depth >=? 2048 then 512
    else if red_depth >=? 1024 then 256
    else if red_depth >=? 512 then 128
    else if red_depth >=? 256 then 64
    else threads
  else if negb (f_reduction f || f_transpose f) && (snd max_shape >=? 512) then 256
  else threads.

(** The [Operation] branch. *)
Definition step_op (f : flags) (d : op_desc) (st : call_state) : result call_state :=
  let op_name := o_op d in
  st' <-
    match float_op_arity op_name with
    | Some numops =>
        ' (max_shape, shape_stack) <- unify_shapes numops (1, 1) (cs_shape_stack st) ;;
        if String.eqb op_name "assign" then
          let kargs := cs_kernel_args st ++ [KInt (pair_get max_shape (f_axis f))] in
          match cs_out st with
          | None => inl AttributeError
          | Some out =>
              let rounding := rounding_value (t_dtype out) (t_rounding out) in
              let kargs' := match rounding with
                            | Some r => kargs ++ [KInt (Z.max r 1)]
                            | None => kargs
                            end in
              let threads := choose_threads f (cs_red_depth st) max_shape (cs_threads st) in
              let flag := match rounding with Some r => r >? 0 | None => false end in
              inr (mkCall (cs_out st) (cs_arg_cnt st) (cs_op_cnt st) (cs_array_ids st)
                          (cs_const_ids st) kargs'
                          (cs_type_args st ++ [TOp op_name (cs_op_cnt st) (AssignRest flag threads)])
                          shape_stack threads (cs_red_depth st) (Some max_shape))
          end
        else if String.eqb op_name "onehot" then
          match o_axis d with
          | None => inl KeyError
          | Some ax =>
              let hot_axis := if negb (f_axis f =? 0) then ax else 1 - ax in
              match o_idx d with
              | None => inl KeyError
              | Some ptr =>
                  inr (mkCall (cs_out st) (cs_arg_cnt st) (cs_op_cnt st) (cs_array_ids st)
                              (cs_const_ids st) (cs_kernel_args st ++ [KPtr ptr])
                              (cs_type_args st ++ [TOp op_name (cs_op_cnt st) (OnehotRest hot_axis)])
                              (max_shape :: shape_stack) (cs_threads st) (cs_red_depth st)
                              (Some max_shape))
              end
          end
        else
          inr (mkCall (cs_out st) (cs_arg_cnt st) (cs_op_cnt st) (cs_array_ids st)
                      (cs_const_ids st) (cs_kernel_args st)
                      (cs_type_args st ++ [TOp op_name (cs_op_cnt st) NoRest])
                      (max_shape :: shape_stack) (cs_threads st) (cs_red_depth st)
                      (Some max_shape))
    | None =>
        if in_reduction_ops op_name then
          match cs_shape_stack st with
          | [] => inl IndexError
          | shape :: shape_stack =>
              let depth := pair_get shape (f_axis f) in
              inr (mkCall (cs_out st) (cs_arg_cnt st) (cs_op_cnt st) (cs_array_ids st)
                          (cs_const_ids st) (cs_kernel_args st ++ [KInt depth])
                          (cs_type_args st ++ [TOp op_name (cs_op_cnt st) NoRest])
                          (pair_put shape (f_axis f) 1 :: shape_stack) (cs_threads st)
                          (Z.max (cs_red_depth st) depth) (cs_max_shape st))
          end
        else inl (TypeError "not a valid operation")
    end ;;
  inr (mkCall (cs_out st') (cs_arg_cnt st') (cs_op_cnt st' + 1) (cs_array_ids st')
              (cs_const_ids st') (cs_kernel_args st') (cs_type_args st') (cs_shape_stack st')
              (cs_threads st') (cs_red_depth st') (cs_max_shape st')).

(** One iteration of the second loop over [args]. *)
Definition step_arg (f : flags) (st : call_state) (a : arg) : result call_state :=
  match a with
  | ATensor t => step_tensor f t st
  | AConst c => inr (step_const c st)
  | AOp d => step_op f d st
  end.

Fixpoint step_args (f : flags) (st : call_state) (args : list arg) : result call_state :=
  match args with
  | [] => inr st
  | a :: rest => st' <- step_arg f st a ;; step_args f st' rest
  end.

(** Everything [call_compound_kernel] does before it asks for the kernel:
    the classification scan and the loop that builds [type_args],
    [kernel_args] and the thread count. *)
Definition prepare_call (rand_state : Z) (args : list arg) : result (flags * call_state) :=
  f <- scan_args init_flags args ;;
  st <- step_args f (init_call rand_state) args ;;
  inr (f, st).

(** *** The device: kernel cache and launches *)

Record launch : Type := mkLaunch {
  l_blocks : Z;
  l_threads : Z;
  l_args : list karg;
  l_shared : Z
}.

(** [context_dependent_memoize] comes from pycuda: within one context it
    keeps a dictionary from the argument tuple to the value returned, and
    calls the function only for a tuple it has not seen. *)
Record device : Type := mkDevice {
  d_cache : list (list targ * kernel);
  d_compiles : nat;                     (* how many times the kernel body was built *)
  d_launches : list launch
}.

Fixpoint type_args_eqb (a b : list targ) : bool :=
  match a, b with
  | [], [] => true
  | x :: a', y :: b' => targ_eqb x y && type_args_eqb a' b'
  | _, _ => false
  end.

Fixpoint cache_get (cache : list (list targ * kernel)) (type_args : list targ)
  : option kernel :=
  match cache with
  | [] => None
  | (k, v) :: rest => if type_args_eqb k type_args then Some v else cache_get rest type_args
  end.

(** The memoized [_get_compound_kernel]. *)
Definition get_compound_kernel (dev : device) (type_args : list targ)
  : result kernel * device :=
  match cache_get (d_cache dev) type_args with
  | Some k => (inr k, dev)
  | None =>
      match _get_compound_kernel type_args with
      | inl e => (inl e, dev)
      | inr k => (inr k, mkDevice (d_cache dev ++ [(type_args, k)]) (S (d_compiles dev))
                                  (d_launches dev))
      end
  end.

Definition call_compound_kernel (dev : device) (rand_state : Z) (args : list arg)
  : result GPUTensor * device :=
  match prepare_call rand_state args with
  | inl e => (inl e, dev)
  | inr (f, st) =>
      match get_compound_kernel dev (cs_type_args st) with
      | (inl e, dev1) => (inl e, dev1)
      | (inr kernel, dev1) =>
          let shared := if f_reduction f && (cs_threads st >? 32)
                        then cs_threads st * 4 else 0 in
          match cs_out st with
          | None => (inl AttributeError, dev1)
          | Some out =>
              let reps := if t_bench out >? 1 then Z.to_nat (t_bench out) else 1%nat in
              match cs_max_shape st with
              | None => (inl NameError, dev1)
              | Some max_shape =>
                  let l := mkLaunch (pair_get max_shape (1 - f_axis f)) (cs_threads st)
                                    (cs_kernel_args st) shared in
                  (inr out, mkDevice (d_cache dev1) (d_compiles dev1)
                                     (d_launches dev1 ++ repeat l reps))
              end
          end
      end
  end.

(** ** [fp32_convert] *)



(** * Notions used to state the properties *)

(** ** Malformed streams *)

(** The number of operands [_build_tree] pops for a token; [None] for a
    token that is pushed as it is. *)
Definition token_arity (a : targ) : option nat :=
  match a with
  | TOp name _ _ =>
      match float_op_arity name with
      | Some n => Some n
      | None => if in_reduction_ops name then Some 1%nat else None
      end
  | _ => None
  end.

(** An operator meets fewer operands on the stack than its arity. *)
Definition underflows (type_args : list targ) : Prop :=
  exists pre a post stack n,
    type_args = pre ++ a :: post /\
    build_stack [] pre = inr stack /\
    token_arity a = Some n /\
    (List.length stack < n)%nat.

(** The stream is consumed and leaves more than one entry on the stack. *)
Definition leftover (type_args : list targ) : Prop :=
  exists stack, build_stack [] type_args = inr stack /\ (1 < List.length stack)%nat.

(** ** Reduction counts and scalar flags of a tree *)

(** The reduction operations of a tree, its root included. *)
Fixpoint count_reductions (t : tree) : Z :=
  match t with
  | Leaf _ => 0
  | Node arg _ _ kids =>
      (if is_reduction arg then 1 else 0)
      + fold_right (fun k n => count_reductions k + n) 0 kids
  end.

(** The reduction operations strictly beneath the root. *)
Definition reductions_beneath (t : tree) : Z :=
  match t with
  | Leaf _ => 0
  | Node _ _ _ kids => fold_right (fun k n => count_reductions k + n) 0 kids
  end.

(** Every node carries the number of reductions strictly beneath it. *)
Fixpoint counts_strictly_beneath (t : tree) : bool :=
  match t with
  | Leaf _ => true
  | Node _ _ reds kids =>
      (reds =? reductions_beneath t) && forallb counts_strictly_beneath kids
  end.

(** Every node carries the number of reductions beneath it, plus one when
    it is a reduction itself. *)
Fixpoint counts_with_self (t : tree) : bool :=
  match t with
  | Leaf _ => true
  | Node arg _ reds kids =>
      (reds =? (if is_reduction arg then 1 else 0) + reductions_beneath t)
      && forallb counts_with_self kids
  end.

(** The scalar-ness an operand contributes to its parent. *)
Definition operand_scalar (t : tree) : bool :=
  match t with
  | Node _ sc _ _ => sc
  | Leaf (TTensor indx _ _) => negb (indx >? 0)
  | Leaf _ => true
  end.

(** Reductions are scalar; every other node is the conjunction of its
    children, so that a node without children is scalar. *)
Fixpoint scalar_is_conjunction (t : tree) : bool :=
  match t with
  | Leaf _ => true
  | Node arg sc _ kids =>
      (if is_reduction arg then Bool.eqb sc true
       else Bool.eqb sc (forallb operand_scalar kids))
      && forallb scalar_is_conjunction kids
  end.

(** Reductions are scalar; an elementwise node with operands is the
    conjunction of its children; one without operands is not scalar. *)
Fixpoint scalar_as_built (t : tree) : bool :=
  match t with
  | Leaf _ => true
  | Node arg sc _ kids =>
      (if is_reduction arg then Bool.eqb sc true
       else Bool.eqb sc ((0 <? List.length kids)%nat && forallb operand_scalar kids))
      && forallb scalar_as_built kids
  end.

(** ** Fast elementwise dimensions *)

(** The sizes tried by the first loop of [_get_fast_ew_dims]. *)
Definition ew_candidates : list Z := [256; 224; 192; 160; 128; 96; 64; 32].

(** ** Thread count *)

Definition threads_by_depth (red_depth : Z) : Z :=
  if red_depth >=? 4096 then 1024
  else if red_depth >=? 2048 then 512
  else if red_depth >=? 1024 then 256
  else if red_depth >=? 512 then 128
  else if red_depth >=? 256 then 64
  else 32.

Definition is_reduction_arg (a : arg) : bool :=
  match a with
  | AOp d => in_reduction_ops (o_op d)
  | _ => false
  end.

Definition is_arg_reduction_arg (a : arg) : bool :=
  match a with
  | AOp d => in_reduction_ops (o_op d) && String.eqb (substring 0 3 (o_op d)) "arg"
  | _ => false
  end.

Definition is_assign_arg (a : arg) : bool :=
  match a with
  | AOp d => String.eqb (o_op d) "assign"
  | _ => false
  end.

(** ** Reduction axes *)

(** Some reduction descriptor has an axis that is neither 0 nor 1. *)
Definition bad_axis (args : list arg) : Prop :=
  exists d, In (AOp d) args /\ in_reduction_ops (o_op d) = true /\ axis_ok (o_axis d) = false.

(** Two reduction descriptors have different axes. *)
Definition mixed_axes (args : list arg) : Prop :=
  exists d1 d2, In (AOp d1) args /\ In (AOp d2) args /\
    in_reduction_ops (o_op d1) = true /\ in_reduction_ops (o_op d2) = true /\
    o_axis d1 <> o_axis d2.

(** ** Shapes *)

Definition positive_shape (s : Z * Z) : Prop := 0 < fst s /\ 0 < snd s.

(** Two extents that the shape arithmetic accepts. *)
Definition compatible (a b : Z) : Prop := a = b \/ a = 1 \/ b = 1.

(** ** Structure of an invocation *)

(** What is left of a positional argument once pointers, strides, shapes,
    identities and constant values are forgotten. *)
Inductive arg_struct : Type :=
| STensor (dt : dtype) (take : option Z)
| SConst
| SOp (name : string) (axis : option Z).

Definition arg_structure (a : arg) : arg_struct :=
  match a with
  | ATensor t => STensor (t_dtype t) (option_map snd (t_take_array t))
  | AConst _ => SConst
  | AOp d => SOp (o_op d) (o_axis d)
  end.

(** The deduplicated argument index of a tuple of [type_args]. *)
Definition targ_index (a : targ) : option Z :=
  match a with
  | TTensor indx _ _ => Some indx
  | TFloat indx => Some indx
  | TOp _ _ _ => None
  end.

(** The rounding flag and the thread count of an [assign] tuple. *)
Definition targ_assign (a : targ) : option (bool * Z) :=
  match a with
  | TOp _ _ (AssignRest r th) => Some (r, th)
  | _ => None
  end.

(** A tuple with its index, rounding flag and thread count blanked. *)
Definition targ_skeleton (a : targ) : targ :=
  match a with
  | TTensor _ dt tk => TTensor 0 dt tk
  | TFloat _ => TFloat 0
  | TOp n c (AssignRest _ _) => TOp n c (AssignRest false 0)
  | TOp n c r => TOp n c r
  end.

(** The kind of a runtime argument, as [kernel.prepare] names it. *)
Definition karg_kind (k : karg) : sigc :=
  match k with
  | KPtr _ => SigP
  | KInt _ => SigI
  | KFlt _ => SigF
  end.

(** ** Sample streams *)

(** [C A B add]: nothing consumes the first operand. *)
Definition stream_leftover : list targ :=
  [TTensor 0 f4 0; TTensor 1 f4 0; TTensor 2 f4 0; TOp "add" 0 NoRest].

(** [C add]: the operator finds one operand. *)
Definition stream_underflow : list targ :=
  [TTensor 0 f4 0; TOp "add" 0 NoRest].

(** [C = sum(A)]. *)
Definition stream_sum : list targ :=
  [TTensor 0 f4 0; TTensor 1 f4 0; TOp "sum" 0 NoRest;
   TOp "assign" 1 (AssignRest false 32)].

(** [C = rand()]. *)
Definition stream_rand : list targ :=
  [TTensor 0 f4 0; TOp "rand" 0 NoRest; TOp "assign" 1 (AssignRest false 32)].

(** ** Sample invocations *)

(** A contiguous float32 tensor of two dimensions, without take array. *)
Definition dense_tensor (ident : nat) (rows cols ptr : Z) : GPUTensor :=
  mkTensor ident [rows; cols] [cols; 1] f4 ptr None false true (RoundBool false) 0.

Definition op (name : string) : arg := AOp (mkOp name None None).

Definition red_op (name : string) (axis : Z) : arg := AOp (mkOp name (Some axis) None).

(** [C = argmax(A, axis=1)] for a 4 x 4096 tensor [A]. *)
Definition call_argmax : list arg :=
  [ATensor (dense_tensor 0 4 1 1000); ATensor (dense_tensor 1 4 4096 2000);
   red_op "argmax" 1; op "assign"].

(** [C = sum(A, axis=1)] for a 4 x 4096 tensor [A]. *)
Definition call_sum : list arg :=
  [ATensor (dense_tensor 0 4 1 1000); ATensor (dense_tensor 1 4 4096 2000);
   red_op "sum" 1; op "assign"].

(** [C = sum(A, axis=1) + sum(A, axis=0)]. *)
Definition call_mixed_axes : list arg :=
  [ATensor (dense_tensor 0 4 1 1000); ATensor (dense_tensor 1 4 4 2000); red_op "sum" 1;
   ATensor (dense_tensor 1 4 4 2000); red_op "sum" 0; op "add"; op "assign"].

Definition empty_device : device := mkDevice [] 0 [].

(** [C = A + B] with [A] of shape (3, 4) and [B] of shape (4, 3). *)
Definition call_add_34_43 : list arg :=
  [ATensor (dense_tensor 0 3 4 1000); ATensor (dense_tensor 1 3 4 2000);
   ATensor (dense_tensor 2 4 3 3000); op "add"; op "assign"].

(** [C = A + B] with [A] of shape (3, 4) and [B] of shape (3, 5). *)
Definition call_add_34_35 : list arg :=
  [ATensor (dense_tensor 0 3 4 1000); ATensor (dense_tensor 1 3 4 2000);
   ATensor (dense_tensor 2 3 5 3000); op "add"; op "assign"].

(** [C = A * 2.5] and [D = B * 7.0], on different tensors of different
    shapes. *)
Definition call_scale_first : list arg :=
  [ATensor (dense_tensor 0 3 4 1000); ATensor (dense_tensor 1 3 4 2000);
   AConst 25; op "mul"; op "assign"].

Definition call_scale_second : list arg :=
  [ATensor (dense_tensor 5 6 7 5000); ATensor (dense_tensor 6 6 7 6000);
   AConst 70; op "mul"; op "assign"].

(** [C = sum(onehot * A, axis=1) + sum(onehot * A, axis=1)]: the second
    reduction is a duplicate of the first. *)
Definition call_dup_onehot : list arg :=
  [ATensor (dense_tensor 0 4 1 1000);
   AOp (mkOp "onehot" (Some 1) (Some 3000)); ATensor (dense_tensor 1 4 5 2000);
   op "mul"; red_op "sum" 1;
   AOp (mkOp "onehot" (Some 1) (Some 3000)); ATensor (dense_tensor 1 4 5 2000);
   op "mul"; red_op "sum" 1;
   op "add"; op "assign"].

(** [C = sum(A, axis=1) + sum(A, axis=1)]. *)
Definition call_dup_sum : list arg :=
  [ATensor (dense_tensor 0 4 1 1000);
   ATensor (dense_tensor 1 4 5 2000); red_op "sum" 1;
   ATensor (dense_tensor 1 4 5 2000); red_op "sum" 1;
   op "add"; op "assign"].

(** The driver keeps the native shapes. *)
Definition complex_call (f : flags) : bool :=
  f_broadcast f || f_reduction f || f_transpose f || f_takeop f || negb (f_contiguous f).

(** The tuple the driver appends for an argument of a given structure, with
    index, rounding flag and thread count blanked. *)
Definition skeleton_of (axis op_cnt : Z) (s : arg_struct) : targ :=
  match s with
  | STensor dt take =>
      TTensor 0 dt match take with
                   | Some tk => if negb (axis =? 1) then 2 - tk else tk + 1
                   | None => 0
                   end
  | SConst => TFloat 0
  | SOp name ax =>
      if String.eqb name "assign" then TOp name op_cnt (AssignRest false 0)
      else if String.eqb name "onehot" then
        match ax with
        | Some a => TOp name op_cnt (OnehotRest (if negb (axis =? 0) then a else 1 - a))
        | None => TOp name op_cnt NoRest
        end
      else TOp name op_cnt NoRest
  end.

Definition is_op_struct (s : arg_struct) : bool :=
  match s with SOp _ _ => true | _ => false end.

Fixpoint skeletons (axis op_cnt : Z) (ss : list arg_struct) : list targ :=
  match ss with
  | [] => []
  | s :: rest =>
      skeleton_of axis op_cnt s
      :: skeletons axis (if is_op_struct s then op_cnt + 1 else op_cnt) rest
  end.

(** ** A functional account of the stage splitter *)

(** The cells [alloc] creates for a tree, and where its operand lies, when
    the store holds [b] cells already. *)
Fixpoint ncells (t : tree) : nat :=
  match t with
  | Leaf _ => 0
  | Node _ _ _ kids => S (fold_right (fun k n => ncells k + n)%nat 0%nat kids)
  end.

Definition ncells_list (ts : list tree) : nat :=
  fold_right (fun k n => ncells k + n)%nat 0%nat ts.

Definition operand_at (b : nat) (t : tree) : operand :=
  match t with
  | Leaf a => OTup a
  | Node _ _ _ kids => ORef (b + ncells_list kids)
  end.

Fixpoint operands_at (b : nat) (ts : list tree) : list operand :=
  match ts with
  | [] => []
  | k :: ks => operand_at b k :: operands_at (b + ncells k) ks
  end.

Fixpoint seg (b : nat) (t : tree) : list cell :=
  match t with
  | Leaf _ => []
  | Node arg sc reds kids =>
      (fix seg_list (ts : list tree) (b : nat) : list cell :=
         match ts with
         | [] => []
         | k :: ks => seg b k ++ seg_list ks (b + ncells k)%nat
         end) kids b
      ++ [mkCell arg sc reds (operands_at b kids)]
  end.

Fixpoint seg_list (ts : list tree) (b : nat) : list cell :=
  match ts with
  | [] => []
  | k :: ks => seg b k ++ seg_list ks (b + ncells k)%nat
  end.

Definition count_reductions_list (ts : list tree) : Z :=
  fold_right (fun k n => count_reductions k + n) 0 ts.

(** The dictionaries and the stage list, without the store. *)
Record dedup : Type := mkDedup {
  dd_dups : list (list key_item * targ);
  dd_aliases : list targ;
  dd_stages : list (stage_type * list targ)
}.

(** What [_process_node] does with the stack of a node: the argument the
    node keeps or receives, and the dictionaries. *)
Definition register (ty : stage_type) (stack : list targ) (own : targ) (d : dedup)
  : targ * dedup :=
  let key := map (key_of_item (dd_aliases d)) stack in
  match dup_get (dd_dups d) key with
  | Some dup_node => (dup_node, d)
  | None =>
      let top := last stack own in
      (own, mkDedup (dd_dups d ++ [(key, top)]) (top :: dd_aliases d)
                    (dd_stages d ++ [(ty, stack)]))
  end.

Fixpoint split_kids (f : bool -> nat -> tree -> dedup -> list cell * list targ * dedup)
         (can : bool) (ks : list tree) (b : nat) (d : dedup)
  : list cell * list targ * dedup :=
  match ks with
  | [] => ([], [], d)
  | k :: ks' =>
      let r1 := f (can && (count_reductions_list ks' =? 0)) b k d in
      let r2 := split_kids f can ks' (b + ncells k)%nat (snd r1) in
      (fst (fst r1) ++ fst (fst r2), snd (fst r1) ++ snd (fst r2), snd r2)
  end.

(** The splitter as a function of the tree.  [absorb] tells that, once the
    last reduction of the subtree is done, its nearest parent is scalar and
    free of pending reductions, so that the subtree goes into the stage of
    an ancestor.  The result is the final cells of the subtree, the stack
    [_post_order] then yields for it, and the dictionaries. *)
Fixpoint splitP (absorb : bool) (b : nat) (t : tree) (d : dedup) {struct t}
  : list cell * list targ * dedup :=
  match t with
  | Leaf a => ([], [a], d)
  | Node arg sc reds kids =>
      let can := sc && negb (is_reduction arg) && not_assign arg in
      let r := split_kids (fun ab b' k d' => splitP ab b' k d') can kids b d in
      let nr := count_reductions_list kids in
      let reds' := if not_assign arg then reds - nr else reds in
      if is_reduction arg || (can && (0 <? nr) && negb absorb) then
        let r2 := register (if is_reduction arg then reduction_stage else scalar_stage)
                           (snd (fst r) ++ [arg]) arg (snd r) in
        (fst (fst r) ++ [mkCell (fst r2) sc reds' []], [fst r2], snd r2)
      else
        (fst (fst r) ++ [mkCell arg sc reds' (operands_at b kids)],
         snd (fst r) ++ [arg], snd r)
  end.

(** *** The store seen from the functional account *)

(** A cell whose reduction count went down by [m]. *)
Definition dec_by (m : Z) (c : cell) : cell :=
  mkCell (c_arg c) (c_scalar c) (c_reds c - m) (c_kids c).

(** Two cells that [_post_order] cannot tell apart. *)
Definition same_shape (x y : option cell) : Prop :=
  match x, y with
  | Some c, Some c' => c_arg c = c_arg c' /\ c_kids c = c_kids c'
  | None, None => True
  | _, _ => False
  end.

(** [_post_order] yields [V] for [o], reading the cells of [lo, hi) only. *)
Definition visible (h : heap) (lo hi : nat) (o : operand) (V : list targ) : Prop :=
  forall h1,
    (forall a, (lo <= a < hi)%nat -> same_shape (nth_error h a) (nth_error h1 a)) ->
    forall fuel acc, (hi - lo + 1 <= fuel)%nat ->
    _post_order fuel h1 o acc = Some (acc ++ V).

(** The stack of an optional child, [] when the node has none. *)
Definition visible_child (h : heap) (lo hi : nat) (k : option operand) (V : list targ) : Prop :=
  match k with
  | Some o => visible h lo hi o V
  | None => V = []
  end.

(** The parent at [p] is scalar and will have no reduction pending once
    [m] more of them are done. *)
Definition qualifies (h : heap) (m : Z) (p : nat) : Prop :=
  exists c, nth_error h p = Some c /\ c_scalar c = true /\ c_reds c = m.

(** The walk up the parents ends at the head of [P]. *)
Definition stops (h : heap) (m : Z) (P : list nat) : Prop :=
  match P with
  | [] => True
  | p :: _ => exists c, nth_error h p = Some c /\
                        (c_scalar c && (c_reds c - m =? 0)) = false
  end.

(** The stack of an untouched tree. *)
Fixpoint tree_post_order (t : tree) : list targ :=
  match t with
  | Leaf a => [a]
  | Node arg _ _ kids => flat_map tree_post_order kids ++ [arg]
  end.

(** The operation tuples of the nodes of a tree. *)
Fixpoint node_args (t : tree) : list targ :=
  match t with
  | Leaf _ => []
  | Node arg _ _ kids => flat_map node_args kids ++ [arg]
  end.

(** At most two operands everywhere, and no [assign] strictly inside. *)
Fixpoint binary (t : tree) : bool :=
  match t with
  | Leaf _ => true
  | Node _ _ _ kids => (List.length kids <=? 2)%nat && forallb binary kids
  end.

Fixpoint no_assign (t : tree) : bool :=
  match t with
  | Leaf _ => true
  | Node arg _ _ kids => not_assign arg && forallb no_assign kids
  end.

(** The name a key element carries. *)
Definition key_name (k : key_item) : option string :=
  match k with
  | KName n => Some n
  | KOp n _ => Some n
  | _ => None
  end.

(** Every key of [duplicates] ends with the name of the node it maps to. *)
Definition keys_named (dups : list (list key_item * targ)) : Prop :=
  Forall (fun e => key_name (last (fst e) (KName EmptyString)) = op_name (snd e)) dups.

(** A reduction has one operand. *)
Fixpoint reductions_unary (t : tree) : bool :=
  match t with
  | Leaf _ => true
  | Node arg _ _ kids =>
      (if is_reduction arg then Nat.eqb (List.length kids) 1 else true)
      && forallb reductions_unary kids
  end.

(** The trees [_build_tree] makes. *)
Definition well_built (t : tree) : bool :=
  binary t && reductions_unary t && counts_with_self t && scalar_as_built t.

(** No [assign] below the root, and none at the root unless the node has
    no parent. *)
Definition assign_ok (P : list nat) (t : tree) : Prop :=
  match t with
  | Leaf _ => True
  | Node arg _ _ kids =>
      forallb no_assign kids = true /\ (not_assign arg = false -> P = [])
  end.

(** What the walk up the parents finds when the last reduction of a subtree
    is done: nothing ([None]), or the target [tg] to extract, with the part
    of its stack in front of the subtree and the part behind it. *)
Definition context : Type := option (nat * list targ * list targ).

Definition ctx_ok (h : heap) (P : list nat) (m : Z) (lo hi : nat) (o : operand)
           (ctx : context) : Prop :=
  match ctx with
  | None => stops h m P
  | Some (tg, pre, post) =>
      exists Q rest,
        P = Q ++ tg :: rest /\
        (forall q, In q (Q ++ [tg]) -> qualifies h m q) /\
        stops h m rest /\
        (forall h1,
           (forall a, (a < lo \/ hi <= a)%nat ->
                      same_shape (nth_error h a) (nth_error h1 a)) ->
           forall V,
           (forall fuel acc, (hi - lo + 1 <= fuel)%nat ->
                             _post_order fuel h1 o acc = Some (acc ++ V)) ->
           forall fuel acc, (tg + 2 <= fuel)%nat ->
           _post_order fuel h1 (ORef tg) acc = Some (acc ++ pre ++ V ++ post))
  end.

Definition absorbed (ctx : context) : bool :=
  match ctx with Some _ => true | None => false end.

(** The extraction of the target, if any, once the subtree is done. *)
Definition finish (h : heap) (m : Z) (ctx : context) (V : list targ) (d : dedup)
  : option (nat * cell) * dedup :=
  match ctx with
  | Some (tg, pre, post) =>
      if 0 <? m then
        match nth_error h tg with
        | Some ctg =>
            let r := register scalar_stage (pre ++ V ++ post) (c_arg ctg) d in
            (Some (tg, mkCell (fst r) (c_scalar ctg) (c_reds ctg - m) []), snd r)
        | None => (None, d)
        end
      else (None, d)
  | None => (None, d)
  end.

(** The cell of a parent once [m] reductions beneath it are done. *)
Definition parent_cell (h : heap) (P : list nat) (m : Z) (a : nat) : option cell :=
  if existsb (Nat.eqb a) P then option_map (dec_by m) (nth_error h a)
  else nth_error h a.

(** The cell at an address behind the subtree. *)
Definition above_cell (h : heap) (P : list nat) (m : Z) (extr : option (nat * cell))
           (a : nat) : option cell :=
  match extr with
  | Some (tg, c) => if Nat.eqb a tg then Some c else parent_cell h P m a
  | None => parent_cell h P m a
  end.

(** The store [h'] after a subtree laid out in [lo, hi) was split, against
    the store [h] before: the cells in front are untouched, those of the
    subtree are [cells], the parents lost [m] pending reductions, and the
    target, if any, became [extr]. *)
Definition heap_after (h h' : heap) (lo hi : nat) (cells : list cell) (P : list nat)
           (m : Z) (extr : option (nat * cell)) : Prop :=
  List.length h' = List.length h /\
  (forall a, (a < lo)%nat -> nth_error h' a = nth_error h a) /\
  (forall i, (i < hi - lo)%nat -> nth_error h' (lo + i) = nth_error cells i) /\
  (forall a, (hi <= a)%nat -> nth_error h' a = above_cell h P m extr a).

(** The state of the pass. *)
Definition state_of (h : heap) (d : dedup) (P : list nat) : split_state :=
  mkSplit h (dd_dups d) (dd_aliases d) (dd_stages d) P.

(** The context of the child of a node at [a] that carries the last
    reductions of the node: the target is the one of the node, or the node
    itself; [Vl] and [Vr] are the stacks of the children on its sides. *)
Definition kid_context (ctx : context) (a : nat) (Vl Vr : list targ) (arg : targ)
  : context :=
  match ctx with
  | Some (tg, pre, post) => Some (tg, pre ++ Vl, Vr ++ [arg] ++ post)
  | None => Some (a, Vl, Vr ++ [arg])
  end.

(** The operands of a cell, as a list. *)
Definition opt_list {A : Type} (o : option A) : list A :=
  match o with Some x => [x] | None => [] end.

(** The functional splitter describes [_split_stages] on the tree [t]:
    from a store that holds the cells of [t] at [b], the pass ends, and it
    ends in the store, the dictionaries and the stages that [splitP] and
    [finish] give. *)
Definition sim_stmt (t : tree) : Prop :=
  forall fuel b h d P ctx ab,
    assign_ok P t ->
    (forall i, (i < ncells t)%nat -> nth_error h (b + i) = nth_error (seg b t) i) ->
    NoDup P ->
    (forall p, In p P -> (b + ncells t <= p)%nat) ->
    (ncells t + 1 <= fuel)%nat ->
    keys_named (dd_dups d) ->
    (0 < count_reductions t ->
     absorbed ctx = ab /\
     ctx_ok h P (count_reductions t) b (b + ncells t) (operand_at b t) ctx /\
     (ab = true -> operand_scalar t = true)) ->
    exists h',
      _split_stages fuel (operand_at b t) (state_of h d P) =
        Some (state_of h'
                (snd (finish h (count_reductions t) ctx
                        (snd (fst (splitP ab b t d))) (snd (splitP ab b t d)))) P) /\
      heap_after h h' b (b + ncells t) (fst (fst (splitP ab b t d))) P
        (count_reductions t)
        (fst (finish h (count_reductions t) ctx
                (snd (fst (splitP ab b t d))) (snd (splitP ab b t d)))).

(** The extraction the children of a node at [a] leave behind: the one of
    the target, when the node is scalar and no assignment or reduction. *)
Definition kids_finish (h : heap) (ctx : context) (a : nat) (arg : targ) (can : bool)
           (nr : Z) (rk : list cell * list targ * dedup) : option (nat * cell) * dedup :=
  if can then finish h nr (kid_context ctx a [] [] arg) (snd (fst rk)) (snd rk)
  else (None, snd rk).

(** The parents of the children of a node at [a]. *)
Definition push_parent (arg : targ) (a : nat) (P : list nat) : list nat :=
  if not_assign arg then a :: P else P.

(** One visit of a child by [_split_stages]: the cell of the node is read
    again, the child at index [i] is split if it is still there. *)
Definition visit_kid (fuel : nat) (addr : nat) (i : nat) (st : split_state)
  : option split_state :=
  match nth_error (s_heap st) addr with
  | None => None
  | Some c =>
      match nth_error (c_kids c) i with
      | Some k => _split_stages fuel k st
      | None => Some st
      end
  end.

(** ** Structure of a subtree and the dictionary of the pass *)

(** [node[0]] of a node, the tuple itself otherwise. *)
Definition root_arg (t : tree) : targ :=
  match t with
  | Leaf a => a
  | Node a _ _ _ => a
  end.

(** The structure of a subtree: the names of its operations and, for the
    tuples, their kind and index, in post order. *)
Definition skey (t : tree) : list key_item :=
  map (key_of_item []) (tree_post_order t).

(** Every node has as many children as its operation takes operands, and a
    tuple pushed as it is names no operation of the tables. *)
Fixpoint arity_ok (t : tree) : bool :=
  match t with
  | Leaf a => match token_arity a with None => true | Some _ => false end
  | Node arg _ _ kids =>
      match token_arity arg with
      | Some n => Nat.eqb (List.length kids) n
      | None => false
      end && forallb arity_ok kids
  end.

(** [arg[1]]: the counter of an operation, the index of a tensor or constant. *)
Definition arg_id (a : targ) : Z :=
  match a with
  | TOp _ c _ => c
  | TTensor i _ _ => i
  | TFloat i => i
  end.

(** The operation counters of a stream. *)
Definition op_ids (type_args : list targ) : list Z :=
  flat_map (fun a => match a with TOp _ c _ => [c] | _ => [] end) type_args.

(** No [assign] before the last token. *)
Definition assign_last (type_args : list targ) : bool :=
  forallb not_assign (removelast type_args).

(** The nodes of a tree with the addresses [alloc] gives them, in post
    order. *)
Fixpoint nodes_at (b : nat) (t : tree) : list (nat * tree) :=
  match t with
  | Leaf _ => []
  | Node arg sc reds kids =>
      (fix go (ks : list tree) (b : nat) : list (nat * tree) :=
         match ks with
         | [] => []
         | k :: ks' => nodes_at b k ++ go ks' (b + ncells k)%nat
         end) kids b
      ++ [((b + ncells_list kids)%nat, t)]
  end.

Fixpoint nodes_at_list (ks : list tree) (b : nat) : list (nat * tree) :=
  match ks with
  | [] => []
  | k :: ks' => nodes_at b k ++ nodes_at_list ks' (b + ncells k)%nat
  end.

(** The last element of the stack of a stage, [stack[-1]]. *)
Definition stage_top (st : stage_type * list targ) : targ :=
  last (snd st) (TFloat 0).

(** [a] is the operation tuple of a node of structure [sk]. *)
Definition has_structure (sk : list key_item) (nodes : list (nat * tree)) (a : targ) : bool :=
  existsb (fun js => key_eqb (skey (snd js)) sk && targ_eqb (root_arg (snd js)) a) nodes.

(** The stages that nodes of structure [sk] have produced. *)
Definition stages_of_structure (t : tree) (sk : list key_item)
           (stages : list (stage_type * list targ)) : list (stage_type * list targ) :=
  filter (fun st => has_structure sk (nodes_at 0 t) (stage_top st)) stages.

(** *** The registry: the nodes that produced a stage, in order *)

Definition registry : Type := list (nat * tree).

Definition registered (G : registry) (sk : list key_item) : bool :=
  existsb (fun g => key_eqb (skey (snd g)) sk) G.

(** The node that stands for the structure [sk]. *)
Definition alias_of (G : registry) (sk : list key_item) : option targ :=
  match find (fun g => key_eqb (skey (snd g)) sk) G with
  | Some g => Some (root_arg (snd g))
  | None => None
  end.

(** The key element of an alias, [item[0:2]]. *)
Definition alias_key (x : targ) : key_item := key_of_item [x] x.

(** The key of the stack of a subtree once the pass went through it. *)
Fixpoint ckey (G : registry) (ab : bool) (t : tree) {struct t} : list key_item :=
  match t with
  | Leaf a => [key_of_item [] a]
  | Node arg sc reds kids =>
      let can := sc && negb (is_reduction arg) && not_assign arg in
      if is_reduction arg || (can && (0 <? count_reductions_list kids) && negb ab) then
        [match alias_of G (skey t) with
         | Some x => alias_key x
         | None => KName EmptyString
         end]
      else
        (fix go (ks : list tree) : list key_item :=
           match ks with
           | [] => []
           | k :: ks' => ckey G (can && (count_reductions_list ks' =? 0)) k ++ go ks'
           end) kids
        ++ [key_of_item [] arg]
  end.

Definition ckeys (G : registry) (can : bool) : list tree -> list key_item :=
  fix go (ks : list tree) : list key_item :=
    match ks with
    | [] => []
    | k :: ks' => ckey G (can && (count_reductions_list ks' =? 0)) k ++ go ks'
    end.

(** The key under which a node is looked up when it is processed. *)
Definition pkey (G : registry) (t : tree) : list key_item :=
  match t with
  | Leaf a => [key_of_item [] a]
  | Node arg sc reds kids =>
      ckeys G (sc && negb (is_reduction arg) && not_assign arg) kids ++ [key_of_item [] arg]
  end.

(** Every node that the pass processes in the subtree is in the registry. *)
Fixpoint reg_ok (G : registry) (ab : bool) (t : tree) {struct t} : bool :=
  match t with
  | Leaf _ => true
  | Node arg sc reds kids =>
      let can := sc && negb (is_reduction arg) && not_assign arg in
      (if is_reduction arg || (can && (0 <? count_reductions_list kids) && negb ab)
       then registered G (skey t) else true)
      && (fix go (ks : list tree) : bool :=
            match ks with
            | [] => true
            | k :: ks' => reg_ok G (can && (count_reductions_list ks' =? 0)) k && go ks'
            end) kids
  end.

Definition reg_oks (G : registry) (can : bool) : list tree -> bool :=
  fix go (ks : list tree) : bool :=
    match ks with
    | [] => true
    | k :: ks' => reg_ok G (can && (count_reductions_list ks' =? 0)) k && go ks'
    end.

(** The structure an alias stands for, and the structure a key stands for. *)
Definition producer_by_id (G : registry) (n : string) (c : Z) : option tree :=
  match find (fun g => key_item_eqb (alias_key (root_arg (snd g))) (KOp n c)) G with
  | Some g => Some (snd g)
  | None => None
  end.

Definition expand1 (G : registry) (it : key_item) : list key_item :=
  match it with
  | KOp n c => match producer_by_id G n c with Some p => skey p | None => [it] end
  | _ => [it]
  end.

Definition expand (G : registry) (key : list key_item) : list key_item :=
  flat_map (expand1 G) key.

(** The nodes the pass processes in a subtree, with their addresses. *)
Fixpoint processed_at (ab : bool) (b : nat) (t : tree) {struct t} : list (nat * tree) :=
  match t with
  | Leaf _ => []
  | Node arg sc reds kids =>
      let can := sc && negb (is_reduction arg) && not_assign arg in
      (fix go (ks : list tree) (b : nat) : list (nat * tree) :=
         match ks with
         | [] => []
         | k :: ks' =>
             processed_at (can && (count_reductions_list ks' =? 0)) b k
             ++ go ks' (b + ncells k)%nat
         end) kids b
      ++ (if is_reduction arg || (can && (0 <? count_reductions_list kids) && negb ab)
          then [((b + ncells_list kids)%nat, t)] else [])
  end.

Definition processed_at_list (can : bool) : list tree -> nat -> list (nat * tree) :=
  fix go (ks : list tree) (b : nat) : list (nat * tree) :=
    match ks with
    | [] => []
    | k :: ks' =>
        processed_at (can && (count_reductions_list ks' =? 0)) b k
        ++ go ks' (b + ncells k)%nat
    end.

(** The registry after the nodes [ps] were processed in this order: a node
    joins it when no node of its structure is there. *)
Fixpoint register_all (G : registry) (ps : list (nat * tree)) : registry :=
  match ps with
  | [] => G
  | p :: ps' =>
      register_all (if registered G (skey (snd p)) then G else G ++ [p]) ps'
  end.

(** The trees of the pass: built by [_build_tree], with the arities of the
    tables. *)
Definition wf_tree (t : tree) : bool := well_built t && arity_ok t.

(** The alias a registered node gives. *)
Definition reg_alias (g : nat * tree) : targ := root_arg (snd g).

(** The children of a registered node were processed with the registry. *)
Definition entry_closed (G : registry) (g : nat * tree) : Prop :=
  match snd g with
  | Leaf _ => False
  | Node arg sc reds kids =>
      reg_oks G (sc && negb (is_reduction arg) && not_assign arg) kids = true
  end.

(** The dictionaries and the stages of the pass, read from the registry:
    [duplicates] maps the key of each registered node to its operation,
    [aliases] holds these operations, every registered node has its stage,
    and no two registered nodes have the same structure. *)
Definition dedup_inv (t0 : tree) (d : dedup) (G : registry) : Prop :=
  dd_dups d = map (fun g => (pkey G (snd g), reg_alias g)) G /\
  dd_aliases d = rev (map reg_alias G) /\
  Forall2 (fun st g =>
             stage_top st = reg_alias g /\
             fst st = if is_reduction (reg_alias g) then reduction_stage else scalar_stage)
          (dd_stages d) G /\
  NoDup (map (fun g => skey (snd g)) G) /\
  (forall g, In g G -> In g (nodes_at 0 t0)) /\
  (forall g, In g G -> entry_closed G g).

(** The nodes of [t0] have distinct operation counters. *)
Definition distinct_ids (t0 : tree) : Prop :=
  NoDup (map (fun js => arg_id (root_arg (snd js))) (nodes_at 0 t0)).

(** Nodes of [t0] that lie at [hi] or behind. *)
Definition later_entries (t0 : tree) (hi : nat) (Y : registry) : Prop :=
  forall g, In g Y -> In g (nodes_at 0 t0) /\ (hi <= fst g)%nat.

(** Every processed node of [ps] ended as a cell without children that
    carries the operation of the registered node of its structure, which
    lies at its address or in front of it. *)
Definition cells_aliased (G : registry) (b : nat) (cells : list cell)
           (ps : list (nat * tree)) : Prop :=
  forall j s, In (j, s) ps ->
  exists c g,
    nth_error cells (j - b) = Some c /\ c_kids c = [] /\
    In g G /\ skey (snd g) = skey s /\ c_arg c = reg_alias g /\ (fst g <= j)%nat.

(** What the splitter leaves, in terms of the registry: [ps] are the nodes
    it processed, [cells], [V] and [d] its results, [ck] the key of the
    stack and [ok] the registration of the processed nodes. *)
Definition inv_post (t0 : tree) (b hi : nat) (G : registry) (ps : list (nat * tree))
           (cells : list cell) (V : list targ) (d : dedup)
           (ck : registry -> list key_item) (ok : registry -> bool) : Prop :=
  dedup_inv t0 d (register_all G ps) /\
  (exists X, register_all G ps = G ++ X /\ incl X ps) /\
  ok (register_all G ps) = true /\
  (forall Y, later_entries t0 hi Y ->
     map (key_of_item (rev (map reg_alias (register_all G ps ++ Y)))) V
     = ck (register_all G ps)) /\
  cells_aliased (register_all G ps) b cells ps.

Definition inv_stmt (t0 t : tree) : Prop :=
  forall ab b d G,
    wf_tree t = true ->
    incl (nodes_at b t) (nodes_at 0 t0) ->
    dedup_inv t0 d G ->
    (forall g, In g G -> (fst g < b)%nat) ->
    inv_post t0 b (b + ncells t) G (processed_at ab b t)
      (fst (fst (splitP ab b t d))) (snd (fst (splitP ab b t d))) (snd (splitP ab b t d))
      (fun G' => ckey G' ab t) (fun G' => reg_ok G' ab t).

(** [C = sum(A) + sum(A)], the operations numbered as the driver does. *)
Definition stream_dup_sum : list targ :=
  [TTensor 0 f4 0;
   TTensor 1 f4 0; TOp "sum" 0 NoRest;
   TTensor 1 f4 0; TOp "sum" 1 NoRest;
   TOp "add" 2 NoRest; TOp "assign" 3 (AssignRest false 32)].

(** The tree of [stream_dup_sum]. *)
Definition tree_dup_sum : tree :=
  Node (TOp "assign" 3 (AssignRest false 32)) true 2
    [Leaf (TTensor 0 f4 0);
     Node (TOp "add" 2 NoRest) true 2
       [Node (TOp "sum" 0 NoRest) true 1 [Leaf (TTensor 1 f4 0)];
        Node (TOp "sum" 1 NoRest) true 1 [Leaf (TTensor 1 f4 0)]]].

(** ** Operands of an invocation *)

Definition is_op_arg (a : arg) : bool :=
  match a with AOp _ => true | _ => false end.

Definition is_tensor_arg (a : arg) : bool :=
  match a with ATensor _ => true | _ => false end.

(** The runtime argument is the constant [c]. *)
Definition is_flt (c : Z) (k : karg) : bool :=
  match k with KFlt c' => c' =? c | _ => false end.

(** A tensor or constant tuple of [type_args]. *)
Definition is_operand (a : targ) : bool :=
  match a with TOp _ _ _ => false | _ => true end.

(** A Python object is one value: two tensors of an invocation with the
    same identity are the same tensor. *)
Definition one_object_per_identity (args : list arg) : Prop :=
  forall t1 t2, In (ATensor t1) args -> In (ATensor t2) args ->
    t_ident t1 = t_ident t2 -> t1 = t2.

(** The flags and the state [call_compound_kernel] has built when it asks
    for the kernel. *)
Definition prepared (rand_state : Z) (args : list arg) : flags * call_state :=
  match prepare_call rand_state args with
  | inr r => r
  | inl _ => (init_flags, init_call rand_state)
  end.

(** [C = A * 2.5 + 2.5]: the constant is passed twice. *)
Definition call_const_twice : list arg :=
  [ATensor (dense_tensor 0 3 4 1000); ATensor (dense_tensor 1 3 4 2000);
   AConst 25; op "mul"; AConst 25; op "add"; op "assign"].

(** [C = A * A + C]: [A] is passed twice, and the output is read back. *)
Definition call_square_accumulate : list arg :=
  [ATensor (dense_tensor 0 3 4 1000); ATensor (dense_tensor 1 3 4 2000);
   ATensor (dense_tensor 1 3 4 2000); op "mul"; ATensor (dense_tensor 0 3 4 1000);
   op "add"; op "assign"].

(** What the driver keeps true of its tables while it builds [type_args]:
    the indices handed out lie below [arg_cnt], every entry of [array_ids]
    and of [const_ids] belongs to a tuple of [type_args], and an index
    belongs to one tuple only. *)
Definition operands_coherent (f : flags) (args : list arg) (st : call_state) : Prop :=
  (forall a i, In a (cs_type_args st) -> targ_index a = Some i -> i < cs_arg_cnt st) /\
  (forall id idx, ids_get Nat.eqb (cs_array_ids st) id = Some idx ->
     exists t, In (ATensor t) args /\ t_ident t = id /\
               In (TTensor idx (t_dtype t) (take_axis_of f t)) (cs_type_args st)) /\
  (forall c idx, ids_get Z.eqb (cs_const_ids st) c = Some idx ->
     In (TFloat idx) (cs_type_args st)) /\
  (forall a b i, In a (cs_type_args st) -> In b (cs_type_args st) ->
     targ_index a = Some i -> targ_index b = Some i -> a = b).


(** ** The parameters of an elementwise kernel *)

(** [a] is among [seen]. *)
Definition seen_before (seen : list targ) (a : targ) : bool :=
  existsb (targ_eqb a) seen.

(** The tuples of a stream without their repetitions. *)
Fixpoint first_occurrences (seen : list targ) (l : list targ) : list targ :=
  match l with
  | [] => []
  | a :: rest =>
      if seen_before seen a then first_occurrences seen rest
      else a :: first_occurrences (a :: seen) rest
  end.

(** The parameters the code generator declares for a tuple that is not a
    reduction. *)
Definition sig_of_token (a : targ) : list sigc :=
  match a with
  | TTensor _ _ tk => [SigP; SigI; SigI] ++ (if tk >? 0 then [SigP] else [])
  | TFloat _ => [SigF]
  | TOp name _ rest =>
      if String.eqb name "assign" then
        [SigI] ++ match arg2_true rest with inr true => [SigI] | _ => [] end
      else if String.eqb name "onehot" then [SigP]
      else []
  end.

(** The tuples that get an entry in [arg_dict]. *)
Definition has_entry (a : targ) : bool :=
  match a with
  | TOp name _ _ => String.eqb name "assign" || String.eqb name "onehot"
  | _ => true
  end.

Definition entry (a : targ) : option (list sigc) :=
  if has_entry a then Some (sig_of_token a) else None.

(** The index [idx] is that of a tensor tuple of [p]. *)
Definition tensor_index_in (p : list targ) (idx : Z) : bool :=
  existsb (fun a => match a with TTensor i _ _ => i =? idx | _ => false end) p.

(** What the driver keeps true of [kernel_args] in an invocation without
    reductions. *)
Definition kinds_follow_tokens (args : list arg) (st : call_state) : Prop :=
  map karg_kind (cs_kernel_args st)
    = SigP :: flat_map sig_of_token (first_occurrences [] (cs_type_args st)) /\
  (forall c, In c (op_ids (cs_type_args st)) -> c < cs_op_cnt st) /\
  (forall a, In a (cs_type_args st) -> is_reduction a = false) /\
  (forall out, cs_out st = Some out -> In (ATensor out) args).

(** What the code generator keeps true of its tables while it walks the
    single stage of a stream without reductions: [p] is the part done. *)
Definition gen_inv (p : list targ) (g : gen_state) : Prop :=
  (forall a, assoc_get (g_arg_dict g) a = if seen_before p a then entry a else None) /\
  NoDup (map fst (g_arg_dict g)) /\
  (forall idx, mem_Z idx (g_array_ids g) = tensor_index_in p idx).

(** Take axes are 0 or 1, and a mantissa size is not negative. *)
Definition plain_operands (args : list arg) : Prop :=
  forall t, In (ATensor t) args ->
    (forall ptr tk, t_take_array t = Some (ptr, tk) -> tk = 0 \/ tk = 1) /\
    (forall n, t_rounding t = RoundInt n -> 0 <= n).

(** The kernel [_get_compound_kernel] builds for a stream it accepts. *)
Definition compiled (type_args : list targ) : kernel :=
  match _get_compound_kernel type_args with
  | inr k => k
  | inl _ => mkKernel [] 0 []
  end.

(** The stride passed for a dimension: zero when its extent is 1. *)
Definition broadcast_stride (extent stride : Z) : Z :=
  if extent =? 1 then 0 else stride.

(** What the driver keeps true of its shape stack in a plain elementwise
    invocation over tensors of one size, whose fast dimensions are [S]:
    every shape is [(1, 1)] or [S], and [S] is there once a tensor was
    read. *)
Definition plain_shapes (S : Z * Z) (st : call_state) : Prop :=
  (forall s, In s (cs_shape_stack st) -> s = (1, 1) \/ s = S) /\
  (cs_out st <> None -> In S (cs_shape_stack st)).

(** * Properties *)

(** ** Generic facts *)

#[local] Arguments Z.add : simpl never.
#[local] Arguments Z.sub : simpl never.
#[local] Arguments Z.mul : simpl never.

Lemma bind_inr {A B : Type} (x : result A) (f : A -> result B) (b : B) :
  bind x f = inr b -> exists a, x = inr a /\ f a = inr b.
Proof.
  destruct x as [e | a]; simpl; intros H; [discriminate | eauto].
Qed.

Lemma bind_inl {A B : Type} (x : result A) (f : A -> result B) (e : pyerr) :
  x = inl e -> bind x f = inl e.
Proof. intros ->. reflexivity. Qed.

Lemma in_reduction_ops_cases (name : string) :
  in_reduction_ops name = true ->
  name = "sum" \/ name = "max" \/ name = "min" \/ name = "argmax" \/ name = "argmin".
Proof.
  unfold in_reduction_ops, _reduction_ops. simpl.
  rewrite !orb_true_iff, !String.eqb_eq. intuition discriminate.
Qed.

(** The two operation tables share no name. *)
Lemma reduction_not_float_op (name : string) :
  in_reduction_ops name = true -> float_op_arity name = None.
Proof.
  intros H. apply in_reduction_ops_cases in H.
  destruct H as [-> | [-> | [-> | [-> | ->]]]]; reflexivity.
Qed.

Lemma float_op_not_reduction (name : string) (n : nat) :
  float_op_arity name = Some n -> in_reduction_ops name = false.
Proof.
  intros H. destruct (in_reduction_ops name) eqn:E; [|reflexivity].
  apply reduction_not_float_op in E. congruence.
Qed.

(** ** The expression builder *)

Lemma build_stack_app (pre post : list targ) (stack : list tree) :
  build_stack stack (pre ++ post) =
  bind (build_stack stack pre) (fun s => build_stack s post).
Proof.
  revert stack. induction pre as [| a pre IH]; intros stack; simpl.
  - reflexivity.
  - destruct (build_step stack a) as [e | s]; simpl; [reflexivity | apply IH].
Qed.

Lemma take_operands_short (n : nat) (sc : bool) (reds : Z) (kids stack : list tree) :
  (List.length stack < n)%nat -> take_operands n sc reds kids stack = inl IndexError.
Proof.
  revert sc reds kids stack.
  induction n as [| n IH]; intros sc reds kids stack Hlen; [inversion Hlen|].
  destruct stack as [| operand stack']; simpl; [reflexivity|].
  destruct operand as [[x dt tk | x | nm c r] | a osc ored ks];
    apply IH; simpl in Hlen; lia.
Qed.

Lemma build_step_underflow (stack : list tree) (a : targ) (n : nat) :
  token_arity a = Some n -> (List.length stack < n)%nat ->
  build_step stack a = inl IndexError.
Proof.
  destruct a as [x dt tk | x | name c r]; simpl; try discriminate.
  destruct (float_op_arity name) as [k |] eqn:Ek.
  - intros [= ->] Hlen. rewrite take_operands_short by assumption. reflexivity.
  - destruct (in_reduction_ops name); [|discriminate].
    intros [= <-] Hlen. destruct stack; [reflexivity | simpl in Hlen; lia].
Qed.

Lemma underflow_build_stack (type_args : list targ) :
  underflows type_args -> build_stack [] type_args = inl IndexError.
Proof.
  intros (pre & a & post & stack & n & -> & Hpre & Har & Hlen).
  rewrite build_stack_app, Hpre. simpl.
  rewrite (build_step_underflow stack a Har Hlen). reflexivity.
Qed.

Lemma stack_bottom_last (stack : list tree) (d : tree) :
  stack <> [] -> stack_bottom stack = inr (last stack d).
Proof.
  intros Hne. unfold stack_bottom.
  destruct (exists_last Hne) as (front & t & ->).
  rewrite rev_app_distr, last_last. reflexivity.
Qed.

(** The reduction count an operand brings to its parent. *)
Lemma take_operands_step (n : nat) (sc : bool) (reds : Z) (kids : list tree)
      (operand : tree) (stack : list tree) :
  take_operands (S n) sc reds kids (operand :: stack) =
  take_operands n (sc && operand_scalar operand)
                (reds + match operand with Node _ _ r _ => r | Leaf _ => 0 end)
                (operand :: kids) stack.
Proof.
  simpl.
  destruct operand as [[x dt tk | x | nm c r] | a osc ored ks]; simpl.
  - destruct (x >? 0); simpl; rewrite ?andb_false_r, ?andb_true_r, ?Z.add_0_r; reflexivity.
  - rewrite andb_true_r, Z.add_0_r. reflexivity.
  - rewrite andb_true_r, Z.add_0_r. reflexivity.
  - destruct osc; rewrite ?andb_false_r, ?andb_true_r; reflexivity.
Qed.

(** What [take_operands] returns: the operands popped, in the order they
    were pushed, in front of the children already gathered. *)
Lemma take_operands_inr (n : nat) :
  forall sc reds kids stack sc' reds' kids' stack',
  take_operands n sc reds kids stack = inr (sc', reds', kids', stack') ->
  exists popped,
    List.length popped = n /\
    stack = popped ++ stack' /\
    kids' = rev popped ++ kids /\
    reds' = reds + fold_right (fun k m => match k with Node _ _ r _ => r | Leaf _ => 0 end + m)
                              0 popped /\
    sc' = sc && forallb operand_scalar popped.
Proof.
  induction n as [| n IH]; intros sc reds kids stack sc' reds' kids' stack' H.
  - simpl in H. injection H as <- <- <- <-. exists []. simpl.
    repeat split; [lia | now rewrite andb_true_r].
  - destruct stack as [| operand stack0]; [discriminate|].
    rewrite take_operands_step in H.
    apply IH in H. destruct H as (popped & Hl & Hs & Hk & Hr & Hsc).
    exists (operand :: popped). simpl. subst.
    repeat split.
    + now rewrite <- app_assoc.
    + lia.
    + now rewrite andb_assoc.
Qed.

Lemma forallb_rev {A : Type} (f : A -> bool) (l : list A) :
  forallb f (rev l) = forallb f l.
Proof.
  induction l as [| x l IH]; simpl; [reflexivity|].
  rewrite forallb_app, IH. simpl. rewrite andb_true_r. apply andb_comm.
Qed.

Lemma sum_app {A : Type} (f : A -> Z) (l1 l2 : list A) :
  fold_right (fun k n => f k + n) 0 (l1 ++ l2) =
  fold_right (fun k n => f k + n) 0 l1 + fold_right (fun k n => f k + n) 0 l2.
Proof. induction l1 as [| x l1 IH]; simpl; [reflexivity | rewrite IH; lia]. Qed.

Lemma sum_rev {A : Type} (f : A -> Z) (l : list A) :
  fold_right (fun k n => f k + n) 0 (rev l) = fold_right (fun k n => f k + n) 0 l.
Proof.
  induction l as [| x l IH]; simpl; [reflexivity|].
  rewrite sum_app, IH. simpl. lia.
Qed.

Lemma sum_ext_forallb {A : Type} (f g : A -> Z) (p : A -> bool) (l : list A) :
  (forall x, p x = true -> f x = g x) -> forallb p l = true ->
  fold_right (fun k n => f k + n) 0 l = fold_right (fun k n => g k + n) 0 l.
Proof.
  intros Hfg. induction l as [| x l IH]; simpl; [reflexivity|].
  rewrite andb_true_iff. intros [Hx Hl]. rewrite (Hfg x Hx), (IH Hl). reflexivity.
Qed.

(** The count stored at the root of a subtree is the number of reductions
    of the whole subtree. *)
Lemma stored_count (t : tree) :
  counts_with_self t = true ->
  match t with Node _ _ r _ => r | Leaf _ => 0 end = count_reductions t.
Proof.
  destruct t as [a | arg sc reds kids]; simpl; [reflexivity|].
  rewrite andb_true_iff, Z.eqb_eq. intros [-> _]. reflexivity.
Qed.

Lemma build_step_counts (stack stack' : list tree) (a : targ) :
  forallb counts_with_self stack = true ->
  build_step stack a = inr stack' ->
  forallb counts_with_self stack' = true.
Proof.
  intros Hinv. destruct a as [x dt tk | x | name c r]; simpl.
  - intros [= <-]. exact Hinv.
  - intros [= <-]. exact Hinv.
  - destruct (float_op_arity name) as [numops |] eqn:Ear.
    + intros H. apply bind_inr in H. destruct H as ([[[sc reds] kids] rest] & Htake & H).
      injection H as <-.
      apply take_operands_inr in Htake.
      destruct Htake as (popped & _ & -> & -> & -> & _).
      rewrite forallb_app in Hinv. apply andb_true_iff in Hinv. destruct Hinv as [Hp Hr].
      simpl. rewrite Hr, andb_true_r, app_nil_r, forallb_rev, Hp, andb_true_r.
      unfold is_reduction. simpl. rewrite (float_op_not_reduction _ Ear).
      apply Z.eqb_eq. rewrite sum_rev. simpl.
      apply (sum_ext_forallb _ _ counts_with_self); [apply stored_count | exact Hp].
    + destruct (in_reduction_ops name) eqn:Ered.
      * destruct stack as [| operand rest]; [discriminate|].
        intros [= <-]. simpl in Hinv. apply andb_true_iff in Hinv. destruct Hinv as [Ho Hr].
        cbn [forallb counts_with_self reductions_beneath fold_right].
        rewrite Ho, Hr, !andb_true_r.
        unfold is_reduction. cbn [op_name]. rewrite Ered.
        apply Z.eqb_eq. rewrite (stored_count _ Ho). lia.
      * intros [= <-]. exact Hinv.
Qed.

Lemma build_stack_counts (type_args : list targ) :
  forall stack stack',
  forallb counts_with_self stack = true ->
  build_stack stack type_args = inr stack' ->
  forallb counts_with_self stack' = true.
Proof.
  induction type_args as [| a rest IH]; intros stack stack' Hinv H; simpl in H.
  - injection H as <-. exact Hinv.
  - apply bind_inr in H. destruct H as (s1 & Hstep & Hrest).
    eapply IH; [|exact Hrest]. eapply build_step_counts; eassumption.
Qed.

Lemma stack_bottom_in (stack : list tree) (t : tree) :
  stack_bottom stack = inr t -> In t stack.
Proof.
  unfold stack_bottom. destruct (rev stack) as [| x l] eqn:E; [discriminate|].
  intros [= <-]. apply in_rev. rewrite E. now left.
Qed.

Lemma build_step_scalar (stack stack' : list tree) (a : targ) :
  forallb scalar_as_built stack = true ->
  build_step stack a = inr stack' ->
  forallb scalar_as_built stack' = true.
Proof.
  intros Hinv. destruct a as [x dt tk | x | name c r]; simpl.
  - intros [= <-]. exact Hinv.
  - intros [= <-]. exact Hinv.
  - destruct (float_op_arity name) as [numops |] eqn:Ear.
    + intros H. apply bind_inr in H. destruct H as ([[[sc reds] kids] rest] & Htake & H).
      injection H as <-.
      apply take_operands_inr in Htake.
      destruct Htake as (popped & Hlen & -> & -> & _ & ->).
      rewrite forallb_app in Hinv. apply andb_true_iff in Hinv. destruct Hinv as [Hp Hr].
      simpl. rewrite Hr, andb_true_r, app_nil_r, !forallb_rev, Hp, andb_true_r.
      unfold is_reduction. simpl. rewrite (float_op_not_reduction _ Ear).
      rewrite length_rev, Hlen. apply eqb_reflx.
    + destruct (in_reduction_ops name) eqn:Ered.
      * destruct stack as [| operand rest]; [discriminate|].
        intros [= <-]. simpl in Hinv. apply andb_true_iff in Hinv. destruct Hinv as [Ho Hr].
        simpl. rewrite Ho, Hr, !andb_true_r.
        unfold is_reduction. simpl. rewrite Ered. reflexivity.
      * intros [= <-]. exact Hinv.
Qed.

Lemma build_stack_scalar (type_args : list targ) :
  forall stack stack',
  forallb scalar_as_built stack = true ->
  build_stack stack type_args = inr stack' ->
  forallb scalar_as_built stack' = true.
Proof.
  induction type_args as [| a rest IH]; intros stack stack' Hinv H; simpl in H.
  - injection H as <-. exact Hinv.
  - apply bind_inr in H. destruct H as (s1 & Hstep & Hrest).
    eapply IH; [|exact Hrest]. eapply build_step_scalar; eassumption.
Qed.

(** *** Malformed streams *)

(** C6, as stated, fails: the stream [C A B add] leaves two entries on the
    stack and [_build_tree] returns the bottom one instead of failing. *)
Lemma C6_leftover_returns_a_tree :
  leftover stream_leftover /\
  _build_tree stream_leftover = inr (Leaf (TTensor 0 f4 0)) /\
  ~ is_err (_build_tree stream_leftover).
Proof.
  split; [|split].
  - eexists. split; [reflexivity | simpl; lia].
  - reflexivity.
  - simpl. tauto.
Qed.

(** C6 (amended): a stack underflow is fatal, [IndexError] from the pop, and
    then [_get_compound_kernel] fails and the kernel cache is left as it was;
    a stream that ends with a non-empty stack is not rejected, however many
    entries are left: [_build_tree] returns the entry at the bottom. *)
Theorem C6_underflow_fatal_leftover_accepted (type_args : list targ) :
  (underflows type_args ->
     _build_tree type_args = inl IndexError /\
     _get_compound_kernel type_args = inl IndexError /\
     forall dev, snd (get_compound_kernel dev type_args) = dev) /\
  (forall stack d, build_stack [] type_args = inr stack -> stack <> [] ->
     _build_tree type_args = inr (last stack d)).
Proof.
  split.
  - intros Hu. apply underflow_build_stack in Hu.
    assert (Hb : _build_tree type_args = inl IndexError).
    { unfold _build_tree. rewrite Hu. reflexivity. }
    assert (Hk : _get_compound_kernel type_args = inl IndexError).
    { unfold _get_compound_kernel. rewrite Hb. reflexivity. }
    repeat split; try assumption.
    intros dev. unfold get_compound_kernel.
    destruct (cache_get (d_cache dev) type_args); [reflexivity|].
    rewrite Hk. reflexivity.
  - intros stack d Hs Hne. unfold _build_tree. rewrite Hs. simpl.
    apply stack_bottom_last. exact Hne.
Qed.

Lemma C6_underflow_fatal_leftover_accepted_witness :
  _build_tree stream_underflow = inl IndexError /\
  _build_tree stream_leftover = inr (Leaf (TTensor 0 f4 0)).
Proof.
  split.
  - apply (proj1 (C6_underflow_fatal_leftover_accepted stream_underflow)).
    exists [TTensor 0 f4 0], (TOp "add" 0 NoRest), [], [Leaf (TTensor 0 f4 0)], 2%nat.
    repeat split. simpl. lia.
  - apply (proj2 (C6_underflow_fatal_leftover_accepted stream_leftover)
                 [Node (TOp "add" 0 NoRest) false 0
                       [Leaf (TTensor 1 f4 0); Leaf (TTensor 2 f4 0)];
                  Leaf (TTensor 0 f4 0)]
                 (Leaf (TTensor 0 f4 0))).
    + reflexivity.
    + discriminate.
Defined.

(** *** Reduction counts *)

(** C8, as stated, fails: in the tree of [C = sum(A)] the [sum] node has no
    reduction beneath it and carries the count 1. *)
Lemma C8_reduction_counts_itself :
  _build_tree stream_sum =
    inr (Node (TOp "assign" 1 (AssignRest false 32)) true 1
           [Leaf (TTensor 0 f4 0);
            Node (TOp "sum" 0 NoRest) true 1 [Leaf (TTensor 1 f4 0)]]) /\
  (forall t, _build_tree stream_sum = inr t -> counts_strictly_beneath t = false).
Proof.
  split; [reflexivity|].
  intros t H. vm_compute in H. injection H as <-. reflexivity.
Qed.

(** C8 (amended): in the tree returned by [_build_tree] the count of an
    elementwise node is the number of reductions strictly beneath it, and the
    count of a reduction node is that number plus one: a reduction counts
    itself. *)
Theorem C8_red_count_includes_self (type_args : list targ) (t : tree) :
  _build_tree type_args = inr t -> counts_with_self t = true.
Proof.
  unfold _build_tree. intros H.
  apply bind_inr in H. destruct H as (stack & Hs & Hb).
  apply (build_stack_counts type_args []) in Hs; [|reflexivity].
  apply stack_bottom_in in Hb.
  rewrite forallb_forall in Hs. apply Hs. exact Hb.
Qed.

Lemma C8_red_count_includes_self_witness :
  counts_with_self
    (Node (TOp "assign" 1 (AssignRest false 32)) true 1
       [Leaf (TTensor 0 f4 0);
        Node (TOp "sum" 0 NoRest) true 1 [Leaf (TTensor 1 f4 0)]]) = true.
Proof.
  apply (C8_red_count_includes_self stream_sum). reflexivity.
Defined.

(** *** Scalar flags *)

(** C9, as stated, fails: [rand] has no operand and its node is not scalar,
    while the conjunction over no child is true. *)
Lemma C9_nullary_op_not_scalar :
  _build_tree stream_rand =
    inr (Node (TOp "assign" 1 (AssignRest false 32)) false 0
           [Leaf (TTensor 0 f4 0); Node (TOp "rand" 0 NoRest) false 0 []]) /\
  (forall t, _build_tree stream_rand = inr t -> scalar_is_conjunction t = false).
Proof.
  split; [reflexivity|].
  intros t H. vm_compute in H. injection H as <-. reflexivity.
Qed.

(** C9 (amended): in the tree returned by [_build_tree] an elementwise node
    with at least one operand is scalar exactly when all its children are,
    an elementwise node without operand is not scalar, and a reduction node
    is scalar; a tensor leaf counts as scalar only with argument index 0, a
    constant leaf always. *)
Theorem C9_scalar_flag_as_built (type_args : list targ) (t : tree) :
  _build_tree type_args = inr t -> scalar_as_built t = true.
Proof.
  unfold _build_tree. intros H.
  apply bind_inr in H. destruct H as (stack & Hs & Hb).
  apply (build_stack_scalar type_args []) in Hs; [|reflexivity].
  apply stack_bottom_in in Hb.
  rewrite forallb_forall in Hs. apply Hs. exact Hb.
Qed.

Lemma C9_scalar_flag_as_built_witness :
  scalar_as_built
    (Node (TOp "assign" 1 (AssignRest false 32)) false 0
       [Leaf (TTensor 0 f4 0); Node (TOp "rand" 0 NoRest) false 0 []]) = true.
Proof.
  apply (C9_scalar_flag_as_built stream_rand). reflexivity.
Defined.

(** ** [_get_fast_ew_dims] *)

(** The descending scan stops at the first candidate [e - j * step] that
    divides [size], or at the first one that is not positive. *)
Lemma scan_down_spec (fuel : nat) (size step : Z) :
  0 < step ->
  forall e, e <= Z.of_nat fuel * step ->
  let r := scan_down fuel size step e in
  (exists j, 0 <= j /\ r = e - j * step) /\
  (0 < r -> size mod r = 0) /\
  (e <= 0 -> r = e) /\
  (0 < e -> - step < r) /\
  (forall j, 0 <= j -> r < e - j * step -> size mod (e - j * step) <> 0).
Proof.
  intros Hstep. induction fuel as [| fuel IH]; intros e Hfuel.
  - simpl in *. split; [exists 0; lia|].
    split; [lia|]. split; [lia|]. split; [lia|]. intros j Hj Hlt. nia.
  - cbn [scan_down]. destruct (e >? 0) eqn:Epos.
    + apply Z.gtb_lt in Epos.
      destruct (size mod e =? 0) eqn:Ediv.
      * apply Z.eqb_eq in Ediv. split; [exists 0; lia|].
        split; [auto|]. split; [lia|]. split; [lia|]. intros j Hj Hlt. nia.
      * apply Z.eqb_neq in Ediv.
        destruct (IH (e - step)) as ((j & Hj & Hr) & Hd & Hle & Hgt & Hcand); [lia|].
        split; [|split; [|split; [|split]]].
        -- exists (j + 1). lia.
        -- exact Hd.
        -- lia.
        -- intros _. destruct (Z_lt_le_dec 0 (e - step)) as [Hp | Hn]; [auto|].
           rewrite (Hle Hn). lia.
        -- intros k Hk Hlt.
           destruct (Z.eq_dec k 0) as [-> | Hk0].
           ++ replace (e - 0 * step) with e by lia. exact Ediv.
           ++ replace (e - k * step) with (e - step - (k - 1) * step) by lia.
              apply Hcand; lia.
    + rewrite Z.gtb_ltb in Epos. apply Z.ltb_ge in Epos.
      split; [exists 0; lia|].
      split; [lia|]. split; [lia|]. split; [lia|]. intros j Hj Hlt. nia.
Qed.

Lemma ew_candidates_form (k : Z) :
  In k ew_candidates <-> exists j, 0 <= j <= 7 /\ k = 256 - j * 32.
Proof.
  unfold ew_candidates. simpl. split.
  - intros H.
    repeat (destruct H as [<- | H];
            [ match goal with
              | |- exists j, _ /\ ?v = _ => exists ((256 - v) / 32); vm_compute; intuition discriminate
              end | ]).
    destruct H.
  - intros (j & Hj & ->).
    assert (j = 0 \/ j = 1 \/ j = 2 \/ j = 3 \/ j = 4 \/ j = 5 \/ j = 6 \/ j = 7) as Hc by lia.
    repeat (destruct Hc as [-> | Hc]; [simpl; tauto|]). subst j. simpl. tauto.
Qed.

(** C4: for a positive [size], [_get_fast_ew_dims] returns the shape
    [(size // e, e)] with its contiguous strides, where [e] is the largest
    of 256, 224, ..., 32 that divides [size] when one does, and otherwise
    the largest divisor of [size] not above 255; the two extents multiply
    back to [size], and the division by a zero [ew_size] is never reached. *)
Theorem C4_fast_ew_dims_shape (size : Z) :
  0 < size ->
  exists e,
    _get_fast_ew_dims size = inr ((size / e, e), _contiguous_strides (size / e, e)) /\
    (size / e) * e = size /\
    ((exists k, In k ew_candidates /\ size mod k = 0) ->
       In e ew_candidates /\ size mod e = 0 /\
       forall k, In k ew_candidates -> size mod k = 0 -> k <= e) /\
    ((forall k, In k ew_candidates -> size mod k <> 0) ->
       1 <= e <= 255 /\ size mod e = 0 /\
       forall d, 1 <= d <= 255 -> size mod d = 0 -> d <= e).
Proof.
  intros Hsize. unfold _get_fast_ew_dims. cbv zeta.
  destruct (@scan_down_spec 256%nat size 32 ltac:(lia) 256 ltac:(vm_compute; discriminate))
    as ((j1 & Hj1 & Hr1) & Hd1 & _ & Hgt1 & Hc1).
  destruct (@scan_down_spec 256%nat size 1 ltac:(lia) 255 ltac:(vm_compute; discriminate))
    as ((j2 & Hj2 & Hr2) & Hd2 & _ & Hgt2 & Hc2).
  set (r1 := scan_down 256 size 32 256) in *.
  set (r2 := scan_down 256 size 1 255) in *.
  assert (Hexact : forall e, 0 < e -> size mod e = 0 -> size / e * e = size).
  { intros e He Hm. pose proof (Z.div_mod size e ltac:(lia)). lia. }
  destruct (r1 =? 0) eqn:E1.
  - (* no multiple of 32 divides: the second scan decides *)
    apply Z.eqb_eq in E1.
    assert (Hnone : forall k, In k ew_candidates -> size mod k <> 0).
    { intros k Hk. apply ew_candidates_form in Hk. destruct Hk as (j & Hj & ->).
      apply Hc1; lia. }
    assert (Hpos2 : 0 < r2).
    { destruct (Z_lt_le_dec 0 r2) as [|Hn]; [assumption|].
      exfalso. apply (Hc2 254); [lia | lia |]. apply Z.mod_1_r. }
    assert (E2 : (r2 =? 0) = false) by (apply Z.eqb_neq; lia).
    rewrite E2. exists r2.
    split; [reflexivity|]. split; [apply Hexact; auto|]. split.
    + intros (k & Hk & Hm). exfalso. exact (Hnone k Hk Hm).
    + intros _. split; [lia|]. split; [auto|].
      intros d Hd Hm. destruct (Z_le_gt_dec d r2) as [|Hgt]; [assumption|].
      exfalso. apply (Hc2 (255 - d)); [lia | lia |].
      replace (255 - (255 - d) * 1) with d by lia. exact Hm.
  - pose proof E1 as E1'. apply Z.eqb_neq in E1.
    assert (Hpos1 : 0 < r1) by lia.
    rewrite E1'. exists r1.
    assert (Hin : In r1 ew_candidates).
    { apply ew_candidates_form. exists j1. lia. }
    split; [reflexivity|]. split; [apply Hexact; auto|]. split.
    + intros _. split; [exact Hin|]. split; [auto|].
      intros k Hk Hm. apply ew_candidates_form in Hk. destruct Hk as (j & Hj & ->).
      destruct (Z_le_gt_dec (256 - j * 32) r1) as [|Hgt]; [assumption|].
      exfalso. apply (Hc1 j); [lia | lia | exact Hm].
    + intros Hnone. exfalso. apply (Hnone r1 Hin). auto.
Qed.

Lemma C4_fast_ew_dims_shape_witness :
  exists e,
    _get_fast_ew_dims 12 = inr ((12 / e, e), _contiguous_strides (12 / e, e)) /\
    (12 / e) * e = 12 /\
    ((exists k, In k ew_candidates /\ 12 mod k = 0) ->
       In e ew_candidates /\ 12 mod e = 0 /\
       forall k, In k ew_candidates -> 12 mod k = 0 -> k <= e) /\
    ((forall k, In k ew_candidates -> 12 mod k <> 0) ->
       1 <= e <= 255 /\ 12 mod e = 0 /\
       forall d, 1 <= d <= 255 -> 12 mod d = 0 -> d <= e).
Proof.
  apply (@C4_fast_ew_dims_shape 12). lia.
Defined.

(** ** The classification scan *)

Ltac break_if_in H :=
  match type of H with
  | context [if ?c then _ else _] => destruct c eqn:?
  | context [match ?x with _ => _ end] => destruct x eqn:?
  end.

Lemma scan_arg_error (f : flags) (a : arg) (e : pyerr) :
  scan_arg f a = inl e -> exists msg, e = ValueError msg.
Proof.
  unfold scan_arg. intros H.
  repeat break_if_in H; try discriminate; inversion H; eauto.
Qed.

Lemma scan_args_error (args : list arg) :
  forall f e, scan_args f args = inl e -> exists msg, e = ValueError msg.
Proof.
  induction args as [| a rest IH]; intros f e; simpl; [discriminate|].
  destruct (scan_arg f a) as [e1 | f1] eqn:E; simpl.
  - intros H. inversion H. subst. eapply scan_arg_error; eassumption.
  - apply IH.
Qed.

(** What one step of the scan does to the reduction flag and the axis. *)
Lemma scan_arg_inr (f f1 : flags) (a : arg) :
  scan_arg f a = inr f1 ->
  (is_reduction_arg a = false /\
   f_reduction f1 = f_reduction f /\ f_axis f1 = f_axis f /\
   f_argminmax f1 = f_argminmax f /\ f_transpose f1 = (f_transpose f || f_transpose f1)) \/
  (exists d ax, a = AOp d /\ in_reduction_ops (o_op d) = true /\
     o_axis d = Some ax /\ axis_ok (Some ax) = true /\
     f_reduction f1 = true /\ f_axis f1 = ax /\
     (f_reduction f = true -> ax = f_axis f) /\
     f_argminmax f1 = (f_argminmax f || String.eqb (substring 0 3 (o_op d)) "arg")).
Proof.
  destruct a as [t | c | d]; unfold scan_arg.
  - intros H. left. split; [reflexivity|].
    repeat break_if_in H; injection H as <-; simpl;
      now rewrite ?orb_diag, ?orb_true_r.
  - intros [= <-]. left. now rewrite orb_diag.
  - destruct (in_reduction_ops (o_op d)) eqn:Ered.
    + intros H. right. exists d.
      destruct (o_axis d) as [ax |]; [|discriminate]. exists ax.
      destruct (axis_ok (Some ax)) eqn:Eok; cbn [negb] in H; [|discriminate].
      destruct (f_reduction f) eqn:Er.
      * destruct (ax =? f_axis f) eqn:Eax; cbn [negb] in H; [|discriminate].
        apply Z.eqb_eq in Eax. injection H as <-. simpl.
        repeat split; auto.
        destruct (String.eqb (substring 0 3 (o_op d)) "arg");
          now rewrite ?orb_true_r, ?orb_false_r.
      * injection H as <-. simpl. repeat split; auto; try discriminate.
        destruct (String.eqb (substring 0 3 (o_op d)) "arg");
          now rewrite ?orb_true_r, ?orb_false_r.
    + intros H. left. simpl. rewrite Ered. split; [reflexivity|].
      destruct (String.eqb (o_op d) "onehot"); injection H as <-; simpl;
        now rewrite orb_diag.
Qed.

(** After a scan that did not raise, every reduction descriptor carries the
    axis of the flags, and that axis is 0 or 1. *)
Lemma scan_args_axes (args : list arg) :
  forall f f',
  scan_args f args = inr f' ->
  (f_reduction f = true -> f_reduction f' = true /\ f_axis f' = f_axis f) /\
  (forall d, In (AOp d) args -> in_reduction_ops (o_op d) = true ->
     o_axis d = Some (f_axis f') /\ axis_ok (o_axis d) = true).
Proof.
  induction args as [| a rest IH]; intros f f' H; simpl in H.
  - injection H as <-. split; [auto | intros d []].
  - apply bind_inr in H. destruct H as (f1 & Hstep & Hrest).
    destruct (IH _ _ Hrest) as (Hkeep & Hall).
    apply scan_arg_inr in Hstep.
    destruct Hstep as [(Hnr & Hr & Hax & _) | (d0 & ax & -> & Hred & Hoax & Hok & Hr1 & Hax1 & Hsame & _)].
    + split.
      * intros Hf. rewrite <- Hr in Hf. destruct (Hkeep Hf) as [? ?]. split; congruence.
      * intros d [-> | Hin] Hd; [simpl in Hnr; congruence | auto].
    + destruct (Hkeep Hr1) as [Hr' Hax'].
      split.
      * intros Hf. split; [assumption|]. rewrite Hax', Hax1. auto.
      * intros d [Heq | Hin] Hd; [|auto].
        injection Heq as <-. rewrite Hoax, Hax', Hax1. auto.
Qed.

(** C7: when some reduction descriptor has an axis other than 0 and 1, or
    two reduction descriptors have different axes, the classification scan
    raises [ValueError]; [call_compound_kernel] returns that error and
    leaves the device untouched: no kernel built, none launched. *)
Theorem C7_reduction_axis_errors (dev : device) (rand_state : Z) (args : list arg) :
  bad_axis args \/ mixed_axes args ->
  exists msg,
    scan_args init_flags args = inl (ValueError msg) /\
    call_compound_kernel dev rand_state args = (inl (ValueError msg), dev).
Proof.
  intros Hbad.
  destruct (scan_args init_flags args) as [e | f] eqn:Escan.
  - destruct (scan_args_error _ _ Escan) as (msg & ->).
    exists msg. split; [reflexivity|].
    unfold call_compound_kernel, prepare_call. rewrite Escan. reflexivity.
  - exfalso. destruct (scan_args_axes _ _ Escan) as (_ & Hall).
    destruct Hbad as [(d & Hin & Hred & Hok) | (d1 & d2 & Hin1 & Hin2 & Hr1 & Hr2 & Hne)].
    + destruct (Hall d Hin Hred) as [_ Hok']. congruence.
    + destruct (Hall d1 Hin1 Hr1) as [H1 _]. destruct (Hall d2 Hin2 Hr2) as [H2 _].
      congruence.
Qed.

Lemma C7_reduction_axis_errors_witness :
  exists msg,
    scan_args init_flags call_mixed_axes = inl (ValueError msg) /\
    call_compound_kernel empty_device 7 call_mixed_axes = (inl (ValueError msg), empty_device).
Proof.
  apply (@C7_reduction_axis_errors empty_device 7 call_mixed_axes).
  right. exists (mkOp "sum" (Some 1) None), (mkOp "sum" (Some 0) None).
  repeat split; simpl; try tauto; try discriminate.
Defined.

Lemma scan_args_app (pre post : list arg) (f : flags) :
  scan_args f (pre ++ post) = bind (scan_args f pre) (fun f1 => scan_args f1 post).
Proof.
  revert f. induction pre as [| a pre IH]; intros f; simpl; [reflexivity|].
  destruct (scan_arg f a); simpl; [reflexivity | apply IH].
Qed.

(** The scan sets [reduction] when a reduction descriptor is present and
    [argminmax] when one of them is [argmax] or [argmin]. *)
Lemma scan_args_flags (args : list arg) :
  forall f f',
  scan_args f args = inr f' ->
  f_reduction f' = (f_reduction f || existsb is_reduction_arg args) /\
  f_argminmax f' = (f_argminmax f || existsb is_arg_reduction_arg args).
Proof.
  induction args as [| a rest IH]; intros f f' H; simpl in H.
  - injection H as <-. simpl. now rewrite !orb_false_r.
  - apply bind_inr in H. destruct H as (f1 & Hstep & Hrest).
    destruct (IH _ _ Hrest) as (Hr & Ha). rewrite Hr, Ha.
    apply scan_arg_inr in Hstep.
    destruct Hstep as [(Hnr & Hr1 & _ & Ha1 & _) | (d & ax & -> & Hred & _ & _ & Hr1 & _ & _ & Ha1)].
    + cbn [existsb]. rewrite Hnr, Hr1, Ha1.
      assert (is_arg_reduction_arg a = false) as ->.
      { destruct a as [t | c | d]; try reflexivity. simpl in *. now rewrite Hnr. }
      split; reflexivity.
    + cbn [existsb is_reduction_arg is_arg_reduction_arg]. rewrite Hred, Hr1, Ha1.
      simpl. rewrite orb_true_r. split; [reflexivity | now rewrite orb_assoc].
Qed.

(** ** The loop that builds the arguments *)

Lemma step_args_app (f : flags) (pre post : list arg) (st : call_state) :
  step_args f st (pre ++ post) = bind (step_args f st pre) (fun s => step_args f s post).
Proof.
  revert st. induction pre as [| a pre IH]; intros st; simpl; [reflexivity|].
  destruct (step_arg f st a); simpl; [reflexivity | apply IH].
Qed.

Ltac break_result H :=
  match type of H with
  | bind ?x _ = inr _ =>
      let v := fresh "v" in let Hx := fresh "Hx" in
      apply bind_inr in H; destruct H as (v & Hx & H)
  | (let '(_, _) := ?p in _) = _ => destruct p eqn:?
  | context [if ?c then _ else _] => destruct c eqn:?
  | context [match ?x with _ => _ end] => destruct x eqn:?
  end.

(** Registering a tensor touches [out], the counters of arguments, the
    identity table and [kernel_args] only. *)
Lemma register_tensor_frame (f : flags) (t : GPUTensor) (shape : Z * Z) (strides : list Z)
      (st : call_state) (reg : Z * call_state) :
  register_tensor f t shape strides st = inr reg ->
  cs_op_cnt (snd reg) = cs_op_cnt st /\
  cs_type_args (snd reg) = cs_type_args st /\
  cs_shape_stack (snd reg) = cs_shape_stack st /\
  cs_threads (snd reg) = cs_threads st /\
  cs_red_depth (snd reg) = cs_red_depth st /\
  cs_max_shape (snd reg) = cs_max_shape st.
Proof.
  unfold register_tensor.
  destruct (ids_get Nat.eqb (cs_array_ids st) (t_ident t)).
  - intros [= <-]. simpl. auto 10.
  - intros H.
    apply bind_inr in H. destruct H as (s1 & _ & H).
    apply bind_inr in H. destruct H as (s2 & _ & H).
    apply bind_inr in H. destruct H as (x0 & _ & H).
    apply bind_inr in H. destruct H as (x1 & _ & H).
    injection H as <-. simpl. auto 10.
Qed.

(** Only the [assign] sets the thread count. *)
Lemma step_arg_threads (f : flags) (st st' : call_state) (a : arg) :
  is_assign_arg a = false -> step_arg f st a = inr st' -> cs_threads st' = cs_threads st.
Proof.
  destruct a as [t | c | d]; simpl.
  - intros _ H. unfold step_tensor in H.
    apply bind_inr in H. destruct H as (dims & _ & H).
    apply bind_inr in H. destruct H as (reg & Hreg & H).
    injection H as <-. simpl. apply (register_tensor_frame _ _ _ _ _ Hreg).
  - intros _ [= <-]. unfold step_const.
    destruct (ids_get Z.eqb (cs_const_ids st) c); reflexivity.
  - intros Hna H. unfold step_op in H. rewrite Hna in H.
    apply bind_inr in H. destruct H as (s1 & H1 & H). injection H as <-. simpl.
    repeat break_result H1; try discriminate; injection H1 as <-; reflexivity.
Qed.

Lemma step_args_threads (f : flags) (args : list arg) :
  forall st st',
  existsb is_assign_arg args = false ->
  step_args f st args = inr st' -> cs_threads st' = cs_threads st.
Proof.
  induction args as [| a rest IH]; intros st st' Hna H; simpl in *.
  - now injection H as <-.
  - apply orb_false_iff in Hna. destruct Hna as [Ha Hrest].
    apply bind_inr in H. destruct H as (s1 & Hstep & H).
    rewrite (IH _ _ Hrest H). eapply step_arg_threads; eassumption.
Qed.

(** The step of an [assign]. *)
Lemma step_op_assign (f : flags) (d : op_desc) (st st' : call_state) :
  o_op d = "assign" ->
  step_op f d st = inr st' ->
  exists max_shape rest,
    unify_shapes 2 (1, 1) (cs_shape_stack st) = inr (max_shape, rest) /\
    cs_max_shape st' = Some max_shape /\
    cs_red_depth st' = cs_red_depth st /\
    cs_threads st' = choose_threads f (cs_red_depth st) max_shape (cs_threads st).
Proof.
  intros Hop H. unfold step_op in H. rewrite Hop in H.
  change (float_op_arity "assign") with (Some 2%nat) in H.
  change (String.eqb "assign" "assign") with true in H. cbv iota in H.
  apply bind_inr in H. destruct H as (s1 & H1 & H). injection H as <-.
  apply bind_inr in H1. destruct H1 as ([max_shape rest] & Hu & H1).
  exists max_shape, rest. split; [exact Hu|].
  destruct (cs_out st) as [out |]; [|discriminate].
  injection H1 as <-. simpl. auto.
Qed.

(** The table of [choose_threads], from the initial 32 threads. *)
Lemma choose_threads_table (f : flags) (red_depth : Z) (max_shape : Z * Z) :
  choose_threads f red_depth max_shape 32 =
  if f_reduction f then
    if f_argminmax f then 32 else threads_by_depth red_depth
  else if negb (f_transpose f) && (snd max_shape >=? 512) then 256 else 32.
Proof.
  unfold choose_threads, threads_by_depth.
  destruct (f_reduction f), (f_argminmax f), (f_transpose f); reflexivity.
Qed.

(** *** Thread count *)

(** C5, as stated, fails: with an [argmax] over 4096 columns the call
    contains a reduction of depth 4096 and keeps 32 threads, where the
    steps give 1024. *)
Lemma C5_argmax_keeps_32_threads :
  exists f st,
    prepare_call 7 call_argmax = inr (f, st) /\
    existsb is_reduction_arg call_argmax = true /\
    cs_red_depth st = 4096 /\
    cs_threads st = 32 /\
    threads_by_depth (cs_red_depth st) = 1024.
Proof.
  eexists. eexists. split; [vm_compute; reflexivity|].
  repeat split.
Qed.

(** C5 (amended): for an invocation that ends with its only [assign], the
    thread count is 32 when a reduction is present and one of the
    reductions is [argmax] or [argmin]; it follows the steps on [red_depth]
    (4096: 1024, 2048: 512, 1024: 256, 512: 128, 256: 64, else 32) when a
    reduction is present and none is [argmax] or [argmin]; without reduction
    it is 256 when no transpose was flagged and the unified shape of the
    [assign] has a second extent of at least 512, and 32 otherwise. *)
Theorem C5_thread_count (rand_state : Z) (pre : list arg) (d : op_desc)
        (f : flags) (st : call_state) :
  o_op d = "assign" ->
  existsb is_assign_arg pre = false ->
  prepare_call rand_state (pre ++ [AOp d]) = inr (f, st) ->
  exists max_shape,
    cs_max_shape st = Some max_shape /\
    cs_threads st =
      if existsb is_reduction_arg pre then
        if existsb is_arg_reduction_arg pre then 32
        else threads_by_depth (cs_red_depth st)
      else if negb (f_transpose f) && (snd max_shape >=? 512) then 256 else 32.
Proof.
  intros Hop Hna H. unfold prepare_call in H.
  apply bind_inr in H. destruct H as (f0 & Hscan & H).
  apply bind_inr in H. destruct H as (st0 & Hstep & H).
  injection H as <- <-.
  destruct (scan_args_flags _ _ Hscan) as (Hr & Ha).
  rewrite existsb_app in Hr, Ha. simpl in Hr, Ha.
  rewrite Hop in Hr, Ha. simpl in Hr, Ha. rewrite !orb_false_r in Hr, Ha.
  rewrite step_args_app in Hstep.
  apply bind_inr in Hstep. destruct Hstep as (s1 & Hpre & Hlast).
  simpl in Hlast. apply bind_inr in Hlast. destruct Hlast as (s2 & Hlast & Heq).
  injection Heq as <-.
  pose proof (step_args_threads _ _ _ Hna Hpre) as Hth. simpl in Hth.
  destruct (step_op_assign _ _ _ Hop Hlast) as (max_shape & rest & _ & Hms & Hrd & Hct).
  exists max_shape. split; [exact Hms|].
  rewrite Hct, Hth, choose_threads_table, Hr, Ha, Hrd. reflexivity.
Qed.

Lemma C5_thread_count_witness :
  exists max_shape,
    max_shape = (4, 1) /\
    1024 =
      if existsb is_reduction_arg
           [ATensor (dense_tensor 0 4 1 1000); ATensor (dense_tensor 1 4 4096 2000);
            red_op "sum" 1]
      then
        if existsb is_arg_reduction_arg
             [ATensor (dense_tensor 0 4 1 1000); ATensor (dense_tensor 1 4 4096 2000);
              red_op "sum" 1]
        then 32 else threads_by_depth 4096
      else if negb false && (snd max_shape >=? 512) then 256 else 32.
Proof.
  destruct (@C5_thread_count 7
              [ATensor (dense_tensor 0 4 1 1000); ATensor (dense_tensor 1 4 4096 2000);
               red_op "sum" 1]
              (mkOp "assign" None None)
              (mkFlags true true true false false false 1)
              (mkCall (Some (dense_tensor 0 4 1 1000)) 2 2 [(1%nat, 1)] []
                 [KPtr 7; KPtr 1000; KInt 1; KInt 0; KPtr 2000; KInt 4096; KInt 1;
                  KInt 4096; KInt 1]
                 [TTensor 0 f4 0; TTensor 1 f4 0; TOp "sum" 0 NoRest;
                  TOp "assign" 1 (AssignRest false 1024)]
                 [] 1024 4096 (Some (4, 1)))
              eq_refl eq_refl eq_refl) as (max_shape & Hms & Hth).
  exists max_shape. split; [now injection Hms as <- | exact Hth].
Defined.

(** ** Shape arithmetic *)

Lemma unify_axis_positive (m s : Z) :
  0 < m -> 0 < s ->
  (compatible m s -> unify_axis m s = inr (Z.max m s)) /\
  (~ compatible m s -> exists msg, unify_axis m s = inl (TypeError msg)).
Proof.
  intros Hm Hs. unfold unify_axis, compatible.
  destruct (s =? m) eqn:Eeq; simpl.
  - apply Z.eqb_eq in Eeq. subst. split.
    + intros _. now rewrite Z.max_id.
    + intros Hn. exfalso. apply Hn. now left.
  - apply Z.eqb_neq in Eeq.
    destruct (s =? 1) eqn:E1; [|destruct (m =? 1) eqn:E2]; simpl.
    + apply Z.eqb_eq in E1. split; [reflexivity|]. intros Hn. exfalso. apply Hn. auto.
    + apply Z.eqb_eq in E2. split; [reflexivity|]. intros Hn. exfalso. apply Hn. auto.
    + apply Z.eqb_neq in E1. apply Z.eqb_neq in E2. split.
      * intros [? | [? | ?]]; congruence.
      * intros _. eauto.
Qed.

Lemma unify_axis_from_one (s : Z) : 0 < s -> unify_axis 1 s = inr s.
Proof.
  intros Hs. destruct (unify_axis_positive (m := 1) (s := s)) as [H _]; try lia.
  rewrite H; [f_equal; lia | right; now left].
Qed.

(** A single operand always unifies with the initial [max_shape = [1, 1]]. *)
Lemma unify_unary (s : Z * Z) (rest : list (Z * Z)) :
  positive_shape s -> unify_shapes 1 (1, 1) (s :: rest) = inr (s, rest).
Proof.
  intros [H0 H1]. simpl.
  rewrite (unify_axis_from_one H0), (unify_axis_from_one H1). simpl.
  now destruct s.
Qed.

Lemma unify_binary_ok (s1 s2 : Z * Z) (rest : list (Z * Z)) :
  positive_shape s1 -> positive_shape s2 ->
  compatible (fst s1) (fst s2) -> compatible (snd s1) (snd s2) ->
  unify_shapes 2 (1, 1) (s2 :: s1 :: rest) =
  inr ((Z.max (fst s1) (fst s2), Z.max (snd s1) (snd s2)), rest).
Proof.
  intros [Ha0 Ha1] [Hb0 Hb1] Hc0 Hc1. cbn [unify_shapes fst snd].
  rewrite (unify_axis_from_one Hb0), (unify_axis_from_one Hb1). cbn [bind fst snd].
  destruct (unify_axis_positive (m := fst s2) (s := fst s1)) as [H0 _]; try assumption.
  destruct (unify_axis_positive (m := snd s2) (s := snd s1)) as [H1 _]; try assumption.
  rewrite H0, H1.
  - cbn [bind]. now rewrite (Z.max_comm (fst s2)), (Z.max_comm (snd s2)).
  - unfold compatible in *. intuition congruence.
  - unfold compatible in *. intuition congruence.
Qed.

Lemma compatible_dec (a b : Z) : {compatible a b} + {~ compatible a b}.
Proof.
  unfold compatible.
  destruct (Z.eq_dec a b); [left; auto|].
  destruct (Z.eq_dec a 1); [left; auto|].
  destruct (Z.eq_dec b 1); [left; auto|].
  right. intuition.
Qed.

Lemma compatible_sym (a b : Z) : compatible a b -> compatible b a.
Proof. unfold compatible. intros [? | [? | ?]]; auto. Qed.

Lemma unify_binary_error (s1 s2 : Z * Z) (rest : list (Z * Z)) :
  positive_shape s1 -> positive_shape s2 ->
  ~ compatible (fst s1) (fst s2) \/ ~ compatible (snd s1) (snd s2) ->
  exists msg, unify_shapes 2 (1, 1) (s2 :: s1 :: rest) = inl (TypeError msg).
Proof.
  intros [Ha0 Ha1] [Hb0 Hb1] Hbad. cbn [unify_shapes fst snd].
  rewrite (unify_axis_from_one Hb0), (unify_axis_from_one Hb1). cbn [bind fst snd].
  destruct (unify_axis_positive (m := fst s2) (s := fst s1)) as [H0 H0']; try assumption.
  destruct (unify_axis_positive (m := snd s2) (s := snd s1)) as [H1 H1']; try assumption.
  destruct (compatible_dec (fst s2) (fst s1)) as [Hc0 | Hn0].
  - rewrite (H0 Hc0). cbn [bind].
    destruct Hbad as [Hbad | Hbad].
    + exfalso. apply Hbad. now apply compatible_sym.
    + destruct H1' as (msg & Hmsg).
      { intros Hc. apply Hbad. now apply compatible_sym. }
      rewrite Hmsg. exists msg. reflexivity.
  - destruct (H0' Hn0) as (msg & Hmsg). rewrite Hmsg. exists msg. reflexivity.
Qed.

(** The shape a tensor operand puts on [shape_stack]. *)
Lemma step_tensor_shape (f : flags) (t : GPUTensor) (st st' : call_state) :
  step_tensor f t st = inr st' ->
  exists dims, tensor_dims f t = inr dims /\
    cs_shape_stack st' = fst dims :: cs_shape_stack st.
Proof.
  unfold step_tensor. intros H.
  apply bind_inr in H. destruct H as (dims & Hd & H).
  apply bind_inr in H. destruct H as (reg & Hreg & H).
  injection H as <-. exists dims. split; [exact Hd|]. simpl.
  f_equal. apply (register_tensor_frame _ _ _ _ _ Hreg).
Qed.

Lemma tensor_dims_cases (f : flags) (t : GPUTensor) (dims : (Z * Z) * list Z) :
  tensor_dims f t = inr dims ->
  (complex_call f = true /\ t_shape t = [fst (fst dims); snd (fst dims)]) \/
  (complex_call f = false /\
   exists strides, _get_fast_ew_dims (tensor_size t) = inr (fst dims, strides)).
Proof.
  unfold tensor_dims, complex_call.
  destruct (f_broadcast f || f_reduction f || f_transpose f || f_takeop f
            || negb (f_contiguous f)).
  - intros H. left. split; [reflexivity|].
    destruct (t_shape t) as [| s0 [| s1 [| s2 l]]]; try discriminate.
    injection H as <-. reflexivity.
  - intros H. right. split; [reflexivity|].
    apply bind_inr in H. destruct H as ([shape strides] & Hf & H).
    injection H as <-. exists strides. exact Hf.
Qed.

(** *** Shape compatibility *)

(** C3, as stated, fails: for plain contiguous operands the driver compares
    the synthetic dimensions of [_get_fast_ew_dims], so [A] of shape (3, 4)
    and [B] of shape (4, 3), which differ on both axes with no extent 1,
    are added without error: a kernel is built and launched. *)
Lemma C3_plain_shapes_not_compared :
  ~ compatible 3 4 /\
  fst (call_compound_kernel empty_device 7 call_add_34_43)
    = inr (dense_tensor 0 3 4 1000) /\
  d_compiles (snd (call_compound_kernel empty_device 7 call_add_34_43)) = 1%nat /\
  List.length (d_launches (snd (call_compound_kernel empty_device 7 call_add_34_43))) = 1%nat.
Proof.
  split; [unfold compatible; lia|].
  repeat split; vm_compute; reflexivity.
Qed.

(** C3 (amended): the shape arithmetic runs on the shapes the driver puts
    on its shape stack, which are the native two-dimensional shapes when the
    call is flagged broadcast, reduction, transpose, take or non-contiguous,
    and the synthetic shapes of [_get_fast_ew_dims] otherwise.  For positive
    extents: when the two operand shapes of a binary operation differ on an
    axis where neither is 1, the call raises [TypeError] before any kernel
    is fetched and the device is untouched; otherwise an extent of 1 takes
    the size of the other operand and equal extents pass through; the single
    operand of a unary operation is never rejected. *)
Theorem C3_shape_compatibility :
  (forall dev rand_state args pre d post f st s1 s2 rest,
     args = pre ++ AOp d :: post ->
     float_op_arity (o_op d) = Some 2%nat ->
     scan_args init_flags args = inr f ->
     step_args f (init_call rand_state) pre = inr st ->
     cs_shape_stack st = s2 :: s1 :: rest ->
     positive_shape s1 -> positive_shape s2 ->
     ~ compatible (fst s1) (fst s2) \/ ~ compatible (snd s1) (snd s2) ->
     exists msg, call_compound_kernel dev rand_state args = (inl (TypeError msg), dev)) /\
  (forall s1 s2 rest,
     positive_shape s1 -> positive_shape s2 ->
     compatible (fst s1) (fst s2) -> compatible (snd s1) (snd s2) ->
     unify_shapes 2 (1, 1) (s2 :: s1 :: rest) =
       inr ((Z.max (fst s1) (fst s2), Z.max (snd s1) (snd s2)), rest)) /\
  (forall s rest,
     positive_shape s -> unify_shapes 1 (1, 1) (s :: rest) = inr (s, rest)) /\
  (forall f t st st',
     step_tensor f t st = inr st' ->
     exists shape, cs_shape_stack st' = shape :: cs_shape_stack st /\
       ((complex_call f = true /\ t_shape t = [fst shape; snd shape]) \/
        (complex_call f = false /\
         exists strides, _get_fast_ew_dims (tensor_size t) = inr (shape, strides)))).
Proof.
  split; [|split; [|split]].
  - intros dev rand_state args pre d post f st s1 s2 rest -> Har Hscan Hpre Hstack Hp1 Hp2 Hbad.
    destruct (unify_binary_error rest Hp1 Hp2 Hbad) as (msg & Hmsg).
    exists msg. unfold call_compound_kernel, prepare_call.
    rewrite Hscan. cbn [bind].
    rewrite step_args_app, Hpre. cbn [bind step_args step_arg].
    unfold step_op. rewrite Har, Hstack, Hmsg. reflexivity.
  - intros. now apply unify_binary_ok.
  - intros. now apply unify_unary.
  - intros f t st st' H.
    destruct (step_tensor_shape _ _ _ H) as (dims & Hd & Hs).
    exists (fst dims). split; [exact Hs|]. now apply tensor_dims_cases.
Qed.

Lemma C3_shape_compatibility_witness :
  exists msg,
    call_compound_kernel empty_device 7 call_add_34_35 = (inl (TypeError msg), empty_device).
Proof.
  apply (proj1 C3_shape_compatibility empty_device 7 call_add_34_35
           [ATensor (dense_tensor 0 3 4 1000); ATensor (dense_tensor 1 3 4 2000);
            ATensor (dense_tensor 2 3 5 3000)]
           (mkOp "add" None None) [op "assign"]
           (mkFlags true false false false false false 1)
           (mkCall (Some (dense_tensor 0 3 4 1000)) 3 0 [(1%nat, 1); (2%nat, 2)] []
              [KPtr 7; KPtr 1000; KInt 0; KInt 1; KPtr 2000; KInt 0; KInt 1;
               KPtr 3000; KInt 0; KInt 1]
              [TTensor 0 f4 0; TTensor 1 f4 0; TTensor 2 f4 0]
              [(1, 15); (1, 12); (1, 12)] 32 0 None)
           (1, 12) (1, 15) [(1, 12)]).
  - reflexivity.
  - reflexivity.
  - reflexivity.
  - reflexivity.
  - reflexivity.
  - unfold positive_shape. simpl. lia.
  - unfold positive_shape. simpl. lia.
  - right. unfold compatible. simpl. lia.
Defined.

(** ** The cache key *)

Lemma targ_eqb_refl (a : targ) : targ_eqb a a = true.
Proof.
  destruct a as [x dt tk | x | n c r]; simpl.
  - rewrite !Z.eqb_refl. now destruct dt.
  - apply Z.eqb_refl.
  - rewrite String.eqb_refl, Z.eqb_refl. simpl.
    destruct r as [| rd th | h]; simpl; rewrite ?Z.eqb_refl, ?eqb_reflx; reflexivity.
Qed.

Lemma type_args_eqb_refl (l : list targ) : type_args_eqb l l = true.
Proof.
  induction l as [| a l IH]; simpl; [reflexivity|]. now rewrite targ_eqb_refl.
Qed.

Lemma cache_get_new (cache : list (list targ * kernel)) (type_args : list targ) (k : kernel) :
  cache_get cache type_args = None ->
  cache_get (cache ++ [(type_args, k)]) type_args = Some k.
Proof.
  induction cache as [| [ta0 k0] cache IH]; simpl.
  - intros _. now rewrite type_args_eqb_refl.
  - destruct (type_args_eqb ta0 type_args); [discriminate | exact IH].
Qed.

(** After a successful fetch, the signature is in the cache. *)
Lemma get_compound_kernel_cached (dev dev' : device) (type_args : list targ) (k : kernel) :
  get_compound_kernel dev type_args = (inr k, dev') ->
  cache_get (d_cache dev') type_args = Some k /\ d_launches dev' = d_launches dev.
Proof.
  unfold get_compound_kernel.
  destruct (cache_get (d_cache dev) type_args) as [k0 |] eqn:Ehit.
  - intros [= <- <-]. auto.
  - destruct (_get_compound_kernel type_args) as [e | k1]; [discriminate|].
    intros [= <- <-]. simpl. split; [now apply cache_get_new | reflexivity].
Qed.

(** A call never removes a cache entry: on a hit it builds nothing. *)
Lemma call_with_cached_kernel (dev : device) (rand_state : Z) (args : list arg)
      (f : flags) (st : call_state) (k : kernel) :
  prepare_call rand_state args = inr (f, st) ->
  cache_get (d_cache dev) (cs_type_args st) = Some k ->
  d_compiles (snd (call_compound_kernel dev rand_state args)) = d_compiles dev /\
  d_cache (snd (call_compound_kernel dev rand_state args)) = d_cache dev.
Proof.
  intros Hp Hhit. unfold call_compound_kernel, get_compound_kernel.
  rewrite Hp, Hhit.
  destruct (cs_out st); [|auto].
  destruct (cs_max_shape st); auto.
Qed.

(** The reduction axis depends on the operation descriptors only. *)
Lemma scan_args_axis_structural (args1 : list arg) :
  forall args2 fa fb fa' fb',
  map arg_structure args1 = map arg_structure args2 ->
  f_axis fa = f_axis fb -> f_reduction fa = f_reduction fb ->
  scan_args fa args1 = inr fa' -> scan_args fb args2 = inr fb' ->
  f_axis fa' = f_axis fb'.
Proof.
  induction args1 as [| a1 rest1 IH]; intros [| a2 rest2] fa fb fa' fb' Hs Hax Hred H1 H2;
    try discriminate.
  - simpl in *. congruence.
  - simpl in Hs. injection Hs as Ha Hrest.
    simpl in H1, H2.
    apply bind_inr in H1. destruct H1 as (f1 & Hs1 & H1).
    apply bind_inr in H2. destruct H2 as (f2 & Hs2 & H2).
    apply (IH rest2 f1 f2 fa' fb' Hrest); try assumption.
    + apply scan_arg_inr in Hs1. apply scan_arg_inr in Hs2.
      destruct Hs1 as [(Hn1 & Hr1 & Hx1 & _) | (d1 & ax1 & -> & Hd1 & Ho1 & _ & Hr1 & Hx1 & Hk1 & _)];
      destruct Hs2 as [(Hn2 & Hr2 & Hx2 & _) | (d2 & ax2 & -> & Hd2 & Ho2 & _ & Hr2 & Hx2 & Hk2 & _)].
      * congruence.
      * exfalso. destruct a1 as [t | c | d1]; try discriminate.
        simpl in Ha, Hn1. injection Ha as Hop _. congruence.
      * exfalso. destruct a2 as [t | c | d2]; try discriminate.
        simpl in Ha, Hn2. injection Ha as Hop _. congruence.
      * simpl in Ha. injection Ha as _ Hoax. congruence.
    + apply scan_arg_inr in Hs1. apply scan_arg_inr in Hs2.
      destruct Hs1 as [(Hn1 & Hr1 & Hx1 & _) | (d1 & ax1 & -> & Hd1 & Ho1 & _ & Hr1 & Hx1 & Hk1 & _)];
      destruct Hs2 as [(Hn2 & Hr2 & Hx2 & _) | (d2 & ax2 & -> & Hd2 & Ho2 & _ & Hr2 & Hx2 & Hk2 & _)].
      * congruence.
      * exfalso. destruct a1 as [t | c | d1]; try discriminate.
        simpl in Ha, Hn1. injection Ha as Hop _. congruence.
      * exfalso. destruct a2 as [t | c | d2]; try discriminate.
        simpl in Ha, Hn2. injection Ha as Hop _. congruence.
      * congruence.
Qed.

(** The tuple appended for one argument, up to index, rounding flag and
    thread count, is fixed by the structure of the argument, the reduction
    axis and the operation counter. *)
Lemma step_arg_skeleton (f : flags) (st st' : call_state) (a : arg) :
  step_arg f st a = inr st' ->
  exists t,
    cs_type_args st' = cs_type_args st ++ [t] /\
    targ_skeleton t = skeleton_of (f_axis f) (cs_op_cnt st) (arg_structure a) /\
    cs_op_cnt st' = if is_op_struct (arg_structure a) then cs_op_cnt st + 1 else cs_op_cnt st.
Proof.
  destruct a as [t | c | d]; simpl.
  - intros H. unfold step_tensor in H.
    apply bind_inr in H. destruct H as (dims & _ & H).
    apply bind_inr in H. destruct H as (reg & Hreg & H).
    destruct (register_tensor_frame _ _ _ _ _ Hreg) as (Hcnt & Hta & _).
    injection H as <-. simpl. rewrite Hta, Hcnt.
    eexists. split; [reflexivity|]. split; [|reflexivity].
    simpl. unfold take_axis_of. destruct (t_take_array t) as [[ptr tk] |]; reflexivity.
  - intros [= <-]. unfold step_const.
    destruct (ids_get Z.eqb (cs_const_ids st) c); simpl; eexists; repeat split.
  - intros H. unfold step_op in H.
    apply bind_inr in H. destruct H as (s1 & H1 & H). injection H as <-. simpl.
    destruct (float_op_arity (o_op d)) as [numops |] eqn:Ear.
    + apply bind_inr in H1. destruct H1 as ([max_shape rest] & _ & H1).
      destruct (String.eqb (o_op d) "assign") eqn:Eas.
      * destruct (cs_out st); [|discriminate]. injection H1 as <-. simpl.
        eexists. split; [reflexivity|]. split; reflexivity.
      * destruct (String.eqb (o_op d) "onehot") eqn:Eoh.
        -- destruct (o_axis d) as [ax |]; [|discriminate].
           destruct (o_idx d); [|discriminate]. injection H1 as <-. simpl.
           eexists. split; [reflexivity|]. split; reflexivity.
        -- injection H1 as <-. simpl. eexists. split; [reflexivity|]. split; reflexivity.
    + destruct (in_reduction_ops (o_op d)) eqn:Ered; [|discriminate].
      destruct (cs_shape_stack st); [discriminate|]. injection H1 as <-. simpl.
      assert (String.eqb (o_op d) "assign" = false) as ->.
      { destruct (String.eqb (o_op d) "assign") eqn:E; [|reflexivity].
        apply String.eqb_eq in E. rewrite E in Ear. discriminate. }
      assert (String.eqb (o_op d) "onehot" = false) as ->.
      { destruct (String.eqb (o_op d) "onehot") eqn:E; [|reflexivity].
        apply String.eqb_eq in E. rewrite E in Ear. discriminate. }
      eexists. split; [reflexivity|]. split; reflexivity.
Qed.

Lemma step_args_skeleton (f : flags) (args : list arg) :
  forall st st',
  step_args f st args = inr st' ->
  exists l,
    cs_type_args st' = cs_type_args st ++ l /\
    map targ_skeleton l = skeletons (f_axis f) (cs_op_cnt st) (map arg_structure args).
Proof.
  induction args as [| a rest IH]; intros st st' H; simpl in H.
  - injection H as <-. exists []. now rewrite app_nil_r.
  - apply bind_inr in H. destruct H as (s1 & Hstep & H).
    destruct (step_arg_skeleton _ _ _ Hstep) as (t & Hta & Hsk & Hcnt).
    destruct (IH _ _ H) as (l & Hl & Hmap).
    exists (t :: l). split.
    + rewrite Hl, Hta, <- app_assoc. reflexivity.
    + simpl. rewrite Hsk, Hmap, Hcnt. reflexivity.
Qed.

(** A tuple is its skeleton together with its index and its rounding flag
    and thread count. *)
Lemma targ_from_parts (a b : targ) :
  targ_skeleton a = targ_skeleton b ->
  targ_index a = targ_index b ->
  targ_assign a = targ_assign b ->
  a = b.
Proof.
  destruct a as [x1 d1 t1 | x1 | n1 c1 r1], b as [x2 d2 t2 | x2 | n2 c2 r2];
    simpl; try discriminate.
  - intros [= -> ->] [= ->] _. reflexivity.
  - intros _ [= ->] _. reflexivity.
  - destruct r1, r2; simpl; try discriminate; intros Hs _ Ha;
      injection Hs; intros; subst; try reflexivity;
      try (injection Ha; intros; subst; reflexivity).
Qed.

Lemma type_args_from_parts (l1 : list targ) :
  forall l2,
  map targ_skeleton l1 = map targ_skeleton l2 ->
  map targ_index l1 = map targ_index l2 ->
  map targ_assign l1 = map targ_assign l2 ->
  l1 = l2.
Proof.
  induction l1 as [| a l1 IH]; intros [| b l2]; simpl; try discriminate; [reflexivity|].
  intros [= Hs Hsl] [= Hi Hil] [= Ha Hal].
  f_equal; [now apply targ_from_parts | now apply IH].
Qed.

(** *** The signature depends on the structure *)

(** C2: two invocations whose arguments agree in structure (operation
    descriptors, tensor dtypes and take axes, position of the constants),
    and whose [type_args] carry the same deduplicated indices, the same
    rounding flag and the same thread count, have equal [type_args],
    whatever the pointers, strides, shapes and constant values are, which
    only reach [kernel_args]; hence once the first call has gone through,
    the second finds its kernel in the cache and builds none. *)
Theorem C2_signature_is_structural (dev : device) (rs1 rs2 : Z) (args1 args2 : list arg)
        (f1 f2 : flags) (st1 st2 : call_state) :
  prepare_call rs1 args1 = inr (f1, st1) ->
  prepare_call rs2 args2 = inr (f2, st2) ->
  map arg_structure args1 = map arg_structure args2 ->
  map targ_index (cs_type_args st1) = map targ_index (cs_type_args st2) ->
  map targ_assign (cs_type_args st1) = map targ_assign (cs_type_args st2) ->
  cs_type_args st1 = cs_type_args st2 /\
  (forall out1 dev1,
     call_compound_kernel dev rs1 args1 = (inr out1, dev1) ->
     d_compiles (snd (call_compound_kernel dev1 rs2 args2)) = d_compiles dev1 /\
     d_cache (snd (call_compound_kernel dev1 rs2 args2)) = d_cache dev1).
Proof.
  intros Hp1 Hp2 Hstruct Hidx Hassign.
  assert (Heq : cs_type_args st1 = cs_type_args st2).
  { unfold prepare_call in Hp1, Hp2.
    apply bind_inr in Hp1. destruct Hp1 as (fa & Hscan1 & Hp1).
    apply bind_inr in Hp1. destruct Hp1 as (sa & Hstep1 & Hp1). injection Hp1 as <- <-.
    apply bind_inr in Hp2. destruct Hp2 as (fb & Hscan2 & Hp2).
    apply bind_inr in Hp2. destruct Hp2 as (sb & Hstep2 & Hp2). injection Hp2 as <- <-.
    pose proof (scan_args_axis_structural _ _ _ _ Hstruct eq_refl eq_refl Hscan1 Hscan2) as Hax.
    destruct (step_args_skeleton _ _ _ Hstep1) as (l1 & Hl1 & Hm1).
    destruct (step_args_skeleton _ _ _ Hstep2) as (l2 & Hl2 & Hm2).
    simpl in Hl1, Hl2, Hm1, Hm2.
    apply type_args_from_parts; try assumption.
    rewrite Hl1, Hl2, Hm1, Hm2, Hax, Hstruct. reflexivity. }
  split; [exact Heq|].
  intros out1 dev1 Hcall.
  unfold call_compound_kernel in Hcall. rewrite Hp1 in Hcall.
  destruct (get_compound_kernel dev (cs_type_args st1)) as [[e | k] dev0] eqn:Eget;
    [discriminate|].
  destruct (get_compound_kernel_cached _ _ Eget) as (Hhit & _).
  destruct (cs_out st1); [|discriminate].
  destruct (cs_max_shape st1); [|discriminate].
  injection Hcall as _ <-.
  apply (@call_with_cached_kernel _ rs2 args2 f2 st2 k Hp2). simpl. now rewrite <- Heq.
Qed.

Lemma C2_signature_is_structural_witness :
  exists f1 st1 f2 st2,
    prepare_call 7 call_scale_first = inr (f1, st1) /\
    prepare_call 8 call_scale_second = inr (f2, st2) /\
    cs_kernel_args st1 <> cs_kernel_args st2 /\
    cs_type_args st1 = cs_type_args st2 /\
    d_compiles (snd (call_compound_kernel
                       (snd (call_compound_kernel empty_device 7 call_scale_first))
                       8 call_scale_second)) = 1%nat.
Proof.
  eexists. eexists. eexists. eexists.
  split; [vm_compute; reflexivity|].
  split; [vm_compute; reflexivity|].
  split; [discriminate|].
  edestruct (@C2_signature_is_structural empty_device 7 8 call_scale_first call_scale_second)
    as [Heq Hcache].
  - vm_compute. reflexivity.
  - vm_compute. reflexivity.
  - reflexivity.
  - reflexivity.
  - reflexivity.
  - split; [exact Heq|].
    edestruct Hcache as [Hc _].
    + vm_compute. reflexivity.
    + exact Hc.
Defined.

(** ** Runtime arguments against the prepared signature *)

(** With a duplicate reduction and no [onehot], the unused integer keeps
    the two lists aligned. *)
Example duplicate_sum_aligned :
  exists f st k,
    prepare_call 7 call_dup_sum = inr (f, st) /\
    _get_compound_kernel (cs_type_args st) = inr k /\
    map karg_kind (cs_kernel_args st) = k_sig k.
Proof.
  eexists. eexists. eexists.
  split; [vm_compute; reflexivity|].
  split; vm_compute; reflexivity.
Qed.

(** C10 fails on the code: in [C = sum(onehot * A) + sum(onehot * A)] the
    second reduction is dropped as a duplicate together with the [onehot]
    beneath it.  The driver has appended the index pointer of that [onehot]
    to [kernel_args], while the signature loop fills in an integer for the
    dropped reduction only: twelve runtime arguments meet a signature of
    eleven characters, and from the tenth on the kinds disagree. *)
Theorem C10_onehot_under_duplicate_reduction :
  exists f st k,
    prepare_call 7 call_dup_onehot = inr (f, st) /\
    _get_compound_kernel (cs_type_args st) = inr k /\
    map karg_kind (cs_kernel_args st) =
      [SigP; SigP; SigI; SigI; SigP; SigP; SigI; SigI; SigI; SigP; SigI; SigI] /\
    k_sig k =
      [SigP; SigP; SigI; SigI; SigP; SigP; SigI; SigI; SigI; SigI; SigI] /\
    map karg_kind (cs_kernel_args st) <> k_sig k.
Proof.
  eexists. eexists. eexists.
  split; [vm_compute; reflexivity|].
  split; [vm_compute; reflexivity|].
  split; [reflexivity|].
  split; [reflexivity|].
  discriminate.
Qed.

(** ** The store *)

Lemma heap_set_length (h : heap) (a : nat) (c : cell) :
  List.length (heap_set h a c) = List.length h.
Proof.
  revert a. induction h as [| x h IH]; intros [| a]; simpl; auto.
Qed.

Lemma heap_set_same (h : heap) (a : nat) (c : cell) :
  (a < List.length h)%nat -> nth_error (heap_set h a c) a = Some c.
Proof.
  revert a. induction h as [| x h IH]; intros [| a] Hlt; simpl in *; try lia.
  - reflexivity.
  - apply IH. lia.
Qed.

Lemma heap_set_other (h : heap) (a a' : nat) (c : cell) :
  a <> a' -> nth_error (heap_set h a c) a' = nth_error h a'.
Proof.
  revert a a'. induction h as [| x h IH]; intros [| a] [| a'] Hne; simpl; auto.
  contradiction.
Qed.

Lemma nth_error_in_range {A : Type} (l : list A) (a : nat) (x : A) :
  nth_error l a = Some x -> (a < List.length l)%nat.
Proof. intros H. apply nth_error_Some. congruence. Qed.

(** [decrement_parents] takes one off the count of every parent, and of
    nothing else. *)
Lemma decrement_parents_length (P : list nat) :
  forall h, List.length (decrement_parents h P) = List.length h.
Proof.
  induction P as [| p P IH]; intros h; simpl; [reflexivity|].
  rewrite IH. destruct (nth_error h p); [apply heap_set_length | reflexivity].
Qed.

Lemma decrement_parents_other (P : list nat) :
  forall h a, ~ In a P -> nth_error (decrement_parents h P) a = nth_error h a.
Proof.
  induction P as [| p P IH]; intros h a Hn; simpl; [reflexivity|].
  rewrite IH by (intros Hin; apply Hn; now right).
  destruct (nth_error h p); [|reflexivity].
  apply heap_set_other. intros ->. apply Hn. now left.
Qed.

Lemma decrement_parents_in (P : list nat) :
  forall h a, NoDup P -> In a P ->
  nth_error (decrement_parents h P) a = option_map (dec_by 1) (nth_error h a).
Proof.
  induction P as [| p P IH]; intros h a Hnd Hin; [destruct Hin|].
  inversion Hnd as [| ? ? Hnotin Hnd']; subst.
  simpl. destruct Hin as [-> | Hin].
  - rewrite decrement_parents_other by assumption.
    destruct (nth_error h a) as [c |] eqn:Ec.
    + rewrite heap_set_same by (eapply nth_error_in_range; eassumption). reflexivity.
    + rewrite Ec. reflexivity.
  - rewrite IH by assumption.
    destruct (nth_error h p) as [c |] eqn:Ec; [|reflexivity].
    rewrite heap_set_other; [reflexivity|]. intros ->. contradiction.
Qed.

(** The walk up the parents. *)
Lemma find_scalar_parent_stops (h : heap) (P : list nat) (found : option nat) :
  stops h 0 P -> find_scalar_parent h P found = found.
Proof.
  destruct P as [| p P]; simpl; [reflexivity|].
  intros (c & Hc & Hq). rewrite Hc. rewrite Z.sub_0_r in Hq. now rewrite Hq.
Qed.

Lemma find_scalar_parent_chain (h : heap) (Q : list nat) :
  forall rest found,
  (forall q, In q Q -> qualifies h 0 q) ->
  find_scalar_parent h (Q ++ rest) found =
  find_scalar_parent h rest (match rev Q with [] => found | q :: _ => Some q end).
Proof.
  induction Q as [| q Q IH]; intros rest found Hq; simpl; [reflexivity|].
  destruct (Hq q (or_introl eq_refl)) as (c & Hc & Hs & Hr).
  rewrite Hc, Hs, Hr. simpl.
  rewrite IH by (intros q' Hin; apply Hq; now right).
  destruct (rev Q) as [| q' l] eqn:E; simpl; reflexivity.
Qed.

(** ** Induction on trees *)

Lemma tree_induction (P : tree -> Prop) :
  (forall a, P (Leaf a)) ->
  (forall arg sc reds kids, Forall P kids -> P (Node arg sc reds kids)) ->
  forall t, P t.
Proof.
  intros Hleaf Hnode.
  fix IH 1. intros [a | arg sc reds kids].
  - apply Hleaf.
  - apply Hnode. induction kids as [| k kids IHk]; constructor; [apply IH | exact IHk].
Qed.

(** ** What [_post_order] reads *)

Lemma same_shape_refl (x : option cell) : same_shape x x.
Proof. destruct x; simpl; auto. Qed.

Lemma same_shape_trans (x y z : option cell) :
  same_shape x y -> same_shape y z -> same_shape x z.
Proof.
  destruct x, y, z; simpl; try tauto. intros [? ?] [? ?]. split; congruence.
Qed.

Lemma same_shape_sym (x y : option cell) : same_shape x y -> same_shape y x.
Proof. destruct x, y; simpl; try tauto. intros [? ?]. split; congruence. Qed.

Lemma same_shape_dec_by (m : Z) (x : option cell) :
  same_shape x (option_map (dec_by m) x).
Proof. destruct x; simpl; auto. Qed.

Lemma visible_leaf (h : heap) (lo hi : nat) (a : targ) : visible h lo hi (OTup a) [a].
Proof.
  intros h1 _ fuel acc Hf. destruct fuel as [| fuel]; [lia|]. reflexivity.
Qed.

Lemma visible_frame (h h' : heap) (lo hi : nat) (o : operand) (V : list targ) :
  visible h lo hi o V ->
  (forall a, (lo <= a < hi)%nat -> same_shape (nth_error h a) (nth_error h' a)) ->
  visible h' lo hi o V.
Proof.
  intros Hv Hs h1 H1 fuel acc Hf. apply Hv; [|assumption].
  intros a Ha. eapply same_shape_trans; [apply Hs | apply H1]; assumption.
Qed.

Lemma visible_widen (h : heap) (lo hi lo' hi' : nat) (o : operand) (V : list targ) :
  visible h lo hi o V -> (lo' <= lo)%nat -> (hi <= hi')%nat -> visible h lo' hi' o V.
Proof.
  intros Hv Hlo Hhi h1 H1 fuel acc Hf. apply Hv; [|lia].
  intros a Ha. apply H1. lia.
Qed.

Lemma visible_cell (h : heap) (lo hi a : nat) (c : cell) (V0 V1 : list targ) :
  nth_error h a = Some c -> (lo <= a < hi)%nat ->
  visible_child h lo a (nth_error (c_kids c) 0) V0 ->
  visible_child h lo a (nth_error (c_kids c) 1) V1 ->
  visible h lo hi (ORef a) (V0 ++ V1 ++ [c_arg c]).
Proof.
  intros Hc Ha H0 H1 h1 Hs fuel acc Hf.
  destruct fuel as [| fuel]; [lia|]. cbn [_post_order].
  pose proof (Hs a Ha) as Hsa. rewrite Hc in Hsa.
  destruct (nth_error h1 a) as [c1 |]; [|destruct Hsa].
  destruct Hsa as [Harg Hkids]. rewrite <- Hkids, <- Harg.
  assert (Hsub : forall x, (lo <= x < a)%nat ->
                           same_shape (nth_error h x) (nth_error h1 x)).
  { intros x Hx. apply Hs. lia. }
  assert (E0 : match nth_error (c_kids c) 0 with
               | Some k => _post_order fuel h1 k acc
               | None => Some acc
               end = Some (acc ++ V0)).
  { destruct (nth_error (c_kids c) 0); simpl in H0.
    - apply H0; [exact Hsub | lia].
    - subst. now rewrite app_nil_r. }
  rewrite E0.
  assert (E1 : match nth_error (c_kids c) 1 with
               | Some k => _post_order fuel h1 k (acc ++ V0)
               | None => Some (acc ++ V0)
               end = Some ((acc ++ V0) ++ V1)).
  { destruct (nth_error (c_kids c) 1); simpl in H1.
    - apply H1; [exact Hsub | lia].
    - subst. now rewrite app_nil_r. }
  rewrite E1. now rewrite <- !app_assoc.
Qed.

(** ** The cells of a tree *)

Lemma seg_node (b : nat) (arg : targ) (sc : bool) (reds : Z) (kids : list tree) :
  seg b (Node arg sc reds kids) =
  seg_list kids b ++ [mkCell arg sc reds (operands_at b kids)].
Proof. reflexivity. Qed.

Lemma seg_length (t : tree) : forall b, List.length (seg b t) = ncells t.
Proof.
  induction t as [a | arg sc reds kids IH] using tree_induction; intros b.
  - reflexivity.
  - rewrite seg_node, length_app. simpl. rewrite Nat.add_1_r. f_equal.
    revert b. induction IH as [| k ks Hk _ IHks]; intros b; simpl; [reflexivity|].
    rewrite length_app, Hk, IHks. reflexivity.
Qed.

Lemma seg_list_length (ks : list tree) (b : nat) :
  List.length (seg_list ks b) = ncells_list ks.
Proof.
  revert b. induction ks as [| k ks IH]; intros b; simpl; [reflexivity|].
  rewrite length_app, seg_length, IH. reflexivity.
Qed.

(** [alloc] appends the cells of the tree and returns its operand. *)
Lemma alloc_spec (t : tree) :
  forall h, alloc t h = (operand_at (List.length h) t, h ++ seg (List.length h) t).
Proof.
  induction t as [a | arg sc reds kids IH] using tree_induction; intros h.
  - simpl. now rewrite app_nil_r.
  - cbn [alloc].
    assert (Hk : forall h0,
      (fix alloc_list (ts : list tree) (h1 : heap) {struct ts} : list operand * heap :=
         match ts with
         | [] => ([], h1)
         | t' :: ts' =>
             let '(o, h2) := alloc t' h1 in
             let '(os, h3) := alloc_list ts' h2 in (o :: os, h3)
         end) kids h0
      = (operands_at (List.length h0) kids, h0 ++ seg_list kids (List.length h0))).
    { induction IH as [| k ks Hk _ IHks]; intros h0.
      - simpl. now rewrite app_nil_r.
      - rewrite Hk, IHks. simpl.
        rewrite length_app, seg_length, app_assoc. reflexivity. }
    rewrite Hk. rewrite seg_node, length_app, seg_list_length, app_assoc. reflexivity.
Qed.

(** ** The functional splitter: shape of its result *)

Lemma splitP_node (absorb : bool) (b : nat) (arg : targ) (sc : bool) (reds : Z)
      (kids : list tree) (d : dedup) :
  splitP absorb b (Node arg sc reds kids) d =
  let can := sc && negb (is_reduction arg) && not_assign arg in
  let r := split_kids (fun ab b' k d' => splitP ab b' k d') can kids b d in
  let nr := count_reductions_list kids in
  let reds' := if not_assign arg then reds - nr else reds in
  if is_reduction arg || (can && (0 <? nr) && negb absorb) then
    let r2 := register (if is_reduction arg then reduction_stage else scalar_stage)
                       (snd (fst r) ++ [arg]) arg (snd r) in
    (fst (fst r) ++ [mkCell (fst r2) sc reds' []], [fst r2], snd r2)
  else
    (fst (fst r) ++ [mkCell arg sc reds' (operands_at b kids)],
     snd (fst r) ++ [arg], snd r).
Proof. reflexivity. Qed.

Lemma split_kids_cells_length (can : bool) (ks : list tree) :
  Forall (fun k => forall ab b d, List.length (fst (fst (splitP ab b k d))) = ncells k) ks ->
  forall b d,
  List.length (fst (fst (split_kids (fun ab b' k d' => splitP ab b' k d') can ks b d)))
  = ncells_list ks.
Proof.
  induction 1 as [| k ks Hk _ IH]; intros b d; simpl; [reflexivity|].
  rewrite length_app, Hk, IH. reflexivity.
Qed.

Lemma splitP_cells_length (t : tree) :
  forall ab b d, List.length (fst (fst (splitP ab b t d))) = ncells t.
Proof.
  induction t as [a | arg sc reds kids IH] using tree_induction; intros ab b d.
  - reflexivity.
  - rewrite splitP_node. cbv zeta.
    pose proof (split_kids_cells_length (sc && negb (is_reduction arg) && not_assign arg)
                  IH b d) as Hlen.
    destruct (is_reduction arg || _); cbn [fst snd];
      rewrite length_app, Hlen; unfold ncells_list; simpl; lia.
Qed.

Lemma count_reductions_nonneg (t : tree) : 0 <= count_reductions t.
Proof.
  induction t as [a | arg sc reds kids IH] using tree_induction; simpl; [lia|].
  assert (0 <= fold_right (fun k n => count_reductions k + n) 0 kids).
  { induction IH as [| k ks Hk _ IHks]; simpl; lia. }
  destruct (is_reduction arg); lia.
Qed.

Lemma count_reductions_list_nonneg (ks : list tree) : 0 <= count_reductions_list ks.
Proof.
  induction ks as [| k ks IH]; simpl; [lia|].
  pose proof (count_reductions_nonneg k). unfold count_reductions_list in *. simpl. lia.
Qed.

Lemma count_reductions_node (arg : targ) (sc : bool) (reds : Z) (kids : list tree) :
  count_reductions (Node arg sc reds kids) =
  (if is_reduction arg then 1 else 0) + count_reductions_list kids.
Proof. reflexivity. Qed.

Lemma count_reductions_list_cons (k : tree) (ks : list tree) :
  count_reductions_list (k :: ks) = count_reductions k + count_reductions_list ks.
Proof. reflexivity. Qed.

(** A subtree without reduction comes out as it went in. *)
Lemma split_kids_no_reductions (can : bool) (ks : list tree) :
  Forall (fun k => count_reductions k = 0 ->
                   forall ab b d, splitP ab b k d = (seg b k, tree_post_order k, d)) ks ->
  count_reductions_list ks = 0 ->
  forall b d,
  split_kids (fun ab b' k d' => splitP ab b' k d') can ks b d =
  (seg_list ks b, flat_map tree_post_order ks, d).
Proof.
  induction 1 as [| k ks Hk _ IH]; intros Hz b d; [reflexivity|].
  rewrite count_reductions_list_cons in Hz.
  pose proof (count_reductions_nonneg k). pose proof (count_reductions_list_nonneg ks).
  cbn [split_kids]. rewrite Hk by lia. cbn [fst snd]. rewrite IH by lia. reflexivity.
Qed.

Lemma splitP_no_reductions (t : tree) :
  count_reductions t = 0 ->
  forall ab b d, splitP ab b t d = (seg b t, tree_post_order t, d).
Proof.
  induction t as [a | arg sc reds kids IH] using tree_induction; intros Hz ab b d.
  - reflexivity.
  - rewrite count_reductions_node in Hz.
    pose proof (count_reductions_list_nonneg kids).
    assert (Hred : is_reduction arg = false) by (destruct (is_reduction arg); [lia | reflexivity]).
    rewrite Hred in Hz.
    rewrite splitP_node. cbv zeta.
    rewrite (split_kids_no_reductions _ IH) by lia.
    replace (count_reductions_list kids) with 0 by lia.
    rewrite Hred. cbn [fst snd orb]. rewrite andb_false_r, andb_false_l.
    rewrite seg_node. cbn [tree_post_order].
    destruct (not_assign arg); rewrite ?Z.sub_0_r; reflexivity.
Qed.

Lemma binary_kids (arg : targ) (sc : bool) (reds : Z) (kids : list tree) :
  binary (Node arg sc reds kids) = true ->
  (kids = [] \/ (exists k0, kids = [k0] /\ binary k0 = true) \/
   (exists k0 k1, kids = [k0; k1] /\ binary k0 = true /\ binary k1 = true)).
Proof.
  cbn [binary]. rewrite andb_true_iff, Nat.leb_le. intros [Hlen Hall].
  destruct kids as [| k0 [| k1 [| k2 ks]]]; simpl in *; try lia.
  - now left.
  - right. left. exists k0. rewrite andb_true_r in Hall. auto.
  - right. right. exists k0, k1. rewrite andb_true_r in Hall.
    apply andb_true_iff in Hall. intuition.
Qed.

Lemma nth_error_snoc {A : Type} (l : list A) (x : A) :
  nth_error (l ++ [x]) (List.length l) = Some x.
Proof. rewrite nth_error_app2, Nat.sub_diag by lia. reflexivity. Qed.

Lemma visible_cell_cut (h : heap) (lo hi a : nat) (c : cell) :
  nth_error h a = Some c -> c_kids c = [] -> (lo <= a < hi)%nat ->
  visible h lo hi (ORef a) [c_arg c].
Proof.
  intros Hc Hk Ha.
  apply (@visible_cell h lo hi a c [] [] Hc Ha); rewrite Hk; reflexivity.
Qed.

(** The stack [_post_order] yields for a subtree once it is split. *)
Lemma splitP_visible (t : tree) :
  binary t = true ->
  forall ab b d h,
  (forall i, (i < ncells t)%nat ->
     nth_error h (b + i) = nth_error (fst (fst (splitP ab b t d))) i) ->
  visible h b (b + ncells t) (operand_at b t) (snd (fst (splitP ab b t d))).
Proof.
  induction t as [a | arg sc reds kids IH] using tree_induction; intros Hbin ab b d h Hseg.
  - apply visible_leaf.
  - pose proof (splitP_cells_length (Node arg sc reds kids) ab b d) as Hlen.
    rewrite splitP_node in *. cbv zeta in *.
    set (can := sc && negb (is_reduction arg) && not_assign arg) in *.
    set (r := split_kids (fun ab b' k d' => splitP ab b' k d') can kids b d) in *.
    assert (Hrlen : List.length (fst (fst r)) = ncells_list kids).
    { subst r. apply split_kids_cells_length.
      eapply Forall_impl; [|exact IH]. intros k _. apply splitP_cells_length. }
    assert (Hn : ncells (Node arg sc reds kids) = S (ncells_list kids)) by reflexivity.
    cbn [operand_at]. rewrite Hn in *.
    destruct (is_reduction arg || (can && (0 <? count_reductions_list kids) && negb ab)).
    + (* truncated *)
      cbn [fst snd] in *.
      match type of Hseg with
      | context [nth_error (_ ++ [?c])] =>
          assert (Hown : nth_error h (b + ncells_list kids) = Some c)
      end.
      { rewrite Hseg by lia. rewrite <- Hrlen. apply nth_error_snoc. }
      exact (@visible_cell_cut h b (b + S (ncells_list kids)) _ _ Hown eq_refl ltac:(lia)).
    + cbn [fst snd] in *.
      assert (Hown : nth_error h (b + ncells_list kids) =
                     Some (mkCell arg sc
                             (if not_assign arg then reds - count_reductions_list kids else reds)
                             (operands_at b kids))).
      { rewrite Hseg by lia. rewrite <- Hrlen. apply nth_error_snoc. }
      destruct (binary_kids _ _ _ _ Hbin) as [-> | [(k0 & -> & Hb0) | (k0 & k1 & -> & Hb0 & Hb1)]].
      * exact (@visible_cell_cut h b (b + S (ncells_list [])) _ _ Hown eq_refl ltac:(lia)).
      * inversion IH as [| ? ? IH0 _]; subst.
        cbn [split_kids] in r. subst r. cbn [fst snd] in *.
        rewrite app_nil_r in *.
        cbn [ncells_list fold_right] in *. rewrite Nat.add_0_r in *.
        set (r0 := splitP (can && (count_reductions_list [] =? 0)) b k0 d) in *.
        assert (H0 : visible h b (b + ncells k0) (operand_at b k0) (snd (fst r0))).
        { apply IH0; [exact Hb0|].
          intros i Hi. rewrite Hseg by lia.
          rewrite nth_error_app1 by lia. reflexivity. }
        pose proof (@visible_cell h b (b + S (ncells k0)) _ _ (snd (fst r0)) [] Hown
                      ltac:(lia) H0 eq_refl) as Hv.
        exact Hv.
      * inversion IH as [| ? ? IH0 IHr]; subst.
        inversion IHr as [| ? ? IH1 _]; subst.
        cbn [split_kids] in r. subst r. cbn [fst snd] in *.
        rewrite !app_nil_r in *.
        cbn [ncells_list fold_right] in *. rewrite Nat.add_0_r in *.
        set (r0 := splitP (can && (count_reductions_list [k1] =? 0)) b k0 d) in *.
        set (r1 := splitP (can && (count_reductions_list [] =? 0)) (b + ncells k0) k1 (snd r0)) in *.
        assert (Hl0 : List.length (fst (fst r0)) = ncells k0) by apply splitP_cells_length.
        assert (Hl1 : List.length (fst (fst r1)) = ncells k1) by apply splitP_cells_length.
        assert (H0 : visible h b (b + (ncells k0 + ncells k1)) (operand_at b k0) (snd (fst r0))).
        { apply (@visible_widen h b (b + ncells k0)); [|lia|lia].
          apply IH0; [exact Hb0|].
          intros i Hi. rewrite Hseg by lia.
          rewrite <- app_assoc, nth_error_app1 by lia. reflexivity. }
        assert (H1 : visible h b (b + (ncells k0 + ncells k1))
                             (operand_at (b + ncells k0) k1) (snd (fst r1))).
        { apply (@visible_widen h (b + ncells k0) (b + ncells k0 + ncells k1)); [|lia|lia].
          apply IH1; [exact Hb1|].
          intros i Hi. rewrite <- Nat.add_assoc, Hseg by lia.
          rewrite <- app_assoc, nth_error_app2 by lia.
          rewrite nth_error_app1 by lia. f_equal. lia. }
        pose proof (@visible_cell h b (b + S (ncells k0 + ncells k1)) _ _ _ _ Hown
                      ltac:(lia) H0 H1) as Hv.
        cbn [c_arg] in Hv. rewrite <- app_assoc. exact Hv.
Qed.

(** ** Keys and the dictionary *)

Lemma key_item_eqb_eq (a b : key_item) : key_item_eqb a b = true -> a = b.
Proof.
  destruct a, b; simpl; try discriminate.
  - rewrite String.eqb_eq. congruence.
  - rewrite Z.eqb_eq. congruence.
  - rewrite Z.eqb_eq. congruence.
  - rewrite andb_true_iff, String.eqb_eq, Z.eqb_eq. intros [-> ->]. reflexivity.
Qed.

Lemma key_item_eqb_refl (a : key_item) : key_item_eqb a a = true.
Proof.
  destruct a; simpl; rewrite ?String.eqb_refl, ?Z.eqb_refl; reflexivity.
Qed.

Lemma key_eqb_eq (k1 : list key_item) : forall k2, key_eqb k1 k2 = true -> k1 = k2.
Proof.
  induction k1 as [| a k1 IH]; intros [| b k2]; simpl; try discriminate; [reflexivity|].
  rewrite andb_true_iff. intros [Ha Hk]. f_equal; [now apply key_item_eqb_eq | now apply IH].
Qed.

Lemma key_eqb_refl (k : list key_item) : key_eqb k k = true.
Proof. induction k as [| a k IH]; simpl; [reflexivity|]. now rewrite key_item_eqb_refl. Qed.

Lemma dup_get_in (dups : list (list key_item * targ)) (key : list key_item) (a : targ) :
  dup_get dups key = Some a -> In (key, a) dups.
Proof.
  induction dups as [| [k v] dups IH]; simpl; [discriminate|].
  destruct (key_eqb k key) eqn:E.
  - intros [= ->]. apply key_eqb_eq in E. subst. now left.
  - intros H. right. now apply IH.
Qed.

Lemma key_of_item_name (aliases : list targ) (a : targ) :
  key_name (key_of_item aliases a) = op_name a.
Proof.
  destruct a as [x dt tk | x | n c r]; simpl; try reflexivity.
  destruct (in_aliases aliases (TOp n c r)); reflexivity.
Qed.

Lemma last_map {A B : Type} (f : A -> B) (l : list A) (x : A) (y : B) :
  l <> [] -> last (map f l) y = f (last l x).
Proof.
  induction l as [| a l IH]; [congruence|]. intros _.
  destruct l as [| a' l]; [reflexivity|].
  change (last (map f (a :: a' :: l)) y) with (last (map f (a' :: l)) y).
  change (last (a :: a' :: l) x) with (last (a' :: l) x).
  apply IH. discriminate.
Qed.

(** [register] keeps the keys named, and gives a node an argument of its
    own name. *)
Lemma register_named (ty : stage_type) (stack : list targ) (own : targ) (d : dedup) :
  stack <> [] -> keys_named (dd_dups d) ->
  keys_named (dd_dups (snd (register ty stack own d))).
Proof.
  intros Hne Hn. unfold register.
  destruct (dup_get (dd_dups d) _); cbn [snd dd_dups]; [exact Hn|].
  apply Forall_app. split; [exact Hn|]. constructor; [|constructor].
  cbn [fst snd]. rewrite (last_map _ own _ Hne). apply key_of_item_name.
Qed.

Lemma register_name (ty : stage_type) (stack : list targ) (own : targ) (d : dedup) :
  keys_named (dd_dups d) ->
  op_name (fst (register ty (stack ++ [own]) own d)) = op_name own.
Proof.
  intros Hn. unfold register.
  destruct (dup_get (dd_dups d) _) as [dup |] eqn:E; cbn [fst]; [|reflexivity].
  apply dup_get_in in E. unfold keys_named in Hn. rewrite Forall_forall in Hn.
  specialize (Hn _ E). cbn [fst snd] in Hn. rewrite <- Hn.
  rewrite (last_map _ own); [|destruct stack; discriminate].
  rewrite last_last. apply key_of_item_name.
Qed.

Lemma is_reduction_name (a b : targ) : op_name a = op_name b -> is_reduction a = is_reduction b.
Proof. unfold is_reduction. now intros ->. Qed.

Lemma not_assign_name (a b : targ) : op_name a = op_name b -> not_assign a = not_assign b.
Proof. unfold not_assign. now intros ->. Qed.

(** ** [_process_node] in terms of [register] *)
Lemma process_node_register (ty : stage_type) (addr : nat) (h : heap) (d : dedup)
      (P : list nat) (c : cell) (stack : list targ) :
  nth_error h addr = Some c ->
  _post_order (S (List.length h)) h (ORef addr) [] = Some stack ->
  exists st1 stk,
    _process_node addr (mkSplit h (dd_dups d) (dd_aliases d) (dd_stages d) P) = Some (st1, stk) /\
    add_stage ty stk st1 =
      let r := register ty stack (c_arg c) d in
      mkSplit (heap_set h addr (mkCell (fst r) (c_scalar c) (c_reds c) []))
              (dd_dups (snd r)) (dd_aliases (snd r)) (dd_stages (snd r)) P.
Proof.
  intros Hc Hpo. unfold _process_node, register. cbn [s_heap s_duplicates s_aliases].
  rewrite Hpo, Hc.
  destruct (dup_get (dd_dups d) (map (key_of_item (dd_aliases d)) stack)) as [dup |].
  - eexists. eexists. split; [reflexivity|]. reflexivity.
  - eexists. eexists. split; [reflexivity|]. reflexivity.
Qed.

(** ** [_split_stages] on a cell, child by child *)

Lemma split_stages_cell (fuel addr : nat) (st : split_state) :
  _split_stages (S fuel) (ORef addr) st =
  match nth_error (s_heap st) addr with
  | None => None
  | Some c =>
      let st0 := if not_assign (c_arg c)
                 then set_parents st (addr :: s_parents st) else st in
      match visit_kid fuel addr 0 st0 with
      | None => None
      | Some st1 =>
          match visit_kid fuel addr 1 st1 with
          | None => None
          | Some st2 =>
              let st3 := set_parents st2 (tl (s_parents st2)) in
              match nth_error (s_heap st3) addr with
              | None => None
              | Some c3 =>
                  if is_reduction (c_arg c3) then split_reduction addr st3 else Some st3
              end
          end
      end
  end.
Proof.
  cbn [_split_stages]. unfold visit_kid.
  destruct (nth_error (s_heap st) addr) as [c |] eqn:Hc; [|reflexivity].
  cbv zeta.
  assert (Hh : nth_error (s_heap (if not_assign (c_arg c)
                                  then set_parents st (addr :: s_parents st) else st)) addr
               = Some c).
  { destruct (not_assign (c_arg c)); exact Hc. }
  rewrite Hh.
  destruct (match nth_error (c_kids c) 0 with
            | Some k => _split_stages fuel k _
            | None => Some _
            end) as [st1 |]; [|reflexivity].
  destruct (nth_error (s_heap st1) addr) as [c1 |]; reflexivity.
Qed.

Lemma split_stages_leaf (fuel : nat) (a : targ) (st : split_state) :
  _split_stages (S fuel) (OTup a) st = Some st.
Proof. reflexivity. Qed.

(** ** Small facts on cells and parents *)

Lemma dec_by_zero (c : cell) : dec_by 0 c = c.
Proof. destruct c. unfold dec_by. cbn. now rewrite Z.sub_0_r. Qed.

Lemma dec_by_add (m1 m2 : Z) (c : cell) : dec_by m2 (dec_by m1 c) = dec_by (m1 + m2) c.
Proof. unfold dec_by. cbn. f_equal. lia. Qed.

Lemma option_map_dec_zero (x : option cell) : option_map (dec_by 0) x = x.
Proof. destruct x; simpl; [now rewrite dec_by_zero | reflexivity]. Qed.

Lemma option_map_dec_add (m1 m2 : Z) (x : option cell) :
  option_map (dec_by m2) (option_map (dec_by m1) x) = option_map (dec_by (m1 + m2)) x.
Proof. destruct x; simpl; [now rewrite dec_by_add | reflexivity]. Qed.

Lemma existsb_nat_in (a : nat) (P : list nat) : existsb (Nat.eqb a) P = true <-> In a P.
Proof.
  rewrite existsb_exists. split.
  - intros (x & Hin & Heq). apply Nat.eqb_eq in Heq. now subst.
  - intros Hin. exists a. split; [exact Hin | apply Nat.eqb_refl].
Qed.

Lemma existsb_nat_not_in (a : nat) (P : list nat) : existsb (Nat.eqb a) P = false <-> ~ In a P.
Proof.
  rewrite <- existsb_nat_in. destruct (existsb (Nat.eqb a) P); intuition congruence.
Qed.

(** ** Putting the stores of the children together *)

Lemma parent_cell_not_in (h : heap) (P : list nat) (m : Z) (a : nat) :
  ~ In a P -> parent_cell h P m a = nth_error h a.
Proof.
  intros Hn. unfold parent_cell.
  now rewrite (proj2 (existsb_nat_not_in a P) Hn).
Qed.

Lemma parent_cell_in (h : heap) (P : list nat) (m : Z) (a : nat) :
  In a P -> parent_cell h P m a = option_map (dec_by m) (nth_error h a).
Proof.
  intros Hin. unfold parent_cell.
  now rewrite (proj2 (existsb_nat_in a P) Hin).
Qed.

Lemma parent_cell_zero (h : heap) (P : list nat) (a : nat) :
  parent_cell h P 0 a = nth_error h a.
Proof.
  unfold parent_cell. destruct (existsb (Nat.eqb a) P); [apply option_map_dec_zero | reflexivity].
Qed.

Lemma parent_cell_shape (h : heap) (P : list nat) (m : Z) (a : nat) :
  same_shape (nth_error h a) (parent_cell h P m a).
Proof.
  unfold parent_cell. destruct (existsb (Nat.eqb a) P);
    [apply same_shape_dec_by | apply same_shape_refl].
Qed.

Lemma parent_cell_push (h : heap) (P : list nat) (m : Z) (p a : nat) :
  a <> p -> parent_cell h (p :: P) m a = parent_cell h P m a.
Proof.
  intros Hne. unfold parent_cell. cbn [existsb].
  now rewrite (proj2 (Nat.eqb_neq a p) Hne).
Qed.

(** A subtree without extraction, then the next one. *)
Lemma heap_after_compose (h h1 h2 : heap) (lo mid hi : nat) (c0 c1 : list cell)
      (P : list nat) (m0 m1 : Z) (e : option (nat * cell)) :
  heap_after h h1 lo mid c0 P m0 None ->
  heap_after h1 h2 mid hi c1 P m1 e ->
  (lo <= mid <= hi)%nat -> List.length c0 = (mid - lo)%nat ->
  heap_after h h2 lo hi (c0 ++ c1) P (m0 + m1) e.
Proof.
  intros (L0 & B0 & C0 & A0) (L1 & B1 & C1 & A1) Hr Hlen.
  split; [congruence|]. split; [|split].
  - intros a Ha. rewrite B1 by lia. apply B0. exact Ha.
  - intros i Hi. destruct (Nat.lt_ge_cases i (mid - lo)) as [Hlt | Hge].
    + rewrite nth_error_app1 by lia. rewrite B1 by lia. apply C0. exact Hlt.
    + rewrite nth_error_app2 by lia. rewrite Hlen.
      replace (lo + i)%nat with (mid + (i - (mid - lo)))%nat by lia.
      apply C1. lia.
  - intros a Ha. rewrite A1 by exact Ha.
    assert (Hp : parent_cell h1 P m1 a = parent_cell h P (m0 + m1) a).
    { unfold parent_cell. rewrite A0 by lia. cbn [above_cell]. unfold parent_cell.
      destruct (existsb (Nat.eqb a) P); [apply option_map_dec_add | reflexivity]. }
    destruct e as [[tg c] |]; cbn [above_cell]; rewrite Hp; reflexivity.
Qed.

(** A subtree with its extraction, then one that changes nothing. *)
Lemma heap_after_then_still (h h1 h2 : heap) (lo mid hi : nat) (c0 c1 : list cell)
      (P : list nat) (m0 : Z) (e : option (nat * cell)) :
  heap_after h h1 lo mid c0 P m0 e ->
  heap_after h1 h2 mid hi c1 P 0 None ->
  (lo <= mid <= hi)%nat -> List.length c0 = (mid - lo)%nat ->
  heap_after h h2 lo hi (c0 ++ c1) P m0 e.
Proof.
  intros (L0 & B0 & C0 & A0) (L1 & B1 & C1 & A1) Hr Hlen.
  split; [congruence|]. split; [|split].
  - intros a Ha. rewrite B1 by lia. apply B0. exact Ha.
  - intros i Hi. destruct (Nat.lt_ge_cases i (mid - lo)) as [Hlt | Hge].
    + rewrite nth_error_app1 by lia. rewrite B1 by lia. apply C0. exact Hlt.
    + rewrite nth_error_app2 by lia. rewrite Hlen.
      replace (lo + i)%nat with (mid + (i - (mid - lo)))%nat by lia.
      apply C1. lia.
  - intros a Ha. rewrite A1 by exact Ha. cbn [above_cell].
    rewrite parent_cell_zero. apply A0. lia.
Qed.

(** Nothing happened to the cells [cells] of [lo, hi). *)
Lemma heap_after_still (h : heap) (lo hi : nat) (cells : list cell) (P : list nat) :
  (forall i, (i < hi - lo)%nat -> nth_error h (lo + i) = nth_error cells i) ->
  heap_after h h lo hi cells P 0 None.
Proof.
  intros Hc. split; [reflexivity|]. split; [reflexivity|]. split; [exact Hc|].
  intros a _. cbn [above_cell]. now rewrite parent_cell_zero.
Qed.

(** The children done, the cell of the node itself joins them. *)
Lemma heap_after_close (h h2 : heap) (b a : nat) (cells : list cell) (P' P : list nat)
      (M : Z) (e : option (nat * cell)) (c : cell) :
  heap_after h h2 b a cells P' M e ->
  (b <= a)%nat -> List.length cells = (a - b)%nat ->
  (forall a', (a < a')%nat -> existsb (Nat.eqb a') P' = existsb (Nat.eqb a') P) ->
  nth_error h2 a = Some c ->
  heap_after h h2 b (S a) (cells ++ [c]) P M
    (match e with
     | Some (tg, x) => if Nat.eqb tg a then None else Some (tg, x)
     | None => None
     end).
Proof.
  intros (L & B & C & A) Hba Hlen HP Hown.
  split; [exact L|]. split; [exact B|]. split.
  - intros i Hi. destruct (Nat.lt_ge_cases i (a - b)) as [Hlt | Hge].
    + rewrite nth_error_app1 by lia. apply C. exact Hlt.
    + assert (i = (a - b)%nat) as -> by lia.
      replace (b + (a - b))%nat with a by lia. rewrite Hown.
      rewrite <- Hlen. symmetry. apply nth_error_snoc.
  - intros a' Ha'. rewrite A by lia.
    assert (Hp : parent_cell h P' M a' = parent_cell h P M a').
    { unfold parent_cell. now rewrite HP by lia. }
    destruct e as [[tg x] |]; cbn [above_cell].
    + destruct (Nat.eqb tg a) eqn:Et.
      * apply Nat.eqb_eq in Et. subst tg.
        rewrite (proj2 (Nat.eqb_neq a' a)) by lia. cbn [above_cell]. exact Hp.
      * cbn [above_cell]. now rewrite Hp.
    + exact Hp.
Qed.

Lemma heap_ext (h h' : heap) :
  (forall a, nth_error h' a = nth_error h a) -> h' = h.
Proof.
  revert h'. induction h as [| x h IH]; intros [| y h'] H.
  - reflexivity.
  - specialize (H 0%nat). discriminate.
  - specialize (H 0%nat). discriminate.
  - pose proof (H 0%nat) as H0. cbn in H0. injection H0 as ->.
    f_equal. apply IH. intros a. exact (H (S a)).
Qed.

(** ** The context of a subtree *)

Lemma ctx_transport (h hk : heap) (P : list nat) (m0 m1 : Z) (lo hi : nat) (o : operand)
      (ctx : context) :
  ctx_ok h P (m0 + m1) lo hi o ctx ->
  (forall a, (a < lo \/ hi <= a)%nat -> same_shape (nth_error h a) (nth_error hk a)) ->
  (forall p, In p P -> nth_error hk p = option_map (dec_by m0) (nth_error h p)) ->
  ctx_ok hk P m1 lo hi o ctx.
Proof.
  intros Hctx Hshape HP.
  assert (Hq : forall q, In q P -> qualifies h (m0 + m1) q -> qualifies hk m1 q).
  { intros q Hin (c & Hc & Hs & Hr). exists (dec_by m0 c).
    rewrite (HP q Hin), Hc. split; [reflexivity|]. split; [exact Hs|].
    cbn. lia. }
  assert (Hst : forall R, (forall p, In p R -> In p P) ->
                          stops h (m0 + m1) R -> stops hk m1 R).
  { intros [| p R] Hsub; [trivial|]. intros (c & Hc & Hb).
    exists (dec_by m0 c). rewrite (HP p (Hsub p (or_introl eq_refl))), Hc.
    split; [reflexivity|]. cbn. rewrite <- Hb. f_equal. f_equal. lia. }
  destruct ctx as [[[tg pre] post] |]; cbn [ctx_ok] in *.
  - destruct Hctx as (Q & rest & HPeq & HQ & Hrest & Hsem).
    exists Q, rest. split; [exact HPeq|]. split; [|split].
    + intros q Hin. apply Hq; [|apply HQ; exact Hin].
      rewrite HPeq. apply in_app_iff in Hin. apply in_app_iff.
      destruct Hin as [Hin | [<- | []]]; [now left | right; now left].
    + apply Hst; [|exact Hrest]. intros p Hin. rewrite HPeq.
      apply in_app_iff. right. now right.
    + intros h1 H1 V HV fuel acc Hf. apply Hsem; [|exact HV|exact Hf].
      intros a Ha. eapply same_shape_trans; [apply Hshape; exact Ha | apply H1; exact Ha].
  - apply Hst; [|exact Hctx]. intros p Hin. exact Hin.
Qed.

(** The stack of a node seen around one of its children. *)
Lemma node_vis (hk : heap) (b lo_k hi_k a : nat) (c : cell) (l r : option operand)
      (o_k : operand) (Vl Vr : list targ) :
  nth_error hk a = Some c ->
  c_kids c = opt_list l ++ o_k :: opt_list r ->
  l = None \/ r = None ->
  (b <= lo_k)%nat -> (lo_k <= hi_k)%nat -> (hi_k <= a)%nat ->
  visible_child hk b lo_k l Vl ->
  visible_child hk hi_k a r Vr ->
  forall h1,
    (forall x, (x < lo_k \/ hi_k <= x)%nat -> same_shape (nth_error hk x) (nth_error h1 x)) ->
    forall V,
    (forall fuel acc, (hi_k - lo_k + 1 <= fuel)%nat ->
                      _post_order fuel h1 o_k acc = Some (acc ++ V)) ->
    forall fuel acc, (S a - b + 1 <= fuel)%nat ->
    _post_order fuel h1 (ORef a) acc = Some (acc ++ Vl ++ V ++ Vr ++ [c_arg c]).
Proof.
  intros Hc Hk Hlr Hb Hlh Hha Hl Hr h1 Hs V HV fuel acc Hf.
  destruct fuel as [| fuel]; [lia|]. cbn [_post_order].
  pose proof (Hs a (or_intror Hha)) as Hsa. rewrite Hc in Hsa.
  destruct (nth_error h1 a) as [c1 |]; [|destruct Hsa].
  destruct Hsa as [Harg Hkids]. rewrite <- Hkids, <- Harg, Hk.
  destruct l as [ol |], r as [or |]; cbn [opt_list app nth_error visible_child] in *.
  - destruct Hlr; discriminate.
  - subst Vr. rewrite (Hl h1); [|intros x Hx; apply Hs; lia|lia].
    rewrite HV by lia. rewrite <- !app_assoc. reflexivity.
  - subst Vl. rewrite HV by lia.
    rewrite (Hr h1); [|intros x Hx; apply Hs; lia|lia].
    rewrite <- !app_assoc. reflexivity.
  - subst Vl Vr. rewrite HV by lia. rewrite <- !app_assoc. reflexivity.
Qed.

(** The context of the child that carries the last reductions of a scalar
    node. *)
Lemma ctx_spine (hk : heap) (P : list nat) (m : Z) (b lo_k hi_k a : nat) (c : cell)
      (l r : option operand) (o_k : operand) (Vl Vr : list targ) (ctx : context) :
  nth_error hk a = Some c -> c_scalar c = true -> c_reds c = m ->
  c_kids c = opt_list l ++ o_k :: opt_list r ->
  l = None \/ r = None ->
  (b <= lo_k)%nat -> (lo_k <= hi_k)%nat -> (hi_k <= a)%nat ->
  visible_child hk b lo_k l Vl ->
  visible_child hk hi_k a r Vr ->
  ctx_ok hk P m b (S a) (ORef a) ctx ->
  ctx_ok hk (a :: P) m lo_k hi_k o_k (kid_context ctx a Vl Vr (c_arg c)).
Proof.
  intros Hc Hsc Hreds Hk Hlr Hb Hlh Hha Hl Hr Hctx.
  pose proof (@node_vis hk b lo_k hi_k a c l r o_k Vl Vr Hc Hk Hlr Hb Hlh Hha Hl Hr) as Hnv.
  assert (Hqa : qualifies hk m a) by (exists c; auto).
  destruct ctx as [[[tg pre] post] |]; cbn [ctx_ok kid_context] in *.
  - destruct Hctx as (Q & rest & HPeq & HQ & Hrest & Hsem).
    exists (a :: Q), rest. split; [now rewrite HPeq|]. split; [|split; [exact Hrest|]].
    + intros q [<- | Hin]; [exact Hqa | apply HQ; exact Hin].
    + intros h1 H1 V HV fuel acc Hf.
      rewrite (Hsem h1) with (V := Vl ++ V ++ Vr ++ [c_arg c]); [| |  |exact Hf].
      * rewrite <- !app_assoc. reflexivity.
      * intros x Hx. apply H1. lia.
      * intros fuel' acc' Hf'. apply (Hnv h1 H1 V HV). lia.
  - exists [], P. split; [reflexivity|]. split; [|split; [exact Hctx|]].
    + intros q [<- | []]. exact Hqa.
    + intros h1 H1 V HV fuel acc Hf.
      rewrite (Hnv h1 H1 V HV) by lia. reflexivity.
Qed.

(** ** The body of the reduction branch *)

Lemma find_scalar_parent_target (h : heap) (Q rest : list nat) (tg : nat) :
  (forall q, In q (Q ++ [tg]) -> qualifies h 0 q) ->
  stops h 0 rest ->
  find_scalar_parent h (Q ++ tg :: rest) None = Some tg.
Proof.
  intros HQ Hrest.
  replace (Q ++ tg :: rest) with ((Q ++ [tg]) ++ rest) by now rewrite <- app_assoc.
  rewrite find_scalar_parent_chain by exact HQ.
  rewrite rev_app_distr. cbn [rev app].
  apply find_scalar_parent_stops. exact Hrest.
Qed.

Lemma split_reduction_alone (h1 : heap) (a : nat) (c1 : cell) (P : list nat) (d1 : dedup)
      (stack : list targ) :
  nth_error h1 a = Some c1 ->
  _post_order (S (List.length h1)) h1 (ORef a) [] = Some stack ->
  let r := register reduction_stage stack (c_arg c1) d1 in
  let h2 := heap_set h1 a (mkCell (fst r) (c_scalar c1) (c_reds c1) []) in
  let h3 := decrement_parents h2 P in
  stops h3 0 P ->
  split_reduction a (state_of h1 d1 P) = Some (state_of h3 (snd r) P).
Proof.
  intros Hc Hpo r h2 h3 Hstop. unfold split_reduction, state_of.
  destruct (@process_node_register reduction_stage a h1 d1 P c1 stack Hc Hpo)
    as (st1 & stk & Hpn & Hadd).
  rewrite Hpn. cbv zeta. rewrite Hadd. cbv zeta.
  fold r. cbn [set_heap s_heap s_parents s_duplicates s_aliases s_stages].
  fold h2. fold h3. rewrite find_scalar_parent_stops by exact Hstop. reflexivity.
Qed.

Lemma split_reduction_target (h1 : heap) (a : nat) (c1 : cell) (P : list nat) (d1 : dedup)
      (stack : list targ) (Q rest : list nat) (tg : nat) (ctg : cell)
      (stack_tg : list targ) :
  nth_error h1 a = Some c1 ->
  _post_order (S (List.length h1)) h1 (ORef a) [] = Some stack ->
  let r := register reduction_stage stack (c_arg c1) d1 in
  let h2 := heap_set h1 a (mkCell (fst r) (c_scalar c1) (c_reds c1) []) in
  let h3 := decrement_parents h2 P in
  P = Q ++ tg :: rest ->
  (forall q, In q (Q ++ [tg]) -> qualifies h3 0 q) ->
  stops h3 0 rest ->
  nth_error h3 tg = Some ctg ->
  _post_order (S (List.length h3)) h3 (ORef tg) [] = Some stack_tg ->
  let r' := register scalar_stage stack_tg (c_arg ctg) (snd r) in
  split_reduction a (state_of h1 d1 P) =
  Some (state_of (heap_set h3 tg (mkCell (fst r') (c_scalar ctg) (c_reds ctg) []))
                 (snd r') P).
Proof.
  intros Hc Hpo r h2 h3 HP HQ Hrest Htg Hpo' r'. unfold split_reduction, state_of.
  subst P.
  destruct (@process_node_register reduction_stage a h1 d1 (Q ++ tg :: rest) c1 stack Hc Hpo)
    as (st1 & stk & Hpn & Hadd).
  rewrite Hpn. cbv zeta. rewrite Hadd. cbv zeta.
  fold r. cbn [set_heap s_heap s_parents s_duplicates s_aliases s_stages].
  fold h2. fold h3.
  rewrite find_scalar_parent_target by assumption.
  destruct (@process_node_register scalar_stage tg h3 (snd r) (Q ++ tg :: rest) ctg stack_tg
              Htg Hpo')
    as (st4 & stk4 & Hpn4 & Hadd4).
  unfold set_heap. cbn [s_heap s_parents s_duplicates s_aliases s_stages].
  rewrite Hpn4, Hadd4. reflexivity.
Qed.

(** ** Well-built trees, node by node *)

Lemma well_built_node (arg : targ) (sc : bool) (reds : Z) (kids : list tree) :
  well_built (Node arg sc reds kids) = true ->
  binary (Node arg sc reds kids) = true /\
  (is_reduction arg = true -> exists k, kids = [k]) /\
  reds = (if is_reduction arg then 1 else 0) + count_reductions_list kids /\
  sc = (if is_reduction arg then true
        else (0 <? List.length kids)%nat && forallb operand_scalar kids) /\
  Forall (fun k => well_built k = true) kids.
Proof.
  unfold well_built. rewrite !andb_true_iff. intros [[[Hb Hu] Hc] Hs].
  split; [exact Hb|].
  cbn [binary reductions_unary counts_with_self scalar_as_built] in *.
  rewrite andb_true_iff in Hb, Hu, Hc, Hs.
  destruct Hb as [_ Hb], Hu as [Hu1 Hu], Hc as [Hc1 Hc], Hs as [Hs1 Hs].
  split; [|split; [|split]].
  - intros Hr. rewrite Hr in Hu1. apply Nat.eqb_eq in Hu1.
    destruct kids as [| k [| k' ks]]; try discriminate. now exists k.
  - apply Z.eqb_eq in Hc1. exact Hc1.
  - destruct (is_reduction arg); apply Bool.eqb_prop in Hs1; exact Hs1.
  - rewrite forallb_forall in Hb, Hu, Hc, Hs. apply Forall_forall. intros k Hin.
    rewrite !andb_true_iff. auto.
Qed.

Lemma is_reduction_not_assign (a : targ) : is_reduction a = true -> not_assign a = true.
Proof.
  unfold is_reduction, not_assign. destruct (op_name a) as [n |]; [|reflexivity].
  intros H. apply in_reduction_ops_cases in H.
  destruct H as [-> | [-> | [-> | [-> | ->]]]]; reflexivity.
Qed.

Lemma no_assign_assign_ok (P : list nat) (t : tree) : no_assign t = true -> assign_ok P t.
Proof.
  destruct t as [a | arg sc reds kids]; cbn [no_assign assign_ok]; [trivial|].
  rewrite andb_true_iff. intros [Ha Hk]. split; [exact Hk|]. congruence.
Qed.

(** ** [finish] *)

Lemma finish_none (h : heap) (m : Z) (V : list targ) (d : dedup) :
  finish h m None V d = (None, d).
Proof. reflexivity. Qed.

Lemma finish_zero (h : heap) (ctx : context) (V : list targ) (d : dedup) :
  finish h 0 ctx V d = (None, d).
Proof. destruct ctx as [[[tg pre] post] |]; reflexivity. Qed.

Lemma finish_kid_context (h : heap) (m : Z) (ctx : context) (a : nat)
      (Vl Vr V : list targ) (arg : targ) (d : dedup) :
  finish h m (kid_context ctx a Vl Vr arg) V d =
  finish h m (kid_context ctx a [] [] arg) (Vl ++ V ++ Vr) d.
Proof.
  destruct ctx as [[[tg pre] post] |]; cbn [kid_context finish];
    rewrite ?app_nil_r; cbn [app]; rewrite <- ?app_assoc; reflexivity.
Qed.

Lemma finish_transport (h h1 : heap) (m0 m1 : Z) (tg : nat) (pre post V : list targ)
      (d : dedup) :
  0 <= m0 -> 0 < m1 ->
  nth_error h1 tg = option_map (dec_by m0) (nth_error h tg) ->
  finish h1 m1 (Some (tg, pre, post)) V d = finish h (m0 + m1) (Some (tg, pre, post)) V d.
Proof.
  intros H0 H1 Htg. cbn [finish].
  rewrite (proj2 (Z.ltb_lt 0 m1)) by lia.
  rewrite (proj2 (Z.ltb_lt 0 (m0 + m1))) by lia.
  rewrite Htg. destruct (nth_error h tg) as [c |]; cbn [option_map]; [|reflexivity].
  unfold dec_by. cbn [c_arg c_scalar c_reds].
  replace (c_reds c - m0 - m1) with (c_reds c - (m0 + m1)) by lia. reflexivity.
Qed.

Lemma finish_extr_kids (h : heap) (m : Z) (ctx : context) (V : list targ) (d : dedup)
      (tg : nat) (x : cell) :
  fst (finish h m ctx V d) = Some (tg, x) -> c_kids x = [].
Proof.
  destruct ctx as [[[tg' pre] post] |]; cbn [finish]; [|discriminate].
  destruct (0 <? m); [|discriminate].
  destruct (nth_error h tg'); [|discriminate].
  cbn [fst]. intros [= _ <-]. reflexivity.
Qed.

(** ** The dictionary keeps its keys named *)

Lemma splitP_stack_nonempty (t : tree) (ab : bool) (b : nat) (d : dedup) :
  snd (fst (splitP ab b t d)) <> [].
Proof.
  destruct t as [a | arg sc reds kids]; [discriminate|].
  rewrite splitP_node. cbv zeta.
  destruct (is_reduction arg || _); cbn [fst snd]; [discriminate|].
  destruct (snd (fst (split_kids _ _ kids b d))); discriminate.
Qed.

Lemma split_kids_named (can : bool) (ks : list tree) :
  Forall (fun k => forall ab b d, keys_named (dd_dups d) ->
                                  keys_named (dd_dups (snd (splitP ab b k d)))) ks ->
  forall b d, keys_named (dd_dups d) ->
  keys_named (dd_dups (snd (split_kids (fun ab b' k d' => splitP ab b' k d') can ks b d))).
Proof.
  induction 1 as [| k ks Hk _ IH]; intros b d Hd; cbn [split_kids snd]; [exact Hd|].
  apply IH. apply Hk. exact Hd.
Qed.

Lemma splitP_named (t : tree) :
  forall ab b d, keys_named (dd_dups d) -> keys_named (dd_dups (snd (splitP ab b t d))).
Proof.
  induction t as [a | arg sc reds kids IH] using tree_induction; intros ab b d Hd.
  - exact Hd.
  - rewrite splitP_node. cbv zeta.
    pose proof (@split_kids_named (sc && negb (is_reduction arg) && not_assign arg)
                  kids IH b d Hd) as Hk.
    destruct (is_reduction arg || _); cbn [fst snd]; [|exact Hk].
    apply register_named; [|exact Hk].
    destruct (snd (fst (split_kids _ _ kids b d))); discriminate.
Qed.

Lemma finish_named (h : heap) (m : Z) (ctx : context) (V : list targ) (d : dedup) :
  V <> [] -> keys_named (dd_dups d) -> keys_named (dd_dups (snd (finish h m ctx V d))).
Proof.
  intros HV Hd. destruct ctx as [[[tg pre] post] |]; cbn [finish]; [|exact Hd].
  destruct (0 <? m); [|exact Hd].
  destruct (nth_error h tg); [|exact Hd].
  cbn [snd]. apply register_named; [|exact Hd].
  destruct pre; [destruct V; [congruence | discriminate] | discriminate].
Qed.

(** ** The children of a node *)

Lemma own_cell (h : heap) (b : nat) (arg : targ) (sc : bool) (reds : Z) (kids : list tree) :
  (forall i, (i < ncells (Node arg sc reds kids))%nat ->
     nth_error h (b + i) = nth_error (seg b (Node arg sc reds kids)) i) ->
  nth_error h (b + ncells_list kids) = Some (mkCell arg sc reds (operands_at b kids)).
Proof.
  intros Hseg. rewrite Hseg by (cbn [ncells]; fold (ncells_list kids); lia).
  rewrite seg_node, <- (seg_list_length kids b). apply nth_error_snoc.
Qed.

Lemma above_cell_kids (h : heap) (P : list nat) (m : Z) (e : option (nat * cell))
      (a : nat) (c : cell) :
  nth_error h a = Some c ->
  (forall tg x, e = Some (tg, x) -> c_kids x = []) ->
  exists c', above_cell h P m e a = Some c' /\
             (c_kids c' = [] \/ (c_kids c' = c_kids c /\ c_arg c' = c_arg c)).
Proof.
  intros Hc He.
  assert (Hp : exists c', parent_cell h P m a = Some c' /\
                          c_kids c' = c_kids c /\ c_arg c' = c_arg c).
  { unfold parent_cell. rewrite Hc. destruct (existsb (Nat.eqb a) P); cbn [option_map].
    - exists (dec_by m c). auto.
    - exists c. auto. }
  destruct e as [[tg x] |]; cbn [above_cell].
  - destruct (Nat.eqb a tg).
    + exists x. split; [reflexivity|]. left. now apply (He tg x).
    + destruct Hp as (c' & Hc' & Hk). exists c'. auto.
  - destruct Hp as (c' & Hc' & Hk). exists c'. auto.
Qed.

Lemma kid_segment_first (h : heap) (b : nat) (arg : targ) (sc : bool) (reds : Z)
      (k0 : tree) (ks : list tree) :
  (forall i, (i < ncells (Node arg sc reds (k0 :: ks)))%nat ->
     nth_error h (b + i) = nth_error (seg b (Node arg sc reds (k0 :: ks))) i) ->
  forall i, (i < ncells k0)%nat -> nth_error h (b + i) = nth_error (seg b k0) i.
Proof.
  intros Hseg i Hi.
  rewrite Hseg by (cbn [ncells fold_right]; lia).
  rewrite seg_node. cbn [seg_list]. rewrite <- app_assoc.
  rewrite nth_error_app1 by (rewrite seg_length; exact Hi). reflexivity.
Qed.

Lemma kid_segment_second (h : heap) (b : nat) (arg : targ) (sc : bool) (reds : Z)
      (k0 k1 : tree) (ks : list tree) :
  (forall i, (i < ncells (Node arg sc reds (k0 :: k1 :: ks)))%nat ->
     nth_error h (b + i) = nth_error (seg b (Node arg sc reds (k0 :: k1 :: ks))) i) ->
  forall i, (i < ncells k1)%nat ->
  nth_error h (b + ncells k0 + i) = nth_error (seg (b + ncells k0) k1) i.
Proof.
  intros Hseg i Hi.
  rewrite <- Nat.add_assoc, Hseg by (cbn [ncells fold_right]; lia).
  rewrite seg_node. cbn [seg_list]. rewrite <- !app_assoc.
  rewrite nth_error_app2 by (rewrite seg_length; lia).
  rewrite seg_length. replace (ncells k0 + i - ncells k0)%nat with i by lia.
  rewrite nth_error_app1 by (rewrite seg_length; exact Hi). reflexivity.
Qed.

Lemma stops_own (h : heap) (m : Z) (a : nat) (P : list nat) (c : cell) :
  nth_error h a = Some c ->
  (c_scalar c && (c_reds c - m =? 0)) = false ->
  stops h m (a :: P).
Proof. intros Hc Hb. exists c. auto. Qed.

Lemma push_parent_nodup (arg : targ) (a : nat) (P : list nat) :
  NoDup P -> (forall p, In p P -> (a < p)%nat) -> NoDup (push_parent arg a P).
Proof.
  intros Hnd Hr. unfold push_parent. destruct (not_assign arg); [|exact Hnd].
  constructor; [|exact Hnd]. intros Hin. specialize (Hr a Hin). lia.
Qed.

Lemma push_parent_range (arg : targ) (a : nat) (P : list nat) :
  (forall p, In p P -> (a < p)%nat) ->
  forall p, In p (push_parent arg a P) -> (a <= p)%nat.
Proof.
  intros Hr p. unfold push_parent. destruct (not_assign arg).
  - intros [<- | Hin]; [lia | specialize (Hr p Hin); lia].
  - intros Hin. specialize (Hr p Hin). lia.
Qed.

Lemma push_parent_above (arg : targ) (a : nat) (P : list nat) (a' : nat) :
  (a < a')%nat ->
  existsb (Nat.eqb a') (push_parent arg a P) = existsb (Nat.eqb a') P.
Proof.
  intros Hlt. unfold push_parent. destruct (not_assign arg); [|reflexivity].
  cbn [existsb]. now rewrite (proj2 (Nat.eqb_neq a' a)) by lia.
Qed.

Lemma push_parent_in (arg : targ) (a : nat) (P : list nat) (p : nat) :
  In p P -> In p (push_parent arg a P).
Proof. unfold push_parent. destruct (not_assign arg); [now right | trivial]. Qed.

(** The walk stops at the node itself for a child that is not the last one
    with reductions, or whose parent cannot be extracted. *)
Lemma stops_pushed (h : heap) (arg : targ) (sc : bool) (reds : Z) (ko : list operand)
      (a : nat) (P : list nat) (m : Z) :
  nth_error h a = Some (mkCell arg sc reds ko) ->
  (not_assign arg = false -> P = []) ->
  (sc && negb (is_reduction arg) && not_assign arg && (reds - m =? 0)) = false ->
  (is_reduction arg = true -> reds - m <> 0) ->
  stops h m (push_parent arg a P).
Proof.
  intros Hc Has Hb Hred. unfold push_parent.
  destruct (not_assign arg) eqn:Hna.
  - apply (@stops_own h m a P _ Hc). cbn [c_scalar c_reds].
    destruct sc; [|reflexivity]. cbn [andb] in *.
    destruct (is_reduction arg) eqn:Hr.
    + apply Z.eqb_neq. now apply Hred.
    + cbn [negb andb] in Hb. exact Hb.
  - rewrite (Has eq_refl). exact I.
Qed.

Lemma untouched_visible (t : tree) (h : heap) (b : nat) :
  binary t = true -> count_reductions t = 0 ->
  (forall i, (i < ncells t)%nat -> nth_error h (b + i) = nth_error (seg b t) i) ->
  visible h b (b + ncells t) (operand_at b t) (tree_post_order t).
Proof.
  intros Hb Hz Hseg.
  pose proof (@splitP_visible t Hb false b (mkDedup [] [] []) h) as Hv.
  rewrite (@splitP_no_reductions t Hz) in Hv. apply Hv. exact Hseg.
Qed.

Lemma above_cell_below (h : heap) (P : list nat) (m : Z) (e : option (nat * cell))
      (a' : nat) :
  (forall tg x, e = Some (tg, x) -> a' <> tg) -> ~ In a' P ->
  above_cell h P m e a' = nth_error h a'.
Proof.
  intros He HP. destruct e as [[tg x] |]; cbn [above_cell].
  - rewrite (proj2 (Nat.eqb_neq a' tg)) by (now apply (He tg x)).
    now apply parent_cell_not_in.
  - now apply parent_cell_not_in.
Qed.

Lemma ctx_target_in (h : heap) (P : list nat) (m : Z) (lo hi : nat) (o : operand)
      (tg : nat) (pre post : list targ) :
  ctx_ok h P m lo hi o (Some (tg, pre, post)) -> In tg P.
Proof.
  intros (Q & rest & -> & _). apply in_app_iff. right. now left.
Qed.

Lemma finish_target (h : heap) (m : Z) (ctx : context) (V : list targ) (d : dedup)
      (tg : nat) (x : cell) :
  fst (finish h m ctx V d) = Some (tg, x) ->
  0 < m /\ exists pre post, ctx = Some (tg, pre, post).
Proof.
  destruct ctx as [[[tg' pre] post] |]; cbn [finish]; [|discriminate].
  destruct (0 <? m) eqn:Hm; [|discriminate].
  destruct (nth_error h tg'); [|discriminate].
  cbn [fst]. intros [= <- _]. split; [now apply Z.ltb_lt|]. eauto.
Qed.

Lemma kid_target (h : heap) (P : list nat) (m : Z) (lo hi : nat) (o : operand)
      (ctx : context) (a : nat) (Vl Vr V : list targ) (arg : targ) (d : dedup)
      (tg : nat) (x : cell) :
  fst (finish h m (kid_context ctx a Vl Vr arg) V d) = Some (tg, x) ->
  (0 < m -> ctx_ok h P m lo hi o ctx) ->
  tg = a \/ In tg P.
Proof.
  intros Hf Hctx. apply finish_target in Hf. destruct Hf as (Hm & pre & post & Hk).
  specialize (Hctx Hm).
  destruct ctx as [[[tg' pre'] post'] |]; cbn [kid_context] in Hk; injection Hk as <- _ _.
  - right. eapply ctx_target_in. exact Hctx.
  - now left.
Qed.

Lemma finish_transport_kid (h h1 : heap) (P : list nat) (m0 m1 : Z) (lo hi : nat)
      (o : operand) (ctx : context) (a : nat) (Vl Vr V : list targ) (arg : targ)
      (d : dedup) :
  0 <= m0 -> 0 < m1 ->
  ctx_ok h P (m0 + m1) lo hi o ctx ->
  (forall p, p = a \/ In p P -> nth_error h1 p = option_map (dec_by m0) (nth_error h p)) ->
  finish h1 m1 (kid_context ctx a Vl Vr arg) V d =
  finish h (m0 + m1) (kid_context ctx a Vl Vr arg) V d.
Proof.
  intros H0 H1 Hctx HP.
  destruct ctx as [[[tg pre] post] |]; cbn [kid_context].
  - apply finish_transport; [exact H0 | exact H1|].
    apply HP. right. eapply ctx_target_in. exact Hctx.
  - apply finish_transport; [exact H0 | exact H1|]. apply HP. now left.
Qed.

(** The two visits of the children of a node, given the statement for the
    children: they end in the store and the dictionaries that [split_kids]
    gives, the target being extracted when the last reductions beneath a
    scalar operation are done. *)
Lemma kids_phase (arg : targ) (sc : bool) (reds : Z) (kids : list tree) :
  well_built (Node arg sc reds kids) = true ->
  Forall (fun k => well_built k = true -> sim_stmt k) kids ->
  forall fuel b h d P ctx,
    assign_ok P (Node arg sc reds kids) ->
    (forall i, (i < ncells (Node arg sc reds kids))%nat ->
       nth_error h (b + i) = nth_error (seg b (Node arg sc reds kids)) i) ->
    NoDup P ->
    (forall p, In p P -> (b + ncells_list kids < p)%nat) ->
    (ncells_list kids + 1 <= fuel)%nat ->
    keys_named (dd_dups d) ->
    (sc && negb (is_reduction arg) && not_assign arg = true ->
     0 < count_reductions_list kids ->
     ctx_ok h P (count_reductions_list kids) b (S (b + ncells_list kids))
            (ORef (b + ncells_list kids)) ctx) ->
    exists h2,
      match visit_kid fuel (b + ncells_list kids) 0
              (state_of h d (push_parent arg (b + ncells_list kids) P)) with
      | None => None
      | Some st1 => visit_kid fuel (b + ncells_list kids) 1 st1
      end =
      Some (state_of h2
              (snd (kids_finish h ctx (b + ncells_list kids) arg
                      (sc && negb (is_reduction arg) && not_assign arg)
                      (count_reductions_list kids)
                      (split_kids (fun ab b' k d' => splitP ab b' k d')
                         (sc && negb (is_reduction arg) && not_assign arg) kids b d)))
              (push_parent arg (b + ncells_list kids) P)) /\
      heap_after h h2 b (b + ncells_list kids)
        (fst (fst (split_kids (fun ab b' k d' => splitP ab b' k d')
                     (sc && negb (is_reduction arg) && not_assign arg) kids b d)))
        (push_parent arg (b + ncells_list kids) P)
        (count_reductions_list kids)
        (fst (kids_finish h ctx (b + ncells_list kids) arg
                (sc && negb (is_reduction arg) && not_assign arg)
                (count_reductions_list kids)
                (split_kids (fun ab b' k d' => splitP ab b' k d')
                   (sc && negb (is_reduction arg) && not_assign arg) kids b d))).
Proof.
  intros Hwb IH fuel b h d P ctx Has Hseg Hnd Hr Hf Hd Hctx.
  destruct (@well_built_node _ _ _ _ Hwb) as (Hbin & Hun & Hreds & Hsc & Hwk).
  pose proof (@own_cell _ _ _ _ _ _ Hseg) as Hown.
  pose proof (@push_parent_nodup arg _ _ Hnd Hr) as HndP.
  pose proof (@push_parent_range arg _ _ Hr) as HrP.
  destruct Has as [Hnok Has].
  set (can := sc && negb (is_reduction arg) && not_assign arg) in *.
  destruct (binary_kids _ _ _ _ Hbin) as [-> | [(k0 & -> & Hb0) | (k0 & k1 & -> & Hb0 & Hb1)]].
  - (* no child *)
    cbn [ncells_list fold_right] in *. rewrite Nat.add_0_r in *.
    unfold visit_kid. cbn [state_of s_heap]. rewrite Hown.
    cbn [c_kids operands_at nth_error]. cbn [state_of s_heap]. rewrite Hown.
    cbn [c_kids nth_error].
    exists h. cbn [split_kids count_reductions_list fold_right].
    assert (Hkf : kids_finish h ctx b arg can 0 ([], [], d) = (None, d)).
    { unfold kids_finish. destruct can; [apply finish_zero | reflexivity]. }
    rewrite Hkf. cbn [fst snd]. split; [reflexivity|].
    apply heap_after_still. intros i Hi. lia.
  - (* one child *)
    pose proof (Forall_inv IH (Forall_inv Hwk)) as IH0.
    cbn [ncells_list count_reductions_list fold_right] in *.
    rewrite Nat.add_0_r, ?Z.add_0_r in *.
    set (a := (b + ncells k0)%nat) in *.
    set (P' := push_parent arg a P) in *.
    set (m0 := count_reductions k0) in *.
    pose proof (count_reductions_nonneg k0) as Hm0.
    cbn [split_kids]. cbn [count_reductions_list fold_right]. rewrite Z.eqb_refl, andb_true_r.
    set (r0 := splitP can b k0 d). cbn [fst snd]. rewrite !app_nil_r.
    set (ctx0 := if can then kid_context ctx a [] [] arg else None).
    cbn [forallb] in Hnok. rewrite andb_true_r in Hnok.
    assert (Hctx0 : 0 < m0 ->
              absorbed ctx0 = can /\
              ctx_ok h P' m0 b (b + ncells k0) (operand_at b k0) ctx0 /\
              (can = true -> operand_scalar k0 = true)).
    { intros Hpos. split; [|split].
      - subst ctx0. destruct can; [destruct ctx as [[[? ?] ?] |]|]; reflexivity.
      - subst ctx0. destruct can eqn:Hcan.
        + unfold can in Hcan. rewrite !andb_true_iff, negb_true_iff in Hcan.
          destruct Hcan as [[Hs Hnr] Hna].
          subst P'. unfold push_parent. rewrite Hna.
          apply (@ctx_spine h P m0 b b a a (mkCell arg sc reds [operand_at b k0])
                   None None (operand_at b k0) [] []); try reflexivity; try lia.
          * exact Hown.
          * exact Hs.
          * cbn [c_reds]. rewrite Hreds, Hnr. lia.
          * now left.
          * apply Hctx; [reflexivity | exact Hpos].
        + cbn [ctx_ok]. subst P'.
          apply (@stops_pushed h arg sc reds _ a P m0 Hown Has).
          * fold can. rewrite Hcan. reflexivity.
          * intros Hr'. rewrite Hreds, Hr'. lia.
      - intros Hcan. unfold can in Hcan. rewrite !andb_true_iff, negb_true_iff in Hcan.
        destruct Hcan as [[Hs Hnr] Hna]. rewrite Hnr, Hs in Hsc.
        cbn [forallb List.length] in Hsc. symmetry in Hsc.
        rewrite !andb_true_iff in Hsc. tauto. }
    destruct (IH0 fuel b h d P' ctx0 can
                (@no_assign_assign_ok P' k0 Hnok)
                (@kid_segment_first _ _ _ _ _ _ _ Hseg) HndP
                ltac:(intros p Hp; apply HrP in Hp; subst a; lia)
                ltac:(lia) Hd Hctx0) as (h1 & Hrun & Hafter).
    fold r0 in Hrun, Hafter. fold m0 in Hrun, Hafter.
    set (f0 := finish h m0 ctx0 (snd (fst r0)) (snd r0)) in *.
    unfold visit_kid at 1. cbn [state_of s_heap]. rewrite Hown.
    cbn [c_kids operands_at nth_error]. fold (state_of h d P'). rewrite Hrun.
    unfold visit_kid. cbn [state_of s_heap].
    destruct Hafter as (HL & HB & HC & HA).
    destruct (@above_cell_kids h P' m0 (fst f0) a _ Hown
                (fun tg x => @finish_extr_kids h m0 ctx0 _ _ tg x)) as (c' & Hc' & Hk').
    rewrite HA by (subst a; lia). rewrite Hc'.
    assert (Hnone : nth_error (c_kids c') 1 = None).
    { destruct Hk' as [-> | [-> _]]; reflexivity. }
    rewrite Hnone. exists h1.
    assert (Hkf : kids_finish h ctx a arg can m0 (fst (fst r0), snd (fst r0), snd r0) = f0).
    { unfold kids_finish. cbn [fst snd]. subst f0 ctx0. destruct can; reflexivity. }
    rewrite Hkf. split; [reflexivity|].
    split; [exact HL|]. split; [exact HB|]. split; [exact HC|]. exact HA.
  - (* two children *)
    pose proof (Forall_inv IH (Forall_inv Hwk)) as IH0.
    pose proof (Forall_inv (Forall_inv_tail IH) (Forall_inv (Forall_inv_tail Hwk))) as IH1.
    cbn [ncells_list count_reductions_list fold_right] in *.
    rewrite Nat.add_0_r, ?Z.add_0_r in *.
    set (n0 := ncells k0) in *. set (n1 := ncells k1) in *.
    set (a := (b + (n0 + n1))%nat) in *.
    set (P' := push_parent arg a P) in *.
    set (m0 := count_reductions k0) in *. set (m1 := count_reductions k1) in *.
    pose proof (count_reductions_nonneg k0) as Hm0.
    pose proof (count_reductions_nonneg k1) as Hm1.
    fold m0 in Hm0. fold m1 in Hm1.
    cbn [forallb] in Hnok. rewrite andb_true_r in Hnok.
    apply andb_true_iff in Hnok. destruct Hnok as [Hnok0 Hnok1].
    cbn [split_kids]. cbn [count_reductions_list fold_right].
    rewrite Z.add_0_r, Z.eqb_refl, andb_true_r. fold m1. fold n0.
    cbn [fst snd]. rewrite !app_nil_r.
    assert (Hnored : is_reduction arg = false).
    { destruct (is_reduction arg) eqn:E; [|reflexivity].
      destruct (Hun eq_refl) as (k & Hk). discriminate. }
    assert (Hsc0 : can = true -> operand_scalar k0 = true /\ operand_scalar k1 = true).
    { intros Hcan. unfold can in Hcan. rewrite !andb_true_iff in Hcan.
      destruct Hcan as [[Hs _] _]. rewrite Hnored, Hs in Hsc.
      cbn [forallb List.length] in Hsc. symmetry in Hsc.
      rewrite !andb_true_iff in Hsc. tauto. }
    destruct (Z.eqb_spec m1 0) as [Hz1 | Hnz1].
    + (* the first child carries the last reductions *)
      rewrite andb_true_r.
      set (r0 := splitP can b k0 d).
      assert (Hr1 : forall ab d', splitP ab (b + n0) k1 d' =
                                  (seg (b + n0) k1, tree_post_order k1, d')).
      { intros ab d'. apply splitP_no_reductions. exact Hz1. }
      rewrite Hr1. cbn [fst snd].
      set (Vr := tree_post_order k1).
      set (ctx0 := if can then kid_context ctx a [] Vr arg else None).
      set (own := mkCell arg sc reds [operand_at b k0; operand_at (b + ncells k0) k1]) in *.
      assert (Hctxn : can = true -> 0 < m0 -> ctx_ok h P m0 b (S a) (ORef a) ctx).
      { intros Hcan Hpos. replace m0 with (m0 + m1) by lia. apply Hctx; [exact Hcan | lia]. }
      assert (Hvis1 : visible h (b + n0) a (operand_at (b + n0) k1) Vr).
      { replace a with (b + n0 + ncells k1)%nat by (subst a; fold n1; lia).
        apply untouched_visible; [exact Hb1 | exact Hz1|].
        apply (@kid_segment_second _ _ _ _ _ _ _ _ Hseg). }
      assert (Hctx0 : 0 < m0 ->
                absorbed ctx0 = can /\
                ctx_ok h P' m0 b (b + n0) (operand_at b k0) ctx0 /\
                (can = true -> operand_scalar k0 = true)).
      { intros Hpos. split; [|split].
        - subst ctx0. destruct can; [destruct ctx as [[[? ?] ?] |]|]; reflexivity.
        - subst ctx0. destruct can eqn:Hcan.
          + unfold can in Hcan. rewrite !andb_true_iff, negb_true_iff in Hcan.
            destruct Hcan as [[Hs Hnr] Hna].
            subst P'. unfold push_parent. rewrite Hna.
            apply (@ctx_spine h P m0 b b (b + n0) a own None
                     (Some (operand_at (b + n0) k1)) (operand_at b k0) [] Vr ctx);
              try reflexivity; try lia.
            * exact Hown.
            * exact Hs.
            * cbn [c_reds own]. rewrite Hreds, Hnored. lia.
            * now left.
            * exact Hvis1.
            * apply Hctxn; [reflexivity | exact Hpos].
          + cbn [ctx_ok]. subst P'.
            apply (@stops_pushed h arg sc reds _ a P m0 Hown Has).
            * fold can. rewrite Hcan. reflexivity.
            * intros Hr'. congruence.
        - intros Hcan. now apply Hsc0. }
      destruct (IH0 fuel b h d P' ctx0 can
                  (@no_assign_assign_ok P' k0 Hnok0)
                  (@kid_segment_first _ _ _ _ _ _ _ Hseg) HndP
                  ltac:(intros p Hp; apply HrP in Hp; subst a; fold n0; lia)
                  ltac:(fold n0; lia) Hd Hctx0) as (h1 & Hrun0 & Hafter0).
      fold r0 in Hrun0, Hafter0. fold n0 in Hafter0. fold m0 in Hrun0, Hafter0.
      set (f0 := finish h m0 ctx0 (snd (fst r0)) (snd r0)) in *.
      pose proof Hafter0 as (HL0 & HB0 & HC0 & HA0).
      unfold visit_kid at 1. cbn [state_of s_heap]. rewrite Hown.
      cbn [c_kids own operands_at nth_error]. fold (state_of h d P'). rewrite Hrun0.
      unfold visit_kid. cbn [state_of s_heap].
      destruct (@above_cell_kids h P' m0 (fst f0) a _ Hown
                  (fun tg x => @finish_extr_kids h m0 ctx0 _ _ tg x)) as (c' & Hc' & Hk').
      rewrite HA0 by (subst a; lia). rewrite Hc'.
      assert (Hseg1 : forall i, (i < ncells k1)%nat ->
                nth_error h1 (b + n0 + i) = nth_error (seg (b + n0) k1) i).
      { intros i Hi. fold n1 in Hi. rewrite HA0 by lia. rewrite above_cell_below.
        - apply (@kid_segment_second _ _ _ _ _ _ _ _ Hseg). exact Hi.
        - intros tg x He Heq. subst f0 ctx0. destruct can eqn:Hcan.
          + apply (@kid_target h P m0 b (S a) (ORef a)) in He.
            * destruct He as [-> | Hin]; [subst a; lia | apply Hr in Hin; subst a; lia].
            * intros Hpos. now apply Hctxn.
          + discriminate He.
        - intros Hin. apply HrP in Hin. subst a. lia. }
      assert (Hstep : exists h2,
                match nth_error (c_kids c') 1 with
                | Some k => _split_stages fuel k (state_of h1 (snd f0) P')
                | None => Some (state_of h1 (snd f0) P')
                end = Some (state_of h2 (snd f0) P') /\
                heap_after h1 h2 (b + n0) a (seg (b + n0) k1) P' 0 None).
      { destruct Hk' as [Hk' | [Hk' _]]; rewrite Hk'; cbn [c_kids own operands_at nth_error].
        - exists h1. split; [reflexivity|]. apply heap_after_still.
          intros i Hi. apply Hseg1. fold n1. subst a. lia.
        - destruct (IH1 fuel (b + n0)%nat h1 (snd f0) P' None false
                      (@no_assign_assign_ok P' k1 Hnok1) Hseg1 HndP
                      ltac:(intros p Hp; apply HrP in Hp; subst a; fold n1; lia)
                      ltac:(fold n1; lia)
                      (@finish_named h m0 ctx0 _ _ (@splitP_stack_nonempty k0 can b d)
                         (@splitP_named k0 can b d Hd))
                      ltac:(fold m1; intros Hpos; exfalso; lia))
            as (h2 & Hrun1 & Hafter1).
          rewrite Hr1 in Hrun1, Hafter1. cbn [fst snd] in Hrun1, Hafter1.
          fold m1 in Hrun1, Hafter1. rewrite Hz1 in Hrun1, Hafter1.
          rewrite finish_none in Hrun1, Hafter1. cbn [fst snd] in Hrun1, Hafter1.
          exists h2. split; [exact Hrun1|].
          replace a with (b + n0 + ncells k1)%nat by (subst a; fold n1; lia).
          exact Hafter1. }
      destruct Hstep as (h2 & Hrun1 & Hafter1). rewrite Hrun1. exists h2.
      assert (Hkf : kids_finish h ctx a arg can (m0 + m1)
                      (fst (fst r0) ++ seg (b + n0) k1, snd (fst r0) ++ Vr, snd r0) = f0).
      { unfold kids_finish. cbn [fst snd]. rewrite Hz1, Z.add_0_r. subst f0 ctx0.
        destruct can; [|reflexivity].
        rewrite (@finish_kid_context h m0 ctx a [] Vr (snd (fst r0)) arg (snd r0)).
        reflexivity. }
      rewrite Hkf. split; [reflexivity|].
      rewrite Hz1, Z.add_0_r.
      apply (@heap_after_then_still h h1 h2 b (b + n0) a); try assumption.
      * subst a. lia.
      * unfold r0. rewrite splitP_cells_length. fold n0. lia.
    + (* the second child carries the last reductions *)
      rewrite andb_false_r.
      set (r0 := splitP false b k0 d).
      set (r1 := splitP can (b + n0) k1 (snd r0)).
      assert (Hctx0 : 0 < m0 ->
                absorbed None = false /\
                ctx_ok h P' m0 b (b + n0) (operand_at b k0) None /\
                (false = true -> operand_scalar k0 = true)).
      { intros _. split; [reflexivity|]. split; [|discriminate]. cbn [ctx_ok]. subst P'.
        apply (@stops_pushed h arg sc reds _ a P m0 Hown Has).
        - fold can. destruct can; [|reflexivity]. cbn [andb].
          apply Z.eqb_neq. rewrite Hreds, Hnored. lia.
        - intros Hr'. congruence. }
      destruct (IH0 fuel b h d P' None false
                  (@no_assign_assign_ok P' k0 Hnok0)
                  (@kid_segment_first _ _ _ _ _ _ _ Hseg) HndP
                  ltac:(intros p Hp; apply HrP in Hp; subst a; fold n0; lia)
                  ltac:(fold n0; lia) Hd Hctx0) as (h1 & Hrun0 & Hafter0).
      fold r0 in Hrun0, Hafter0. fold n0 in Hafter0. fold m0 in Hrun0, Hafter0.
      rewrite finish_none in Hrun0, Hafter0. cbn [fst snd] in Hrun0, Hafter0.
      pose proof Hafter0 as (HL0 & HB0 & HC0 & HA0).
      unfold visit_kid at 1. cbn [state_of s_heap]. rewrite Hown.
      cbn [c_kids operands_at nth_error]. fold (state_of h d P'). rewrite Hrun0.
      unfold visit_kid. cbn [state_of s_heap].
      set (own := mkCell arg sc reds [operand_at b k0; operand_at (b + ncells k0) k1]) in *.
      assert (Hown1 : nth_error h1 a = Some (if not_assign arg then dec_by m0 own else own)).
      { rewrite HA0 by (subst a; lia). cbn [above_cell].
        unfold parent_cell, P', push_parent. destruct (not_assign arg) eqn:Hna.
        - cbn [existsb]. rewrite Nat.eqb_refl. cbn [orb]. rewrite Hown. reflexivity.
        - rewrite (Has eq_refl). cbn [existsb]. exact Hown. }
      rewrite Hown1.
      assert (Hk1 : c_kids (if not_assign arg then dec_by m0 own else own) =
                    [operand_at b k0; operand_at (b + n0) k1]).
      { destruct (not_assign arg); reflexivity. }
      rewrite Hk1. cbn [nth_error]. fold (state_of h1 (snd r0) P').
      assert (Hseg1 : forall i, (i < ncells k1)%nat ->
                nth_error h1 (b + n0 + i) = nth_error (seg (b + n0) k1) i).
      { intros i Hi. rewrite HA0 by lia. cbn [above_cell].
        rewrite parent_cell_not_in.
        - apply (@kid_segment_second _ _ _ _ _ _ _ _ Hseg). exact Hi.
        - intros Hin. apply HrP in Hin. subst a. fold n1 in Hi. lia. }
      set (ctx1 := if can then kid_context ctx a (snd (fst r0)) [] arg else None).
      assert (Hmem : forall p, p = a \/ In p P -> not_assign arg = true ->
                     nth_error h1 p = option_map (dec_by m0) (nth_error h p)).
      { intros p Hp Hna. rewrite HA0.
        - cbn [above_cell]. apply parent_cell_in. subst P'. unfold push_parent.
          rewrite Hna. destruct Hp as [-> | Hp]; [now left | now right].
        - destruct Hp as [-> | Hp]; [subst a; lia | apply Hr in Hp; subst a; lia]. }
      assert (Hctx1 : 0 < m1 ->
                absorbed ctx1 = can /\
                ctx_ok h1 P' m1 (b + n0) (b + n0 + ncells k1)
                       (operand_at (b + n0) k1) ctx1 /\
                (can = true -> operand_scalar k1 = true)).
      { intros Hpos. split; [|split].
        - subst ctx1. destruct can; [destruct ctx as [[[? ?] ?] |]|]; reflexivity.
        - subst ctx1. destruct can eqn:Hcan.
          + unfold can in Hcan. rewrite !andb_true_iff, negb_true_iff in Hcan.
            destruct Hcan as [[Hs Hnr] Hna].
            subst P'. unfold push_parent. rewrite Hna. rewrite Hna in Hown1.
            fold n1. replace (b + n0 + n1)%nat with a by (subst a; lia).
            apply (@ctx_spine h1 P m1 b (b + n0) a a (dec_by m0 own)
                     (Some (operand_at b k0)) None (operand_at (b + n0) k1)
                     (snd (fst r0)) [] ctx); try reflexivity; try lia.
            * exact Hown1.
            * exact Hs.
            * cbn [dec_by c_reds own]. rewrite Hreds, Hnored. lia.
            * now right.
            * cbn [visible_child]. apply splitP_visible; [exact Hb0|].
              intros i Hi. apply HC0. fold n0 in Hi. lia.
            * apply (@ctx_transport h h1 P m0 m1).
              -- apply Hctx; [reflexivity | lia].
              -- intros a' [Hlt | Hge].
                 ++ rewrite HB0 by exact Hlt. apply same_shape_refl.
                 ++ rewrite HA0 by (subst a; lia). cbn [above_cell].
                    apply parent_cell_shape.
              -- intros p Hp. apply Hmem; [now right | exact Hna].
          + cbn [ctx_ok].
            assert (Hna : not_assign arg = true \/ not_assign arg = false)
              by (destruct (not_assign arg); auto).
            destruct Hna as [Hna | Hna].
            * subst P'. rewrite Hna in Hown1.
              apply (@stops_pushed h1 arg sc (reds - m0) _ a P m1 Hown1 Has).
              -- fold can. rewrite Hcan. reflexivity.
              -- intros Hr'. congruence.
            * subst P'. unfold push_parent. rewrite Hna, (Has Hna). exact I.
        - intros Hcan. now apply Hsc0. }
      destruct (IH1 fuel (b + n0)%nat h1 (snd r0) P' ctx1 can
                  (@no_assign_assign_ok P' k1 Hnok1) Hseg1 HndP
                  ltac:(intros p Hp; apply HrP in Hp; subst a; fold n1; lia)
                  ltac:(fold n1; lia) (@splitP_named k0 false b d Hd) Hctx1)
        as (h2 & Hrun1 & Hafter1).
      fold r1 in Hrun1, Hafter1. fold n1 in Hafter1. fold m1 in Hrun1, Hafter1.
      rewrite Hrun1. exists h2.
      assert (Hkf : kids_finish h ctx a arg can (m0 + m1)
                      (fst (fst r0) ++ fst (fst r1), snd (fst r0) ++ snd (fst r1), snd r1)
                    = finish h1 m1 ctx1 (snd (fst r1)) (snd r1)).
      { unfold kids_finish. cbn [fst snd]. subst ctx1. destruct can eqn:Hcan; [|reflexivity].
        unfold can in Hcan. rewrite !andb_true_iff, negb_true_iff in Hcan.
        destruct Hcan as [[Hs Hnr] Hna].
        rewrite (@finish_kid_context h1 m1 ctx a (snd (fst r0)) [] (snd (fst r1)) arg (snd r1)).
        rewrite app_nil_r.
        apply eq_sym.
        apply (@finish_transport_kid h h1 P m0 m1 b (S a) (ORef a)); try lia.
        - apply Hctx; [reflexivity | lia].
        - intros p Hp. apply Hmem; assumption. }
      rewrite Hkf. split; [reflexivity|].
      apply (@heap_after_compose h h1 h2 b (b + n0) a); try assumption.
      * replace a with (b + n0 + n1)%nat by (subst a; lia). exact Hafter1.
      * subst a. lia.
      * unfold r0. rewrite splitP_cells_length. fold n0. lia.
Qed.

(** ** The pass on a tree *)

Lemma tl_push_parent (arg : targ) (a : nat) (P : list nat) :
  (not_assign arg = false -> P = []) -> tl (push_parent arg a P) = P.
Proof.
  intros Has. unfold push_parent. destruct (not_assign arg); [reflexivity|].
  now rewrite (Has eq_refl).
Qed.

Lemma heap_after_extract (h h3 : heap) (lo hi : nat) (cells : list cell) (P : list nat)
      (m : Z) (tg : nat) (x : cell) :
  heap_after h h3 lo hi cells P m None ->
  (lo <= hi)%nat -> (hi <= tg)%nat -> (tg < List.length h3)%nat ->
  heap_after h (heap_set h3 tg x) lo hi cells P m (Some (tg, x)).
Proof.
  intros (L & B & C & A) Hlo Hhi Hlt.
  split; [now rewrite heap_set_length|]. split; [|split].
  - intros a Ha. rewrite heap_set_other by lia. now apply B.
  - intros i Hi. rewrite heap_set_other by lia. now apply C.
  - intros a Ha. cbn [above_cell]. destruct (Nat.eqb_spec a tg) as [-> | Hne].
    + now apply heap_set_same.
    + rewrite heap_set_other by congruence. rewrite A by exact Ha. reflexivity.
Qed.

(** [_split_stages] on the cells of a well-built tree ends, and computes
    what the functional splitter computes. *)
Lemma sim (t : tree) : well_built t = true -> sim_stmt t.
Proof.
  induction t as [x | arg sc reds kids IH] using tree_induction; intros Hwb.
  - (* a tuple: nothing to do *)
    intros fuel b h d P ctx ab _ _ _ _ Hf _ _. cbn [ncells] in Hf.
    destruct fuel as [| fuel]; [lia|].
    cbn [operand_at splitP fst snd count_reductions ncells].
    rewrite finish_zero. cbn [fst snd].
    exists h. split; [reflexivity|]. rewrite Nat.add_0_r.
    apply heap_after_still. intros i Hi. lia.
  - intros fuel b h d P ctx ab Has Hseg Hnd Hr Hf Hd Hctx.
    destruct (@well_built_node _ _ _ _ Hwb) as (Hbin & Hun & Hreds & Hsc & Hwk).
    pose proof (@own_cell _ _ _ _ _ _ Hseg) as Hown.
    assert (Hn : ncells (Node arg sc reds kids) = S (ncells_list kids)) by reflexivity.
    rewrite Hn in Hr, Hf, Hctx |- *.
    change (operand_at b (Node arg sc reds kids)) with (ORef (b + ncells_list kids)) in *.
    replace (b + S (ncells_list kids))%nat with (S (b + ncells_list kids)) in * by lia.
    set (a := (b + ncells_list kids)%nat) in *.
    destruct fuel as [| fuel]; [lia|].
    rewrite split_stages_cell. cbn [state_of s_heap]. rewrite Hown. cbv zeta. cbn [c_arg].
    replace (if not_assign arg
             then set_parents (state_of h d P) (a :: s_parents (state_of h d P))
             else state_of h d P)
      with (state_of h d (push_parent arg a P))
      by (unfold push_parent; destruct (not_assign arg); reflexivity).
    assert (Hr' : forall p, In p P -> (a < p)%nat).
    { intros p Hp. apply Hr in Hp. lia. }
    rewrite count_reductions_node in *.
    assert (Hctx' : sc && negb (is_reduction arg) && not_assign arg = true ->
                    0 < count_reductions_list kids ->
                    ctx_ok h P (count_reductions_list kids) b (S a) (ORef a) ctx).
    { intros Hcan Hpos. rewrite !andb_true_iff, negb_true_iff in Hcan.
      destruct Hcan as [[_ Hnr] _]. rewrite Hnr in Hctx. cbn [Z.add] in Hctx.
      apply Hctx. rewrite Z.add_0_l. exact Hpos. }
    destruct (@kids_phase arg sc reds kids Hwb IH fuel b h d P ctx Has Hseg Hnd Hr'
                ltac:(lia) Hd Hctx') as (h2 & Hrun & Hafter).
    fold a in Hrun, Hafter.
    rewrite splitP_node. cbv zeta.
    set (can := sc && negb (is_reduction arg) && not_assign arg) in *.
    set (rk := split_kids (fun ab b' k d' => splitP ab b' k d') can kids b d) in *.
    set (nr := count_reductions_list kids) in *.
    set (fK := kids_finish h ctx a arg can nr rk) in *.
    pose proof (count_reductions_list_nonneg kids) as Hnr0. fold nr in Hnr0.
    destruct (visit_kid fuel a 0 _) as [st1 |]; [|discriminate Hrun]. rewrite Hrun.
    cbn [state_of set_parents s_heap s_parents s_duplicates s_aliases s_stages].
    rewrite (@tl_push_parent arg a P (proj2 Has)).
    fold (state_of h2 (snd fK) P).
    pose proof Hafter as (HL & HB & HC & HA).
    rewrite (HA a) by lia.
    assert (Hlenk : List.length (fst (fst rk)) = ncells_list kids).
    { subst rk. apply split_kids_cells_length.
      apply Forall_forall. intros k _. apply splitP_cells_length. }
    assert (Hdk : keys_named (dd_dups (snd rk))).
    { subst rk. apply split_kids_named; [|exact Hd].
      apply Forall_forall. intros k _. apply splitP_named. }
    assert (Hred : is_reduction arg = true \/ is_reduction arg = false)
      by (destruct (is_reduction arg); auto).
    destruct Hred as [Hred | Hred].
    + (* a reduction *)
      pose proof (@is_reduction_not_assign _ Hred) as Hna.
      assert (Hcan : can = false).
      { unfold can. rewrite Hred. cbn [negb]. now rewrite andb_false_r. }
      rewrite Hred in Hctx |- *. cbn [orb].
      subst fK. unfold kids_finish in *. rewrite Hcan in *. cbn [fst snd] in *.
      assert (HP' : push_parent arg a P = a :: P) by (unfold push_parent; now rewrite Hna).
      rewrite HP' in *. rewrite Hna.
      set (c2 := mkCell arg sc (reds - nr) (operands_at b kids)).
      assert (Hown2 : nth_error h2 a = Some c2).
      { rewrite (HA a) by lia. cbn [above_cell]. rewrite parent_cell_in by (now left).
        rewrite Hown. reflexivity. }
      rewrite <- (HA a) by lia. rewrite Hown2. cbn [c_arg c2]. rewrite Hred.
      assert (Hvis : visible h2 b (S a) (ORef a) (snd (fst rk) ++ [arg])).
      { destruct (Hun Hred) as (k0 & Hk0).
        assert (Hb0 : binary k0 = true).
        { rewrite Hk0 in Hbin. cbn [binary forallb] in Hbin.
          rewrite andb_true_r in Hbin. apply andb_true_iff in Hbin. tauto. }
        pose proof (@visible_cell h2 b (S a) a c2
                      (snd (fst (splitP (can && (count_reductions_list [] =? 0)) b k0 d)))
                      [] Hown2 ltac:(lia)) as Hv.
        subst c2 rk a. rewrite Hk0 in *.
        cbn [c_kids c_arg operands_at nth_error visible_child split_kids fst snd
             ncells_list fold_right] in *.
        rewrite !app_nil_r. rewrite Nat.add_0_r in *. apply Hv; [|reflexivity].
        apply splitP_visible; [exact Hb0|].
        intros i Hi. rewrite HC by lia. rewrite app_nil_r. reflexivity. }
      assert (Hpo : _post_order (S (List.length h2)) h2 (ORef a) []
                    = Some (snd (fst rk) ++ [arg])).
      { apply (Hvis h2 (fun _ _ => same_shape_refl _)).
        apply nth_error_in_range in Hown2. lia. }
      set (r := register reduction_stage (snd (fst rk) ++ [arg]) arg (snd rk)).
      set (cr := mkCell (fst r) sc (reds - nr) []).
      set (h3 := decrement_parents (heap_set h2 a cr) P).
      assert (HaP : ~ In a P) by (intros Hin; apply Hr' in Hin; lia).
      assert (Hlt2 : (a < List.length h2)%nat) by (now apply nth_error_in_range in Hown2).
      assert (Hafter3 : heap_after h h3 b (S a) (fst (fst rk) ++ [cr]) P (1 + nr) None).
      { split; [|split; [|split]].
        - unfold h3. now rewrite decrement_parents_length, heap_set_length.
        - intros a' Ha'. unfold h3.
          rewrite decrement_parents_other by (intros Hin; apply Hr' in Hin; lia).
          rewrite heap_set_other by lia. now apply HB.
        - intros i Hi. unfold h3.
          rewrite decrement_parents_other by (intros Hin; apply Hr' in Hin; lia).
          destruct (Nat.lt_ge_cases i (a - b)) as [Hlt | Hge].
          + rewrite heap_set_other by lia. rewrite nth_error_app1 by lia. now apply HC.
          + assert (i = (a - b)%nat) as -> by lia.
            replace (b + (a - b))%nat with a by lia.
            rewrite heap_set_same by exact Hlt2.
            replace (a - b)%nat with (List.length (fst (fst rk))) by lia.
            symmetry. apply nth_error_snoc.
        - intros a' Ha'. cbn [above_cell]. unfold h3.
          destruct (in_dec Nat.eq_dec a' P) as [Hin | Hnin].
          + rewrite decrement_parents_in by assumption.
            rewrite heap_set_other by lia. rewrite HA by lia. cbn [above_cell].
            rewrite parent_cell_push by lia. rewrite !parent_cell_in by exact Hin.
            rewrite option_map_dec_add. now rewrite (Z.add_comm nr 1).
          + rewrite decrement_parents_other by assumption.
            rewrite heap_set_other by lia. rewrite HA by lia. cbn [above_cell].
            rewrite parent_cell_push by lia. now rewrite !parent_cell_not_in. }
      pose proof Hafter3 as (HL3 & HB3 & HC3 & HA3).
      destruct (Hctx ltac:(lia)) as (Hab & Hok & _).
      assert (Hok3 : ctx_ok h3 P 0 b (S a) (ORef a) ctx).
      { apply (@ctx_transport h h3 P (1 + nr) 0).
        - now rewrite Z.add_0_r.
        - intros a' [Hlt | Hge].
          + rewrite HB3 by exact Hlt. apply same_shape_refl.
          + rewrite HA3 by exact Hge. cbn [above_cell]. apply parent_cell_shape.
        - intros p Hp. rewrite HA3 by (apply Hr' in Hp; lia). cbn [above_cell].
          now apply parent_cell_in. }
      change (set_parents (state_of h2 (snd rk) (a :: P)) P) with (state_of h2 (snd rk) P).
      destruct ctx as [[[tg pre] post] |]; cbn [ctx_ok] in Hok3.
      * (* a scalar ancestor is extracted *)
        pose proof (ctx_target_in Hok) as Htg. pose proof (Hr' tg Htg) as Htga.
        destruct Hok3 as (Q & rest & HPeq & HQ & Hrest & Hsem).
        destruct (HQ tg ltac:(apply in_app_iff; right; now left)) as (ctg3 & Hctg3 & _).
        assert (Hctg : exists ctg, nth_error h tg = Some ctg /\ ctg3 = dec_by (1 + nr) ctg).
        { rewrite HA3 in Hctg3 by lia. cbn [above_cell] in Hctg3.
          rewrite parent_cell_in in Hctg3 by exact Htg.
          destruct (nth_error h tg) as [ctg |]; [|discriminate].
          exists ctg. split; [reflexivity|]. cbn [option_map] in Hctg3. congruence. }
        destruct Hctg as (ctg & Hctg & ->).
        assert (Hcr : nth_error h3 a = Some cr).
        { replace a with (b + (a - b))%nat by lia. rewrite HC3 by lia.
          replace (a - b)%nat with (List.length (fst (fst rk))) by lia.
          apply nth_error_snoc. }
        pose proof (@visible_cell_cut h3 b (S a) a cr Hcr eq_refl ltac:(lia)) as Hcut.
        assert (Hpo3 : _post_order (S (List.length h3)) h3 (ORef tg) []
                       = Some (pre ++ [fst r] ++ post)).
        { apply (Hsem h3 (fun _ _ => same_shape_refl _) [fst r]).
          - intros fuel' acc Hf'. apply (Hcut h3 (fun _ _ => same_shape_refl _)). exact Hf'.
          - apply nth_error_in_range in Hctg3. lia. }
        pose proof (@split_reduction_target h2 a c2 P (snd rk) _ Q rest tg
                      (dec_by (1 + nr) ctg) (pre ++ [fst r] ++ post) Hown2 Hpo)
          as Hsr.
        cbv zeta in Hsr. cbn [c_arg c_scalar c_reds c2] in Hsr.
        fold r in Hsr. fold cr in Hsr. fold h3 in Hsr.
        rewrite (Hsr HPeq HQ Hrest Hctg3 Hpo3).
        cbn [finish]. rewrite (proj2 (Z.ltb_lt 0 (1 + nr))) by lia. rewrite Hctg.
        cbn [fst snd dec_by c_arg c_scalar c_reds].
        eexists. split; [reflexivity|].
        apply heap_after_extract; [exact Hafter3 | lia | lia |].
        apply nth_error_in_range in Hctg3. exact Hctg3.
      * (* the walk stops at once *)
        pose proof (@split_reduction_alone h2 a c2 P (snd rk) _ Hown2 Hpo) as Hsr.
        cbv zeta in Hsr. cbn [c_arg c_scalar c_reds c2] in Hsr.
        fold r in Hsr. fold cr in Hsr. fold h3 in Hsr.
        rewrite Hsr by exact Hok3. rewrite finish_none. cbn [fst snd].
        exists h3. split; [reflexivity | exact Hafter3].
    + (* an elementwise operation *)
      rewrite Hred in Hctx |- *. cbn [orb]. rewrite Z.add_0_l in Hctx |- *.
      assert (Hparent : parent_cell h (push_parent arg a P) nr a =
                        Some (mkCell arg sc (if not_assign arg then reds - nr else reds)
                                (operands_at b kids))).
      { unfold parent_cell, push_parent. destruct (not_assign arg) eqn:Hna.
        - cbn [existsb]. rewrite Nat.eqb_refl. cbn [orb]. rewrite Hown. reflexivity.
        - rewrite (proj2 Has Hna). cbn [existsb]. rewrite Hown. reflexivity. }
      assert (Hclose : forall a', (a < a')%nat ->
                existsb (Nat.eqb a') (push_parent arg a P) = existsb (Nat.eqb a') P).
      { intros a' Ha'. now apply push_parent_above. }
      destruct (can && (0 <? nr)) eqn:Hc.
      * (* the last reductions beneath a scalar operation are done *)
        apply andb_true_iff in Hc. destruct Hc as [Hcan Hpos].
        pose proof Hcan as Hcan'. unfold can in Hcan'.
        rewrite !andb_true_iff in Hcan'. destruct Hcan' as [[Hs _] Hna].
        destruct (Hctx (proj1 (Z.ltb_lt 0 nr) Hpos)) as (Hab & Hok & _).
        subst fK. unfold kids_finish in *. rewrite Hcan in *.
        destruct ctx as [[[tg pre] post] |]; cbn [absorbed] in Hab; subst ab;
          cbn [negb andb kid_context finish fst snd] in *; rewrite Hpos in *.
        -- (* absorbed by an ancestor *)
           pose proof (ctx_target_in Hok) as Htg. apply Hr' in Htg.
           destruct Hok as (Q & rest & HP & HQ & _).
           destruct (HQ tg ltac:(apply in_app_iff; right; now left)) as (ctg & Hctg & _).
           rewrite Hctg in *. cbn [fst snd] in *.
           rewrite !app_nil_r in *. cbn [app] in *.
           replace (pre ++ (snd (fst rk) ++ [arg]) ++ post)
             with (pre ++ snd (fst rk) ++ arg :: post)
             by (now rewrite <- app_assoc).
           cbn [above_cell]. rewrite (proj2 (Nat.eqb_neq a tg)) by lia.
           rewrite Hparent. cbn [c_arg]. rewrite Hred.
           exists h2. split; [reflexivity|].
           pose proof (@heap_after_close h h2 b a (fst (fst rk)) _ P nr _ _ Hafter
                         ltac:(lia) ltac:(rewrite Hlenk; lia) Hclose
                         ltac:(rewrite (HA a) by lia; cbn [above_cell];
                               rewrite (proj2 (Nat.eqb_neq a tg)) by lia; exact Hparent))
             as Hcl.
           cbv beta iota in Hcl.
           rewrite (proj2 (Nat.eqb_neq tg a)) in Hcl by lia. exact Hcl.
        -- (* the node itself is extracted *)
           rewrite Hown in *. cbn [fst snd c_arg c_scalar c_reds app] in *.
           cbn [above_cell]. rewrite Nat.eqb_refl. cbn [c_arg].
           rewrite (is_reduction_name _ _ (@register_name scalar_stage _ arg _ Hdk)), Hred.
           rewrite Hna.
           exists h2. split; [reflexivity|].
           pose proof (@heap_after_close h h2 b a (fst (fst rk)) _ P nr _ _ Hafter
                         ltac:(lia) ltac:(rewrite Hlenk; lia) Hclose
                         ltac:(rewrite (HA a) by lia; cbn [above_cell];
                               rewrite Nat.eqb_refl; reflexivity))
             as Hcl.
           cbv beta iota in Hcl. rewrite Nat.eqb_refl in Hcl. exact Hcl.
      * (* nothing to extract *)
        cbn [andb].
        assert (HfK : fK = (None, snd rk)).
        { subst fK. unfold kids_finish. apply andb_false_iff in Hc.
          destruct Hc as [-> | Hz]; [reflexivity|].
          apply Z.ltb_ge in Hz. replace nr with 0 by lia.
          destruct can; [apply finish_zero | reflexivity]. }
        assert (Hfin : forall V, finish h nr ctx V (snd rk) = (None, snd rk)).
        { intros V. destruct (Z.ltb_spec 0 nr) as [Hpos | Hz].
          - rewrite andb_true_r in Hc.
            destruct (Hctx Hpos) as (Hab & Hok & Hsc').
            destruct ctx as [[[tg pre] post] |]; [|apply finish_none].
            exfalso. cbn [absorbed] in Hab. cbn [operand_scalar] in Hsc'.
            specialize (Hsc' (eq_sym Hab)).
            unfold can in Hc. rewrite Hsc', Hred in Hc. cbn [negb andb] in Hc.
            pose proof (ctx_target_in Hok) as Htg.
            rewrite (proj2 Has Hc) in Htg. destruct Htg.
          - replace nr with 0 by lia. apply finish_zero. }
        rewrite HfK in *. cbn [fst snd] in *. rewrite Hfin. cbn [fst snd].
        cbn [above_cell]. rewrite Hparent. cbn [c_arg]. rewrite Hred.
        exists h2. split; [reflexivity|].
        exact (@heap_after_close h h2 b a (fst (fst rk)) _ P nr None _ Hafter
                 ltac:(lia) ltac:(rewrite Hlenk; lia) Hclose
                 ltac:(rewrite (HA a) by lia; exact Hparent)).
Qed.

(** ** More on the trees [_build_tree] makes *)

Lemma float_op_arity_in_bound (tbl : list (string * nat)) (name : string) (n k : nat) :
  forallb (fun p => Nat.leb (snd p) k) tbl = true ->
  float_op_arity_in tbl name = Some n -> (n <= k)%nat.
Proof.
  induction tbl as [| [m a] tbl IH]; simpl; [discriminate|].
  rewrite andb_true_iff. intros [Ha Ht].
  destruct (String.eqb m name).
  - intros [= <-]. now apply Nat.leb_le.
  - now apply IH.
Qed.

Lemma float_op_arity_bound (name : string) (n : nat) :
  float_op_arity name = Some n -> (n <= 2)%nat.
Proof. apply float_op_arity_in_bound. reflexivity. Qed.

Lemma token_arity_bound (a : targ) (n : nat) : token_arity a = Some n -> (n <= 2)%nat.
Proof.
  destruct a as [x dt tk | x | name c r]; simpl; try discriminate.
  destruct (float_op_arity name) as [k |] eqn:E.
  - intros [= <-]. now apply (float_op_arity_bound name).
  - destruct (in_reduction_ops name); [|discriminate]. intros [= <-]. lia.
Qed.

Lemma token_arity_reduction (a : targ) :
  is_reduction a = true -> token_arity a = Some 1%nat.
Proof.
  destruct a as [x dt tk | x | name c r]; cbn [is_reduction op_name token_arity];
    try discriminate.
  intros H. rewrite (reduction_not_float_op name H), H. reflexivity.
Qed.

Lemma token_arity_name (a b : targ) : op_name a = op_name b -> token_arity a = token_arity b.
Proof.
  destruct a as [x dt tk | x | n c r], b as [x' dt' tk' | x' | n' c' r']; simpl;
    try discriminate; try reflexivity.
  now intros [= ->].
Qed.

Lemma arity_ok_node (arg : targ) (sc : bool) (reds : Z) (kids : list tree) :
  arity_ok (Node arg sc reds kids) = true ->
  token_arity arg = Some (List.length kids) /\ Forall (fun k => arity_ok k = true) kids.
Proof.
  cbn [arity_ok]. rewrite andb_true_iff. intros [Ha Hk]. split.
  - destruct (token_arity arg) as [n |]; [|discriminate].
    apply Nat.eqb_eq in Ha. now subst.
  - apply Forall_forall. now apply forallb_forall.
Qed.

Lemma arity_ok_binary (t : tree) : arity_ok t = true -> binary t = true.
Proof.
  induction t as [a | arg sc reds kids IH] using tree_induction; intros H; [reflexivity|].
  destruct (arity_ok_node _ _ _ _ H) as [Ha Hk]. cbn [binary].
  apply andb_true_iff. split.
  - apply Nat.leb_le. now apply (token_arity_bound arg).
  - apply forallb_forall. intros k Hin.
    rewrite Forall_forall in IH, Hk. apply IH; [exact Hin | now apply Hk].
Qed.

Lemma arity_ok_unary (t : tree) : arity_ok t = true -> reductions_unary t = true.
Proof.
  induction t as [a | arg sc reds kids IH] using tree_induction; intros H; [reflexivity|].
  destruct (arity_ok_node _ _ _ _ H) as [Ha Hk]. cbn [reductions_unary].
  apply andb_true_iff. split.
  - destruct (is_reduction arg) eqn:Hr; [|reflexivity].
    rewrite (token_arity_reduction arg Hr) in Ha. injection Ha as <-. reflexivity.
  - apply forallb_forall. intros k Hin.
    rewrite Forall_forall in IH, Hk. apply IH; [exact Hin | now apply Hk].
Qed.

(** The stack holds the tokens read so far, in post order, bottom first. *)
Lemma flat_map_app {A B : Type} (f : A -> list B) (l1 l2 : list A) :
  flat_map f (l1 ++ l2) = flat_map f l1 ++ flat_map f l2.
Proof. induction l1 as [| x l1 IH]; simpl; [reflexivity|]. now rewrite IH, app_assoc. Qed.

Lemma build_step_post_order (stack stack' : list tree) (a : targ) :
  build_step stack a = inr stack' ->
  flat_map tree_post_order (rev stack') = flat_map tree_post_order (rev stack) ++ [a].
Proof.
  destruct a as [x dt tk | x | name c r]; cbn [build_step].
  - intros [= <-]. cbn [rev]. rewrite flat_map_app. cbn. reflexivity.
  - intros [= <-]. cbn [rev]. rewrite flat_map_app. cbn. reflexivity.
  - destruct (float_op_arity name) as [numops |].
    + intros H. apply bind_inr in H. destruct H as ([[[sc reds] kids] rest] & Htake & H).
      injection H as <-.
      apply take_operands_inr in Htake.
      destruct Htake as (popped & _ & -> & -> & _).
      cbn [rev]. rewrite rev_app_distr, !flat_map_app. cbn [flat_map tree_post_order].
      rewrite !app_nil_r, app_assoc. reflexivity.
    + destruct (in_reduction_ops name).
      * destruct stack as [| operand stack0]; [discriminate|]. intros [= <-].
        cbn [rev]. rewrite !flat_map_app. cbn [flat_map tree_post_order].
        rewrite !app_nil_r, app_assoc. reflexivity.
      * intros [= <-]. cbn [rev]. rewrite flat_map_app. cbn. reflexivity.
Qed.

Lemma build_stack_post_order (type_args : list targ) :
  forall stack stack',
  build_stack stack type_args = inr stack' ->
  flat_map tree_post_order (rev stack') = flat_map tree_post_order (rev stack) ++ type_args.
Proof.
  induction type_args as [| a rest IH]; intros stack stack' H; simpl in H.
  - injection H as <-. now rewrite app_nil_r.
  - apply bind_inr in H. destruct H as (s1 & Hstep & Hrest).
    rewrite (IH _ _ Hrest), (build_step_post_order _ _ Hstep), <- app_assoc. reflexivity.
Qed.

Lemma build_tree_post_order (type_args : list targ) (t : tree) :
  _build_tree type_args = inr t ->
  exists rest, type_args = tree_post_order t ++ rest.
Proof.
  unfold _build_tree. intros H. apply bind_inr in H. destruct H as (stack & Hs & Hb).
  apply build_stack_post_order in Hs. cbn [rev flat_map app] in Hs.
  unfold stack_bottom in Hb. destruct (rev stack) as [| x l]; [discriminate|].
  injection Hb as ->. cbn [flat_map] in Hs. rewrite <- Hs. eauto.
Qed.

(** Arities *)
Lemma build_step_arity (stack stack' : list tree) (a : targ) :
  forallb arity_ok stack = true ->
  build_step stack a = inr stack' ->
  forallb arity_ok stack' = true.
Proof.
  intros Hinv. destruct a as [x dt tk | x | name c r]; cbn [build_step].
  - intros [= <-]. exact Hinv.
  - intros [= <-]. exact Hinv.
  - destruct (float_op_arity name) as [numops |] eqn:Ear.
    + intros H. apply bind_inr in H. destruct H as ([[[sc reds] kids] rest] & Htake & H).
      injection H as <-.
      apply take_operands_inr in Htake.
      destruct Htake as (popped & Hlen & -> & -> & _).
      rewrite forallb_app in Hinv. apply andb_true_iff in Hinv. destruct Hinv as [Hp Hr].
      cbn [forallb arity_ok token_arity]. rewrite Ear, app_nil_r, length_rev, Hlen.
      rewrite Nat.eqb_refl, forallb_rev, Hp, Hr. reflexivity.
    + destruct (in_reduction_ops name) eqn:Hred.
      * destruct stack as [| operand stack0]; [discriminate|]. intros [= <-].
        cbn [forallb] in Hinv. apply andb_true_iff in Hinv. destruct Hinv as [Ho Hr].
        cbn [forallb arity_ok token_arity List.length]. rewrite Ear, Hred, Ho, Hr. reflexivity.
      * intros [= <-]. cbn [forallb arity_ok token_arity]. rewrite Ear, Hred. exact Hinv.
Qed.

Lemma build_stack_arity (type_args : list targ) :
  forall stack stack',
  forallb arity_ok stack = true ->
  build_stack stack type_args = inr stack' ->
  forallb arity_ok stack' = true.
Proof.
  induction type_args as [| a rest IH]; intros stack stack' Hinv H; simpl in H.
  - injection H as <-. exact Hinv.
  - apply bind_inr in H. destruct H as (s1 & Hstep & Hrest).
    eapply IH; [|exact Hrest]. eapply build_step_arity; eassumption.
Qed.

Lemma build_tree_arity (type_args : list targ) (t : tree) :
  _build_tree type_args = inr t -> arity_ok t = true.
Proof.
  unfold _build_tree. intros H.
  apply bind_inr in H. destruct H as (stack & Hs & Hb).
  apply (build_stack_arity type_args []) in Hs; [|reflexivity].
  apply stack_bottom_in in Hb.
  rewrite forallb_forall in Hs. apply Hs. exact Hb.
Qed.

Lemma build_tree_well_built (type_args : list targ) (t : tree) :
  _build_tree type_args = inr t -> well_built t = true.
Proof.
  intros H. unfold well_built.
  pose proof (build_tree_arity _ H) as Ha.
  rewrite (arity_ok_binary t Ha), (arity_ok_unary t Ha). cbn [andb].
  apply andb_true_iff. split.
  - unfold _build_tree in H. apply bind_inr in H. destruct H as (stack & Hs & Hb).
    apply (build_stack_counts type_args []) in Hs; [|reflexivity].
    apply stack_bottom_in in Hb. rewrite forallb_forall in Hs. apply Hs. exact Hb.
  - unfold _build_tree in H. apply bind_inr in H. destruct H as (stack & Hs & Hb).
    apply (build_stack_scalar type_args []) in Hs; [|reflexivity].
    apply stack_bottom_in in Hb. rewrite forallb_forall in Hs. apply Hs. exact Hb.
Qed.

(** *** No [assign] below the root *)

Lemma build_step_no_assign (stack stack' : list tree) (a : targ) :
  forallb no_assign stack = true -> not_assign a = true ->
  build_step stack a = inr stack' ->
  forallb no_assign stack' = true.
Proof.
  intros Hinv Hna. destruct a as [x dt tk | x | name c r]; cbn [build_step].
  - intros [= <-]. exact Hinv.
  - intros [= <-]. exact Hinv.
  - destruct (float_op_arity name) as [numops |].
    + intros H. apply bind_inr in H. destruct H as ([[[sc reds] kids] rest] & Htake & H).
      injection H as <-.
      apply take_operands_inr in Htake.
      destruct Htake as (popped & _ & -> & -> & _).
      rewrite forallb_app in Hinv. apply andb_true_iff in Hinv. destruct Hinv as [Hp Hr].
      cbn [forallb no_assign]. rewrite Hna, app_nil_r, forallb_rev, Hp, Hr. reflexivity.
    + destruct (in_reduction_ops name).
      * destruct stack as [| operand stack0]; [discriminate|]. intros [= <-].
        cbn [forallb] in Hinv. apply andb_true_iff in Hinv. destruct Hinv as [Ho Hr].
        cbn [forallb no_assign]. rewrite Hna, Ho, Hr. reflexivity.
      * intros [= <-]. cbn [forallb no_assign]. exact Hinv.
Qed.

Lemma build_stack_no_assign (type_args : list targ) :
  forall stack stack',
  forallb no_assign stack = true -> forallb not_assign type_args = true ->
  build_stack stack type_args = inr stack' ->
  forallb no_assign stack' = true.
Proof.
  induction type_args as [| a rest IH]; intros stack stack' Hinv Hna H; simpl in H.
  - injection H as <-. exact Hinv.
  - cbn [forallb] in Hna. apply andb_true_iff in Hna. destruct Hna as [Ha Hrest'].
    apply bind_inr in H. destruct H as (s1 & Hstep & Hrest).
    eapply IH; [|exact Hrest'|exact Hrest]. eapply build_step_no_assign; eassumption.
Qed.

Lemma build_step_assign_ok (stack stack' : list tree) (a : targ) :
  forallb no_assign stack = true ->
  build_step stack a = inr stack' ->
  Forall (assign_ok []) stack'.
Proof.
  intros Hinv.
  assert (Hall : Forall (assign_ok []) stack).
  { apply Forall_forall. intros t Hin. apply no_assign_assign_ok.
    rewrite forallb_forall in Hinv. now apply Hinv. }
  destruct a as [x dt tk | x | name c r]; cbn [build_step].
  - intros [= <-]. constructor; [exact I | exact Hall].
  - intros [= <-]. constructor; [exact I | exact Hall].
  - destruct (float_op_arity name) as [numops |].
    + intros H. apply bind_inr in H. destruct H as ([[[sc reds] kids] rest] & Htake & H).
      injection H as <-.
      apply take_operands_inr in Htake.
      destruct Htake as (popped & _ & -> & -> & _).
      rewrite forallb_app in Hinv. apply andb_true_iff in Hinv. destruct Hinv as [Hp Hr].
      apply Forall_app in Hall. destruct Hall as [_ Hall].
      constructor; [|exact Hall]. cbn [assign_ok].
      rewrite app_nil_r, forallb_rev. split; [exact Hp | reflexivity].
    + destruct (in_reduction_ops name).
      * destruct stack as [| operand stack0]; [discriminate|]. intros [= <-].
        cbn [forallb] in Hinv. apply andb_true_iff in Hinv. destruct Hinv as [Ho Hr].
        inversion Hall as [| ? ? _ Hall']; subst.
        constructor; [|exact Hall']. cbn [assign_ok forallb]. rewrite Ho. split; reflexivity.
      * intros [= <-]. constructor; [exact I | exact Hall].
Qed.

Lemma build_tree_assign_ok (type_args : list targ) (t : tree) :
  _build_tree type_args = inr t -> assign_last type_args = true -> assign_ok [] t.
Proof.
  unfold _build_tree, assign_last. intros H Hal.
  apply bind_inr in H. destruct H as (stack & Hs & Hb).
  apply stack_bottom_in in Hb.
  destruct type_args as [| a0 rest0] eqn:Eta.
  { simpl in Hs. injection Hs as <-. destruct Hb. }
  rewrite <- Eta in *.
  assert (Hne : type_args <> []) by (rewrite Eta; discriminate).
  rewrite (app_removelast_last a0 Hne) in Hs.
  rewrite build_stack_app in Hs. apply bind_inr in Hs. destruct Hs as (s0 & Hpre & Hlast).
  apply (build_stack_no_assign _ []) in Hpre; [|reflexivity|exact Hal].
  cbn [build_stack] in Hlast. apply bind_inr in Hlast. destruct Hlast as (s1 & Hstep & Hs1).
  injection Hs1 as <-.
  pose proof (build_step_assign_ok _ _ Hpre Hstep) as Hall.
  rewrite Forall_forall in Hall. now apply Hall.
Qed.

(** *** Distinct operation counters *)

Lemma op_ids_app (l1 l2 : list targ) : op_ids (l1 ++ l2) = op_ids l1 ++ op_ids l2.
Proof. unfold op_ids. apply flat_map_app. Qed.

Lemma token_arity_op (a : targ) (n : nat) :
  token_arity a = Some n -> exists name c r, a = TOp name c r.
Proof. destruct a as [x dt tk | x | name c r]; simpl; try discriminate. eauto. Qed.

Lemma in_op_ids (l : list targ) (name : string) (c : Z) (r : op_rest) :
  In (TOp name c r) l -> In c (op_ids l).
Proof.
  intros Hin. unfold op_ids. apply in_flat_map. exists (TOp name c r).
  split; [exact Hin | now left].
Qed.

Lemma filter_ids_nodup (l : list targ) :
  NoDup (op_ids l) ->
  NoDup (map arg_id
           (filter (fun a => match token_arity a with Some _ => true | None => false end) l)).
Proof.
  induction l as [| a l IH]; intros Hnd; [constructor|].
  change (a :: l) with ([a] ++ l) in Hnd. rewrite op_ids_app in Hnd.
  cbn [filter]. destruct (token_arity a) as [n |] eqn:Ea.
  - destruct (token_arity_op a Ea) as (name & c & r & ->).
    cbn in Hnd. inversion Hnd as [| ? ? Hnotin Hnd']; subst.
    cbn [map arg_id]. constructor; [|now apply IH].
    intros Hin. apply Hnotin. apply in_map_iff in Hin. destruct Hin as (x & Hx & Hin).
    apply filter_In in Hin. destruct Hin as [Hin Hf].
    destruct (token_arity x) as [m |] eqn:Ex; [|discriminate].
    destruct (token_arity_op x Ex) as (name' & c' & r' & ->).
    cbn in Hx. subst c'. now apply (in_op_ids l name' c r').
  - apply IH. now apply NoDup_app_remove_l in Hnd.
Qed.

Lemma node_args_filter (t : tree) :
  arity_ok t = true ->
  node_args t =
  filter (fun a => match token_arity a with Some _ => true | None => false end)
         (tree_post_order t).
Proof.
  induction t as [a | arg sc reds kids IH] using tree_induction; intros H.
  - cbn [arity_ok] in H. cbn. destruct (token_arity a); [discriminate | reflexivity].
  - destruct (arity_ok_node _ _ _ _ H) as [Ha Hk].
    cbn [node_args tree_post_order]. rewrite filter_app. cbn [filter]. rewrite Ha.
    f_equal. clear Ha H.
    induction kids as [| k ks IHk]; [reflexivity|].
    inversion IH as [| ? ? IH0 IH']; subst. inversion Hk as [| ? ? Hk0 Hk']; subst.
    cbn [flat_map]. rewrite filter_app, (IH0 Hk0), (IHk IH' Hk'). reflexivity.
Qed.

Lemma build_tree_node_ids (type_args : list targ) (t : tree) :
  _build_tree type_args = inr t -> NoDup (op_ids type_args) ->
  NoDup (map arg_id (node_args t)).
Proof.
  intros H Hnd. pose proof (build_tree_arity _ H) as Ha.
  destruct (build_tree_post_order _ H) as (rest & ->).
  rewrite op_ids_app in Hnd. apply NoDup_app_remove_r in Hnd.
  rewrite (node_args_filter t Ha). now apply filter_ids_nodup.
Qed.

(** ** The structure of a tree is read off its key *)

Lemma skey_node (arg : targ) (sc : bool) (reds : Z) (kids : list tree) :
  skey (Node arg sc reds kids) = flat_map skey kids ++ [key_of_item [] arg].
Proof.
  unfold skey. cbn [tree_post_order]. rewrite map_app. f_equal.
  induction kids as [| k ks IH]; [reflexivity|].
  cbn [flat_map]. now rewrite map_app, IH.
Qed.

Lemma key_plain_name (a : targ) (n : string) :
  key_of_item [] a = KName n -> exists c r, a = TOp n c r.
Proof.
  destruct a as [x dt tk | x | name c r]; cbn; try discriminate.
  intros [= ->]. eauto.
Qed.

Lemma key_plain_op (name : string) (c : Z) (r : op_rest) :
  key_of_item [] (TOp name c r) = KName name.
Proof. reflexivity. Qed.

Lemma key_plain_node (arg : targ) (n : nat) :
  token_arity arg = Some n ->
  exists name, key_of_item [] arg = KName name /\ op_name arg = Some name.
Proof.
  intros H. destruct (token_arity_op arg H) as (name & c & r & ->).
  exists name. split; reflexivity.
Qed.

Lemma key_plain_arity (a b : targ) :
  key_of_item [] a = key_of_item [] b -> token_arity a = token_arity b.
Proof.
  destruct a as [x dt tk | x | n c r], b as [x' dt' tk' | x' | n' c' r']; cbn;
    try discriminate; try reflexivity.
  now intros [= ->].
Qed.

Lemma list_snoc_length {A : Type} (l : list A) (n : nat) :
  List.length l = S n -> exists l' x, l = l' ++ [x] /\ List.length l' = n.
Proof.
  intros H. destruct (@exists_last _ l) as (l' & x & ->).
  - intros ->. discriminate.
  - exists l', x. split; [reflexivity|]. rewrite length_app in H. simpl in H. lia.
Qed.

Lemma suffix_free_list (ks1 : list tree) :
  Forall (fun t1 => arity_ok t1 = true ->
            forall t2 l1 l2, arity_ok t2 = true ->
            l1 ++ skey t1 = l2 ++ skey t2 -> l1 = l2) ks1 ->
  Forall (fun k => arity_ok k = true) ks1 ->
  forall ks2, Forall (fun k => arity_ok k = true) ks2 ->
  List.length ks1 = List.length ks2 ->
  forall l1 l2, l1 ++ flat_map skey ks1 = l2 ++ flat_map skey ks2 -> l1 = l2.
Proof.
  induction ks1 as [| k1 ks1 IH] using rev_ind; intros HP Ha ks2 Ha2 Hlen l1 l2 H.
  - destruct ks2; [|discriminate]. cbn in H. now rewrite !app_nil_r in H.
  - rewrite length_app in Hlen. cbn in Hlen. rewrite Nat.add_1_r in Hlen.
    destruct (list_snoc_length ks2 (eq_sym Hlen)) as (ks2' & k2 & -> & Hlen').
    apply Forall_app in HP. destruct HP as [HP HP1]. inversion HP1 as [| ? ? HPk _]; subst.
    apply Forall_app in Ha. destruct Ha as [Ha Ha1]. inversion Ha1 as [| ? ? Hak _]; subst.
    apply Forall_app in Ha2. destruct Ha2 as [Ha2 Ha21]. inversion Ha21 as [| ? ? Hak2 _]; subst.
    rewrite !flat_map_app in H. cbn [flat_map] in H. rewrite !app_nil_r, !app_assoc in H.
    apply (HPk Hak k2 _ _ Hak2) in H.
    apply (IH HP Ha ks2' Ha2 (eq_sym Hlen') l1 l2 H).
Qed.

Lemma suffix_free (t1 : tree) :
  arity_ok t1 = true ->
  forall t2 l1 l2, arity_ok t2 = true ->
  l1 ++ skey t1 = l2 ++ skey t2 -> l1 = l2.
Proof.
  induction t1 as [a1 | a1 sc1 r1 ks1 IH] using tree_induction; intros Ha1 t2 l1 l2 Ha2 H.
  - destruct t2 as [a2 | a2 sc2 r2 ks2].
    + cbn in H. now apply app_inj_tail in H.
    + exfalso. rewrite skey_node, app_assoc in H. cbn [skey tree_post_order map] in H.
      apply app_inj_tail in H. destruct H as [_ H].
      destruct (arity_ok_node _ _ _ _ Ha2) as [Har _].
      cbn [arity_ok] in Ha1. rewrite (key_plain_arity _ _ H), Har in Ha1. discriminate.
  - destruct (arity_ok_node _ _ _ _ Ha1) as [Har1 Hk1].
    destruct t2 as [a2 | a2 sc2 r2 ks2].
    + exfalso. rewrite skey_node, app_assoc in H. cbn [skey tree_post_order map] in H.
      apply app_inj_tail in H. destruct H as [_ H].
      cbn [arity_ok] in Ha2. rewrite <- (key_plain_arity _ _ H), Har1 in Ha2. discriminate.
    + destruct (arity_ok_node _ _ _ _ Ha2) as [Har2 Hk2].
      rewrite !skey_node, !app_assoc in H.
      apply app_inj_tail in H. destruct H as [H Hkey].
      apply (suffix_free_list IH Hk1 Hk2); [|exact H].
      rewrite (key_plain_arity _ _ Hkey), Har2 in Har1. now injection Har1.
Qed.

Lemma skeys_split (ks1 : list tree) :
  Forall (fun k => arity_ok k = true) ks1 ->
  forall ks2, Forall (fun k => arity_ok k = true) ks2 ->
  List.length ks1 = List.length ks2 ->
  flat_map skey ks1 = flat_map skey ks2 ->
  Forall2 (fun k1 k2 => skey k1 = skey k2) ks1 ks2.
Proof.
  induction ks1 as [| k1 ks1 IH] using rev_ind; intros Ha ks2 Ha2 Hlen H.
  - destruct ks2; [constructor | discriminate].
  - rewrite length_app in Hlen. cbn in Hlen. rewrite Nat.add_1_r in Hlen.
    destruct (list_snoc_length ks2 (eq_sym Hlen)) as (ks2' & k2 & -> & Hlen').
    apply Forall_app in Ha. destruct Ha as [Ha Ha1]. inversion Ha1 as [| ? ? Hak _]; subst.
    apply Forall_app in Ha2. destruct Ha2 as [Ha2 Ha21]. inversion Ha21 as [| ? ? Hak2 _]; subst.
    rewrite !flat_map_app in H. cbn [flat_map] in H. rewrite !app_nil_r in H.
    pose proof (suffix_free k1 Hak k2 _ _ Hak2 H) as Hpre.
    rewrite Hpre in H. apply app_inv_head in H.
    apply Forall2_app; [|constructor; [exact H | constructor]].
    apply IH; [exact Ha | exact Ha2 | now symmetry | exact Hpre].
Qed.

Lemma skey_leaf_inv (a1 : targ) (t2 : tree) :
  arity_ok (Leaf a1) = true -> arity_ok t2 = true ->
  skey (Leaf a1) = skey t2 ->
  exists a2, t2 = Leaf a2 /\ key_of_item [] a1 = key_of_item [] a2.
Proof.
  intros Ha1 Ha2 H. destruct t2 as [a2 | a2 sc2 r2 ks2].
  - exists a2. split; [reflexivity|]. cbn in H. now injection H.
  - exfalso. rewrite skey_node in H. cbn [skey tree_post_order map] in H.
    change [key_of_item [] a1] with ([] ++ [key_of_item [] a1]) in H.
    apply app_inj_tail in H. destruct H as [_ H].
    destruct (arity_ok_node _ _ _ _ Ha2) as [Har _].
    cbn [arity_ok] in Ha1. rewrite (key_plain_arity _ _ H), Har in Ha1. discriminate.
Qed.

Lemma skey_node_inv (a1 : targ) (sc1 : bool) (r1 : Z) (ks1 : list tree) (t2 : tree) :
  arity_ok (Node a1 sc1 r1 ks1) = true -> arity_ok t2 = true ->
  skey (Node a1 sc1 r1 ks1) = skey t2 ->
  exists a2 sc2 r2 ks2,
    t2 = Node a2 sc2 r2 ks2 /\ op_name a1 = op_name a2 /\
    Forall2 (fun k1 k2 => skey k1 = skey k2) ks1 ks2.
Proof.
  intros Ha1 Ha2 H. destruct (arity_ok_node _ _ _ _ Ha1) as [Har1 Hk1].
  destruct t2 as [a2 | a2 sc2 r2 ks2].
  - exfalso. rewrite skey_node in H. cbn [skey tree_post_order map] in H.
    change [key_of_item [] a2] with ([] ++ [key_of_item [] a2]) in H.
    apply app_inj_tail in H. destruct H as [_ H].
    cbn [arity_ok] in Ha2. rewrite <- (key_plain_arity _ _ H), Har1 in Ha2. discriminate.
  - destruct (arity_ok_node _ _ _ _ Ha2) as [Har2 Hk2].
    rewrite !skey_node in H. apply app_inj_tail in H. destruct H as [H Hkey].
    exists a2, sc2, r2, ks2. split; [reflexivity|]. split.
    + destruct (key_plain_node a1 Har1) as (n1 & Hn1 & ->).
      destruct (key_plain_node a2 Har2) as (n2 & Hn2 & ->).
      congruence.
    + apply skeys_split; try assumption.
      rewrite (key_plain_arity _ _ Hkey), Har2 in Har1. now injection Har1.
Qed.

(** ** What depends on the structure only *)

Lemma wf_node (arg : targ) (sc : bool) (reds : Z) (kids : list tree) :
  wf_tree (Node arg sc reds kids) = true ->
  token_arity arg = Some (List.length kids) /\
  sc = (if is_reduction arg then true
        else (0 <? List.length kids)%nat && forallb operand_scalar kids) /\
  Forall (fun k => wf_tree k = true) kids.
Proof.
  unfold wf_tree. rewrite andb_true_iff. intros [Hwb Ha].
  destruct (well_built_node _ _ _ _ Hwb) as (_ & _ & _ & Hsc & Hwk).
  destruct (arity_ok_node _ _ _ _ Ha) as [Har Hak].
  split; [exact Har|]. split; [exact Hsc|].
  rewrite Forall_forall in *. intros k Hin. rewrite (Hwk k Hin), (Hak k Hin). reflexivity.
Qed.

Lemma wf_arity (t : tree) : wf_tree t = true -> arity_ok t = true.
Proof. unfold wf_tree. rewrite andb_true_iff. tauto. Qed.

Lemma wf_well_built (t : tree) : wf_tree t = true -> well_built t = true.
Proof. unfold wf_tree. rewrite andb_true_iff. tauto. Qed.

Lemma ckey_node (G : registry) (ab : bool) (arg : targ) (sc : bool) (reds : Z)
      (kids : list tree) :
  ckey G ab (Node arg sc reds kids) =
  if is_reduction arg
     || (sc && negb (is_reduction arg) && not_assign arg
         && (0 <? count_reductions_list kids) && negb ab)
  then [match alias_of G (skey (Node arg sc reds kids)) with
        | Some x => alias_key x
        | None => KName EmptyString
        end]
  else ckeys G (sc && negb (is_reduction arg) && not_assign arg) kids
       ++ [key_of_item [] arg].
Proof. reflexivity. Qed.

Lemma reg_ok_node (G : registry) (ab : bool) (arg : targ) (sc : bool) (reds : Z)
      (kids : list tree) :
  reg_ok G ab (Node arg sc reds kids) =
  (if is_reduction arg
      || (sc && negb (is_reduction arg) && not_assign arg
          && (0 <? count_reductions_list kids) && negb ab)
   then registered G (skey (Node arg sc reds kids)) else true)
  && reg_oks G (sc && negb (is_reduction arg) && not_assign arg) kids.
Proof. reflexivity. Qed.

Lemma processed_at_node (ab : bool) (b : nat) (arg : targ) (sc : bool) (reds : Z)
      (kids : list tree) :
  processed_at ab b (Node arg sc reds kids) =
  processed_at_list (sc && negb (is_reduction arg) && not_assign arg) kids b
  ++ (if is_reduction arg
         || (sc && negb (is_reduction arg) && not_assign arg
             && (0 <? count_reductions_list kids) && negb ab)
      then [((b + ncells_list kids)%nat, Node arg sc reds kids)] else []).
Proof. reflexivity. Qed.

Lemma nodes_at_node (b : nat) (arg : targ) (sc : bool) (reds : Z) (kids : list tree) :
  nodes_at b (Node arg sc reds kids) =
  nodes_at_list kids b ++ [((b + ncells_list kids)%nat, Node arg sc reds kids)].
Proof. reflexivity. Qed.

Lemma ckeys_cons (G : registry) (can : bool) (k : tree) (ks : list tree) :
  ckeys G can (k :: ks) =
  ckey G (can && (count_reductions_list ks =? 0)) k ++ ckeys G can ks.
Proof. reflexivity. Qed.

Lemma reg_oks_cons (G : registry) (can : bool) (k : tree) (ks : list tree) :
  reg_oks G can (k :: ks) =
  reg_ok G (can && (count_reductions_list ks =? 0)) k && reg_oks G can ks.
Proof. reflexivity. Qed.

Lemma processed_at_list_cons (can : bool) (k : tree) (ks : list tree) (b : nat) :
  processed_at_list can (k :: ks) b =
  processed_at (can && (count_reductions_list ks =? 0)) b k
  ++ processed_at_list can ks (b + ncells k)%nat.
Proof. reflexivity. Qed.

Lemma split_kids_cons (can : bool) (k : tree) (ks : list tree) (b : nat) (d : dedup) :
  split_kids (fun ab b' k d' => splitP ab b' k d') can (k :: ks) b d =
  (fst (fst (splitP (can && (count_reductions_list ks =? 0)) b k d))
   ++ fst (fst (split_kids (fun ab b' k d' => splitP ab b' k d') can ks (b + ncells k)%nat
                  (snd (splitP (can && (count_reductions_list ks =? 0)) b k d)))),
   snd (fst (splitP (can && (count_reductions_list ks =? 0)) b k d))
   ++ snd (fst (split_kids (fun ab b' k d' => splitP ab b' k d') can ks (b + ncells k)%nat
                  (snd (splitP (can && (count_reductions_list ks =? 0)) b k d)))),
   snd (split_kids (fun ab b' k d' => splitP ab b' k d') can ks (b + ncells k)%nat
          (snd (splitP (can && (count_reductions_list ks =? 0)) b k d)))).
Proof. reflexivity. Qed.

Lemma same_count (t1 : tree) :
  forall t2, wf_tree t1 = true -> wf_tree t2 = true -> skey t1 = skey t2 ->
  count_reductions t1 = count_reductions t2.
Proof.
  induction t1 as [a1 | a1 sc1 r1 ks1 IH] using tree_induction; intros t2 H1 H2 H.
  - destruct (@skey_leaf_inv _ _ (wf_arity _ H1) (wf_arity _ H2) H) as (a2 & -> & _).
    reflexivity.
  - destruct (@skey_node_inv _ _ _ _ _ (wf_arity _ H1) (wf_arity _ H2) H)
      as (a2 & sc2 & r2 & ks2 & -> & Hn & Hk).
    rewrite !count_reductions_node, (is_reduction_name _ _ Hn). f_equal.
    destruct (wf_node _ _ _ _ H1) as (_ & _ & Hw1).
    destruct (wf_node _ _ _ _ H2) as (_ & _ & Hw2).
    clear H H1 H2 Hn. revert IH Hw1 Hw2.
    induction Hk as [| k1 k2 ks1 ks2 Hk0 Hk IHk]; intros IH Hw1 Hw2; [reflexivity|].
    inversion IH as [| ? ? IH0 IH']; subst.
    inversion Hw1 as [| ? ? Hw10 Hw1']; subst. inversion Hw2 as [| ? ? Hw20 Hw2']; subst.
    rewrite !count_reductions_list_cons, (IH0 k2 Hw10 Hw20 Hk0), (IHk IH' Hw1' Hw2').
    reflexivity.
Qed.

Lemma same_count_list (ks1 ks2 : list tree) :
  Forall2 (fun k1 k2 => skey k1 = skey k2) ks1 ks2 ->
  Forall (fun k => wf_tree k = true) ks1 -> Forall (fun k => wf_tree k = true) ks2 ->
  count_reductions_list ks1 = count_reductions_list ks2.
Proof.
  induction 1 as [| k1 k2 ks1 ks2 Hk0 Hk IHk]; intros Hw1 Hw2; [reflexivity|].
  inversion Hw1 as [| ? ? Hw10 Hw1']; subst. inversion Hw2 as [| ? ? Hw20 Hw2']; subst.
  rewrite !count_reductions_list_cons, (same_count k1 k2 Hw10 Hw20 Hk0), (IHk Hw1' Hw2').
  reflexivity.
Qed.

Lemma same_scalar (t1 : tree) :
  forall t2, wf_tree t1 = true -> wf_tree t2 = true -> skey t1 = skey t2 ->
  operand_scalar t1 = operand_scalar t2.
Proof.
  induction t1 as [a1 | a1 sc1 r1 ks1 IH] using tree_induction; intros t2 H1 H2 H.
  - destruct (@skey_leaf_inv _ _ (wf_arity _ H1) (wf_arity _ H2) H) as (a2 & -> & Hk).
    destruct a1 as [x dt tk | x | n c r], a2 as [x' dt' tk' | x' | n' c' r']; cbn in Hk;
      try discriminate; try reflexivity.
    injection Hk as ->. reflexivity.
  - destruct (@skey_node_inv _ _ _ _ _ (wf_arity _ H1) (wf_arity _ H2) H)
      as (a2 & sc2 & r2 & ks2 & -> & Hn & Hk).
    destruct (wf_node _ _ _ _ H1) as (_ & Hsc1 & Hw1).
    destruct (wf_node _ _ _ _ H2) as (_ & Hsc2 & Hw2).
    cbn [operand_scalar]. rewrite Hsc1, Hsc2, (is_reduction_name _ _ Hn).
    destruct (is_reduction a2); [reflexivity|].
    rewrite (Forall2_length Hk). f_equal.
    clear H H1 H2 Hn Hsc1 Hsc2. revert IH Hw1 Hw2.
    induction Hk as [| k1 k2 ks1 ks2 Hk0 Hk IHk]; intros IH Hw1 Hw2; [reflexivity|].
    inversion IH as [| ? ? IH0 IH']; subst.
    inversion Hw1 as [| ? ? Hw10 Hw1']; subst. inversion Hw2 as [| ? ? Hw20 Hw2']; subst.
    cbn [forallb]. rewrite (IH0 k2 Hw10 Hw20 Hk0), (IHk IH' Hw1' Hw2'). reflexivity.
Qed.

Lemma same_flag (a1 a2 : targ) (sc1 sc2 : bool) (r1 r2 : Z) (ks1 ks2 : list tree) :
  wf_tree (Node a1 sc1 r1 ks1) = true -> wf_tree (Node a2 sc2 r2 ks2) = true ->
  skey (Node a1 sc1 r1 ks1) = skey (Node a2 sc2 r2 ks2) ->
  op_name a1 = op_name a2 ->
  sc1 && negb (is_reduction a1) && not_assign a1
  = sc2 && negb (is_reduction a2) && not_assign a2.
Proof.
  intros H1 H2 H Hn.
  pose proof (@same_scalar _ _ H1 H2 H) as Hs. cbn [operand_scalar] in Hs.
  now rewrite Hs, (is_reduction_name _ _ Hn), (not_assign_name _ _ Hn).
Qed.

Lemma same_ckeys (G : registry) (can : bool) (ks1 ks2 : list tree) :
  Forall2 (fun k1 k2 => skey k1 = skey k2) ks1 ks2 ->
  Forall (fun t1 => forall t2 ab, wf_tree t1 = true -> wf_tree t2 = true ->
                    skey t1 = skey t2 -> ckey G ab t1 = ckey G ab t2) ks1 ->
  Forall (fun k => wf_tree k = true) ks1 -> Forall (fun k => wf_tree k = true) ks2 ->
  ckeys G can ks1 = ckeys G can ks2.
Proof.
  induction 1 as [| k1 k2 ks1 ks2 Hk0 Hk IHk]; intros IH Hw1 Hw2; [reflexivity|].
  inversion IH as [| ? ? IH0 IH']; subst.
  inversion Hw1 as [| ? ? Hw10 Hw1']; subst. inversion Hw2 as [| ? ? Hw20 Hw2']; subst.
  rewrite !ckeys_cons. rewrite (@same_count_list _ _ Hk Hw1' Hw2').
  rewrite (IH0 k2 _ Hw10 Hw20 Hk0), (IHk IH' Hw1' Hw2'). reflexivity.
Qed.

Lemma same_ckey (G : registry) (t1 : tree) :
  forall t2 ab, wf_tree t1 = true -> wf_tree t2 = true -> skey t1 = skey t2 ->
  ckey G ab t1 = ckey G ab t2.
Proof.
  induction t1 as [a1 | a1 sc1 r1 ks1 IH] using tree_induction; intros t2 ab H1 H2 H.
  - destruct (@skey_leaf_inv _ _ (wf_arity _ H1) (wf_arity _ H2) H) as (a2 & -> & Hk).
    cbn [ckey]. now rewrite Hk.
  - destruct (@skey_node_inv _ _ _ _ _ (wf_arity _ H1) (wf_arity _ H2) H)
      as (a2 & sc2 & r2 & ks2 & -> & Hn & Hk).
    destruct (wf_node _ _ _ _ H1) as (Har1 & _ & Hw1).
    destruct (wf_node _ _ _ _ H2) as (Har2 & _ & Hw2).
    rewrite !ckey_node, H.
    rewrite (@same_flag _ _ _ _ _ _ _ _ H1 H2 H Hn), (is_reduction_name _ _ Hn), (@same_count_list _ _ Hk Hw1 Hw2).
    rewrite (@same_ckeys G _ _ _ Hk IH Hw1 Hw2).
    destruct (@key_plain_node a1 _ Har1) as (n1 & Hn1 & Ho1).
    destruct (@key_plain_node a2 _ Har2) as (n2 & Hn2 & Ho2).
    rewrite Hn1, Hn2. replace n2 with n1 by congruence. reflexivity.
Qed.

Lemma same_pkey (G : registry) (t1 t2 : tree) :
  wf_tree t1 = true -> wf_tree t2 = true -> skey t1 = skey t2 ->
  pkey G t1 = pkey G t2.
Proof.
  intros H1 H2 H. destruct t1 as [a1 | a1 sc1 r1 ks1].
  - destruct (@skey_leaf_inv _ _ (wf_arity _ H1) (wf_arity _ H2) H) as (a2 & -> & Hk).
    cbn [pkey]. now rewrite Hk.
  - destruct (@skey_node_inv _ _ _ _ _ (wf_arity _ H1) (wf_arity _ H2) H)
      as (a2 & sc2 & r2 & ks2 & -> & Hn & Hk).
    destruct (wf_node _ _ _ _ H1) as (Har1 & _ & Hw1).
    destruct (wf_node _ _ _ _ H2) as (Har2 & _ & Hw2).
    cbn [pkey]. rewrite (@same_flag _ _ _ _ _ _ _ _ H1 H2 H Hn).
    rewrite (@same_ckeys G _ ks1 ks2 Hk); try assumption.
    + destruct (@key_plain_node a1 _ Har1) as (n1 & Hn1 & Ho1).
      destruct (@key_plain_node a2 _ Har2) as (n2 & Hn2 & Ho2).
      rewrite Hn1, Hn2. replace n2 with n1 by congruence. reflexivity.
    + apply Forall_forall. intros k _ t2 ab. apply same_ckey.
Qed.

(** ** Nodes and their addresses *)

Lemma nodes_at_list_cons (k : tree) (ks : list tree) (b : nat) :
  nodes_at_list (k :: ks) b = nodes_at b k ++ nodes_at_list ks (b + ncells k)%nat.
Proof. reflexivity. Qed.

Lemma ncells_list_cons (k : tree) (ks : list tree) :
  ncells_list (k :: ks) = (ncells k + ncells_list ks)%nat.
Proof. reflexivity. Qed.

Lemma ncells_node (arg : targ) (sc : bool) (reds : Z) (kids : list tree) :
  ncells (Node arg sc reds kids) = S (ncells_list kids).
Proof. reflexivity. Qed.

Lemma nodes_at_facts (t : tree) :
  forall b j s, In (j, s) (nodes_at b t) ->
  (b <= j < b + ncells t)%nat /\
  (exists arg sc reds kids, s = Node arg sc reds kids) /\
  (wf_tree t = true -> wf_tree s = true).
Proof.
  induction t as [a | arg sc reds kids IH] using tree_induction; intros b j s Hin.
  - destruct Hin.
  - rewrite nodes_at_node in Hin. rewrite ncells_node.
    apply in_app_iff in Hin. destruct Hin as [Hin | [[= <- <-] | []]].
    + assert (Hk : (b <= j < b + ncells_list kids)%nat /\
                   (exists arg sc reds kids, s = Node arg sc reds kids) /\
                   (Forall (fun k => wf_tree k = true) kids -> wf_tree s = true)).
      { clear -IH Hin. revert b Hin.
        induction IH as [| k ks Hk _ IHks]; intros b Hin; [destruct Hin|].
        rewrite nodes_at_list_cons in Hin. rewrite ncells_list_cons.
        apply in_app_iff in Hin. destruct Hin as [Hin | Hin].
        - destruct (Hk _ _ _ Hin) as (Hr & Hn & Hw).
          split; [lia|]. split; [exact Hn|].
          intros Hall. apply Hw. now inversion Hall.
        - destruct (IHks _ Hin) as (Hr & Hn & Hw).
          split; [lia|]. split; [exact Hn|].
          intros Hall. apply Hw. now inversion Hall. }
      destruct Hk as (Hr & Hn & Hw). split; [lia|]. split; [exact Hn|].
      intros Hwf. apply Hw. now destruct (@wf_node _ _ _ _ Hwf) as (_ & _ & ?).
    + split; [lia|]. split; [eauto|]. trivial.
Qed.

Lemma nodes_at_list_facts (ks : list tree) :
  forall b j s, In (j, s) (nodes_at_list ks b) ->
  (b <= j < b + ncells_list ks)%nat /\
  (exists arg sc reds kids, s = Node arg sc reds kids).
Proof.
  induction ks as [| k ks IH]; intros b j s Hin; [destruct Hin|].
  rewrite nodes_at_list_cons in Hin. rewrite ncells_list_cons.
  apply in_app_iff in Hin. destruct Hin as [Hin | Hin].
  - destruct (nodes_at_facts _ _ _ _ Hin) as (Hr & Hn & _). split; [lia | exact Hn].
  - destruct (IH _ _ _ Hin) as (Hr & Hn). split; [lia | exact Hn].
Qed.

Lemma processed_are_nodes (t : tree) :
  forall ab b, incl (processed_at ab b t) (nodes_at b t).
Proof.
  induction t as [a | arg sc reds kids IH] using tree_induction; intros ab b.
  - intros x [].
  - rewrite processed_at_node, nodes_at_node.
    apply incl_app.
    + apply incl_appl.
      generalize (sc && negb (is_reduction arg) && not_assign arg). intros can.
      revert b. induction IH as [| k ks Hk _ IHks]; intros b; [intros x []|].
      rewrite processed_at_list_cons, nodes_at_list_cons.
      apply incl_app; [apply incl_appl, Hk | apply incl_appr, IHks].
    + apply incl_appr. destruct (is_reduction arg || _); [apply incl_refl | intros x []].
Qed.

Lemma processed_list_are_nodes (can : bool) (ks : list tree) :
  forall b, incl (processed_at_list can ks b) (nodes_at_list ks b).
Proof.
  induction ks as [| k ks IH]; intros b; [intros x []|].
  rewrite processed_at_list_cons, nodes_at_list_cons.
  apply incl_app; [apply incl_appl, processed_are_nodes | apply incl_appr, IH].
Qed.

Lemma reductions_are_processed (t : tree) :
  forall ab b j s, In (j, s) (nodes_at b t) -> is_reduction (root_arg s) = true ->
  In (j, s) (processed_at ab b t).
Proof.
  induction t as [a | arg sc reds kids IH] using tree_induction; intros ab b j s Hin Hr.
  - destruct Hin.
  - rewrite nodes_at_node in Hin. rewrite processed_at_node.
    apply in_app_iff in Hin. apply in_app_iff. destruct Hin as [Hin | [[= <- <-] | []]].
    + left. generalize (sc && negb (is_reduction arg) && not_assign arg). intros can.
      clear -IH Hin Hr. revert b Hin.
      induction IH as [| k ks Hk _ IHks]; intros b Hin; [destruct Hin|].
      rewrite nodes_at_list_cons in Hin. rewrite processed_at_list_cons.
      apply in_app_iff in Hin. apply in_app_iff.
      destruct Hin as [Hin | Hin]; [left; now apply Hk | right; now apply IHks].
    + right. cbn [root_arg] in Hr. rewrite Hr. now left.
Qed.

(** ** Equality tests *)

Lemma dtype_eqb_eq (a b : dtype) : dtype_eqb a b = true -> a = b.
Proof. destruct a, b; simpl; congruence. Qed.

Lemma op_rest_eqb_eq (a b : op_rest) : op_rest_eqb a b = true -> a = b.
Proof.
  destruct a, b; simpl; try discriminate; try reflexivity.
  - rewrite andb_true_iff, Z.eqb_eq. intros [Hr ->].
    apply Bool.eqb_prop in Hr. now subst.
  - rewrite Z.eqb_eq. now intros ->.
Qed.

Lemma targ_eqb_eq (a b : targ) : targ_eqb a b = true -> a = b.
Proof.
  destruct a, b; simpl; try discriminate.
  - rewrite !andb_true_iff, !Z.eqb_eq. intros [[-> Hd] ->].
    apply dtype_eqb_eq in Hd. now subst.
  - rewrite Z.eqb_eq. now intros ->.
  - rewrite !andb_true_iff, String.eqb_eq, Z.eqb_eq. intros [[-> ->] Hr].
    apply op_rest_eqb_eq in Hr. now subst.
Qed.

Lemma in_aliases_in (l : list targ) (x : targ) : in_aliases l x = true <-> In x l.
Proof.
  unfold in_aliases. rewrite existsb_exists. split.
  - intros (y & Hin & He). apply targ_eqb_eq in He. now subst.
  - intros Hin. exists x. split; [exact Hin | apply targ_eqb_refl].
Qed.

Lemma in_aliases_not_in (l : list targ) (x : targ) : in_aliases l x = false <-> ~ In x l.
Proof.
  rewrite <- in_aliases_in. destruct (in_aliases l x); intuition congruence.
Qed.

Lemma key_of_alias (l : list targ) (x : targ) : In x l -> key_of_item l x = alias_key x.
Proof.
  intros Hin. unfold alias_key.
  destruct x as [i dt tk | i | n c r]; cbn [key_of_item]; try reflexivity.
  rewrite (proj2 (in_aliases_in l (TOp n c r)) Hin).
  rewrite (proj2 (in_aliases_in [TOp n c r] (TOp n c r)) (or_introl eq_refl)).
  reflexivity.
Qed.

Lemma key_of_plain (l : list targ) (x : targ) : ~ In x l -> key_of_item l x = key_of_item [] x.
Proof.
  intros Hn. destruct x as [i dt tk | i | n c r]; cbn [key_of_item]; try reflexivity.
  rewrite (proj2 (in_aliases_not_in l (TOp n c r)) Hn). reflexivity.
Qed.

(** ** The registry *)

Lemma nodup_map_inj {A B : Type} (f : A -> B) (l : list A) (x y : A) :
  NoDup (map f l) -> In x l -> In y l -> f x = f y -> x = y.
Proof.
  induction l as [| a l IH]; intros Hnd Hx Hy Hf; [destruct Hx|].
  cbn [map] in Hnd. inversion Hnd as [| ? ? Hnotin Hnd']; subst.
  destruct Hx as [-> | Hx], Hy as [-> | Hy].
  - reflexivity.
  - exfalso. apply Hnotin. rewrite Hf. now apply in_map.
  - exfalso. apply Hnotin. rewrite <- Hf. now apply in_map.
  - now apply IH.
Qed.

Lemma node_inj (t0 : tree) (g1 g2 : nat * tree) :
  distinct_ids t0 -> In g1 (nodes_at 0 t0) -> In g2 (nodes_at 0 t0) ->
  arg_id (reg_alias g1) = arg_id (reg_alias g2) -> g1 = g2.
Proof.
  intros Hd H1 H2 He.
  exact (nodup_map_inj (fun js => arg_id (root_arg (snd js))) _ _ _ Hd H1 H2 He).
Qed.

Lemma alias_member (t0 : tree) (G : registry) (g : nat * tree) :
  distinct_ids t0 -> (forall g', In g' G -> In g' (nodes_at 0 t0)) ->
  In g (nodes_at 0 t0) -> In (reg_alias g) (map reg_alias G) -> In g G.
Proof.
  intros Hd HG Hg Hin. apply in_map_iff in Hin. destruct Hin as (g' & He & Hin).
  rewrite (@node_inj t0 g g' Hd Hg (HG g' Hin)); [exact Hin|]. now rewrite He.
Qed.

Lemma key_eqb_iff (k1 k2 : list key_item) : key_eqb k1 k2 = true <-> k1 = k2.
Proof. split; [apply key_eqb_eq | intros ->; apply key_eqb_refl]. Qed.

Lemma registered_app (G X : registry) (sk : list key_item) :
  registered (G ++ X) sk = registered G sk || registered X sk.
Proof. unfold registered. apply existsb_app. Qed.

Lemma registered_in (G : registry) (g : nat * tree) :
  In g G -> registered G (skey (snd g)) = true.
Proof.
  intros Hin. unfold registered. apply existsb_exists. exists g.
  split; [exact Hin | apply key_eqb_refl].
Qed.

Lemma alias_of_registered (G : registry) (sk : list key_item) :
  registered G sk = true ->
  exists g, In g G /\ skey (snd g) = sk /\ alias_of G sk = Some (reg_alias g).
Proof.
  unfold registered, alias_of. induction G as [| g G IH]; cbn [existsb find]; [discriminate|].
  destruct (key_eqb (skey (snd g)) sk) eqn:E.
  - intros _. exists g. split; [now left|]. split; [now apply key_eqb_eq | reflexivity].
  - cbn [orb]. intros H. destruct (IH H) as (g' & Hin & Hs & Ha).
    exists g'. split; [now right | auto].
Qed.

Lemma alias_of_unregistered (G : registry) (sk : list key_item) :
  registered G sk = false ->
  alias_of G sk = None /\ ~ In sk (map (fun g => skey (snd g)) G).
Proof.
  unfold registered, alias_of. induction G as [| g G IH]; cbn [existsb find map].
  - intros _. split; [reflexivity | intros []].
  - destruct (key_eqb (skey (snd g)) sk) eqn:E; [discriminate|].
    cbn [orb]. intros H. destruct (IH H) as [Ha Hn]. split; [exact Ha|].
    intros [He | Hin]; [|now apply Hn].
    rewrite He, key_eqb_refl in E. discriminate.
Qed.

Lemma alias_of_app (G X : registry) (sk : list key_item) :
  registered G sk = true -> alias_of (G ++ X) sk = alias_of G sk.
Proof.
  unfold registered, alias_of. induction G as [| g G IH]; cbn [existsb find app]; [discriminate|].
  destruct (key_eqb (skey (snd g)) sk); [reflexivity|]. cbn [orb]. exact IH.
Qed.

Lemma alias_of_fresh (G : registry) (g : nat * tree) :
  registered G (skey (snd g)) = false ->
  alias_of (G ++ [g]) (skey (snd g)) = Some (reg_alias g).
Proof.
  unfold registered, alias_of. induction G as [| g' G IH]; cbn [existsb find app].
  - intros _. now rewrite key_eqb_refl.
  - destruct (key_eqb (skey (snd g')) (skey (snd g))); [discriminate|]. cbn [orb]. exact IH.
Qed.

(** The keys of a subtree whose processed nodes are registered do not
    change when the registry grows. *)
Lemma reg_oks_stable_aux (G X : registry) (can : bool) (ks : list tree) :
  Forall (fun t => forall ab, reg_ok G ab t = true ->
                   reg_ok (G ++ X) ab t = true /\ ckey (G ++ X) ab t = ckey G ab t) ks ->
  reg_oks G can ks = true ->
  reg_oks (G ++ X) can ks = true /\ ckeys (G ++ X) can ks = ckeys G can ks.
Proof.
  induction 1 as [| k ks Hk _ IH]; [auto|].
  rewrite !reg_oks_cons, !ckeys_cons, andb_true_iff. intros [H0 H1].
  destruct (Hk _ H0) as [-> ->]. destruct (IH H1) as [-> ->]. auto.
Qed.

Lemma reg_ok_stable (G X : registry) (t : tree) :
  forall ab, reg_ok G ab t = true ->
  reg_ok (G ++ X) ab t = true /\ ckey (G ++ X) ab t = ckey G ab t.
Proof.
  induction t as [a | arg sc reds kids IH] using tree_induction; intros ab H; [auto|].
  rewrite reg_ok_node in H. rewrite reg_ok_node, !ckey_node.
  apply andb_true_iff in H. destruct H as [Hreg Hk].
  destruct (reg_oks_stable_aux G X _ IH Hk) as [-> ->].
  destruct (is_reduction arg || _); [|auto].
  rewrite (alias_of_app G X _ Hreg), registered_app, Hreg. auto.
Qed.

Lemma reg_oks_stable (G X : registry) (can : bool) (ks : list tree) :
  reg_oks G can ks = true ->
  reg_oks (G ++ X) can ks = true /\ ckeys (G ++ X) can ks = ckeys G can ks.
Proof.
  apply reg_oks_stable_aux. apply Forall_forall. intros t _. apply reg_ok_stable.
Qed.

Lemma entry_closed_stable (G X : registry) (g : nat * tree) :
  entry_closed G g ->
  entry_closed (G ++ X) g /\ pkey (G ++ X) (snd g) = pkey G (snd g).
Proof.
  unfold entry_closed. destruct (snd g) as [a | arg sc reds kids]; [intros []|].
  intros H. destruct (reg_oks_stable G X _ _ H) as [H1 H2].
  split; [exact H1|]. cbn [pkey]. now rewrite H2.
Qed.

(** ** A key stands for one structure *)

Lemma find_unique {A : Type} (f : A -> bool) (l : list A) (g : A) :
  In g l -> f g = true -> (forall x, In x l -> f x = true -> x = g) ->
  find f l = Some g.
Proof.
  induction l as [| a l IH]; intros Hin Hf Hu; [destruct Hin|].
  cbn [find]. destruct (f a) eqn:Ea.
  - f_equal. apply Hu; [now left | exact Ea].
  - destruct Hin as [-> | Hin]; [congruence|].
    apply IH; [exact Hin | exact Hf|]. intros x Hx. apply Hu. now right.
Qed.

Lemma alias_key_op (x : targ) (n : string) (c : Z) :
  alias_key x = KOp n c -> exists r, x = TOp n c r.
Proof.
  unfold alias_key. destruct x as [i dt tk | i | n' c' r]; cbn [key_of_item]; try discriminate.
  rewrite (proj2 (in_aliases_in [TOp n' c' r] (TOp n' c' r)) (or_introl eq_refl)).
  intros [= -> ->]. eauto.
Qed.

Lemma alias_key_node (t0 : tree) (g : nat * tree) :
  wf_tree t0 = true -> In g (nodes_at 0 t0) ->
  exists n c r, reg_alias g = TOp n c r /\ alias_key (reg_alias g) = KOp n c.
Proof.
  intros Hwf Hin. destruct g as [j s].
  destruct (nodes_at_facts _ _ _ _ Hin) as (_ & (arg & sc & reds & kids & ->) & Hw).
  destruct (@wf_node _ _ _ _ (Hw Hwf)) as (Har & _).
  destruct (token_arity_op arg Har) as (n & c & r & ->).
  exists n, c, r. split; [reflexivity|]. unfold alias_key, reg_alias. cbn [snd root_arg key_of_item].
  now rewrite (proj2 (in_aliases_in [TOp n c r] (TOp n c r)) (or_introl eq_refl)).
Qed.

Lemma producer_of_alias (t0 : tree) (G : registry) (g : nat * tree) :
  wf_tree t0 = true -> distinct_ids t0 ->
  (forall g', In g' G -> In g' (nodes_at 0 t0)) -> In g G ->
  expand1 G (alias_key (reg_alias g)) = skey (snd g).
Proof.
  intros Hwf Hd HG Hin.
  destruct (@alias_key_node t0 g Hwf (HG g Hin)) as (n & c & r & Ha & Hk).
  rewrite Hk. cbn [expand1]. unfold producer_by_id.
  rewrite (@find_unique _ _ G g Hin).
  - reflexivity.
  - fold (reg_alias g). rewrite Hk. apply key_item_eqb_refl.
  - intros x Hx Hf. fold (reg_alias x) in Hf. apply key_item_eqb_eq in Hf.
    destruct (@alias_key_op _ _ _ Hf) as (r' & Hx').
    apply (@node_inj t0 x g Hd (HG x Hx) (HG g Hin)). now rewrite Hx', Ha.
Qed.

Lemma expand_app (G : registry) (k1 k2 : list key_item) :
  expand G (k1 ++ k2) = expand G k1 ++ expand G k2.
Proof. unfold expand. apply flat_map_app. Qed.

Lemma expand_plain (G : registry) (a : targ) :
  expand G [key_of_item [] a] = [key_of_item [] a].
Proof. destruct a; reflexivity. Qed.

Lemma expand_ckeys_aux (G : registry) (can : bool) (ks : list tree) :
  Forall (fun t => forall ab, reg_ok G ab t = true -> expand G (ckey G ab t) = skey t) ks ->
  reg_oks G can ks = true ->
  expand G (ckeys G can ks) = flat_map skey ks.
Proof.
  induction 1 as [| k ks Hk _ IH]; [reflexivity|].
  rewrite reg_oks_cons, ckeys_cons, andb_true_iff. intros [H0 H1].
  rewrite expand_app, (Hk _ H0), (IH H1). reflexivity.
Qed.

Lemma expand_ckey (t0 : tree) (G : registry) (t : tree) :
  wf_tree t0 = true -> distinct_ids t0 ->
  (forall g', In g' G -> In g' (nodes_at 0 t0)) ->
  forall ab, reg_ok G ab t = true -> expand G (ckey G ab t) = skey t.
Proof.
  intros Hwf Hd HG.
  induction t as [a | arg sc reds kids IH] using tree_induction; intros ab H.
  - cbn [ckey]. apply expand_plain.
  - rewrite reg_ok_node in H. rewrite ckey_node.
    apply andb_true_iff in H. destruct H as [Hreg Hk].
    destruct (is_reduction arg || _).
    + destruct (@alias_of_registered G _ Hreg) as (g & Hin & Hs & Ha).
      rewrite Ha. unfold expand. cbn [flat_map]. rewrite app_nil_r.
      rewrite (@producer_of_alias t0 G g Hwf Hd HG Hin). exact Hs.
    + rewrite expand_app, (@expand_ckeys_aux G _ _ IH Hk), expand_plain, skey_node.
      reflexivity.
Qed.

Lemma expand_pkey (t0 : tree) (G : registry) (g : nat * tree) :
  wf_tree t0 = true -> distinct_ids t0 ->
  (forall g', In g' G -> In g' (nodes_at 0 t0)) ->
  entry_closed G g -> expand G (pkey G (snd g)) = skey (snd g).
Proof.
  intros Hwf Hd HG. unfold entry_closed.
  destruct (snd g) as [a | arg sc reds kids]; [intros []|]. intros Hk.
  cbn [pkey]. rewrite expand_app, expand_plain, skey_node. f_equal.
  apply expand_ckeys_aux; [|exact Hk].
  apply Forall_forall. intros t _. now apply (@expand_ckey t0 G t Hwf Hd HG).
Qed.

(** Looking a node up by its key finds the registered node of its
    structure. *)
Lemma key_test_agree (t0 : tree) (G : registry) (gn g : nat * tree) :
  wf_tree t0 = true -> distinct_ids t0 ->
  (forall g', In g' G -> In g' (nodes_at 0 t0)) ->
  (forall g', In g' G -> entry_closed G g') ->
  In gn (nodes_at 0 t0) -> entry_closed G gn -> In g G ->
  key_eqb (pkey G (snd g)) (pkey G (snd gn)) = key_eqb (skey (snd g)) (skey (snd gn)).
Proof.
  intros Hwf Hd HG Hcl Hn Hcn Hin.
  assert (Hw : forall x, In x (nodes_at 0 t0) -> wf_tree (snd x) = true).
  { intros [j s] Hx. now apply (nodes_at_facts _ _ _ _ Hx). }
  destruct (key_eqb (skey (snd g)) (skey (snd gn))) eqn:E.
  - apply key_eqb_iff in E. apply key_eqb_iff.
    apply same_pkey; [apply Hw, HG, Hin | apply Hw, Hn | exact E].
  - destruct (key_eqb (pkey G (snd g)) (pkey G (snd gn))) eqn:E'; [|reflexivity].
    apply key_eqb_iff in E'.
    assert (Hs : skey (snd g) = skey (snd gn)).
    { rewrite <- (@expand_pkey t0 G g Hwf Hd HG (Hcl g Hin)).
      rewrite <- (@expand_pkey t0 G gn Hwf Hd HG Hcn). now rewrite E'. }
    rewrite Hs, key_eqb_refl in E. discriminate.
Qed.

Lemma dup_get_registry (G : registry) (f : nat * tree -> list key_item)
      (K sk : list key_item) :
  (forall g, In g G -> key_eqb (f g) K = key_eqb (skey (snd g)) sk) ->
  dup_get (map (fun g => (f g, reg_alias g)) G) K = alias_of G sk.
Proof.
  unfold alias_of. induction G as [| g G IH]; intros H; [reflexivity|].
  cbn [map dup_get find]. rewrite (H g (or_introl eq_refl)).
  destruct (key_eqb (skey (snd g)) sk); [reflexivity|].
  apply IH. intros g' Hin. apply H. now right.
Qed.

Lemma register_all_app (ps qs : list (nat * tree)) :
  forall G, register_all G (ps ++ qs) = register_all (register_all G ps) qs.
Proof. induction ps as [| p ps IH]; intros G; [reflexivity | apply IH]. Qed.

(** ** The dictionaries of the functional splitter *)

(** The children of a node, one after the other. *)
Lemma split_kids_inv (t0 : tree) (can : bool) (ks : list tree) :
  Forall (inv_stmt t0) ks ->
  forall b d G,
    Forall (fun k => wf_tree k = true) ks ->
    incl (nodes_at_list ks b) (nodes_at 0 t0) ->
    dedup_inv t0 d G ->
    (forall g, In g G -> (fst g < b)%nat) ->
    inv_post t0 b (b + ncells_list ks) G (processed_at_list can ks b)
      (fst (fst (split_kids (fun ab b' k d' => splitP ab b' k d') can ks b d)))
      (snd (fst (split_kids (fun ab b' k d' => splitP ab b' k d') can ks b d)))
      (snd (split_kids (fun ab b' k d' => splitP ab b' k d') can ks b d))
      (fun G' => ckeys G' can ks) (fun G' => reg_oks G' can ks).
Proof.
  induction 1 as [| k ks Hk _ IH]; intros b d G Hwf Hincl Hinv HG.
  - cbn [split_kids processed_at_list register_all fst snd].
    split; [exact Hinv|]. split; [exists []; split; [now rewrite app_nil_r | apply incl_refl]|].
    split; [reflexivity|]. split; [reflexivity|]. intros j s [].
  - inversion Hwf as [| ? ? Hwf0 Hwf']; subst.
    rewrite nodes_at_list_cons in Hincl.
    assert (Hincl0 : incl (nodes_at b k) (nodes_at 0 t0)).
    { intros x Hx. apply Hincl, in_app_iff. now left. }
    assert (Hincl1 : incl (nodes_at_list ks (b + ncells k)) (nodes_at 0 t0)).
    { intros x Hx. apply Hincl, in_app_iff. now right. }
    rewrite split_kids_cons, processed_at_list_cons, ncells_list_cons. cbn [fst snd].
    set (ab0 := can && (count_reductions_list ks =? 0)).
    destruct (Hk ab0 b d G Hwf0 Hincl0 Hinv HG)
      as (Hinv0 & (X0 & HG0 & HX0) & Hok0 & Hkey0 & Hcells0).
    set (r0 := splitP ab0 b k d) in *.
    set (P0 := processed_at ab0 b k) in *.
    set (G0 := register_all G P0) in *.
    assert (HG0' : forall g, In g G0 -> (fst g < b + ncells k)%nat).
    { intros g Hg. rewrite HG0 in Hg. apply in_app_iff in Hg. destruct Hg as [Hg | Hg].
      - apply HG in Hg. lia.
      - apply HX0, processed_are_nodes in Hg. destruct g as [j s].
        apply nodes_at_facts in Hg. cbn [fst]. lia. }
    destruct (IH (b + ncells k)%nat (snd r0) G0 Hwf' Hincl1 Hinv0 HG0')
      as (Hinv1 & (X1 & HG1 & HX1) & Hok1 & Hkey1 & Hcells1).
    set (rs := split_kids (fun ab b' k d' => splitP ab b' k d') can ks (b + ncells k)
                 (snd r0)) in *.
    set (Ps := processed_at_list can ks (b + ncells k)) in *.
    unfold inv_post. rewrite register_all_app. fold G0.
    set (G1 := register_all G0 Ps) in *.
    split; [exact Hinv1|]. split; [|split; [|split]].
    + exists (X0 ++ X1). split.
      * now rewrite HG1, HG0, app_assoc.
      * apply incl_app; [apply incl_appl, HX0 | apply incl_appr, HX1].
    + rewrite reg_oks_cons, Hok1, andb_true_r. rewrite HG1.
      apply (reg_ok_stable G0 X1 k ab0 Hok0).
    + intros Y HY. rewrite map_app, ckeys_cons. f_equal.
      * rewrite HG1, <- app_assoc, Hkey0.
        -- symmetry. apply (reg_ok_stable G0 X1 k ab0 Hok0).
        -- intros g Hg. apply in_app_iff in Hg. destruct Hg as [Hg | Hg].
           ++ apply HX1, processed_list_are_nodes in Hg. split; [now apply Hincl1|].
              destruct g as [j s]. apply nodes_at_list_facts in Hg. cbn [fst]. lia.
           ++ destruct (HY g Hg). split; [assumption | lia].
      * apply Hkey1. intros g Hg. destruct (HY g Hg). split; [assumption | lia].
    + intros j s Hin. apply in_app_iff in Hin. destruct Hin as [Hin | Hin].
      * destruct (Hcells0 j s Hin) as (c & g & Hc & Hkc & Hg & Hs & Ha & Hle).
        exists c, g. split; [|split; [exact Hkc|split; [|auto]]].
        -- rewrite nth_error_app1; [exact Hc|]. apply nth_error_Some. congruence.
        -- rewrite HG1. apply in_app_iff. now left.
      * destruct (Hcells1 j s Hin) as (c & g & Hc & Hkc & Hg & Hs & Ha & Hle).
        exists c, g. split; [|auto].
        apply processed_list_are_nodes, nodes_at_list_facts in Hin.
        rewrite nth_error_app2; unfold r0; rewrite splitP_cells_length; [|lia].
        replace (j - b - ncells k)%nat with (j - (b + ncells k))%nat by lia. exact Hc.
Qed.

Lemma nodup_snoc {A : Type} (l : list A) (x : A) : NoDup l -> ~ In x l -> NoDup (l ++ [x]).
Proof.
  induction l as [| a l IH]; intros Hnd Hx; cbn [app].
  - constructor; [intros [] | constructor].
  - inversion Hnd as [| ? ? Hnotin Hnd']; subst. constructor.
    + intros Hin. apply in_app_iff in Hin. destruct Hin as [Hin | [-> | []]].
      * now apply Hnotin.
      * apply Hx. now left.
    + apply IH; [exact Hnd'|]. intros Hin. apply Hx. now right.
Qed.

Lemma node_arity (t0 : tree) (g : nat * tree) :
  wf_tree t0 = true -> In g (nodes_at 0 t0) ->
  exists n, token_arity (reg_alias g) = Some n.
Proof.
  intros Hwf Hin. destruct g as [j s].
  destruct (nodes_at_facts _ _ _ _ Hin) as (_ & (arg & sc & reds & kids & ->) & Hw).
  destruct (@wf_node _ _ _ _ (Hw Hwf)) as (Har & _). eauto.
Qed.

Lemma not_alias_by_address (t0 : tree) (R : registry) (gn : nat * tree) :
  distinct_ids t0 ->
  (forall g, In g R -> In g (nodes_at 0 t0)) ->
  In gn (nodes_at 0 t0) ->
  (forall g, In g R -> fst g <> fst gn) ->
  ~ In (reg_alias gn) (rev (map reg_alias R)).
Proof.
  intros Hd HR Hn Haddr Hin. apply in_rev in Hin.
  apply (@alias_member t0 R gn Hd HR Hn) in Hin. now apply (Haddr gn Hin).
Qed.

Lemma leaf_not_alias (t0 : tree) (R : registry) (a : targ) :
  wf_tree t0 = true ->
  (forall g, In g R -> In g (nodes_at 0 t0)) ->
  token_arity a = None ->
  ~ In a (rev (map reg_alias R)).
Proof.
  intros Hwf HR Ha Hin. apply in_rev, in_map_iff in Hin.
  destruct Hin as (g & <- & Hg).
  destruct (@node_arity t0 g Hwf (HR g Hg)) as (n & Hn). congruence.
Qed.

(** The functional splitter keeps the dictionaries in line with the
    registry: a processed node whose structure is registered becomes an
    alias, any other one is registered with a stage of its own. *)
Lemma splitP_inv (t0 : tree) (t : tree) :
  wf_tree t0 = true -> distinct_ids t0 -> inv_stmt t0 t.
Proof.
  intros Hwf0 Hd0.
  induction t as [a | arg sc reds kids IH] using tree_induction;
    intros ab b d G Hwf Hincl Hinv HG.
  - (* a tuple *)
    cbn [splitP processed_at ncells fst snd]. unfold inv_post. cbn [register_all].
    split; [exact Hinv|].
    split; [exists []; split; [now rewrite app_nil_r | apply incl_refl]|].
    split; [reflexivity|]. split; [|intros j s []].
    intros Y HY. cbn [map ckey]. f_equal. apply key_of_plain.
    apply (@leaf_not_alias t0 (G ++ Y) a Hwf0).
    + intros g Hg. apply in_app_iff in Hg. destruct Hg as [Hg | Hg].
      * destruct Hinv as (_ & _ & _ & _ & HGn & _). now apply HGn.
      * now apply (HY g Hg).
    + apply wf_arity in Hwf. cbn [arity_ok] in Hwf.
      destruct (token_arity a); [discriminate | reflexivity].
  - (* a node *)
    destruct (@wf_node _ _ _ _ Hwf) as (Har & Hsc & Hwk).
    rewrite nodes_at_node in Hincl.
    assert (Hinclk : incl (nodes_at_list kids b) (nodes_at 0 t0)).
    { intros x Hx. apply Hincl, in_app_iff. now left. }
    assert (Hself : In ((b + ncells_list kids)%nat, Node arg sc reds kids) (nodes_at 0 t0)).
    { apply Hincl, in_app_iff. right. now left. }
    set (can := sc && negb (is_reduction arg) && not_assign arg).
    destruct (@split_kids_inv t0 can kids IH b d G Hwk Hinclk Hinv HG)
      as (Hinvk & (Xk & HGk & HXk) & Hokk & Hkeyk & Hcellsk).
    pose proof (@split_kids_cells_length can kids
                  ltac:(apply Forall_forall; intros k _; apply splitP_cells_length) b d)
      as Hlenk.
    rewrite splitP_node, processed_at_node, ncells_node. cbv zeta. fold can.
    set (rk := split_kids (fun ab b' k d' => splitP ab b' k d') can kids b d) in *.
    set (Pk := processed_at_list can kids b) in *.
    set (Gk := register_all G Pk) in *.
    set (nr := count_reductions_list kids) in *.
    set (a_n := (b + ncells_list kids)%nat) in *.
    set (n := Node arg sc reds kids) in *.
    set (gn := (a_n, n)) in *.
    assert (HGk_nodes : forall g, In g Gk -> In g (nodes_at 0 t0)).
    { destruct Hinvk as (_ & _ & _ & _ & HGn & _). exact HGn. }
    assert (HGk_addr : forall g, In g Gk -> (fst g < a_n)%nat).
    { intros g Hg. rewrite HGk in Hg. apply in_app_iff in Hg. destruct Hg as [Hg | Hg].
      - apply HG in Hg. subst a_n. lia.
      - apply HXk, processed_list_are_nodes in Hg. destruct g as [j s].
        apply nodes_at_list_facts in Hg. cbn [fst]. subst a_n. lia. }
    assert (Hcells_k : forall c, cells_aliased Gk b (fst (fst rk) ++ [c]) Pk).
    { intros c0 j s Hin. destruct (Hcellsk j s Hin) as (c & g & Hc & Hrest).
      exists c, g. split; [|exact Hrest].
      rewrite nth_error_app1; [exact Hc|]. apply nth_error_Some. congruence. }
    destruct (is_reduction arg || can && (0 <? nr) && negb ab) eqn:Hproc.
    + (* processed *)
      pose proof Hinvk as (Hdups & Hal & Hst & Hnd & _ & Hcl).
      cbv beta in Hokk.
      set (stack := snd (fst rk) ++ [arg]).
      assert (Hfresh : ~ In arg (rev (map reg_alias Gk))).
      { apply (@not_alias_by_address t0 Gk gn Hd0 HGk_nodes Hself).
        intros g Hg. apply HGk_addr in Hg. cbn [fst gn]. lia. }
      assert (HK : map (key_of_item (dd_aliases (snd rk))) stack = pkey Gk n).
      { unfold stack. rewrite map_app, Hal. cbn [map]. unfold n. cbn [pkey]. fold can.
        f_equal.
        - specialize (Hkeyk [] ltac:(intros g [])). rewrite app_nil_r in Hkeyk. exact Hkeyk.
        - f_equal. now apply key_of_plain. }
      assert (Hdup : dup_get (dd_dups (snd rk)) (pkey Gk n) = alias_of Gk (skey n)).
      { rewrite Hdups. apply (@dup_get_registry Gk (fun g => pkey Gk (snd g))).
        intros g Hg.
        exact (@key_test_agree t0 Gk gn g Hwf0 Hd0 HGk_nodes Hcl Hself Hokk Hg). }
      assert (Hlast : last stack arg = arg) by (unfold stack; apply last_last).
      unfold register. fold stack. rewrite HK, Hdup. cbv zeta.
      unfold inv_post. rewrite register_all_app. fold Gk. cbn [register_all snd gn].
      fold n.
      destruct (registered Gk (skey n)) eqn:Hreg.
      * (* a node of this structure is registered: an alias *)
        destruct (@alias_of_registered Gk _ Hreg) as (g & Hg & Hs & Ha).
        rewrite Ha. cbn [fst snd].
        split; [exact Hinvk|].
        split; [exists Xk; split; [exact HGk | apply incl_appl, HXk]|].
        split; [|split].
        -- unfold n. rewrite reg_ok_node. fold can nr n. rewrite Hproc, Hreg. exact Hokk.
        -- intros Y HY. unfold n. rewrite ckey_node. fold can nr n. rewrite Hproc, Ha.
           cbn [map]. f_equal. apply key_of_alias.
           apply in_rev. rewrite rev_involutive. apply in_map, in_app_iff. now left.
        -- intros j s Hin. apply in_app_iff in Hin. destruct Hin as [Hin | [[= <- <-] | []]].
           ++ now apply Hcells_k.
           ++ eexists. exists g. split.
              ** replace (a_n - b)%nat with (List.length (fst (fst rk)))
                   by (rewrite Hlenk; subst a_n; lia).
                 apply nth_error_snoc.
              ** cbn [c_kids c_arg]. split; [reflexivity|]. split; [exact Hg|].
                 split; [exact Hs|]. split; [reflexivity|].
                 apply HGk_addr in Hg. lia.
      * (* the first node of this structure: a stage *)
        destruct (@alias_of_unregistered Gk _ Hreg) as (Ha & Hnotin).
        rewrite Ha. cbn [fst snd dd_dups dd_aliases dd_stages]. rewrite Hlast.
        assert (Hgn : In gn (Gk ++ [gn])) by (apply in_app_iff; right; now left).
        assert (Hokk' : reg_oks (Gk ++ [gn]) can kids = true)
          by apply (reg_oks_stable Gk [gn] can kids Hokk).
        split; [|split; [|split; [|split]]].
        -- (* the dictionaries *)
           unfold dedup_inv. cbn [dd_dups dd_aliases dd_stages].
           split; [|split; [|split; [|split; [|split]]]].
           ++ rewrite Hdups, map_app. cbn [map snd]. f_equal.
              ** apply map_ext_in. intros g Hg. f_equal.
                 symmetry. apply (entry_closed_stable Gk [gn] g (Hcl g Hg)).
              ** f_equal. f_equal.
                 change (pkey Gk (snd gn) = pkey (Gk ++ [gn]) (snd gn)).
                 symmetry. apply (entry_closed_stable Gk [gn] gn Hokk).
           ++ rewrite Hal, map_app, rev_app_distr. reflexivity.
           ++ apply Forall2_app; [exact Hst|]. constructor; [|constructor].
              unfold stage_top, reg_alias. cbn [fst snd gn n root_arg].
              split; [unfold stack; apply last_last | reflexivity].
           ++ rewrite map_app. cbn [map snd gn]. now apply nodup_snoc.
           ++ intros g Hg. apply in_app_iff in Hg.
              destruct Hg as [Hg | [<- | []]]; [now apply HGk_nodes | exact Hself].
           ++ intros g Hg. apply in_app_iff in Hg. destruct Hg as [Hg | [<- | []]].
              ** apply (entry_closed_stable Gk [gn] g (Hcl g Hg)).
              ** exact Hokk'.
        -- exists (Xk ++ [gn]). split; [now rewrite HGk, app_assoc|].
           apply incl_app; [apply incl_appl, HXk | apply incl_appr, incl_refl].
        -- unfold n. rewrite reg_ok_node. fold can nr n. rewrite Hproc, Hokk'.
           pose proof (registered_in (Gk ++ [gn]) gn Hgn) as Hrg. cbn [snd gn] in Hrg.
           rewrite Hrg. reflexivity.
        -- intros Y HY. unfold n. rewrite ckey_node. fold can nr n. rewrite Hproc.
           pose proof (@alias_of_fresh Gk gn Hreg) as Hfr. cbn [snd gn] in Hfr.
           rewrite Hfr.
           cbn [map]. f_equal. apply key_of_alias.
           apply in_rev. rewrite rev_involutive.
           apply (in_map reg_alias _ gn), in_app_iff. left. exact Hgn.
        -- intros j s Hin. apply in_app_iff in Hin. destruct Hin as [Hin | [[= <- <-] | []]].
           ++ destruct (Hcells_k (mkCell arg sc (if not_assign arg then reds - nr else reds) [])
                          j s Hin) as (c & g & Hc & Hkc & Hg & Hrest).
              exists c, g. split; [exact Hc|]. split; [exact Hkc|].
              split; [apply in_app_iff; now left | exact Hrest].
           ++ eexists. exists gn. split.
              ** replace (a_n - b)%nat with (List.length (fst (fst rk)))
                   by (rewrite Hlenk; subst a_n; lia).
                 apply nth_error_snoc.
              ** cbn [c_kids c_arg]. split; [reflexivity|]. split; [exact Hgn|].
                 split; [reflexivity|]. split; [reflexivity|]. cbn [fst gn]. lia.
    + (* left in place *)
      rewrite app_nil_r. cbn [fst snd]. unfold inv_post. fold Gk.
      split; [exact Hinvk|]. split; [exists Xk; split; [exact HGk | exact HXk]|].
      split; [|split].
      * cbv beta. unfold n. rewrite reg_ok_node. fold can nr. rewrite Hproc. exact Hokk.
      * intros Y HY. cbv beta. unfold n. rewrite ckey_node. fold can nr. rewrite Hproc.
        rewrite map_app. f_equal.
        -- apply Hkeyk. intros g Hg. destruct (HY g Hg). split; [assumption | lia].
        -- cbn [map]. f_equal. apply key_of_plain.
           apply (@not_alias_by_address t0 (Gk ++ Y) gn Hd0).
           ++ intros g Hg. apply in_app_iff in Hg. destruct Hg as [Hg | Hg];
                [now apply HGk_nodes | now apply (HY g Hg)].
           ++ exact Hself.
           ++ intros g Hg. apply in_app_iff in Hg. cbn [fst gn].
              destruct Hg as [Hg | Hg]; [apply HGk_addr in Hg; lia|].
              destruct (HY g Hg). subst a_n. lia.
      * apply Hcells_k.
Qed.

(** ** The pass on a whole tree *)

Lemma split_tree_splitP (t : tree) :
  well_built t = true -> assign_ok [] t ->
  split_tree t =
  Some (fst (fst (splitP false 0 t (mkDedup [] [] []))), operand_at 0 t,
        dd_stages (snd (splitP false 0 t (mkDedup [] [] [])))).
Proof.
  intros Hwb Has. unfold split_tree. rewrite alloc_spec. cbn [List.length app].
  destruct (@sim t Hwb (S (List.length (seg 0 t))) 0%nat (seg 0 t) (mkDedup [] [] []) []
              None false Has)
    as (h' & Hrun & Hafter).
  - intros i Hi. reflexivity.
  - constructor.
  - intros p [].
  - rewrite seg_length. lia.
  - constructor.
  - intros _. split; [reflexivity|]. split; [exact I | discriminate].
  - rewrite finish_none in Hrun, Hafter. cbn [fst snd] in Hrun, Hafter.
    change (state_of (seg 0 t) (mkDedup [] [] []) [])
      with (mkSplit (seg 0 t) [] [] [] []) in Hrun.
    rewrite Hrun. cbn [state_of s_heap s_stages].
    destruct Hafter as (HL & _ & HC & HA).
    assert (Hh : h' = fst (fst (splitP false 0 t (mkDedup [] [] [])))).
    { apply heap_ext. intros a. destruct (Nat.lt_ge_cases a (ncells t)) as [Hlt | Hge].
      - apply (HC a). lia.
      - rewrite HA by lia. cbn [above_cell]. rewrite parent_cell_not_in by (intros []).
        rewrite (proj2 (nth_error_None (seg 0 t) a)) by (rewrite seg_length; lia).
        symmetry. apply nth_error_None. rewrite splitP_cells_length. lia. }
    now rewrite Hh.
Qed.

Lemma dedup_inv_empty (t0 : tree) : dedup_inv t0 (mkDedup [] [] []) [].
Proof.
  split; [reflexivity|]. split; [reflexivity|]. split; [constructor|].
  split; [constructor|]. split; intros g [].
Qed.

(** ** Stages and structures *)

Lemma has_structure_registered (t0 : tree) (sk : list key_item) (g : nat * tree) :
  distinct_ids t0 -> In g (nodes_at 0 t0) ->
  has_structure sk (nodes_at 0 t0) (reg_alias g) = key_eqb (skey (snd g)) sk.
Proof.
  intros Hd Hg. unfold has_structure.
  destruct (key_eqb (skey (snd g)) sk) eqn:E.
  - apply existsb_exists. exists g. split; [exact Hg|].
    rewrite E. apply targ_eqb_refl.
  - destruct (existsb _ (nodes_at 0 t0)) eqn:E'; [|reflexivity].
    apply existsb_exists in E'. destruct E' as (js & Hjs & Hb).
    apply andb_true_iff in Hb. destruct Hb as [Hk Ht]. apply targ_eqb_eq in Ht.
    rewrite (@node_inj t0 js g Hd Hjs Hg) in Hk by (unfold reg_alias; now rewrite Ht).
    congruence.
Qed.

Lemma filter_none {A B : Type} (R : A -> B -> Prop) (f : A -> bool) (p : B -> bool)
      (l : list A) (G : list B) :
  Forall2 R l G ->
  (forall st g, In g G -> R st g -> f st = p g) ->
  (forall g, In g G -> p g = false) ->
  filter f l = [].
Proof.
  induction 1 as [| st g l G HR _ IH]; intros Hf Hp; [reflexivity|].
  cbn [filter]. rewrite (Hf st g (or_introl eq_refl) HR), (Hp g (or_introl eq_refl)).
  apply IH.
  - intros st' g' Hg'. apply Hf. now right.
  - intros g' Hg'. apply Hp. now right.
Qed.

Lemma filter_one {A B C : Type} (R : A -> B -> Prop) (f : A -> bool) (key : B -> C)
      (p : B -> bool) (l : list A) (G : list B) (g0 : B) :
  Forall2 R l G ->
  NoDup (map key G) ->
  (forall st g, In g G -> R st g -> f st = p g) ->
  (forall g, In g G -> p g = true -> key g = key g0) ->
  In g0 G -> p g0 = true ->
  exists st, filter f l = [st] /\ R st g0.
Proof.
  induction 1 as [| st g l G HR HF IH]; intros Hnd Hf Hp Hin Hp0; [destruct Hin|].
  cbn [map] in Hnd. inversion Hnd as [| ? ? Hnotin Hnd']; subst.
  cbn [filter]. rewrite (Hf st g (or_introl eq_refl) HR).
  destruct Hin as [-> | Hin].
  - rewrite Hp0. exists st. split; [|exact HR]. f_equal.
    apply (@filter_none _ _ R f p l G HF).
    + intros st' g' Hg'. apply Hf. now right.
    + intros g' Hg'. destruct (p g') eqn:E; [|reflexivity].
      exfalso. apply Hnotin. rewrite <- (Hp g' (or_intror Hg') E). now apply in_map.
  - destruct (p g) eqn:E.
    + exfalso. apply Hnotin. rewrite (Hp g (or_introl eq_refl) E). now apply in_map.
    + apply IH; try assumption.
      * intros st' g' Hg'. apply Hf. now right.
      * intros g' Hg'. apply Hp. now right.
Qed.

Lemma same_key_same_reduction (s1 s2 : tree) :
  wf_tree s1 = true -> wf_tree s2 = true -> skey s1 = skey s2 ->
  is_reduction (root_arg s1) = is_reduction (root_arg s2).
Proof.
  intros H1 H2 H. destruct s1 as [a1 | a1 sc1 r1 ks1].
  - destruct (@skey_leaf_inv _ _ (wf_arity _ H1) (wf_arity _ H2) H) as (a2 & -> & Hk).
    cbn [root_arg]. apply wf_arity in H1, H2. cbn [arity_ok] in H1, H2.
    destruct (token_arity a1) eqn:E1; [discriminate|].
    destruct (token_arity a2) eqn:E2; [discriminate|].
    destruct (is_reduction a1) eqn:R1.
    + rewrite (token_arity_reduction a1 R1) in E1. discriminate.
    + destruct (is_reduction a2) eqn:R2; [|reflexivity].
      rewrite (token_arity_reduction a2 R2) in E2. discriminate.
  - destruct (@skey_node_inv _ _ _ _ _ (wf_arity _ H1) (wf_arity _ H2) H)
      as (a2 & sc2 & r2 & ks2 & -> & Hn & _).
    cbn [root_arg]. now apply is_reduction_name.
Qed.

Lemma nodes_at_args (t : tree) :
  forall b, map (fun js => root_arg (snd js)) (nodes_at b t) = node_args t.
Proof.
  induction t as [a | arg sc reds kids IH] using tree_induction; intros b; [reflexivity|].
  rewrite nodes_at_node, map_app. cbn [map snd root_arg node_args]. f_equal.
  revert b. induction IH as [| k ks Hk _ IHks]; intros b; [reflexivity|].
  rewrite nodes_at_list_cons, map_app, Hk, IHks. reflexivity.
Qed.

Lemma build_tree_distinct_ids (type_args : list targ) (t : tree) :
  _build_tree type_args = inr t -> NoDup (op_ids type_args) -> distinct_ids t.
Proof.
  intros H Hnd. unfold distinct_ids.
  rewrite <- (map_map (fun js => root_arg (snd js)) arg_id), nodes_at_args.
  exact (@build_tree_node_ids type_args t H Hnd).
Qed.

Lemma build_tree_wf (type_args : list targ) (t : tree) :
  _build_tree type_args = inr t -> wf_tree t = true.
Proof.
  intros H. unfold wf_tree.
  now rewrite (@build_tree_well_built type_args t H), (@build_tree_arity type_args t H).
Qed.

(** *** The streams of the driver *)

(** [call_compound_kernel] gives every operation the next value of
    [op_cnt]. *)
Lemma step_arg_counters (f : flags) (st st' : call_state) (a : arg) :
  step_arg f st a = inr st' ->
  (op_ids (cs_type_args st') = op_ids (cs_type_args st) /\
   cs_op_cnt st' = cs_op_cnt st) \/
  (op_ids (cs_type_args st') = op_ids (cs_type_args st) ++ [cs_op_cnt st] /\
   cs_op_cnt st' = cs_op_cnt st + 1).
Proof.
  destruct a as [t | c | d]; cbn [step_arg].
  - intros H. left. unfold step_tensor in H.
    apply bind_inr in H. destruct H as (dims & _ & H).
    apply bind_inr in H. destruct H as (reg & Hreg & H).
    injection H as <-. cbn [cs_type_args cs_op_cnt].
    destruct (register_tensor_frame _ _ _ _ _ Hreg) as (Hc & Ht & _).
    rewrite op_ids_app, Ht, Hc. cbn. now rewrite app_nil_r.
  - intros [= <-]. left. unfold step_const.
    destruct (ids_get Z.eqb (cs_const_ids st) c); cbn [cs_type_args cs_op_cnt];
      rewrite op_ids_app; cbn; now rewrite app_nil_r.
  - intros H. right. unfold step_op in H.
    apply bind_inr in H. destruct H as (s1 & H1 & H). injection H as <-.
    cbn [cs_type_args cs_op_cnt].
    repeat break_result H1; try discriminate; injection H1 as <-;
      cbn [cs_type_args cs_op_cnt]; rewrite op_ids_app; split; reflexivity.
Qed.

Lemma step_args_counters (f : flags) (args : list arg) :
  forall st st',
  NoDup (op_ids (cs_type_args st)) ->
  (forall c, In c (op_ids (cs_type_args st)) -> c < cs_op_cnt st) ->
  step_args f st args = inr st' ->
  NoDup (op_ids (cs_type_args st')).
Proof.
  induction args as [| a rest IH]; intros st st' Hnd Hlt H; cbn [step_args] in H.
  - now injection H as <-.
  - apply bind_inr in H. destruct H as (s1 & Hstep & H).
    destruct (@step_arg_counters _ _ _ _ Hstep) as [[Ht Hc] | [Ht Hc]].
    + apply (@IH s1 st'); [now rewrite Ht | rewrite Ht, Hc; exact Hlt | exact H].
    + apply (@IH s1 st'); [| |exact H].
      * rewrite Ht. apply nodup_snoc; [exact Hnd|].
        intros Hin. apply Hlt in Hin. lia.
      * rewrite Ht, Hc. intros c Hin. apply in_app_iff in Hin.
        destruct Hin as [Hin | [<- | []]]; [apply Hlt in Hin; lia | lia].
Qed.

Lemma prepare_call_distinct_counters (rand_state : Z) (args : list arg) (f : flags)
      (st : call_state) :
  prepare_call rand_state args = inr (f, st) -> NoDup (op_ids (cs_type_args st)).
Proof.
  unfold prepare_call. intros H.
  apply bind_inr in H. destruct H as (f0 & _ & H).
  apply bind_inr in H. destruct H as (s1 & Hs & H). injection H as _ <-.
  apply (@step_args_counters f0 args (init_call rand_state) s1); [constructor | | exact Hs].
  intros c [].
Qed.

(** *** Duplicate reductions *)

(** C1: [type_args] is the stream of a call, with the operations numbered
    apart and [assign] as the last token, and [t] the tree [_build_tree]
    makes of it.  Then [_split_stages] ends, and for every reduction
    subtree [s] of [t], at address [j]: among all the stages, those made
    by subtrees of the structure of [s] (same operation names and same
    kind and index of the tuples, in post order) are exactly one stage, a
    ["reduction"] stage, and its last element is the operation of [s1], the
    first subtree of that structure in post order; the node at [j] ends
    without children and with the operation of [s1] as its [node[0]], so
    that every later occurrence is an alias of the first one and has no
    stage of its own. *)
Theorem C1_duplicate_reductions_share_one_stage (type_args : list targ) (t : tree) :
  _build_tree type_args = inr t ->
  NoDup (op_ids type_args) ->
  assign_last type_args = true ->
  exists h stages,
    split_tree t = Some (h, operand_at 0 t, stages) /\
    forall j s,
      In (j, s) (nodes_at 0 t) -> is_reduction (root_arg s) = true ->
      exists k s1 stk,
        In (k, s1) (nodes_at 0 t) /\ skey s1 = skey s /\
        (forall k' s', In (k', s') (nodes_at 0 t) -> skey s' = skey s -> (k <= k')%nat) /\
        stages_of_structure t (skey s) stages = [(reduction_stage, stk)] /\
        stage_top (reduction_stage, stk) = root_arg s1 /\
        exists c, nth_error h j = Some c /\ c_arg c = root_arg s1 /\ c_kids c = [].
Proof.
  intros Hb Hnd Hal.
  pose proof (@build_tree_wf type_args t Hb) as Hwf.
  pose proof (@build_tree_distinct_ids type_args t Hb Hnd) as Hd.
  rewrite (@split_tree_splitP t (@wf_well_built t Hwf) (@build_tree_assign_ok type_args t Hb Hal)).
  eexists. eexists. split; [reflexivity|].
  destruct (@splitP_inv t t Hwf Hd false 0%nat (mkDedup [] [] []) [] Hwf
              (incl_refl _) (dedup_inv_empty t)
              (fun g (H : In g []) => match H with end))
    as (Hinv & _ & _ & _ & Hcells).
  set (r := splitP false 0 t (mkDedup [] [] [])) in *.
  set (G := register_all [] (processed_at false 0 t)) in *.
  destruct Hinv as (_ & _ & Hst & Hndk & HGn & _).
  assert (Hw : forall js, In js (nodes_at 0 t) -> wf_tree (snd js) = true).
  { intros [j' s'] Hjs. now apply (nodes_at_facts _ _ _ _ Hjs). }
  assert (Hfind : forall j s, In (j, s) (nodes_at 0 t) -> is_reduction (root_arg s) = true ->
            exists c g, nth_error (fst (fst r)) j = Some c /\ c_kids c = [] /\
                        In g G /\ skey (snd g) = skey s /\ c_arg c = reg_alias g /\
                        (fst g <= j)%nat).
  { intros j s Hin Hred.
    destruct (Hcells j s (@reductions_are_processed t false 0%nat j s Hin Hred))
      as (c & g & Hc & Hrest).
    rewrite Nat.sub_0_r in Hc. eauto. }
  intros j s Hin Hred.
  destruct (Hfind j s Hin Hred) as (c & g & Hc & Hkc & Hg & Hs & Ha & Hle).
  destruct (@filter_one _ _ _
              (fun st g => stage_top st = reg_alias g /\
                           fst st = if is_reduction (reg_alias g)
                                    then reduction_stage else scalar_stage)
              (fun st => has_structure (skey s) (nodes_at 0 t) (stage_top st))
              (fun g => skey (snd g))
              (fun g => key_eqb (skey (snd g)) (skey s))
              (dd_stages (snd r)) G g Hst Hndk)
    as (st & Hfilter & Htop & Hty).
  - intros st g' Hg' [Ht _]. rewrite Ht.
    apply (@has_structure_registered t (skey s) g' Hd (HGn g' Hg')).
  - intros g' Hg' Hk. apply key_eqb_eq in Hk. congruence.
  - exact Hg.
  - rewrite Hs. apply key_eqb_refl.
  - assert (Hredg : is_reduction (reg_alias g) = true).
    { unfold reg_alias.
      rewrite (@same_key_same_reduction (snd g) s (Hw g (HGn g Hg)) (Hw (j, s) Hin) Hs). exact Hred. }
    rewrite Hredg in Hty.
    exists (fst g), (snd g), (snd st).
    split; [rewrite <- surjective_pairing; now apply HGn|].
    split; [exact Hs|]. split; [|split; [|split]].
    + intros k' s' Hin' Hs'.
      assert (Hred' : is_reduction (root_arg s') = true).
      { rewrite (@same_key_same_reduction s' s (Hw (k', s') Hin') (Hw (j, s) Hin) Hs'). exact Hred. }
      destruct (Hfind k' s' Hin' Hred') as (c' & g' & _ & _ & Hg' & Hsg' & _ & Hle').
      rewrite (@nodup_map_inj _ _ (fun g => skey (snd g)) G g g' Hndk Hg Hg'); [exact Hle'|].
      congruence.
    + unfold stages_of_structure. rewrite Hfilter. f_equal.
      rewrite <- Hty. apply surjective_pairing.
    + exact Htop.
    + exists c. split; [exact Hc|]. split; [exact Ha | exact Hkc].
Qed.

Lemma C1_duplicate_reductions_share_one_stage_witness :
  _build_tree stream_dup_sum = inr tree_dup_sum /\
  NoDup (op_ids stream_dup_sum) /\
  assign_last stream_dup_sum = true /\
  exists h stages,
    split_tree tree_dup_sum = Some (h, operand_at 0 tree_dup_sum, stages) /\
    forall j s,
      In (j, s) (nodes_at 0 tree_dup_sum) -> is_reduction (root_arg s) = true ->
      exists k s1 stk,
        In (k, s1) (nodes_at 0 tree_dup_sum) /\ skey s1 = skey s /\
        (forall k' s', In (k', s') (nodes_at 0 tree_dup_sum) -> skey s' = skey s ->
                       (k <= k')%nat) /\
        stages_of_structure tree_dup_sum (skey s) stages = [(reduction_stage, stk)] /\
        stage_top (reduction_stage, stk) = root_arg s1 /\
        exists c, nth_error h j = Some c /\ c_arg c = root_arg s1 /\ c_kids c = [].
Proof.
  assert (Hnd : NoDup (op_ids stream_dup_sum)).
  { repeat (constructor; [simpl; lia|]). constructor. }
  split; [reflexivity|]. split; [exact Hnd|]. split; [reflexivity|].
  apply (@C1_duplicate_reductions_share_one_stage stream_dup_sum tree_dup_sum).
  - reflexivity.
  - exact Hnd.
  - reflexivity.
Defined.

(** The two sums of [C = sum(A) + sum(A)]: one reduction stage, the second
    sum an alias of the first. *)
Example duplicate_sum_split :
  split_tree tree_dup_sum =
  Some ([mkCell (TOp "sum" 0 NoRest) true 1 [];
         mkCell (TOp "sum" 0 NoRest) true 1 [];
         mkCell (TOp "add" 2 NoRest) true 0 [];
         mkCell (TOp "assign" 3 (AssignRest false 32)) true 2
                [OTup (TTensor 0 f4 0); ORef 2]],
        ORef 3,
        [(reduction_stage, [TTensor 1 f4 0; TOp "sum" 0 NoRest]);
         (scalar_stage, [TOp "sum" 0 NoRest; TOp "sum" 0 NoRest; TOp "add" 2 NoRest])]).
Proof. reflexivity. Qed.
(** * Further properties of the expression builder *)

(** ** [_post_order] on a freshly loaded tree *)

(** The stack [_post_order] yields for a tree nobody has touched. *)
Lemma seg_visible (t : tree) :
  binary t = true ->
  forall b h,
  (forall i, (i < ncells t)%nat -> nth_error h (b + i) = nth_error (seg b t) i) ->
  visible h b (b + ncells t) (operand_at b t) (tree_post_order t).
Proof.
  induction t as [a | arg sc reds kids IH] using tree_induction; intros Hbin b h Hseg.
  - apply visible_leaf.
  - assert (Hn : ncells (Node arg sc reds kids) = S (ncells_list kids)) by reflexivity.
    rewrite seg_node in Hseg. cbn [operand_at tree_post_order]. rewrite Hn in *.
    assert (Hown : nth_error h (b + ncells_list kids) =
                   Some (mkCell arg sc reds (operands_at b kids))).
    { rewrite Hseg by lia. rewrite <- (seg_list_length kids b). apply nth_error_snoc. }
    destruct (binary_kids _ _ _ _ Hbin) as [-> | [(k0 & -> & Hb0) | (k0 & k1 & -> & Hb0 & Hb1)]].
    + exact (@visible_cell_cut h b (b + S (ncells_list [])) _ _ Hown eq_refl ltac:(lia)).
    + pose proof (Forall_inv IH) as IH0.
      cbn [ncells_list fold_right seg_list flat_map operands_at] in *.
      rewrite Nat.add_0_r, app_nil_r in *.
      assert (H0 : visible h b (b + ncells k0) (operand_at b k0) (tree_post_order k0)).
      { apply IH0; [exact Hb0|].
        intros i Hi. rewrite Hseg by lia.
        rewrite nth_error_app1 by (rewrite seg_length; lia). reflexivity. }
      exact (@visible_cell h b (b + S (ncells k0)) _ _ (tree_post_order k0) [] Hown
               ltac:(lia) H0 eq_refl).
    + pose proof (Forall_inv IH) as IH0.
      pose proof (Forall_inv (Forall_inv_tail IH)) as IH1.
      cbn [ncells_list fold_right seg_list flat_map operands_at] in *.
      rewrite Nat.add_0_r, !app_nil_r in *.
      assert (H0 : visible h b (b + (ncells k0 + ncells k1)) (operand_at b k0)
                           (tree_post_order k0)).
      { apply (@visible_widen h b (b + ncells k0)); [|lia|lia].
        apply IH0; [exact Hb0|].
        intros i Hi. rewrite Hseg by lia.
        rewrite <- app_assoc, nth_error_app1 by (rewrite seg_length; lia). reflexivity. }
      assert (H1 : visible h b (b + (ncells k0 + ncells k1))
                           (operand_at (b + ncells k0) k1) (tree_post_order k1)).
      { apply (@visible_widen h (b + ncells k0) (b + ncells k0 + ncells k1)); [|lia|lia].
        apply IH1; [exact Hb1|].
        intros i Hi. rewrite <- Nat.add_assoc, Hseg by lia.
        rewrite <- app_assoc, nth_error_app2 by (rewrite seg_length; lia).
        rewrite seg_length.
        rewrite nth_error_app1 by (rewrite seg_length; lia). f_equal. lia. }
      pose proof (@visible_cell h b (b + S (ncells k0 + ncells k1)) _ _ _ _ Hown
                    ltac:(lia) H0 H1) as Hv.
      cbn [c_arg] in Hv. rewrite <- app_assoc. exact Hv.
Qed.

Lemma post_order_alloc (t : tree) :
  binary t = true ->
  _post_order (S (List.length (snd (alloc t [])))) (snd (alloc t [])) (fst (alloc t [])) []
  = Some (tree_post_order t).
Proof.
  intros Hb. rewrite alloc_spec. cbn [fst snd List.length app].
  apply (@seg_visible t Hb 0%nat (seg 0 t)).
  - intros i Hi. reflexivity.
  - intros a Ha. apply same_shape_refl.
  - rewrite seg_length. lia.
Qed.

(** ** Errors of [_build_tree] *)

Lemma take_operands_enough (n : nat) :
  forall sc reds kids stack, (n <= List.length stack)%nat ->
  exists r, take_operands n sc reds kids stack = inr r.
Proof.
  induction n as [| n IH]; intros sc reds kids stack Hlen.
  - simpl. eauto.
  - destruct stack as [| operand stack']; [simpl in Hlen; lia|].
    rewrite take_operands_step. apply IH. simpl in Hlen. lia.
Qed.

Lemma take_operands_error (n : nat) :
  forall sc reds kids stack e,
  take_operands n sc reds kids stack = inl e ->
  e = IndexError /\ (List.length stack < n)%nat.
Proof.
  induction n as [| n IH]; intros sc reds kids stack e H.
  - discriminate.
  - destruct stack as [| operand stack'].
    + simpl in H. injection H as <-. split; [reflexivity | simpl; lia].
    + rewrite take_operands_step in H. apply IH in H. simpl. split; [tauto | lia].
Qed.

Lemma build_step_error (stack : list tree) (a : targ) (e : pyerr) :
  build_step stack a = inl e ->
  e = IndexError /\ exists n, token_arity a = Some n /\ (List.length stack < n)%nat.
Proof.
  destruct a as [x dt tk | x | name c r]; cbn [build_step token_arity]; try discriminate.
  destruct (float_op_arity name) as [k |] eqn:Ek.
  - destruct (take_operands k (0 <? k)%nat 0 [] stack) as [e' | [[[sc reds] kids] stack']] eqn:E;
      simpl; [|discriminate].
    intros [= <-]. apply take_operands_error in E. destruct E as [-> Hlen]. eauto.
  - destruct (in_reduction_ops name); [|discriminate].
    destruct stack; [|discriminate]. intros [= <-]. split; [reflexivity|].
    exists 1%nat. simpl. split; [reflexivity | lia].
Qed.

Lemma build_step_nonempty (stack stack' : list tree) (a : targ) :
  build_step stack a = inr stack' -> stack' <> [].
Proof.
  destruct a as [x dt tk | x | name c r]; cbn [build_step].
  - intros [= <-]. discriminate.
  - intros [= <-]. discriminate.
  - destruct (float_op_arity name) as [k |].
    + destruct (take_operands k (0 <? k)%nat 0 [] stack) as [e' | [[[sc reds] kids] s']];
        simpl; [discriminate|]. intros [= <-]. discriminate.
    + destruct (in_reduction_ops name).
      * destruct stack; [discriminate|]. intros [= <-]. discriminate.
      * intros [= <-]. discriminate.
Qed.

Lemma build_stack_nonempty (type_args : list targ) :
  forall stack stack',
  build_stack stack type_args = inr stack' -> type_args <> [] -> stack' <> [].
Proof.
  induction type_args as [| a rest IH]; intros stack stack' H Hne; [congruence|].
  simpl in H. apply bind_inr in H. destruct H as (s1 & Hstep & Hrest).
  destruct rest as [| b rest'].
  - simpl in Hrest. injection Hrest as <-. eapply build_step_nonempty; eassumption.
  - eapply IH; [exact Hrest | discriminate].
Qed.

Lemma build_stack_error (type_args : list targ) (e : pyerr) :
  build_stack [] type_args = inl e -> e = IndexError /\ underflows type_args.
Proof.
  induction type_args as [| a pre IH] using rev_ind; [discriminate|].
  rewrite build_stack_app. destruct (build_stack [] pre) as [e' | stack] eqn:Hpre; simpl.
  - intros [= <-]. destruct (IH eq_refl) as [-> (p & x & post & s & n & -> & Hp & Ha & Hl)].
    split; [reflexivity|].
    exists p, x, (post ++ [a]), s, n. rewrite <- app_assoc. simpl. auto.
  - destruct (build_step stack a) as [e' | s1] eqn:Hstep; simpl; [|discriminate].
    intros [= <-]. apply build_step_error in Hstep.
    destruct Hstep as [-> (n & Ha & Hl)]. split; [reflexivity|].
    exists pre, a, [], stack, n. auto.
Qed.

(** X1.  [_post_order] inverts [_build_tree]: walking the tree that
    [_build_tree] returns gives back the tokens the tree was built from, in
    their order.  These tokens are a prefix of the stream, and the whole
    stream when the operand stack ends with a single entry. *)
Theorem X1_post_order_inverts_build_tree (type_args : list targ) (t : tree) :
  _build_tree type_args = inr t ->
  exists pre rest,
    _post_order (S (List.length (snd (alloc t [])))) (snd (alloc t [])) (fst (alloc t [])) []
      = Some pre /\
    type_args = pre ++ rest /\
    (~ leftover type_args -> rest = []).
Proof.
  intros H.
  pose proof (arity_ok_binary t (@build_tree_arity type_args t H)) as Hb.
  exists (tree_post_order t).
  unfold _build_tree in H. apply bind_inr in H. destruct H as (stack & Hs & Hbot).
  pose proof (@build_stack_post_order type_args [] stack Hs) as Hpo.
  cbn [rev flat_map app] in Hpo.
  unfold stack_bottom in Hbot. destruct (rev stack) as [| x l] eqn:Er; [discriminate|].
  injection Hbot as ->. cbn [flat_map] in Hpo.
  exists (flat_map tree_post_order l).
  split; [exact (post_order_alloc t Hb)|]. split; [now rewrite <- Hpo|].
  intros Hno. destruct l as [| y l']; [reflexivity|]. exfalso. apply Hno.
  exists stack. split; [exact Hs|].
  rewrite <- (length_rev stack), Er. simpl. lia.
Qed.

Lemma X1_post_order_inverts_build_tree_witness :
  exists pre rest,
    _post_order (S (List.length (snd (alloc tree_dup_sum []))))
                (snd (alloc tree_dup_sum [])) (fst (alloc tree_dup_sum [])) [] = Some pre /\
    stream_dup_sum = pre ++ rest /\
    (~ leftover stream_dup_sum -> rest = []).
Proof.
  apply (@X1_post_order_inverts_build_tree stream_dup_sum tree_dup_sum). reflexivity.
Defined.

(** X2.  In a tree returned by [_build_tree] every node has exactly as many
    children as its operation takes operands in [_float_ops] (one for a
    reduction), hence at most two: [_post_order] and [_split_stages], which
    look at [node[3]] and [node[4]] only, reach every child. *)
Theorem X2_built_nodes_have_table_arity (type_args : list targ) (t : tree) :
  _build_tree type_args = inr t ->
  forall j arg sc reds kids,
    In (j, Node arg sc reds kids) (nodes_at 0 t) ->
    token_arity arg = Some (List.length kids) /\
    (List.length kids <= 2)%nat /\
    (is_reduction arg = true -> List.length kids = 1%nat).
Proof.
  intros H j arg sc reds kids Hin.
  pose proof (@build_tree_wf type_args t H) as Hwf.
  destruct (nodes_at_facts _ _ _ _ Hin) as (_ & _ & Hw).
  destruct (@wf_node _ _ _ _ (Hw Hwf)) as (Har & _).
  split; [exact Har|]. split.
  - exact (token_arity_bound arg Har).
  - intros Hr. rewrite (token_arity_reduction arg Hr) in Har. now injection Har as <-.
Qed.

Lemma X2_built_nodes_have_table_arity_witness :
  _build_tree stream_dup_sum = inr tree_dup_sum /\
  forall j arg sc reds kids,
    In (j, Node arg sc reds kids) (nodes_at 0 tree_dup_sum) ->
    token_arity arg = Some (List.length kids) /\
    (List.length kids <= 2)%nat /\
    (is_reduction arg = true -> List.length kids = 1%nat).
Proof.
  split; [reflexivity|].
  apply (@X2_built_nodes_have_table_arity stream_dup_sum tree_dup_sum). reflexivity.
Defined.

(** X3.  The only exception [_build_tree] raises is [IndexError], and it
    raises it exactly for the empty stream and for a stream in which an
    operator meets fewer operands on the stack than its arity; every other
    stream yields a tree. *)
Theorem X3_build_tree_fails_only_on_underflow (type_args : list targ) :
  match _build_tree type_args with
  | inl e => e = IndexError /\ (type_args = [] \/ underflows type_args)
  | inr _ => type_args <> [] /\ ~ underflows type_args
  end.
Proof.
  unfold _build_tree.
  destruct (build_stack [] type_args) as [e | stack] eqn:Hs; simpl.
  - destruct (build_stack_error _ Hs) as [-> Hu]. auto.
  - unfold stack_bottom. destruct (rev stack) as [| x l] eqn:Er.
    + split; [reflexivity|]. left.
      destruct type_args as [| a rest]; [reflexivity|]. exfalso.
      apply (@build_stack_nonempty (a :: rest) [] stack Hs); [discriminate|].
      apply (f_equal (@rev tree)) in Er. now rewrite rev_involutive in Er.
    + split.
      * intros ->. simpl in Hs. injection Hs as <-. discriminate.
      * intros Hu. apply underflow_build_stack in Hu. congruence.
Qed.
(** * Further properties of the stage splitter *)

(** ** The complete list of stages *)

(** [all_stages] in terms of the functional splitter: the stages of
    [_split_stages] followed by what [_post_order] still sees of the tree. *)
Lemma all_stages_splitP (t : tree) :
  well_built t = true -> assign_ok [] t ->
  all_stages t =
  Some (dd_stages (snd (splitP false 0 t (mkDedup [] [] [])))
        ++ [(if root_scalar t =? 1 then red_out else ew_out,
             snd (fst (splitP false 0 t (mkDedup [] [] []))))]).
Proof.
  intros Hwb Has. unfold all_stages. rewrite (@split_tree_splitP t Hwb Has).
  set (r := splitP false 0 t (mkDedup [] [] [])).
  assert (Hb : binary t = true).
  { unfold well_built in Hwb. rewrite !andb_true_iff in Hwb. tauto. }
  pose proof (@splitP_visible t Hb false 0%nat (mkDedup [] [] []) (fst (fst r))) as Hv.
  fold r in Hv.
  rewrite (Hv (fun i _ => eq_refl) (fst (fst r)) (fun a _ => same_shape_refl _)
              (S (List.length (fst (fst r)))) []).
  - reflexivity.
  - unfold r. rewrite splitP_cells_length. lia.
Qed.

Lemma no_reduction_count (t : tree) :
  forallb (fun a => negb (is_reduction a)) (tree_post_order t) = true ->
  count_reductions t = 0.
Proof.
  induction t as [a | arg sc reds kids IH] using tree_induction; intros H; [reflexivity|].
  cbn [tree_post_order] in H. rewrite forallb_app in H. apply andb_true_iff in H.
  destruct H as [Hk Ha]. cbn [forallb] in Ha. rewrite andb_true_r in Ha.
  apply negb_true_iff in Ha. rewrite count_reductions_node, Ha.
  induction IH as [| k ks Hk0 _ IHks]; [reflexivity|].
  cbn [flat_map] in Hk. rewrite forallb_app in Hk. apply andb_true_iff in Hk.
  destruct Hk as [Hk1 Hk2]. rewrite count_reductions_list_cons, (Hk0 Hk1).
  exact (IHks Hk2).
Qed.

(** ** The errors of the code generator *)






(** ** Stages and the operations that head them *)

Lemma nodup_map_incl {A B : Type} (f : A -> B) (L G : list A) :
  NoDup (map f L) -> incl G L -> NoDup G -> NoDup (map f G).
Proof.
  intros HL Hin HG. induction HG as [| g G' Hnot HG' IH]; [constructor|].
  cbn [map]. constructor.
  - intros Hf. apply in_map_iff in Hf. destruct Hf as (g' & Hfg & Hg').
    assert (g' = g).
    { apply (@nodup_map_inj _ _ f L g' g HL); [apply Hin; now right | apply Hin; now left | exact Hfg]. }
    subst. contradiction.
  - apply IH. intros x Hx. apply Hin. now right.
Qed.

Lemma forall2_map_eq {A B C : Type} (R : A -> B -> Prop) (f : A -> C) (g : B -> C)
      (l : list A) (G : list B) :
  Forall2 R l G -> (forall a b, R a b -> f a = g b) -> map f l = map g G.
Proof.
  intros H Hfg. induction H as [| a b l' G' Hab _ IH]; [reflexivity|].
  cbn [map]. now rewrite (Hfg a b Hab), IH.
Qed.

Lemma forall2_in_left {A B : Type} (R : A -> B -> Prop) (l : list A) (G : list B) (a : A) :
  Forall2 R l G -> In a l -> exists b, In b G /\ R a b.
Proof.
  intros H. induction H as [| x y l' G' Hxy _ IH]; intros Hin; [destruct Hin|].
  destruct Hin as [<- | Hin].
  - exists y. split; [now left | exact Hxy].
  - destruct (IH Hin) as (b & Hb & Hr). exists b. split; [now right | exact Hr].
Qed.

(** Without reductions the tree stays whole. *)
Lemma single_stage (type_args : list targ) (t : tree) :
  _build_tree type_args = inr t ->
  assign_last type_args = true ->
  forallb (fun a => negb (is_reduction a)) type_args = true ->
  exists pre rest,
    type_args = pre ++ rest /\
    (~ leftover type_args -> rest = []) /\
    split_tree t = Some (snd (alloc t []), fst (alloc t []), []) /\
    all_stages t = Some [(if root_scalar t =? 1 then red_out else ew_out, pre)].
Proof.
  intros Hb Hal Hnr.
  pose proof (@build_tree_well_built type_args t Hb) as Hwb.
  pose proof (@build_tree_assign_ok type_args t Hb Hal) as Has.
  exists (tree_post_order t).
  assert (Hpre : exists rest, type_args = tree_post_order t ++ rest /\
                              (~ leftover type_args -> rest = [])).
  { pose proof Hb as Hb'. unfold _build_tree in Hb'. apply bind_inr in Hb'.
    destruct Hb' as (stack & Hs & Hbot).
    pose proof (@build_stack_post_order type_args [] stack Hs) as Hpo.
    cbn [rev flat_map app] in Hpo.
    unfold stack_bottom in Hbot. destruct (rev stack) as [| x l] eqn:Er; [discriminate|].
    injection Hbot as ->. cbn [flat_map] in Hpo.
    exists (flat_map tree_post_order l). split; [now rewrite <- Hpo|].
    intros Hno. destruct l as [| y l']; [reflexivity|]. exfalso. apply Hno.
    exists stack. split; [exact Hs|].
    rewrite <- (length_rev stack), Er. simpl. lia. }
  destruct Hpre as (rest & Hta & Hrest). exists rest.
  split; [exact Hta|]. split; [exact Hrest|].
  assert (Hz : count_reductions t = 0).
  { apply no_reduction_count. rewrite Hta, forallb_app in Hnr.
    apply andb_true_iff in Hnr. tauto. }
  split.
  - rewrite (@split_tree_splitP t Hwb Has), (@splitP_no_reductions t Hz), alloc_spec.
    reflexivity.
  - rewrite (@all_stages_splitP t Hwb Has), (@splitP_no_reductions t Hz). reflexivity.
Qed.

(** X4.  A stream without reductions is not split: [_split_stages] returns
    no stage and leaves every node of the tree as it was loaded, and the
    stage list of the kernel is the single output stage, holding the tokens
    of the tree in the order of the stream (the whole stream when the
    operand stack ended with one entry). *)
Theorem X4_no_reduction_single_stage (type_args : list targ) (t : tree) :
  _build_tree type_args = inr t ->
  assign_last type_args = true ->
  forallb (fun a => negb (is_reduction a)) type_args = true ->
  exists pre rest,
    type_args = pre ++ rest /\
    (~ leftover type_args -> rest = []) /\
    split_tree t = Some (snd (alloc t []), fst (alloc t []), []) /\
    all_stages t = Some [(if root_scalar t =? 1 then red_out else ew_out, pre)].
Proof. exact (@single_stage type_args t). Qed.

(** [C = A + 2]: one tensor, one constant. *)
Lemma X4_no_reduction_single_stage_witness :
  let type_args := [TTensor 0 f4 0; TTensor 1 f4 0; TFloat 2; TOp "add" 0 NoRest;
                    TOp "assign" 1 (AssignRest false 32)] in
  let t := Node (TOp "assign" 1 (AssignRest false 32)) false 0
             [Leaf (TTensor 0 f4 0);
              Node (TOp "add" 0 NoRest) false 0 [Leaf (TTensor 1 f4 0); Leaf (TFloat 2)]] in
  exists pre rest,
    type_args = pre ++ rest /\
    (~ leftover type_args -> rest = []) /\
    split_tree t = Some (snd (alloc t []), fst (alloc t []), []) /\
    all_stages t = Some [(if root_scalar t =? 1 then red_out else ew_out, pre)].
Proof.
  cbv zeta.
  apply (@X4_no_reduction_single_stage
           [TTensor 0 f4 0; TTensor 1 f4 0; TFloat 2; TOp "add" 0 NoRest;
            TOp "assign" 1 (AssignRest false 32)]); reflexivity.
Defined.



(** X6.  The stages [_split_stages] returns, for a stream with its
    operations numbered apart and [assign] last: each stage ends with the
    operation of a node of the tree, it is a ["reduction"] stage when that
    operation is a reduction and a ["scalar"] stage otherwise, and no two
    stages end with the same operation. *)
Theorem X6_stages_headed_by_distinct_operations (type_args : list targ) (t : tree) :
  _build_tree type_args = inr t ->
  NoDup (op_ids type_args) ->
  assign_last type_args = true ->
  exists h stages,
    split_tree t = Some (h, operand_at 0 t, stages) /\
    NoDup (map stage_top stages) /\
    forall st, In st stages ->
      snd st <> [] /\
      exists j s,
        In (j, s) (nodes_at 0 t) /\
        stage_top st = root_arg s /\
        fst st = if is_reduction (root_arg s) then reduction_stage else scalar_stage.
Proof.
  intros Hb Hnd Hal.
  pose proof (@build_tree_wf type_args t Hb) as Hwf.
  pose proof (@build_tree_distinct_ids type_args t Hb Hnd) as Hd.
  rewrite (@split_tree_splitP t (@wf_well_built t Hwf) (@build_tree_assign_ok type_args t Hb Hal)).
  eexists. eexists. split; [reflexivity|].
  destruct (@splitP_inv t t Hwf Hd false 0%nat (mkDedup [] [] []) [] Hwf
              (incl_refl _) (dedup_inv_empty t)
              (fun g (H : In g []) => match H with end))
    as (Hinv & _).
  set (r := splitP false 0 t (mkDedup [] [] [])) in *.
  set (G := register_all [] (processed_at false 0 t)) in *.
  destruct Hinv as (_ & _ & Hst & Hndk & HGn & _).
  split.
  - rewrite (@forall2_map_eq _ _ _ _ stage_top reg_alias _ _ Hst) by (intros a b [H _]; exact H).
    apply (@NoDup_map_inv _ _ arg_id). rewrite map_map.
    apply (@nodup_map_incl _ _ (fun js => arg_id (root_arg (snd js))) (nodes_at 0 t) G Hd).
    + intros g Hg. now apply HGn.
    + eapply NoDup_map_inv. exact Hndk.
  - intros st Hin.
    destruct (@forall2_in_left _ _ _ _ _ st Hst Hin) as (g & Hg & Htop & Hty).
    destruct g as [j s]. pose proof (HGn _ Hg) as Hn.
    destruct (nodes_at_facts _ _ _ _ Hn) as (_ & (arg & sc & reds & kids & ->) & Hw).
    destruct (@wf_node _ _ _ _ (Hw Hwf)) as (Har & _).
    split.
    + intros Hnil. unfold stage_top in Htop. rewrite Hnil in Htop.
      cbn [last reg_alias snd root_arg] in Htop. subst arg. discriminate.
    + exists j, (Node arg sc reds kids). auto.
Qed.

Lemma X6_stages_headed_by_distinct_operations_witness :
  exists h stages,
    split_tree tree_dup_sum = Some (h, operand_at 0 tree_dup_sum, stages) /\
    NoDup (map stage_top stages) /\
    forall st, In st stages ->
      snd st <> [] /\
      exists j s,
        In (j, s) (nodes_at 0 tree_dup_sum) /\
        stage_top st = root_arg s /\
        fst st = if is_reduction (root_arg s) then reduction_stage else scalar_stage.
Proof.
  apply (@X6_stages_headed_by_distinct_operations stream_dup_sum tree_dup_sum).
  - reflexivity.
  - repeat (constructor; [simpl; lia|]). constructor.
  - reflexivity.
Defined.
(** * Further properties of the call driver *)

(** ** One token for each argument *)

Lemma step_arg_token (f : flags) (st st' : call_state) (a : arg) :
  step_arg f st a = inr st' -> exists t, cs_type_args st' = cs_type_args st ++ [t].
Proof.
  intros H. destruct (step_arg_skeleton _ _ _ H) as (t & Ht & _). eauto.
Qed.

Lemma step_args_tokens (f : flags) (args : list arg) :
  forall st st',
  step_args f st args = inr st' ->
  exists l, cs_type_args st' = cs_type_args st ++ l /\ List.length l = List.length args.
Proof.
  induction args as [| a rest IH]; intros st st' H; cbn [step_args] in H.
  - injection H as <-. exists []. now rewrite app_nil_r.
  - apply bind_inr in H. destruct H as (s1 & Hstep & H).
    destruct (step_arg_token _ _ _ Hstep) as (t & Ht).
    destruct (IH _ _ H) as (l & Hl & Hlen).
    exists (t :: l). rewrite Hl, Ht, <- app_assoc. cbn [app List.length]. auto.
Qed.

(** ** The shape stack and the operand stack of [_build_tree] *)

Lemma unify_shapes_length (n : nat) :
  forall m ss m' ss',
  unify_shapes n m ss = inr (m', ss') -> List.length ss = (n + List.length ss')%nat.
Proof.
  induction n as [| n IH]; intros m ss m' ss' H; cbn [unify_shapes] in H.
  - injection H as _ <-. reflexivity.
  - destruct ss as [| s rest]; [discriminate|].
    apply bind_inr in H. destruct H as (m0 & _ & H).
    apply bind_inr in H. destruct H as (m1 & _ & H).
    apply IH in H. cbn [List.length]. lia.
Qed.

(** The driver pops its shape stack as [_build_tree] pops its operand
    stack, and pushes no shape for an [assign]: the shape stack is never
    the longer one. *)
Lemma step_arg_builds (f : flags) (st st' : call_state) (a : arg) (stack : list tree) :
  step_arg f st a = inr st' ->
  build_stack [] (cs_type_args st) = inr stack ->
  (List.length (cs_shape_stack st) <= List.length stack)%nat ->
  exists stack',
    build_stack [] (cs_type_args st') = inr stack' /\
    (List.length (cs_shape_stack st') <= List.length stack')%nat.
Proof.
  intros H Hs Hlen. destruct a as [t | c | d]; cbn [step_arg] in H.
  - unfold step_tensor in H.
    apply bind_inr in H. destruct H as (dims & _ & H).
    apply bind_inr in H. destruct H as (reg & Hreg & H).
    destruct (register_tensor_frame _ _ _ _ _ Hreg) as (_ & Hta & Hss & _).
    injection H as <-. cbn [cs_type_args cs_shape_stack].
    rewrite Hta, Hss, build_stack_app, Hs. cbn.
    eexists. split; [reflexivity|]. cbn [List.length]. lia.
  - injection H as <-. unfold step_const.
    destruct (ids_get Z.eqb (cs_const_ids st) c); cbn [cs_type_args cs_shape_stack];
      rewrite build_stack_app, Hs; cbn;
      (eexists; split; [reflexivity|]; cbn [List.length]; lia).
  - unfold step_op in H.
    apply bind_inr in H. destruct H as (s1 & H1 & H). injection H as <-.
    cbn [cs_type_args cs_shape_stack].
    destruct (float_op_arity (o_op d)) as [numops |] eqn:Ear.
    + apply bind_inr in H1. destruct H1 as ([max_shape rest] & Hu & H1).
      apply unify_shapes_length in Hu.
      destruct (@take_operands_enough numops (0 <? numops)%nat 0 [] stack ltac:(lia))
        as ([[[sc reds] kids] stack'] & Htk).
      destruct (take_operands_inr _ _ _ _ _ Htk) as (popped & Hpl & Hst & _).
      assert (Hl' : (List.length rest <= List.length stack')%nat).
      { rewrite Hst, length_app in Hlen. lia. }
      assert (Hgo : forall r c0 (l : list (Z * Z)),
                cs_type_args s1 = cs_type_args st ++ [TOp (o_op d) c0 r] ->
                (List.length l <= S (List.length stack'))%nat ->
                exists stack'0,
                  build_stack [] (cs_type_args s1) = inr stack'0 /\
                  (List.length l <= List.length stack'0)%nat).
      { intros r c0 l Hta Hl. rewrite Hta, build_stack_app, Hs.
        cbn [bind build_stack build_step]. rewrite Ear, Htk. cbn.
        eexists. split; [reflexivity|]. cbn [List.length]. exact Hl. }
      destruct (String.eqb (o_op d) "assign").
      * destruct (cs_out st); [|discriminate]. injection H1 as <-.
        cbn [cs_type_args cs_shape_stack]. eapply Hgo; [reflexivity | lia].
      * destruct (String.eqb (o_op d) "onehot").
        -- destruct (o_axis d); [|discriminate]. destruct (o_idx d); [|discriminate].
           injection H1 as <-. cbn [cs_type_args cs_shape_stack].
           eapply Hgo; [reflexivity | cbn [List.length]; lia].
        -- injection H1 as <-. cbn [cs_type_args cs_shape_stack].
           eapply Hgo; [reflexivity | cbn [List.length]; lia].
    + destruct (in_reduction_ops (o_op d)) eqn:Ered; [|discriminate].
      destruct (cs_shape_stack st) as [| shape rest]; [discriminate|].
      injection H1 as <-. cbn [cs_type_args cs_shape_stack].
      destruct stack as [| operand stack']; [cbn [List.length] in Hlen; lia|].
      rewrite build_stack_app, Hs. cbn [bind build_stack build_step]. rewrite Ear, Ered. cbn.
      eexists. split; [reflexivity|]. cbn [List.length] in *. lia.
Qed.

Lemma step_args_builds (f : flags) (args : list arg) :
  forall st st' stack,
  step_args f st args = inr st' ->
  build_stack [] (cs_type_args st) = inr stack ->
  (List.length (cs_shape_stack st) <= List.length stack)%nat ->
  exists stack',
    build_stack [] (cs_type_args st') = inr stack' /\
    (List.length (cs_shape_stack st') <= List.length stack')%nat.
Proof.
  induction args as [| a rest IH]; intros st st' stack H Hs Hlen; cbn [step_args] in H.
  - injection H as <-. eauto.
  - apply bind_inr in H. destruct H as (s1 & Hstep & H).
    destruct (step_arg_builds _ _ _ Hstep Hs Hlen) as (stack1 & Hs1 & Hl1).
    eapply IH; eassumption.
Qed.

(** X7.  Every stream that [call_compound_kernel] hands to
    [_get_compound_kernel] has one token for each argument, and
    [_build_tree] makes a tree of it: the driver pops its shape stack with
    the arities [_build_tree] uses, so an operator short of operands raises
    [IndexError] in the driver and never inside [_build_tree]. *)
Theorem X7_driver_streams_build (rand_state : Z) (args : list arg) (f : flags)
        (st : call_state) :
  prepare_call rand_state args = inr (f, st) ->
  args <> [] ->
  List.length (cs_type_args st) = List.length args /\
  ~ underflows (cs_type_args st) /\
  exists t, _build_tree (cs_type_args st) = inr t.
Proof.
  unfold prepare_call. intros H Hne.
  apply bind_inr in H. destruct H as (f0 & _ & H).
  apply bind_inr in H. destruct H as (s1 & Hs & H). injection H as <- <-.
  destruct (step_args_tokens _ _ _ Hs) as (l & Hl & Hlen). cbn [init_call cs_type_args app] in Hl.
  destruct (@step_args_builds f0 args (init_call rand_state) s1 [] Hs eq_refl (le_n _))
    as (stack & Hb & _).
  assert (Hlen' : List.length (cs_type_args s1) = List.length args) by now rewrite Hl.
  split; [exact Hlen'|].
  split.
  - intros Hu. apply underflow_build_stack in Hu. congruence.
  - unfold _build_tree. rewrite Hb. cbn [bind].
    destruct (stack_bottom stack) as [e | t] eqn:Eb; [|eauto]. exfalso.
    unfold stack_bottom in Eb. destruct (rev stack) as [| x r] eqn:Er; [|discriminate].
    apply (@build_stack_nonempty (cs_type_args s1) [] stack Hb).
    + intros E. rewrite E in Hlen'. destruct args; [congruence | discriminate].
    + apply (f_equal (@rev tree)) in Er. now rewrite rev_involutive in Er.
Qed.

Lemma X7_driver_streams_build_witness :
  List.length (cs_type_args (snd (prepared 77 call_scale_first)))
    = List.length call_scale_first /\
  ~ underflows (cs_type_args (snd (prepared 77 call_scale_first))) /\
  exists t, _build_tree (cs_type_args (snd (prepared 77 call_scale_first))) = inr t.
Proof.
  apply (@X7_driver_streams_build 77 call_scale_first
           (fst (prepared 77 call_scale_first)) (snd (prepared 77 call_scale_first))).
  - vm_compute. reflexivity.
  - discriminate.
Defined.

(** ** The operation counter *)

Lemma seq_from (c : Z) (n : nat) :
  map (fun i => c + Z.of_nat i) (seq 0 (S n)) =
  c :: map (fun i => (c + 1) + Z.of_nat i) (seq 0 n).
Proof.
  cbn [seq map]. f_equal; [simpl; lia|].
  rewrite <- seq_shift, map_map. apply map_ext. intros i. lia.
Qed.

Lemma step_args_numbered (f : flags) (args : list arg) :
  forall st st',
  step_args f st args = inr st' ->
  op_ids (cs_type_args st') =
    op_ids (cs_type_args st)
    ++ map (fun i => cs_op_cnt st + Z.of_nat i)
           (seq 0 (List.length (filter is_op_arg args))) /\
  cs_op_cnt st' = cs_op_cnt st + Z.of_nat (List.length (filter is_op_arg args)).
Proof.
  induction args as [| a rest IH]; intros st st' H; cbn [step_args] in H.
  - injection H as <-. cbn. rewrite app_nil_r. split; [reflexivity | lia].
  - apply bind_inr in H. destruct H as (s1 & Hstep & H).
    destruct (IH _ _ H) as (Hids & Hcnt).
    destruct (step_arg_skeleton _ _ _ Hstep) as (_ & _ & _ & Hc).
    destruct (@step_arg_counters _ _ _ _ Hstep) as [[Ht Hc'] | [Ht Hc']];
      destruct a as [t | c | d]; cbn [arg_structure is_op_struct] in Hc;
      cbn [filter is_op_arg]; try lia.
    + rewrite Hids, Hcnt, Ht, Hc'. auto.
    + rewrite Hids, Hcnt, Ht, Hc'. auto.
    + rewrite Hids, Hcnt, Ht, Hc'. cbn [List.length]. rewrite seq_from, <- app_assoc.
      split; [reflexivity | lia].
Qed.

(** X8.  [call_compound_kernel] numbers the operations of an invocation
    0, 1, 2, ... in the order of the arguments: the operation tuples of
    [type_args] carry these counters, so no two of them carry the same
    one. *)
Theorem X8_operations_numbered_in_order (rand_state : Z) (args : list arg) (f : flags)
        (st : call_state) :
  prepare_call rand_state args = inr (f, st) ->
  op_ids (cs_type_args st) =
    map Z.of_nat (seq 0 (List.length (filter is_op_arg args))) /\
  cs_op_cnt st = Z.of_nat (List.length (filter is_op_arg args)).
Proof.
  unfold prepare_call. intros H.
  apply bind_inr in H. destruct H as (f0 & _ & H).
  apply bind_inr in H. destruct H as (s1 & Hs & H). injection H as _ <-.
  destruct (step_args_numbered _ _ _ Hs) as (Hids & Hcnt).
  cbn [init_call cs_type_args cs_op_cnt op_ids flat_map app] in Hids, Hcnt.
  rewrite Hids, Hcnt. split; [|lia]. apply map_ext. intros i. lia.
Qed.

Lemma X8_operations_numbered_in_order_witness :
  op_ids (cs_type_args (snd (prepared 77 call_dup_sum))) =
    map Z.of_nat (seq 0 (List.length (filter is_op_arg call_dup_sum))) /\
  cs_op_cnt (snd (prepared 77 call_dup_sum)) =
    Z.of_nat (List.length (filter is_op_arg call_dup_sum)).
Proof.
  apply (@X8_operations_numbered_in_order 77 call_dup_sum
           (fst (prepared 77 call_dup_sum)) (snd (prepared 77 call_dup_sum))).
  vm_compute. reflexivity.
Defined.
(** * Consolidation of tensors and constants *)

(** ** The identity tables *)

Lemma ids_get_app_some {K : Type} (eqb : K -> K -> bool) (d e : list (K * Z)) (k : K) (v : Z) :
  ids_get eqb d k = Some v -> ids_get eqb (d ++ e) k = Some v.
Proof.
  induction d as [| [k' v'] d IH]; cbn [ids_get app]; [discriminate|].
  destruct (eqb k' k); [trivial | exact IH].
Qed.

Lemma ids_get_app_none {K : Type} (eqb : K -> K -> bool) (d e : list (K * Z)) (k : K) :
  ids_get eqb d k = None -> ids_get eqb (d ++ e) k = ids_get eqb e k.
Proof.
  induction d as [| [k' v'] d IH]; cbn [ids_get app]; [reflexivity|].
  destruct (eqb k' k); [discriminate | exact IH].
Qed.

(** ** What one step does to the tables *)

(** The effect of the [Array operand] branch. *)
Lemma step_tensor_cases (f : flags) (t : GPUTensor) (st st' : call_state) :
  step_tensor f t st = inr st' ->
  cs_const_ids st' = cs_const_ids st /\
  cs_op_cnt st' = cs_op_cnt st /\
  ((exists idx,
      ids_get Nat.eqb (cs_array_ids st) (t_ident t) = Some idx /\
      cs_type_args st' = cs_type_args st ++ [TTensor idx (t_dtype t) (take_axis_of f t)] /\
      cs_array_ids st' = cs_array_ids st /\
      cs_arg_cnt st' = cs_arg_cnt st /\
      cs_kernel_args st' = cs_kernel_args st /\
      cs_out st' = cs_out st) \/
   (ids_get Nat.eqb (cs_array_ids st) (t_ident t) = None /\
    cs_type_args st' =
      cs_type_args st ++ [TTensor (cs_arg_cnt st) (t_dtype t) (take_axis_of f t)] /\
    cs_array_ids st' =
      match cs_out st with
      | None => cs_array_ids st
      | Some _ => cs_array_ids st ++ [(t_ident t, cs_arg_cnt st)]
      end /\
    cs_arg_cnt st' = cs_arg_cnt st + 1 /\
    (exists str0 str1,
       cs_kernel_args st' =
         cs_kernel_args st ++ [KPtr (t_gpudata t); KInt str0; KInt str1]
         ++ match t_take_array t with Some (ptr, _) => [KPtr ptr] | None => [] end) /\
    cs_out st' = Some (match cs_out st with None => t | Some o => o end))).
Proof.
  unfold step_tensor. intros H.
  apply bind_inr in H. destruct H as (dims & _ & H).
  apply bind_inr in H. destruct H as (reg & Hreg & H). injection H as <-.
  cbn [cs_const_ids cs_op_cnt cs_type_args cs_array_ids cs_arg_cnt cs_kernel_args cs_out].
  unfold register_tensor in Hreg.
  destruct (ids_get Nat.eqb (cs_array_ids st) (t_ident t)) as [idx |] eqn:Eg.
  - injection Hreg as <-. cbn [fst snd]. split; [reflexivity|]. split; [reflexivity|].
    left. exists idx. auto 10.
  - apply bind_inr in Hreg. destruct Hreg as (s1 & _ & Hreg).
    apply bind_inr in Hreg. destruct Hreg as (s2 & _ & Hreg).
    apply bind_inr in Hreg. destruct Hreg as (x0 & _ & Hreg).
    apply bind_inr in Hreg. destruct Hreg as (x1 & _ & Hreg).
    injection Hreg as <-.
    cbn [fst snd cs_const_ids cs_op_cnt cs_type_args cs_array_ids cs_arg_cnt cs_kernel_args
         cs_out].
    split; [reflexivity|]. split; [reflexivity|]. right.
    split; [reflexivity|]. split; [reflexivity|]. split; [reflexivity|].
    split; [reflexivity|]. split; [exists x0, x1; reflexivity|].
    destruct (cs_out st); reflexivity.
Qed.

(** The effect of the [Operation] branch on the tables and on the
    runtime arguments. *)
Lemma step_op_cases (f : flags) (d : op_desc) (st st' : call_state) :
  step_op f d st = inr st' ->
  cs_const_ids st' = cs_const_ids st /\
  cs_array_ids st' = cs_array_ids st /\
  cs_arg_cnt st' = cs_arg_cnt st /\
  cs_out st' = cs_out st /\
  exists r ks,
    cs_type_args st' = cs_type_args st ++ [TOp (o_op d) (cs_op_cnt st) r] /\
    cs_kernel_args st' = cs_kernel_args st ++ ks /\
    Forall (fun k => match k with KFlt _ => False | _ => True end) ks.
Proof.
  unfold step_op. intros H.
  apply bind_inr in H. destruct H as (s1 & H1 & H). injection H as <-.
  cbn [cs_const_ids cs_op_cnt cs_type_args cs_array_ids cs_arg_cnt cs_kernel_args cs_out].
  destruct (float_op_arity (o_op d)) as [numops |].
  - apply bind_inr in H1. destruct H1 as ([max_shape rest] & _ & H1).
    destruct (String.eqb (o_op d) "assign").
    + destruct (cs_out st) as [out |]; [|discriminate]. injection H1 as <-.
      cbn [cs_const_ids cs_op_cnt cs_type_args cs_array_ids cs_arg_cnt cs_kernel_args cs_out].
      repeat (split; [reflexivity|]).
      destruct (rounding_value (t_dtype out) (t_rounding out)) as [r |].
      * eexists. exists [KInt (pair_get max_shape (f_axis f)); KInt (Z.max r 1)].
        split; [reflexivity|]. split; [now rewrite <- app_assoc | repeat constructor].
      * eexists. exists [KInt (pair_get max_shape (f_axis f))].
        split; [reflexivity|]. split; [reflexivity | repeat constructor].
    + destruct (String.eqb (o_op d) "onehot").
      * destruct (o_axis d); [|discriminate]. destruct (o_idx d) as [ptr |]; [|discriminate].
        injection H1 as <-.
        cbn [cs_const_ids cs_op_cnt cs_type_args cs_array_ids cs_arg_cnt cs_kernel_args cs_out].
        repeat (split; [reflexivity|]).
        eexists. exists [KPtr ptr]. split; [reflexivity|]. split; [reflexivity | repeat constructor].
      * injection H1 as <-.
        cbn [cs_const_ids cs_op_cnt cs_type_args cs_array_ids cs_arg_cnt cs_kernel_args cs_out].
        repeat (split; [reflexivity|]).
        eexists. exists []. split; [reflexivity|]. split; [now rewrite app_nil_r | constructor].
  - destruct (in_reduction_ops (o_op d)); [|discriminate].
    destruct (cs_shape_stack st) as [| shape rest]; [discriminate|]. injection H1 as <-.
    cbn [cs_const_ids cs_op_cnt cs_type_args cs_array_ids cs_arg_cnt cs_kernel_args cs_out].
    repeat (split; [reflexivity|]).
    eexists. exists [KInt (pair_get shape (f_axis f))].
    split; [reflexivity|]. split; [reflexivity | repeat constructor].
Qed.

(** ** Constants *)

Lemma step_arg_const_ids (f : flags) (st st' : call_state) (a : arg) :
  step_arg f st a = inr st' ->
  cs_const_ids st' = cs_const_ids st \/
  exists c, a = AConst c /\ ids_get Z.eqb (cs_const_ids st) c = None /\
            cs_const_ids st' = cs_const_ids st ++ [(c, cs_arg_cnt st)].
Proof.
  destruct a as [t | c | d]; cbn [step_arg]; intros H.
  - left. apply (step_tensor_cases _ _ _ H).
  - injection H as <-. unfold step_const.
    destruct (ids_get Z.eqb (cs_const_ids st) c) eqn:E; cbn [cs_const_ids]; [now left|].
    right. exists c. auto.
  - left. apply (step_op_cases _ _ _ H).
Qed.

Lemma step_arg_const_mono (f : flags) (st st' : call_state) (a : arg) (c idx : Z) :
  step_arg f st a = inr st' ->
  ids_get Z.eqb (cs_const_ids st) c = Some idx ->
  ids_get Z.eqb (cs_const_ids st') c = Some idx.
Proof.
  intros H Hg. destruct (step_arg_const_ids _ _ _ H) as [-> | (c' & _ & _ & ->)];
    [exact Hg | now apply ids_get_app_some].
Qed.

Lemma step_args_const_mono (f : flags) (args : list arg) (c idx : Z) :
  forall st st',
  step_args f st args = inr st' ->
  ids_get Z.eqb (cs_const_ids st) c = Some idx ->
  ids_get Z.eqb (cs_const_ids st') c = Some idx.
Proof.
  induction args as [| a rest IH]; intros st st' H Hg; cbn [step_args] in H.
  - now injection H as <-.
  - apply bind_inr in H. destruct H as (s1 & Hstep & H).
    eapply IH; [exact H|]. eapply step_arg_const_mono; eassumption.
Qed.

(** Every constant argument has its entry in [const_ids], and its tuple
    carries the index recorded there. *)
Lemma consts_lookup (f : flags) (args : list arg) :
  forall st st',
  step_args f st args = inr st' ->
  forall i c, nth_error args i = Some (AConst c) ->
  exists idx,
    ids_get Z.eqb (cs_const_ids st') c = Some idx /\
    nth_error (cs_type_args st') (List.length (cs_type_args st) + i) = Some (TFloat idx).
Proof.
  induction args as [| a rest IH]; intros st st' H i c Hi; [destruct i; discriminate|].
  cbn [step_args] in H. apply bind_inr in H. destruct H as (s1 & Hstep & H).
  destruct (step_args_tokens _ _ _ H) as (l & Hl & _).
  destruct i as [| i]; cbn [nth_error] in Hi.
  - injection Hi as ->. cbn [step_arg] in Hstep. injection Hstep as <-.
    assert (Hc : exists idx,
               ids_get Z.eqb (cs_const_ids (step_const c st)) c = Some idx /\
               cs_type_args (step_const c st) = cs_type_args st ++ [TFloat idx]).
    { unfold step_const.
      destruct (ids_get Z.eqb (cs_const_ids st) c) as [idx |] eqn:E;
        cbn [cs_const_ids cs_type_args].
      - exists idx. auto.
      - exists (cs_arg_cnt st). split; [|reflexivity].
        rewrite (ids_get_app_none _ _ _ _ E). cbn [ids_get]. now rewrite Z.eqb_refl. }
    destruct Hc as (idx & Hg & Hta). exists idx. split.
    + eapply step_args_const_mono; eassumption.
    + rewrite Hl, Hta, <- app_assoc, Nat.add_0_r. cbn [app].
      rewrite nth_error_app2, Nat.sub_diag by lia. reflexivity.
  - destruct (@IH s1 st' H i c Hi) as (idx & Hg & Hn). exists idx. split; [exact Hg|].
    destruct (step_arg_token _ _ _ Hstep) as (t & Ht).
    rewrite Ht, length_app in Hn. cbn [List.length] in Hn.
    replace (List.length (cs_type_args st) + S i)%nat
      with (List.length (cs_type_args st) + 1 + i)%nat by lia. exact Hn.
Qed.

Lemma filter_no_flt (c : Z) (ks : list karg) :
  Forall (fun k => match k with KFlt _ => False | _ => True end) ks ->
  filter (is_flt c) ks = [].
Proof.
  induction 1 as [| k ks Hk _ IH]; [reflexivity|].
  cbn [filter]. destruct k; cbn [is_flt]; [exact IH | exact IH | destruct Hk].
Qed.

(** A constant is among the runtime arguments once when it is in
    [const_ids], and not at all before. *)
Lemma step_arg_flt_count (f : flags) (st st' : call_state) (a : arg) (c : Z) :
  step_arg f st a = inr st' ->
  List.length (filter (is_flt c) (cs_kernel_args st)) =
    match ids_get Z.eqb (cs_const_ids st) c with Some _ => 1 | None => 0 end%nat ->
  List.length (filter (is_flt c) (cs_kernel_args st')) =
    match ids_get Z.eqb (cs_const_ids st') c with Some _ => 1 | None => 0 end%nat.
Proof.
  intros H Hinv. destruct a as [t | c' | d]; cbn [step_arg] in H.
  - destruct (step_tensor_cases _ _ _ H) as (-> & _ & [(idx & _ & _ & _ & _ & -> & _) |
      (_ & _ & _ & _ & (s0 & s1 & ->) & _)]); [exact Hinv|].
    rewrite filter_app, length_app, Hinv.
    rewrite (@filter_no_flt c _); [cbn; lia|].
    destruct (t_take_array t) as [[ptr tk] |]; repeat constructor.
  - injection H as <-. unfold step_const.
    destruct (ids_get Z.eqb (cs_const_ids st) c') as [idx' |] eqn:E;
      cbn [cs_const_ids cs_kernel_args]; [exact Hinv|].
    rewrite filter_app, length_app, Hinv. cbn [filter is_flt].
    destruct (ids_get Z.eqb (cs_const_ids st) c) as [idx |] eqn:Ec.
    + rewrite (ids_get_app_some _ _ _ _ Ec).
      destruct (c' =? c) eqn:Ecc; [|reflexivity].
      apply Z.eqb_eq in Ecc. subst. congruence.
    + rewrite (ids_get_app_none _ _ _ _ Ec). cbn [ids_get].
      destruct (c' =? c); reflexivity.
  - destruct (step_op_cases _ _ _ H) as (-> & _ & _ & _ & r & ks & _ & -> & Hks).
    rewrite filter_app, length_app, Hinv, (filter_no_flt c Hks). cbn. lia.
Qed.

Lemma step_args_flt_count (f : flags) (args : list arg) (c : Z) :
  forall st st',
  step_args f st args = inr st' ->
  List.length (filter (is_flt c) (cs_kernel_args st)) =
    match ids_get Z.eqb (cs_const_ids st) c with Some _ => 1 | None => 0 end%nat ->
  List.length (filter (is_flt c) (cs_kernel_args st')) =
    match ids_get Z.eqb (cs_const_ids st') c with Some _ => 1 | None => 0 end%nat.
Proof.
  induction args as [| a rest IH]; intros st st' H Hinv; cbn [step_args] in H.
  - now injection H as <-.
  - apply bind_inr in H. destruct H as (s1 & Hstep & H).
    eapply IH; [exact H|]. eapply step_arg_flt_count; eassumption.
Qed.

(** X9.  A constant passed several times is consolidated: every
    occurrence of the value gets the same tuple [(float, indx)] in
    [type_args], and the value is appended to [kernel_args] exactly once. *)
Theorem X9_equal_constants_share_one_argument (rand_state : Z) (args : list arg)
        (f : flags) (st : call_state) (i j : nat) (c : Z) :
  prepare_call rand_state args = inr (f, st) ->
  nth_error args i = Some (AConst c) ->
  nth_error args j = Some (AConst c) ->
  exists idx,
    nth_error (cs_type_args st) i = Some (TFloat idx) /\
    nth_error (cs_type_args st) j = Some (TFloat idx) /\
    List.length (filter (is_flt c) (cs_kernel_args st)) = 1%nat.
Proof.
  unfold prepare_call. intros H Hi Hj.
  apply bind_inr in H. destruct H as (f0 & _ & H).
  apply bind_inr in H. destruct H as (s1 & Hs & H). injection H as <- <-.
  destruct (@consts_lookup f0 args (init_call rand_state) s1 Hs i c Hi) as (idx & Hg & Hni).
  destruct (@consts_lookup f0 args (init_call rand_state) s1 Hs j c Hj) as (idx' & Hg' & Hnj).
  rewrite Hg in Hg'. injection Hg' as <-.
  exists idx. split; [exact Hni|]. split; [exact Hnj|].
  rewrite (@step_args_flt_count f0 args c (init_call rand_state) s1 Hs eq_refl), Hg.
  reflexivity.
Qed.

Lemma X9_equal_constants_share_one_argument_witness :
  exists idx,
    nth_error (cs_type_args (snd (prepared 77 call_const_twice))) 2 = Some (TFloat idx) /\
    nth_error (cs_type_args (snd (prepared 77 call_const_twice))) 4 = Some (TFloat idx) /\
    List.length (filter (is_flt 25) (cs_kernel_args (snd (prepared 77 call_const_twice))))
      = 1%nat.
Proof.
  apply (@X9_equal_constants_share_one_argument 77 call_const_twice
           (fst (prepared 77 call_const_twice)) (snd (prepared 77 call_const_twice)) 2 4 25);
    vm_compute; reflexivity.
Defined.

(** ** Tensors *)

Lemma step_arg_array_ids (f : flags) (st st' : call_state) (a : arg) :
  step_arg f st a = inr st' ->
  (cs_array_ids st' = cs_array_ids st /\
   (cs_out st' = cs_out st \/ (cs_out st = None /\ exists t, a = ATensor t /\ cs_out st' = Some t))) \/
  exists t o, a = ATensor t /\ ids_get Nat.eqb (cs_array_ids st) (t_ident t) = None /\
              cs_out st = Some o /\ cs_out st' = Some o /\
              cs_array_ids st' = cs_array_ids st ++ [(t_ident t, cs_arg_cnt st)].
Proof.
  destruct a as [t | c | d]; cbn [step_arg]; intros H.
  - destruct (step_tensor_cases _ _ _ H) as (_ & _ & [(idx & _ & _ & Ha & _ & _ & Ho) |
      (Hn & _ & Ha & _ & _ & Ho)]).
    + left. auto.
    + destruct (cs_out st) as [o |] eqn:Eo.
      * right. exists t, o. auto.
      * left. split; [exact Ha|]. right. split; [reflexivity|]. eauto.
  - injection H as <-. left. unfold step_const.
    destruct (ids_get Z.eqb (cs_const_ids st) c); cbn [cs_array_ids cs_out]; auto.
  - left. destruct (step_op_cases _ _ _ H) as (_ & Ha & _ & Ho & _). auto.
Qed.

Lemma step_arg_array_mono (f : flags) (st st' : call_state) (a : arg) (id : nat) (idx : Z) :
  step_arg f st a = inr st' ->
  ids_get Nat.eqb (cs_array_ids st) id = Some idx ->
  ids_get Nat.eqb (cs_array_ids st') id = Some idx.
Proof.
  intros H Hg.
  destruct (step_arg_array_ids _ _ _ H) as [[-> _] | (t & o & _ & _ & _ & _ & ->)];
    [exact Hg | now apply ids_get_app_some].
Qed.

Lemma step_args_array_mono (f : flags) (args : list arg) (id : nat) (idx : Z) :
  forall st st',
  step_args f st args = inr st' ->
  ids_get Nat.eqb (cs_array_ids st) id = Some idx ->
  ids_get Nat.eqb (cs_array_ids st') id = Some idx.
Proof.
  induction args as [| a rest IH]; intros st st' H Hg; cbn [step_args] in H.
  - now injection H as <-.
  - apply bind_inr in H. destruct H as (s1 & Hstep & H).
    eapply IH; [exact H|]. eapply step_arg_array_mono; eassumption.
Qed.

(** While no output is bound, no tensor is recorded. *)
Lemma step_arg_out_inv (f : flags) (st st' : call_state) (a : arg) :
  step_arg f st a = inr st' ->
  (cs_out st = None -> cs_array_ids st = []) ->
  (cs_out st' = None -> cs_array_ids st' = []) /\
  (cs_out st <> None -> cs_out st' <> None) /\
  (is_tensor_arg a = true -> cs_out st' <> None).
Proof.
  intros H Hinv.
  destruct (step_arg_array_ids _ _ _ H)
    as [[Ha [Ho | (Hn & t & -> & Ho)]] | (t & o & -> & _ & Ho & Ho' & Ha)].
  - rewrite Ha, Ho. split; [exact Hinv|]. split; [trivial|].
    destruct a as [t | c | d]; cbn [is_tensor_arg]; try discriminate. intros _.
    cbn [step_arg] in H.
    destruct (step_tensor_cases _ _ _ H) as (_ & _ & [(idx & Hg & _) | (_ & _ & _ & _ & _ & Ho2)]).
    + intros Hn. rewrite (Hinv Hn) in Hg. discriminate.
    + rewrite <- Ho, Ho2. discriminate.
  - rewrite Ho. split; [discriminate|]. split; discriminate.
  - rewrite Ho'. split; [discriminate|]. split; discriminate.
Qed.

(** Every tensor argument behind the first one has its entry in
    [array_ids], and its tuple carries the index recorded there. *)
Lemma tensors_lookup (f : flags) (args : list arg) :
  forall st st',
  step_args f st args = inr st' ->
  (cs_out st = None -> cs_array_ids st = []) ->
  forall i t, nth_error args i = Some (ATensor t) ->
  (cs_out st <> None \/
   exists i' t', (i' < i)%nat /\ nth_error args i' = Some (ATensor t')) ->
  exists idx,
    ids_get Nat.eqb (cs_array_ids st') (t_ident t) = Some idx /\
    nth_error (cs_type_args st') (List.length (cs_type_args st) + i)
      = Some (TTensor idx (t_dtype t) (take_axis_of f t)).
Proof.
  induction args as [| a rest IH]; intros st st' H Hinv i t Hi Hout;
    [destruct i; discriminate|].
  cbn [step_args] in H. apply bind_inr in H. destruct H as (s1 & Hstep & H).
  destruct (step_args_tokens _ _ _ H) as (l & Hl & _).
  destruct (step_arg_out_inv _ _ _ Hstep Hinv) as (Hinv1 & Hmono & Htens).
  destruct i as [| i]; cbn [nth_error] in Hi.
  - injection Hi as ->.
    assert (Ho : cs_out st <> None).
    { destruct Hout as [Ho | (i' & t' & Hlt & _)]; [exact Ho | lia]. }
    cbn [step_arg] in Hstep.
    assert (Hc : exists idx,
               ids_get Nat.eqb (cs_array_ids s1) (t_ident t) = Some idx /\
               cs_type_args s1 =
                 cs_type_args st ++ [TTensor idx (t_dtype t) (take_axis_of f t)]).
    { destruct (step_tensor_cases _ _ _ Hstep) as (_ & _ & [(idx & Hg & Hta & Ha & _) |
        (Hn & Hta & Ha & _)]).
      - exists idx. rewrite Ha. auto.
      - exists (cs_arg_cnt st). split; [|exact Hta]. rewrite Ha.
        destruct (cs_out st); [|congruence].
        rewrite (ids_get_app_none _ _ _ _ Hn). cbn [ids_get]. now rewrite Nat.eqb_refl. }
    destruct Hc as (idx & Hg & Hta). exists idx. split.
    + eapply step_args_array_mono; eassumption.
    + rewrite Hl, Hta, <- app_assoc, Nat.add_0_r. cbn [app].
      rewrite nth_error_app2, Nat.sub_diag by lia. reflexivity.
  - assert (Hout1 : cs_out s1 <> None \/
                    exists i' t', (i' < i)%nat /\ nth_error rest i' = Some (ATensor t')).
    { destruct Hout as [Ho | (i' & t' & Hlt & Hi')]; [left; auto|].
      destruct i' as [| i']; cbn [nth_error] in Hi'.
      - left. apply Htens. injection Hi' as ->. reflexivity.
      - right. exists i', t'. split; [lia | exact Hi']. }
    destruct (@IH s1 st' H Hinv1 i t Hi Hout1) as (idx & Hg & Hn).
    exists idx. split; [exact Hg|].
    destruct (step_arg_token _ _ _ Hstep) as (tok & Ht).
    rewrite Ht, length_app in Hn. cbn [List.length] in Hn.
    replace (List.length (cs_type_args st) + S i)%nat
      with (List.length (cs_type_args st) + 1 + i)%nat by lia. exact Hn.
Qed.

(** X10.  A tensor passed several times behind the output tensor is
    consolidated into one kernel argument: every such occurrence gets the
    same tuple, with the same index, in [type_args]. *)
Theorem X10_same_tensor_same_index (rand_state : Z) (args : list arg)
        (f : flags) (st : call_state) (i0 i j : nat) (t0 t : GPUTensor) :
  prepare_call rand_state args = inr (f, st) ->
  nth_error args i0 = Some (ATensor t0) ->
  (i0 < i)%nat -> (i0 < j)%nat ->
  nth_error args i = Some (ATensor t) ->
  nth_error args j = Some (ATensor t) ->
  exists idx,
    nth_error (cs_type_args st) i = Some (TTensor idx (t_dtype t) (take_axis_of f t)) /\
    nth_error (cs_type_args st) j = Some (TTensor idx (t_dtype t) (take_axis_of f t)).
Proof.
  unfold prepare_call. intros H H0 Hi0 Hj0 Hi Hj.
  apply bind_inr in H. destruct H as (f0 & _ & H).
  apply bind_inr in H. destruct H as (s1 & Hs & H). injection H as <- <-.
  destruct (@tensors_lookup f0 args (init_call rand_state) s1 Hs (fun _ => eq_refl) i t Hi)
    as (idx & Hg & Hni); [right; eauto|].
  destruct (@tensors_lookup f0 args (init_call rand_state) s1 Hs (fun _ => eq_refl) j t Hj)
    as (idx' & Hg' & Hnj); [right; eauto|].
  rewrite Hg in Hg'. injection Hg' as <-. eauto.
Qed.

Lemma X10_same_tensor_same_index_witness :
  exists idx,
    nth_error (cs_type_args (snd (prepared 77 call_square_accumulate))) 1
      = Some (TTensor idx (t_dtype (dense_tensor 1 3 4 2000))
                      (take_axis_of (fst (prepared 77 call_square_accumulate))
                                    (dense_tensor 1 3 4 2000))) /\
    nth_error (cs_type_args (snd (prepared 77 call_square_accumulate))) 2
      = Some (TTensor idx (t_dtype (dense_tensor 1 3 4 2000))
                      (take_axis_of (fst (prepared 77 call_square_accumulate))
                                    (dense_tensor 1 3 4 2000))).
Proof.
  apply (@X10_same_tensor_same_index 77 call_square_accumulate
           (fst (prepared 77 call_square_accumulate))
           (snd (prepared 77 call_square_accumulate)) 0 1 2
           (dense_tensor 0 3 4 1000) (dense_tensor 1 3 4 2000));
    try (vm_compute; reflexivity); lia.
Defined.

(** ** The output tensor *)

Lemma ids_get_snoc {K : Type} (eqb : K -> K -> bool) (d : list (K * Z)) (k k' : K)
      (v idx : Z) :
  ids_get eqb (d ++ [(k, v)]) k' = Some idx ->
  ids_get eqb d k' = Some idx \/ (ids_get eqb d k' = None /\ eqb k k' = true /\ idx = v).
Proof.
  destruct (ids_get eqb d k') as [x |] eqn:E.
  - rewrite (ids_get_app_some _ _ _ _ E). auto.
  - rewrite (ids_get_app_none _ _ _ _ E). cbn [ids_get].
    destruct (eqb k k'); [|discriminate]. intros [= <-]. auto.
Qed.

Lemma step_arg_out_mono (f : flags) (st st' : call_state) (a : arg) (o : GPUTensor) :
  step_arg f st a = inr st' -> cs_out st = Some o -> cs_out st' = Some o.
Proof.
  intros H Ho.
  destruct (step_arg_array_ids _ _ _ H)
    as [[_ [Ho' | (Hn & _)]] | (t & o' & _ & _ & Ho1 & Ho2 & _)]; congruence.
Qed.

Lemma step_args_out_mono (f : flags) (args : list arg) (o : GPUTensor) :
  forall st st', step_args f st args = inr st' -> cs_out st = Some o -> cs_out st' = Some o.
Proof.
  induction args as [| a rest IH]; intros st st' H Ho; cbn [step_args] in H.
  - now injection H as <-.
  - apply bind_inr in H. destruct H as (s1 & Hstep & H).
    eapply IH; [exact H|]. eapply step_arg_out_mono; eassumption.
Qed.

Lemma step_arg_arg_cnt (f : flags) (st st' : call_state) (a : arg) :
  step_arg f st a = inr st' -> cs_arg_cnt st <= cs_arg_cnt st'.
Proof.
  destruct a as [t | c | d]; cbn [step_arg]; intros H.
  - destruct (step_tensor_cases _ _ _ H) as (_ & _ & [(idx & _ & _ & _ & -> & _) |
      (_ & _ & _ & -> & _)]); lia.
  - injection H as <-. unfold step_const.
    destruct (ids_get Z.eqb (cs_const_ids st) c); cbn [cs_arg_cnt]; lia.
  - destruct (step_op_cases _ _ _ H) as (_ & _ & -> & _). lia.
Qed.

(** Once an index [n0] is behind [arg_cnt] and not in [array_ids], no
    tensor tuple gets it. *)
Lemma step_arg_later (f : flags) (st st' : call_state) (a : arg) (n0 : Z) :
  step_arg f st a = inr st' ->
  (forall id idx, ids_get Nat.eqb (cs_array_ids st) id = Some idx -> n0 < idx) ->
  n0 < cs_arg_cnt st ->
  (forall id idx, ids_get Nat.eqb (cs_array_ids st') id = Some idx -> n0 < idx) /\
  n0 < cs_arg_cnt st' /\
  exists tok,
    cs_type_args st' = cs_type_args st ++ [tok] /\
    forall idx d k, tok = TTensor idx d k -> n0 < idx.
Proof.
  intros H Hids Hcnt.
  pose proof (step_arg_arg_cnt _ _ _ H) as Hle.
  split; [|split; [lia|]].
  - intros id idx Hg.
    destruct (step_arg_array_ids _ _ _ H) as [[Ha _] | (t & o & _ & _ & _ & _ & Ha)];
      rewrite Ha in Hg; [eauto|].
    apply ids_get_snoc in Hg. destruct Hg as [Hg | (_ & _ & ->)]; [eauto | exact Hcnt].
  - destruct a as [t | c | d]; cbn [step_arg] in H.
    + destruct (step_tensor_cases _ _ _ H) as (_ & _ & [(idx & Hg & Hta & _) | (_ & Hta & _)]);
        eexists; (split; [exact Hta|]); intros idx' d k [= <- _ _]; eauto.
    + injection H as <-. unfold step_const.
      destruct (ids_get Z.eqb (cs_const_ids st) c); cbn [cs_type_args];
        eexists; (split; [reflexivity|]); discriminate.
    + destruct (step_op_cases _ _ _ H) as (_ & _ & _ & _ & r & ks & Hta & _).
      eexists. split; [exact Hta|]. discriminate.
Qed.

Lemma step_args_later (f : flags) (args : list arg) (n0 : Z) :
  forall st st',
  step_args f st args = inr st' ->
  (forall id idx, ids_get Nat.eqb (cs_array_ids st) id = Some idx -> n0 < idx) ->
  n0 < cs_arg_cnt st ->
  exists l,
    cs_type_args st' = cs_type_args st ++ l /\
    forall idx d k, In (TTensor idx d k) l -> n0 < idx.
Proof.
  induction args as [| a rest IH]; intros st st' H Hids Hcnt; cbn [step_args] in H.
  - injection H as <-. exists []. rewrite app_nil_r. split; [reflexivity | intros ? ? ? []].
  - apply bind_inr in H. destruct H as (s1 & Hstep & H).
    destruct (step_arg_later _ _ _ Hstep Hids Hcnt) as (Hids1 & Hcnt1 & tok & Hta & Htok).
    destruct (@IH s1 st' H Hids1 Hcnt1) as (l & Hl & Hin).
    exists (tok :: l). rewrite Hl, Hta, <- app_assoc. split; [reflexivity|].
    intros idx d k [-> | Hi]; eauto.
Qed.

(** Constants and operations leave [out] and [array_ids] alone. *)
Lemma step_args_no_tensor (f : flags) (args : list arg) :
  forall st st',
  step_args f st args = inr st' ->
  existsb is_tensor_arg args = false ->
  cs_out st' = cs_out st /\
  cs_array_ids st' = cs_array_ids st /\
  exists l,
    cs_type_args st' = cs_type_args st ++ l /\
    List.length l = List.length args /\
    forall idx d k, ~ In (TTensor idx d k) l.
Proof.
  induction args as [| a rest IH]; intros st st' H Hno; cbn [step_args] in H.
  - injection H as <-. split; [reflexivity|]. split; [reflexivity|].
    exists []. rewrite app_nil_r. split; [reflexivity|]. split; [reflexivity | intros ? ? ? []].
  - apply bind_inr in H. destruct H as (s1 & Hstep & H).
    cbn [existsb] in Hno. apply orb_false_iff in Hno. destruct Hno as [Ha Hrest].
    destruct (@IH s1 st' H Hrest) as (Ho & Hids & l & Hl & Hlen & Hin).
    assert (Hs : cs_out s1 = cs_out st /\ cs_array_ids s1 = cs_array_ids st /\
                 exists tok, cs_type_args s1 = cs_type_args st ++ [tok] /\
                             forall idx d k, tok <> TTensor idx d k).
    { destruct a as [t | c | d]; cbn [is_tensor_arg] in Ha; [discriminate| |];
        cbn [step_arg] in Hstep.
      - injection Hstep as <-. unfold step_const.
        destruct (ids_get Z.eqb (cs_const_ids st) c);
          cbn [cs_out cs_array_ids cs_type_args];
          (split; [reflexivity|]); (split; [reflexivity|]);
          eexists; (split; [reflexivity|]); discriminate.
      - destruct (step_op_cases _ _ _ Hstep) as (_ & Hai & _ & Hout & r & ks & Hta & _).
        split; [exact Hout|]. split; [exact Hai|].
        eexists. split; [exact Hta|]. discriminate. }
    destruct Hs as (Ho1 & Hids1 & tok & Hta & Htok).
    split; [congruence|]. split; [congruence|].
    exists (tok :: l). rewrite Hl, Hta, <- app_assoc.
    split; [reflexivity|]. split; [cbn [List.length]; lia|].
    intros idx d k [E | Hi]; [exact (Htok _ _ _ E) | exact (Hin _ _ _ Hi)].
Qed.

(** X11.  The first tensor of an invocation is the output: it is what the
    call will return, and its index is that of no other tensor tuple.  A
    later occurrence of the same tensor is not consolidated with it but
    gets a higher index of its own, so that the output stays a separate
    (mutable) kernel argument. *)
Theorem X11_output_tensor_keeps_its_own_index (rand_state : Z) (pre post : list arg)
        (t : GPUTensor) (f : flags) (st : call_state) :
  prepare_call rand_state (pre ++ ATensor t :: post) = inr (f, st) ->
  existsb is_tensor_arg pre = false ->
  cs_out st = Some t /\
  exists n0,
    nth_error (cs_type_args st) (List.length pre)
      = Some (TTensor n0 (t_dtype t) (take_axis_of f t)) /\
    forall j idx d k,
      nth_error (cs_type_args st) j = Some (TTensor idx d k) ->
      j <> List.length pre -> n0 < idx.
Proof.
  unfold prepare_call. intros H Hno.
  apply bind_inr in H. destruct H as (f0 & _ & H).
  apply bind_inr in H. destruct H as (s3 & Hs & H). injection H as <- <-.
  rewrite step_args_app in Hs. apply bind_inr in Hs. destruct Hs as (s1 & Hpre & Hs).
  cbn [step_args] in Hs. apply bind_inr in Hs. destruct Hs as (s2 & Hstep & Hpost).
  destruct (step_args_no_tensor _ _ _ Hpre Hno) as (Ho1 & Hids1 & l1 & Hl1 & Hlen1 & Hin1).
  cbn [init_call cs_out cs_array_ids cs_type_args app] in Ho1, Hids1, Hl1.
  cbn [step_arg] in Hstep.
  destruct (step_tensor_cases _ _ _ Hstep) as (_ & _ & [(idx & Hg & _) |
    (_ & Hta & Ha & Hcnt & _ & Hout)]).
  { rewrite Hids1 in Hg. discriminate. }
  rewrite Ho1 in Ha, Hout. rewrite Hids1 in Ha.
  destruct (@step_args_later f0 post (cs_arg_cnt s1) s2 s3 Hpost) as (l3 & Hl3 & Hin3).
  { intros id idx Hg. rewrite Ha in Hg. discriminate. }
  { lia. }
  split; [exact (step_args_out_mono _ _ _ Hpost Hout)|].
  exists (cs_arg_cnt s1). rewrite Hl3, Hta, Hl1, <- app_assoc. cbn [app]. split.
  - rewrite nth_error_app2, Hlen1, Nat.sub_diag by lia. reflexivity.
  - intros j idx d k Hn Hj.
    destruct (Nat.lt_ge_cases j (List.length l1)) as [Hlt | Hge].
    + rewrite nth_error_app1 in Hn by exact Hlt. apply nth_error_In in Hn.
      destruct (Hin1 _ _ _ Hn).
    + rewrite nth_error_app2 in Hn by exact Hge.
      destruct (j - List.length l1)%nat as [| m] eqn:Em; [lia|].
      cbn [nth_error] in Hn. apply nth_error_In in Hn. eauto.
Qed.

Lemma X11_output_tensor_keeps_its_own_index_witness :
  cs_out (snd (prepared 77 call_square_accumulate)) = Some (dense_tensor 0 3 4 1000) /\
  exists n0,
    nth_error (cs_type_args (snd (prepared 77 call_square_accumulate))) (List.length (@nil arg))
      = Some (TTensor n0 (t_dtype (dense_tensor 0 3 4 1000))
                      (take_axis_of (fst (prepared 77 call_square_accumulate))
                                    (dense_tensor 0 3 4 1000))) /\
    forall j idx d k,
      nth_error (cs_type_args (snd (prepared 77 call_square_accumulate))) j
        = Some (TTensor idx d k) ->
      j <> List.length (@nil arg) -> n0 < idx.
Proof.
  apply (@X11_output_tensor_keeps_its_own_index 77 []
           (tl call_square_accumulate) (dense_tensor 0 3 4 1000)
           (fst (prepared 77 call_square_accumulate))
           (snd (prepared 77 call_square_accumulate)));
    vm_compute; reflexivity.
Defined.

(** ** Indices and tuples *)

Lemma nat_eqb_ids (d : list (nat * Z)) (id : nat) (idx : Z) :
  ids_get Nat.eqb d id = Some idx -> In (id, idx) d.
Proof.
  induction d as [| [k v] d IH]; cbn [ids_get]; [discriminate|].
  destruct (Nat.eqb k id) eqn:E.
  - apply Nat.eqb_eq in E. intros [= <-]. subst. now left.
  - intros H. right. now apply IH.
Qed.

(** Appending a tuple that is already there, an operation, or a tuple
    with the next free index keeps indices apart. *)
Lemma coherent_extend (ta : list targ) (tok : targ) (cnt cnt' : Z) :
  (forall a i, In a ta -> targ_index a = Some i -> i < cnt) ->
  (forall a b i, In a ta -> In b ta -> targ_index a = Some i -> targ_index b = Some i -> a = b) ->
  cnt <= cnt' ->
  (In tok ta \/ targ_index tok = None \/ (targ_index tok = Some cnt /\ cnt < cnt')) ->
  (forall a i, In a (ta ++ [tok]) -> targ_index a = Some i -> i < cnt') /\
  (forall a b i, In a (ta ++ [tok]) -> In b (ta ++ [tok]) ->
     targ_index a = Some i -> targ_index b = Some i -> a = b).
Proof.
  intros H1 H4 Hle Htok. split.
  - intros a i Ha Hi. apply in_app_iff in Ha. destruct Ha as [Ha | [<- | []]].
    + specialize (H1 _ _ Ha Hi). lia.
    + destruct Htok as [Hin | [Hn | [Hc Hlt]]].
      * specialize (H1 _ _ Hin Hi). lia.
      * congruence.
      * rewrite Hi in Hc. injection Hc as ->. exact Hlt.
  - assert (Hmix : forall a i, In a ta -> targ_index a = Some i -> targ_index tok = Some i ->
                               a = tok).
    { intros a i Ha Hi Ht. destruct Htok as [Hin | [Hn | [Hc Hlt]]].
      - eapply H4; eassumption.
      - congruence.
      - rewrite Ht in Hc. injection Hc as ->. specialize (H1 _ _ Ha Hi). lia. }
    intros a b i Ha Hb Hia Hib. apply in_app_iff in Ha, Hb.
    destruct Ha as [Ha | [<- | []]], Hb as [Hb | [<- | []]].
    + eapply H4; eassumption.
    + eapply Hmix; eassumption.
    + symmetry. eapply Hmix; eassumption.
    + reflexivity.
Qed.

Lemma step_arg_coherent (f : flags) (args : list arg) (st st' : call_state) (a : arg) :
  one_object_per_identity args -> In a args ->
  step_arg f st a = inr st' ->
  operands_coherent f args st -> operands_coherent f args st'.
Proof.
  intros Hone Hin H (I1 & I2 & I3 & I4).
  pose proof (step_arg_arg_cnt _ _ _ H) as Hle.
  destruct a as [t | c | d]; cbn [step_arg] in H.
  - destruct (step_tensor_cases _ _ _ H) as (Hc & _ & [(idx & Hg & Hta & Ha & Hcnt & _) |
      (Hn & Hta & Ha & Hcnt & _)]).
    + assert (Hold : In (TTensor idx (t_dtype t) (take_axis_of f t)) (cs_type_args st)).
      { destruct (I2 _ _ Hg) as (t0 & Ht0 & Hid & Htok).
        now rewrite (Hone t0 t Ht0 Hin Hid) in Htok. }
      destruct (@coherent_extend (cs_type_args st) (TTensor idx (t_dtype t) (take_axis_of f t))
                  (cs_arg_cnt st) (cs_arg_cnt st') I1 I4 Hle (or_introl Hold)) as (J1 & J4).
      unfold operands_coherent. rewrite Hta, Ha, Hc.
      split; [exact J1|]. split; [|split; [|exact J4]].
      * intros id i Hgi. destruct (I2 _ _ Hgi) as (t0 & ? & ? & ?).
        exists t0. rewrite in_app_iff. auto.
      * intros c i Hgi. rewrite in_app_iff. eauto.
    + destruct (@coherent_extend (cs_type_args st)
                  (TTensor (cs_arg_cnt st) (t_dtype t) (take_axis_of f t))
                  (cs_arg_cnt st) (cs_arg_cnt st') I1 I4 Hle) as (J1 & J4).
      { right. right. split; [reflexivity | lia]. }
      unfold operands_coherent. rewrite Hta, Hc.
      split; [exact J1|]. split; [|split; [|exact J4]].
      * intros id i Hgi. rewrite Ha in Hgi.
        assert (Hcase : ids_get Nat.eqb (cs_array_ids st) id = Some i \/
                        (id = t_ident t /\ i = cs_arg_cnt st)).
        { destruct (cs_out st); [|now left].
          apply ids_get_snoc in Hgi. destruct Hgi as [Hgi | (_ & E & ->)]; [now left|].
          apply Nat.eqb_eq in E. auto. }
        destruct Hcase as [Hgi' | [-> ->]].
        -- destruct (I2 _ _ Hgi') as (t0 & ? & ? & ?). exists t0. rewrite in_app_iff. auto.
        -- exists t. rewrite in_app_iff. cbn [In]. auto.
      * intros c i Hgi. rewrite in_app_iff. eauto.
  - injection H as <-. unfold step_const in *.
    destruct (ids_get Z.eqb (cs_const_ids st) c) as [idx |] eqn:Eg;
      cbn [cs_arg_cnt] in Hle; unfold operands_coherent;
      cbn [cs_type_args cs_arg_cnt cs_array_ids cs_const_ids].
    + destruct (@coherent_extend (cs_type_args st) (TFloat idx)
                  (cs_arg_cnt st) (cs_arg_cnt st) I1 I4 Hle (or_introl (I3 _ _ Eg))) as (J1 & J4).
      split; [exact J1|]. split; [|split; [|exact J4]].
      * intros id i Hgi. destruct (I2 _ _ Hgi) as (t0 & ? & ? & ?).
        exists t0. rewrite in_app_iff. auto.
      * intros c0 i Hgi. rewrite in_app_iff. eauto.
    + destruct (@coherent_extend (cs_type_args st) (TFloat (cs_arg_cnt st))
                  (cs_arg_cnt st) (cs_arg_cnt st + 1) I1 I4 Hle) as (J1 & J4).
      { right. right. split; [reflexivity | lia]. }
      split; [exact J1|]. split; [|split; [|exact J4]].
      * intros id i Hgi. destruct (I2 _ _ Hgi) as (t0 & ? & ? & ?).
        exists t0. rewrite in_app_iff. auto.
      * intros c0 i Hgi. rewrite in_app_iff.
        apply ids_get_snoc in Hgi. destruct Hgi as [Hgi | (_ & _ & ->)]; [eauto|].
        right. now left.
  - destruct (step_op_cases _ _ _ H) as (Hc & Ha & Hcnt & _ & r & ks & Hta & _).
    destruct (@coherent_extend (cs_type_args st) (TOp (o_op d) (cs_op_cnt st) r)
                (cs_arg_cnt st) (cs_arg_cnt st') I1 I4 Hle) as (J1 & J4).
    { right. left. reflexivity. }
    unfold operands_coherent. rewrite Hta, Ha, Hc.
    split; [exact J1|]. split; [|split; [|exact J4]].
    + intros id i Hgi. destruct (I2 _ _ Hgi) as (t0 & ? & ? & ?).
      exists t0. rewrite in_app_iff. auto.
    + intros c i Hgi. rewrite in_app_iff. eauto.
Qed.

Lemma step_args_coherent (f : flags) (args : list arg) (rest : list arg) :
  one_object_per_identity args ->
  forall st st',
  incl rest args ->
  step_args f st rest = inr st' ->
  operands_coherent f args st -> operands_coherent f args st'.
Proof.
  intros Hone. induction rest as [| a rest IH]; intros st st' Hincl H Hinv;
    cbn [step_args] in H.
  - now injection H as <-.
  - apply bind_inr in H. destruct H as (s1 & Hstep & H).
    apply (IH s1 st'); [intros x Hx; apply Hincl; now right | exact H|].
    eapply step_arg_coherent; [exact Hone | apply Hincl; now left | exact Hstep | exact Hinv].
Qed.

Lemma init_coherent (f : flags) (args : list arg) (rand_state : Z) :
  operands_coherent f args (init_call rand_state).
Proof.
  unfold operands_coherent. cbn [init_call cs_type_args cs_array_ids cs_const_ids cs_arg_cnt].
  repeat split; try (intros; contradiction); discriminate.
Qed.

(** X12.  In the [type_args] of an invocation an argument index belongs
    to one tuple: two tensor or constant tuples with the same index are the
    same tuple (same kind, dtype and take axis), and every index lies
    below the number of consolidated arguments.  The code generator, which
    tells tensors apart by their index alone, relies on it. *)
Theorem X12_index_identifies_operand (rand_state : Z) (args : list arg)
        (f : flags) (st : call_state) :
  prepare_call rand_state args = inr (f, st) ->
  one_object_per_identity args ->
  (forall a b i, In a (cs_type_args st) -> In b (cs_type_args st) ->
     targ_index a = Some i -> targ_index b = Some i -> a = b) /\
  (forall a i, In a (cs_type_args st) -> targ_index a = Some i -> i < cs_arg_cnt st).
Proof.
  unfold prepare_call. intros H Hone.
  apply bind_inr in H. destruct H as (f0 & _ & H).
  apply bind_inr in H. destruct H as (s1 & Hs & H). injection H as <- <-.
  destruct (@step_args_coherent f0 args args Hone (init_call rand_state) s1
              (incl_refl _) Hs (init_coherent f0 args rand_state)) as (I1 & _ & _ & I4).
  split; [exact I4 | exact I1].
Qed.

Lemma X12_index_identifies_operand_witness :
  (forall a b i,
     In a (cs_type_args (snd (prepared 77 call_square_accumulate))) ->
     In b (cs_type_args (snd (prepared 77 call_square_accumulate))) ->
     targ_index a = Some i -> targ_index b = Some i -> a = b) /\
  (forall a i,
     In a (cs_type_args (snd (prepared 77 call_square_accumulate))) ->
     targ_index a = Some i -> i < cs_arg_cnt (snd (prepared 77 call_square_accumulate))).
Proof.
  apply (@X12_index_identifies_operand 77 call_square_accumulate
           (fst (prepared 77 call_square_accumulate))
           (snd (prepared 77 call_square_accumulate))).
  - vm_compute. reflexivity.
  - intros t1 t2 H1 H2 Hid. simpl in H1, H2.
    repeat (destruct H1 as [H1 | H1]; try discriminate H1; try contradiction);
      repeat (destruct H2 as [H2 | H2]; try discriminate H2; try contradiction);
      injection H1 as <-; injection H2 as <-; try reflexivity; discriminate Hid.
Defined.
(** * [fp32_convert] *)

Lemma fast_ew_dims_cover (size : Z) :
  0 < size ->
  exists e,
    1 <= e <= 256 /\
    _get_fast_ew_dims size = inr ((size / e, e), (e, 1)) /\
    size / e * e = size.
Proof.
  intros Hsize. unfold _get_fast_ew_dims, _contiguous_strides. cbv zeta.
  destruct (@scan_down_spec 256%nat size 32 ltac:(lia) 256 ltac:(vm_compute; discriminate))
    as ((j1 & Hj1 & Hr1) & Hd1 & _ & Hgt1 & Hc1).
  destruct (@scan_down_spec 256%nat size 1 ltac:(lia) 255 ltac:(vm_compute; discriminate))
    as ((j2 & Hj2 & Hr2) & Hd2 & _ & Hgt2 & Hc2).
  set (r1 := scan_down 256 size 32 256) in *.
  set (r2 := scan_down 256 size 1 255) in *.
  assert (Hexact : forall e, 0 < e -> size mod e = 0 -> size / e * e = size).
  { intros e He Hm. pose proof (Z.div_mod size e ltac:(lia)). lia. }
  destruct (r1 =? 0) eqn:E1.
  - assert (Hpos2 : 0 < r2).
    { destruct (Z_lt_le_dec 0 r2) as [|Hn]; [assumption|].
      exfalso. apply (Hc2 254); [lia | lia |]. apply Z.mod_1_r. }
    assert (E2 : (r2 =? 0) = false) by (apply Z.eqb_neq; lia).
    rewrite E2. exists r2. cbn [snd]. split; [lia|]. split; [reflexivity | auto].
  - pose proof E1 as E1'. apply Z.eqb_neq in E1.
    assert (Hpos1 : 0 < r1) by lia.
    rewrite E1'. exists r1. cbn [snd]. split; [lia|]. split; [reflexivity | auto].
Qed.



(** * Runtime arguments and prepared signature of an elementwise kernel *)

(** ** Association lists *)

Lemma targ_eqb_iff (a b : targ) : targ_eqb a b = true <-> a = b.
Proof. split; [apply targ_eqb_eq | intros ->; apply targ_eqb_refl]. Qed.

Lemma targ_eqb_sym (a b : targ) : targ_eqb a b = targ_eqb b a.
Proof.
  destruct (targ_eqb a b) eqn:E1, (targ_eqb b a) eqn:E2; try reflexivity.
  - apply targ_eqb_eq in E1. subst. now rewrite targ_eqb_refl in E2.
  - apply targ_eqb_eq in E2. subst. now rewrite targ_eqb_refl in E1.
Qed.

Lemma seen_before_in (seen : list targ) (a : targ) :
  seen_before seen a = true <-> In a seen.
Proof.
  unfold seen_before. rewrite existsb_exists. split.
  - intros (x & Hx & E). apply targ_eqb_eq in E. now subst.
  - intros H. exists a. split; [exact H | apply targ_eqb_refl].
Qed.

Lemma seen_before_app (p q : list targ) (a : targ) :
  seen_before (p ++ q) a = seen_before p a || seen_before q a.
Proof. unfold seen_before. apply existsb_app. Qed.

Lemma assoc_get_set {V : Type} (d : list (targ * V)) (k k' : targ) (v : V) :
  assoc_get (assoc_set d k v) k' = if targ_eqb k k' then Some v else assoc_get d k'.
Proof.
  induction d as [| [k0 v0] d IH]; cbn [assoc_set assoc_get]; [reflexivity|].
  destruct (targ_eqb k0 k) eqn:E0; cbn [assoc_get].
  - apply targ_eqb_eq in E0. subst k0. destruct (targ_eqb k k'); reflexivity.
  - rewrite IH. destruct (targ_eqb k0 k') eqn:E1; [|reflexivity].
    destruct (targ_eqb k k') eqn:E2; [|reflexivity].
    apply targ_eqb_eq in E1, E2. subst. now rewrite targ_eqb_refl in E0.
Qed.

Lemma assoc_get_in {V : Type} (d : list (targ * V)) (k : targ) (v : V) :
  assoc_get d k = Some v -> In k (map fst d).
Proof.
  induction d as [| [k0 v0] d IH]; cbn [assoc_get map fst]; [discriminate|].
  destruct (targ_eqb k0 k) eqn:E; [apply targ_eqb_eq in E; now left | right; now apply IH].
Qed.

Lemma assoc_get_not_in {V : Type} (d : list (targ * V)) (k : targ) :
  ~ In k (map fst d) -> assoc_get d k = None.
Proof.
  intros H. destruct (assoc_get d k) as [v |] eqn:E; [|reflexivity].
  destruct (H (assoc_get_in _ _ E)).
Qed.

Lemma assoc_set_keys {V : Type} (d : list (targ * V)) (k : targ) (v : V) :
  NoDup (map fst d) -> NoDup (map fst (assoc_set d k v)).
Proof.
  intros Hnd.
  assert (Hk : forall x, In x (map fst (assoc_set d k v)) -> In x (map fst d) \/ x = k).
  { induction d as [| [k0 v0] d IH]; cbn [assoc_set map fst].
    - intros x [<- | []]. now right.
    - destruct (targ_eqb k0 k); cbn [map fst In].
      + intros x [<- | H]; auto.
      + intros x [<- | H]; [auto|].
        inversion Hnd; subst. destruct (IH H3 x H); auto. }
  clear Hk. induction d as [| [k0 v0] d IH]; cbn [assoc_set map fst].
  - constructor; [intros [] | constructor].
  - cbn [map fst] in Hnd. inversion Hnd as [| ? ? Hnot Hnd']; subst.
    destruct (targ_eqb k0 k) eqn:E; cbn [map fst].
    + constructor; assumption.
    + constructor; [|now apply IH].
      intros Hin. apply Hnot. clear IH Hnd Hnd' Hnot.
      induction d as [| [k1 v1] d IH]; cbn [assoc_set map fst In] in *.
      * destruct Hin as [<- | []]. now rewrite targ_eqb_refl in E.
      * destruct (targ_eqb k1 k); cbn [map fst In] in Hin; tauto.
Qed.

Lemma assoc_get_del {V : Type} (d : list (targ * V)) (k k' : targ) :
  NoDup (map fst d) ->
  assoc_get (assoc_del d k) k' = if targ_eqb k k' then None else assoc_get d k'.
Proof.
  induction d as [| [k0 v0] d IH]; intros Hnd; cbn [assoc_del assoc_get].
  - now destruct (targ_eqb k k').
  - cbn [map fst] in Hnd. inversion Hnd as [| ? ? Hnot Hnd']; subst.
    destruct (targ_eqb k0 k) eqn:E0.
    + apply targ_eqb_eq in E0. subst k0.
      destruct (targ_eqb k k') eqn:E1; [|reflexivity].
      apply targ_eqb_eq in E1. subst k'. now apply assoc_get_not_in.
    + cbn [assoc_get]. rewrite (IH Hnd').
      destruct (targ_eqb k0 k') eqn:E1; [|reflexivity].
      destruct (targ_eqb k k') eqn:E2; [|reflexivity].
      apply targ_eqb_eq in E1, E2. subst. now rewrite targ_eqb_refl in E0.
Qed.

Lemma assoc_del_keys {V : Type} (d : list (targ * V)) (k : targ) :
  NoDup (map fst d) -> NoDup (map fst (assoc_del d k)).
Proof.
  induction d as [| [k0 v0] d IH]; intros Hnd; cbn [assoc_del]; [exact Hnd|].
  cbn [map fst] in Hnd. inversion Hnd as [| ? ? Hnot Hnd']; subst.
  destruct (targ_eqb k0 k); [exact Hnd'|]. cbn [map fst]. constructor; [|now apply IH].
  intros Hin. apply Hnot. clear IH Hnd Hnd' Hnot.
  induction d as [| [k1 v1] d IH]; cbn [assoc_del map fst In] in *; [exact Hin|].
  destruct (targ_eqb k1 k); cbn [map fst In] in *; tauto.
Qed.

(** ** First occurrences *)

Lemma first_occurrences_snoc (l : list targ) (x : targ) :
  forall seen,
  first_occurrences seen (l ++ [x]) =
  first_occurrences seen l ++ (if seen_before seen x || seen_before l x then [] else [x]).
Proof.
  induction l as [| a r IH]; intros seen; cbn [first_occurrences app].
  - unfold seen_before. cbn [existsb]. rewrite orb_false_r.
    destruct (existsb (targ_eqb x) seen); reflexivity.
  - destruct (seen_before seen a) eqn:Ea.
    + rewrite IH. f_equal.
      assert (Hx : seen_before (a :: r) x = targ_eqb x a || seen_before r x) by reflexivity.
      rewrite Hx.
      destruct (targ_eqb x a) eqn:E; [|reflexivity].
      apply targ_eqb_eq in E. subst. now rewrite Ea.
    + rewrite IH. cbn [app]. f_equal. f_equal.
      assert (Hx : seen_before (a :: r) x = targ_eqb x a || seen_before r x) by reflexivity.
      assert (Hy : seen_before (a :: seen) x = targ_eqb x a || seen_before seen x)
        by reflexivity.
      rewrite Hx, Hy.
      destruct (targ_eqb x a), (seen_before seen x), (seen_before r x); reflexivity.
Qed.

(** ** The closing loop of [_get_compound_kernel] *)

Lemma no_entry_no_sig (a : targ) : has_entry a = false -> sig_of_token a = [].
Proof.
  destruct a as [x dt tk | x | name c r]; cbn [has_entry sig_of_token]; try discriminate.
  intros H. apply orb_false_iff in H. destruct H as [-> ->]. reflexivity.
Qed.

(** With every entry of [arg_dict] in place, the closing loop emits the
    parameters of each tuple at its first occurrence. *)
Lemma final_sig_firsts (q : list targ) :
  forall E dict,
  NoDup (map fst dict) ->
  (forall a, In a q -> is_reduction a = false) ->
  (forall a, In a q -> assoc_get dict a = if seen_before E a then None else entry a) ->
  final_sig q dict = flat_map sig_of_token (first_occurrences E q).
Proof.
  induction q as [| a r IH]; intros E dict Hnd Hred Hget; [reflexivity|].
  cbn [final_sig first_occurrences].
  rewrite (Hget a (or_introl eq_refl)), (Hred a (or_introl eq_refl)).
  assert (Hred' : forall x, In x r -> is_reduction x = false) by (intros x Hx; apply Hred; now right).
  destruct (seen_before E a) eqn:Es.
  - apply IH; [exact Hnd | exact Hred'|]. intros x Hx. apply Hget. now right.
  - assert (Hseen : forall x, seen_before (a :: E) x = targ_eqb a x || seen_before E x).
    { intros x. unfold seen_before. cbn [existsb]. now rewrite targ_eqb_sym. }
    unfold entry. destruct (has_entry a) eqn:Eh; cbn [flat_map].
    + f_equal. apply IH; [now apply assoc_del_keys | exact Hred'|].
      intros x Hx. rewrite (@assoc_get_del _ dict a x Hnd), Hseen, (Hget x (or_intror Hx)).
      destruct (targ_eqb a x); reflexivity.
    + rewrite (no_entry_no_sig a Eh). cbn [app].
      apply IH; [exact Hnd | exact Hred'|].
      intros x Hx. rewrite Hseen, (Hget x (or_intror Hx)).
      destruct (targ_eqb a x) eqn:Ex; [|reflexivity].
      apply targ_eqb_eq in Ex. subst x. rewrite Es. unfold entry. now rewrite Eh.
Qed.

(** ** The tables of the code generator *)

Lemma tensor_index_in_app (p q : list targ) (idx : Z) :
  tensor_index_in (p ++ q) idx = tensor_index_in p idx || tensor_index_in q idx.
Proof. unfold tensor_index_in. apply existsb_app. Qed.

Lemma seen_snoc (p : list targ) (tok a : targ) :
  seen_before (p ++ [tok]) a = seen_before p a || targ_eqb a tok.
Proof. rewrite seen_before_app. unfold seen_before at 2. cbn [existsb]. now rewrite orb_false_r. Qed.

(** Adding an entry for the tuple just read. *)
Lemma gen_inv_set (p : list targ) (tok : targ) (dict : list (targ * list sigc))
      (sig : list sigc) :
  (forall a, assoc_get dict a = if seen_before p a then entry a else None) ->
  entry tok = Some sig ->
  forall a, assoc_get (assoc_set dict tok sig) a
            = if seen_before (p ++ [tok]) a then entry a else None.
Proof.
  intros Hget He a. rewrite assoc_get_set, seen_snoc, Hget, (targ_eqb_sym a tok).
  destruct (targ_eqb tok a) eqn:E.
  - apply targ_eqb_eq in E. subst a. rewrite orb_true_r. now rewrite He.
  - now rewrite orb_false_r.
Qed.

(** Reading a tuple whose entry, if it has one, is there already. *)
Lemma gen_inv_keep (p : list targ) (tok : targ) (dict : list (targ * list sigc)) :
  (forall a, assoc_get dict a = if seen_before p a then entry a else None) ->
  seen_before p tok = true \/ entry tok = None ->
  forall a, assoc_get dict a = if seen_before (p ++ [tok]) a then entry a else None.
Proof.
  intros Hget Hk a. rewrite seen_snoc, Hget.
  destruct (targ_eqb a tok) eqn:E; [|now rewrite orb_false_r].
  apply targ_eqb_eq in E. subst a. rewrite orb_true_r.
  destruct Hk as [-> | ->]; [reflexivity | now destruct (seen_before p tok)].
Qed.

Lemma tensor_index_snoc (p : list targ) (tok : targ) (idx : Z) :
  tensor_index_in (p ++ [tok]) idx =
  tensor_index_in p idx || match tok with TTensor i _ _ => i =? idx | _ => false end.
Proof.
  rewrite tensor_index_in_app. unfold tensor_index_in at 2. cbn [existsb].
  now rewrite orb_false_r.
Qed.

(** What reading a tensor tuple does to the tables. *)
Lemma gen_tensor_result (nstages stage : nat) (ty : stage_type) (n i : nat)
      (idx : Z) (dt : dtype) (tk : Z) (g g' : gen_state) :
  gen_arg nstages stage ty n i (TTensor idx dt tk) g = inr g' ->
  g_stage_out_reg g' = g_stage_out_reg g /\
  ((mem_Z idx (g_array_ids g) = true /\
    g_arg_dict g' = g_arg_dict g /\ g_array_ids g' = g_array_ids g) \/
   (mem_Z idx (g_array_ids g) = false /\
    g_arg_dict g' = assoc_set (g_arg_dict g) (TTensor idx dt tk)
                      ([SigP; SigI; SigI] ++ (if tk >? 0 then [SigP] else [])) /\
    g_array_ids g' = idx :: g_array_ids g)).
Proof.
  cbn [gen_arg]. intros H.
  destruct (Nat.eqb stage (nstages - 1) && Nat.eqb i 0);
    cbn [g_stack g_stage_out_reg g_arg_dict g_array_ids g_array_stage_ids g_out set_stack] in H;
    destruct (mem_Z idx (g_array_ids g)) eqn:Em; cbn [negb] in H;
    repeat break_if_in H; try discriminate; injection H as <-;
    cbn [g_stack g_stage_out_reg g_arg_dict g_array_ids g_array_stage_ids g_out set_stack
         set_arg_dict];
    auto 10.
Qed.

(** One tuple of the single stage of a stream without reductions. *)
Lemma gen_arg_inv (ta p : list targ) (tok : targ) (n i : nat) (ty : stage_type)
      (g g' : gen_state) :
  (forall a b idx, In a ta -> In b ta ->
     targ_index a = Some idx -> targ_index b = Some idx -> a = b) ->
  incl (p ++ [tok]) ta ->
  is_reduction tok = false ->
  g_stage_out_reg g = [] ->
  gen_arg 1 0 ty n i tok g = inr g' ->
  gen_inv p g ->
  gen_inv (p ++ [tok]) g' /\ (i <> (n - 1)%nat -> g_stage_out_reg g' = []).
Proof.
  intros Hco Hincl Hred Hreg H (Hget & Hnd & Hids).
  assert (Htok : In tok ta) by (apply Hincl, in_app_iff; right; now left).
  destruct tok as [idx dt tk | idx | name c rest].
  - (* a tensor *)
    assert (Hseen : tensor_index_in p idx = true -> seen_before p (TTensor idx dt tk) = true).
    { intros Hin. unfold tensor_index_in in Hin. apply existsb_exists in Hin.
      destruct Hin as (a & Ha & Hi). destruct a as [i0 d0 k0 | |]; try discriminate.
      apply Z.eqb_eq in Hi. subst i0. apply seen_before_in.
      rewrite <- (Hco (TTensor idx d0 k0) (TTensor idx dt tk) idx); try reflexivity;
        [exact Ha | apply Hincl, in_app_iff; now left | exact Htok]. }
    destruct (gen_tensor_result _ _ _ _ _ _ _ _ _ H)
      as (Hr & [(Em & Hd & Ha) | (Em & Hd & Ha)]);
      (split; [|intros _; now rewrite Hr]); unfold gen_inv; rewrite Hd, Ha;
      rewrite Hids in Em.
    + split; [apply gen_inv_keep; [exact Hget | left; now apply Hseen]|].
      split; [exact Hnd|].
      intros idx'. rewrite tensor_index_snoc, Hids.
      destruct (idx =? idx') eqn:Ei; rewrite ?orb_false_r; [|reflexivity].
      apply Z.eqb_eq in Ei. subst idx'. now rewrite Em.
    + split; [apply gen_inv_set; [exact Hget | reflexivity]|].
      split; [now apply assoc_set_keys|].
      intros idx'. rewrite tensor_index_snoc, <- Hids. unfold mem_Z. cbn [existsb].
      rewrite (Z.eqb_sym idx' idx). apply orb_comm.
  - (* a constant *)
    cbn [gen_arg] in H.
    cbn [g_stack g_stage_out_reg g_arg_dict g_array_ids g_array_stage_ids g_out set_stack] in H.
    rewrite Hget in H.
    destruct (seen_before p (TFloat idx)) eqn:Es; cbn [entry has_entry] in H;
      injection H as <-;
      cbn [g_stack g_stage_out_reg g_arg_dict g_array_ids g_array_stage_ids g_out set_stack
           set_arg_dict];
      (split; [|intros _; exact Hreg]).
    + split; [apply gen_inv_keep; [exact Hget | now left]|]. split; [exact Hnd|].
      intros idx'. rewrite tensor_index_snoc, Hids. now rewrite orb_false_r.
    + split; [apply gen_inv_set; [exact Hget | reflexivity]|].
      split; [now apply assoc_set_keys|].
      intros idx'. rewrite tensor_index_snoc, Hids. now rewrite orb_false_r.
  - (* an operation *)
    cbn [gen_arg] in H.
    assert (Hids' : forall idx', mem_Z idx' (g_array_ids g)
                                 = tensor_index_in (p ++ [TOp name c rest]) idx').
    { intros idx'. rewrite tensor_index_snoc, Hids. now rewrite orb_false_r. }
    destruct (String.eqb name "assign") eqn:Eas.
    + destruct (arg2_true rest) as [e | rounding] eqn:Er; cbn [bind] in H; [discriminate|].
      cbn [set_arg_dict g_stack g_out] in H.
      destruct (g_stack g) as [| r0 s0]; cbn [pop_reg bind] in H; [discriminate|].
      destruct (g_out g) as [[odt otk] |]; [|discriminate].
      destruct (take_key_ok otk); [|discriminate]. injection H as <-.
      cbn [g_stack g_stage_out_reg g_arg_dict g_array_ids g_array_stage_ids g_out set_stack
           set_arg_dict].
      split; [|intros _; exact Hreg].
      split; [|split; [now apply assoc_set_keys | exact Hids']].
      apply gen_inv_set; [exact Hget|].
      unfold entry. cbn [has_entry sig_of_token]. rewrite Eas, Er. cbn [orb].
      destruct rounding; reflexivity.
    + rewrite Hreg in H. cbn [assoc_get] in H.
      cbn [is_reduction op_name] in Hred.
      destruct (float_op_arity name) as [k |]; [|rewrite Hred in H; discriminate].
      destruct (pop_regs k (g_stack g)) as [e | stack'] eqn:Ep; cbn [bind] in H; [discriminate|].
      destruct (String.eqb name "onehot") eqn:Eoh.
      * destruct (arg2_axis rest) as [e | hot] eqn:Eh; cbn [bind] in H; [discriminate|].
        destruct (negb (onehot_key_ok hot)); cbn [bind] in H; [discriminate|].
        destruct (negb (has_loads ty)); cbn [bind] in H; [discriminate|].
        assert (He : entry (TOp name c rest) = Some [SigP]).
        { unfold entry. cbn [has_entry sig_of_token]. rewrite Eas, Eoh. reflexivity. }
        destruct (Nat.eqb i (n - 1)) eqn:Ei; injection H as <-;
          cbn [g_stack g_stage_out_reg g_arg_dict g_array_ids g_array_stage_ids g_out set_stack
               set_arg_dict set_stage_out_reg].
        -- split; [|intros Hne; apply Nat.eqb_eq in Ei; contradiction].
           split; [now apply gen_inv_set|]. split; [now apply assoc_set_keys | exact Hids'].
        -- split; [|intros _; exact Hreg].
           split; [now apply gen_inv_set|]. split; [now apply assoc_set_keys | exact Hids'].
      * cbn [bind] in H.
        assert (He : entry (TOp name c rest) = None).
        { unfold entry. cbn [has_entry]. now rewrite Eas, Eoh. }
        destruct (Nat.eqb i (n - 1)) eqn:Ei; injection H as <-;
          cbn [g_stack g_stage_out_reg g_arg_dict g_array_ids g_array_stage_ids g_out set_stack
               set_arg_dict set_stage_out_reg].
        -- split; [|intros Hne; apply Nat.eqb_eq in Ei; contradiction].
           split; [apply gen_inv_keep; [exact Hget | now right]|]. split; [exact Hnd | exact Hids'].
        -- split; [|intros _; exact Hreg].
           split; [apply gen_inv_keep; [exact Hget | now right]|]. split; [exact Hnd | exact Hids'].
Qed.

Lemma gen_stage_inv (ta : list targ) (ty : stage_type) (n : nat) :
  (forall a b idx, In a ta -> In b ta ->
     targ_index a = Some idx -> targ_index b = Some idx -> a = b) ->
  forall q p g g',
  incl (p ++ q) ta ->
  (forall a, In a q -> is_reduction a = false) ->
  n = (List.length p + List.length q)%nat ->
  (q <> [] -> g_stage_out_reg g = []) ->
  gen_stage 1 0 ty n (List.length p) q g = inr g' ->
  gen_inv p g -> gen_inv (p ++ q) g'.
Proof.
  intros Hco. induction q as [| tok r IH]; intros p g g' Hincl Hred Hn Hreg H Hinv.
  - cbn [gen_stage] in H. injection H as <-. now rewrite app_nil_r.
  - cbn [gen_stage] in H. apply bind_inr in H. destruct H as (g1 & Harg & H).
    assert (Hincl1 : incl (p ++ [tok]) ta).
    { intros x Hx. apply Hincl. apply in_app_iff in Hx. apply in_app_iff.
      destruct Hx as [Hx | [<- | []]]; [now left | right; now left]. }
    destruct (@gen_arg_inv ta p tok n (List.length p) ty g g1 Hco Hincl1
                (Hred tok (or_introl eq_refl)) (Hreg ltac:(discriminate)) Harg Hinv)
      as (Hinv1 & Hreg1).
    replace (p ++ tok :: r) with ((p ++ [tok]) ++ r) by now rewrite <- app_assoc.
    apply (IH (p ++ [tok]) g1 g').
    + now rewrite <- app_assoc.
    + intros a Ha. apply Hred. now right.
    + rewrite length_app. cbn [List.length] in *. lia.
    + intros Hne. apply Hreg1. cbn [List.length] in Hn.
      destruct r; [congruence|]. cbn [List.length] in Hn. lia.
    + rewrite length_app. cbn [List.length]. now rewrite Nat.add_1_r.
    + exact Hinv1.
Qed.

(** The prepared signature of a kernel without reductions: the random
    state, then the parameters of each tuple where it first occurs. *)
Lemma elementwise_sig (type_args : list targ) (k : kernel) :
  (forall a b idx, In a type_args -> In b type_args ->
     targ_index a = Some idx -> targ_index b = Some idx -> a = b) ->
  (forall a, In a type_args -> is_reduction a = false) ->
  assign_last type_args = true ->
  ~ leftover type_args ->
  _get_compound_kernel type_args = inr k ->
  k_sig k = SigP :: flat_map sig_of_token (first_occurrences [] type_args).
Proof.
  intros Hco Hred Hal Hno H. unfold _get_compound_kernel in H.
  apply bind_inr in H. destruct H as (t & Hb & H).
  destruct (@single_stage type_args t Hb Hal) as (pre & rest & Hta & Hrest & _ & Hall).
  { apply forallb_forall. intros a Ha. now rewrite (Hred a Ha). }
  rewrite (Hrest Hno), app_nil_r in Hta. subst pre.
  rewrite Hall in H.
  apply bind_inr in H. destruct H as (threads & _ & H).
  apply bind_inr in H. destruct H as (g & Hg & H). injection H as <-. cbn [k_sig].
  f_equal. cbn [gen_stages List.length] in Hg.
  apply bind_inr in Hg. destruct Hg as (g1 & Hg & Hend). cbn [gen_stages] in Hend.
  injection Hend as <-.
  destruct (@gen_stage_inv type_args (if root_scalar t =? 1 then red_out else ew_out)
              (List.length type_args) Hco type_args []
              (mkGen [] [] [] [] [] None) g1) as (Hget & Hnd & _).
  - cbn [app]. apply incl_refl.
  - exact Hred.
  - reflexivity.
  - reflexivity.
  - exact Hg.
  - split; [|split].
    + intros a. reflexivity.
    + constructor.
    + intros idx. reflexivity.
  - cbn [app] in Hget. apply final_sig_firsts; [exact Hnd | exact Hred|].
    intros a Ha. rewrite Hget.
    assert (Hs : seen_before type_args a = true) by now apply seen_before_in.
    rewrite Hs. reflexivity.
Qed.

(** ** The runtime arguments of the driver *)

Lemma rounding_value_positive (dt : dtype) (r : rounding_t) (v : Z) :
  (forall n, r = RoundInt n -> 0 <= n) ->
  rounding_value dt r = Some v -> 0 < v.
Proof.
  intros Hn. destruct r as [[|] | n]; cbn [rounding_value]; try discriminate.
  - intros [= <-]. lia.
  - specialize (Hn n eq_refl). destruct (n =? 0) eqn:E; [discriminate|].
    apply Z.eqb_neq in E. destruct dt; intros [= <-]; lia.
Qed.

(** The kinds of the runtime arguments an operation that is no reduction
    appends are the parameters of its tuple. *)
Lemma step_op_kinds (f : flags) (d : op_desc) (st st' : call_state) :
  step_op f d st = inr st' ->
  in_reduction_ops (o_op d) = false ->
  (forall out n, cs_out st = Some out -> t_rounding out = RoundInt n -> 0 <= n) ->
  exists r,
    cs_type_args st' = cs_type_args st ++ [TOp (o_op d) (cs_op_cnt st) r] /\
    map karg_kind (cs_kernel_args st')
      = map karg_kind (cs_kernel_args st) ++ sig_of_token (TOp (o_op d) (cs_op_cnt st) r).
Proof.
  unfold step_op. intros H Hnr Hround.
  apply bind_inr in H. destruct H as (s1 & H1 & H). injection H as <-.
  cbn [cs_type_args cs_kernel_args].
  destruct (float_op_arity (o_op d)) as [numops |].
  - apply bind_inr in H1. destruct H1 as ([max_shape rest] & _ & H1).
    destruct (String.eqb (o_op d) "assign") eqn:Eas.
    + destruct (cs_out st) as [out |] eqn:Eo; [|discriminate]. injection H1 as <-.
      cbn [cs_type_args cs_kernel_args]. eexists. split; [reflexivity|].
      cbn [sig_of_token arg2_true]. rewrite Eas.
      destruct (rounding_value (t_dtype out) (t_rounding out)) as [v |] eqn:Er.
      * pose proof (@rounding_value_positive _ _ v (fun n => Hround out n eq_refl) Er) as Hv.
        assert (Hf : (v >? 0) = true) by (apply Z.gtb_lt; lia). rewrite Hf.
        rewrite !map_app. cbn [map karg_kind]. now rewrite <- app_assoc.
      * rewrite map_app. reflexivity.
    + destruct (String.eqb (o_op d) "onehot") eqn:Eoh.
      * destruct (o_axis d); [|discriminate]. destruct (o_idx d) as [ptr |]; [|discriminate].
        injection H1 as <-. cbn [cs_type_args cs_kernel_args]. eexists. split; [reflexivity|].
        cbn [sig_of_token]. rewrite Eas, Eoh, map_app. reflexivity.
      * injection H1 as <-. cbn [cs_type_args cs_kernel_args]. eexists. split; [reflexivity|].
        cbn [sig_of_token]. rewrite Eas, Eoh, app_nil_r. reflexivity.
  - rewrite Hnr in H1. discriminate.
Qed.

Lemma take_axis_positive (f : flags) (t : GPUTensor) :
  (forall ptr tk, t_take_array t = Some (ptr, tk) -> tk = 0 \/ tk = 1) ->
  (take_axis_of f t >? 0) = match t_take_array t with Some _ => true | None => false end.
Proof.
  intros Htk. unfold take_axis_of. destruct (t_take_array t) as [[ptr tk] |]; [|reflexivity].
  destruct (Htk ptr tk eq_refl) as [-> | ->]; destruct (negb (f_axis f =? 1)); reflexivity.
Qed.

Lemma firsts_snoc_seen (ta : list targ) (tok : targ) :
  In tok ta ->
  flat_map sig_of_token (first_occurrences [] (ta ++ [tok]))
  = flat_map sig_of_token (first_occurrences [] ta).
Proof.
  intros Hin. rewrite first_occurrences_snoc.
  rewrite (proj2 (seen_before_in ta tok) Hin), orb_true_r. now rewrite app_nil_r.
Qed.

Lemma firsts_snoc_new (ta : list targ) (tok : targ) :
  ~ In tok ta ->
  flat_map sig_of_token (first_occurrences [] (ta ++ [tok]))
  = flat_map sig_of_token (first_occurrences [] ta) ++ sig_of_token tok.
Proof.
  intros Hin. rewrite first_occurrences_snoc.
  assert (Hs : seen_before ta tok = false).
  { destruct (seen_before ta tok) eqn:E; [|reflexivity].
    apply seen_before_in in E. contradiction. }
  rewrite Hs. cbn [seen_before existsb orb]. rewrite flat_map_app. cbn [flat_map].
  now rewrite app_nil_r.
Qed.

Lemma step_arg_kinds (f : flags) (args : list arg) (st st' : call_state) (a : arg) :
  one_object_per_identity args -> plain_operands args ->
  In a args -> is_reduction_arg a = false ->
  step_arg f st a = inr st' ->
  operands_coherent f args st ->
  kinds_follow_tokens args st -> kinds_follow_tokens args st'.
Proof.
  intros Hone Hplain Hin Hnr H (I1 & I2 & I3 & I4) (K1 & K2 & K3 & K4).
  assert (K4' : forall out, cs_out st' = Some out -> In (ATensor out) args).
  { intros out Ho.
    destruct (step_arg_array_ids _ _ _ H)
      as [[_ [Ho' | (_ & t & -> & Ho')]] | (t & o & _ & _ & Ho1 & Ho2 & _)].
    - apply K4. congruence.
    - rewrite Ho' in Ho. injection Ho as <-. exact Hin.
    - apply K4. congruence. }
  assert (K2' : forall c, In c (op_ids (cs_type_args st')) -> c < cs_op_cnt st').
  { intros c Hc. destruct (@step_arg_counters _ _ _ _ H) as [[Ht Hcn] | [Ht Hcn]];
      rewrite Ht in Hc; rewrite Hcn.
    - auto.
    - apply in_app_iff in Hc. destruct Hc as [Hc | [<- | []]]; [specialize (K2 _ Hc)|]; lia. }
  unfold kinds_follow_tokens.
  destruct a as [t | c | d]; cbn [step_arg] in H.
  - destruct (step_tensor_cases _ _ _ H) as (_ & _ & [(idx & Hg & Hta & _ & _ & Hka & _) |
      (Hn & Hta & _ & _ & (s0 & s1 & Hka) & _)]).
    + assert (Hold : In (TTensor idx (t_dtype t) (take_axis_of f t)) (cs_type_args st)).
      { destruct (I2 _ _ Hg) as (t0 & Ht0 & Hid & Htok).
        now rewrite (Hone t0 t Ht0 Hin Hid) in Htok. }
      rewrite Hta, Hka, (firsts_snoc_seen _ _ Hold).
      split; [exact K1|]. split; [rewrite <- Hta; exact K2'|]. split; [|exact K4'].
      intros a Ha. apply in_app_iff in Ha. destruct Ha as [Ha | [<- | []]]; auto.
    + assert (Hnew : ~ In (TTensor (cs_arg_cnt st) (t_dtype t) (take_axis_of f t))
                          (cs_type_args st)).
      { intros Hi. specialize (I1 _ (cs_arg_cnt st) Hi eq_refl). lia. }
      rewrite Hta, Hka, (firsts_snoc_new _ _ Hnew).
      split; [|split; [rewrite <- Hta; exact K2'|split; [|exact K4']]].
      * rewrite map_app, K1. cbn [app]. f_equal. f_equal. cbn [sig_of_token].
        rewrite (@take_axis_positive f t (proj1 (Hplain t Hin))).
        destruct (t_take_array t) as [[ptr tk] |]; reflexivity.
      * intros a Ha. apply in_app_iff in Ha. destruct Ha as [Ha | [<- | []]]; auto.
  - injection H as <-. unfold step_const in *.
    destruct (ids_get Z.eqb (cs_const_ids st) c) as [idx |] eqn:Eg;
      cbn [cs_type_args cs_kernel_args cs_op_cnt cs_out] in *.
    + rewrite (firsts_snoc_seen _ _ (I3 _ _ Eg)).
      split; [exact K1|]. split; [exact K2'|]. split; [|exact K4'].
      intros a Ha. apply in_app_iff in Ha. destruct Ha as [Ha | [<- | []]]; auto.
    + assert (Hnew : ~ In (TFloat (cs_arg_cnt st)) (cs_type_args st)).
      { intros Hi. specialize (I1 _ (cs_arg_cnt st) Hi eq_refl). lia. }
      rewrite (firsts_snoc_new _ _ Hnew).
      split; [|split; [exact K2'|split; [|exact K4']]].
      * rewrite map_app, K1. reflexivity.
      * intros a Ha. apply in_app_iff in Ha. destruct Ha as [Ha | [<- | []]]; auto.
  - cbn [is_reduction_arg] in Hnr.
    destruct (@step_op_kinds f d st st' H Hnr) as (r & Hta & Hka).
    { intros out n Ho Hr. exact (proj2 (Hplain out (K4 out Ho)) n Hr). }
    assert (Hnew : ~ In (TOp (o_op d) (cs_op_cnt st) r) (cs_type_args st)).
    { intros Hi. apply in_op_ids in Hi. specialize (K2 _ Hi). lia. }
    rewrite Hta, Hka, (firsts_snoc_new _ _ Hnew).
    split; [|split; [rewrite <- Hta; exact K2'|split; [|exact K4']]].
    + rewrite K1. reflexivity.
    + intros a Ha. apply in_app_iff in Ha. destruct Ha as [Ha | [<- | []]]; [auto|].
      cbn [is_reduction op_name]. exact Hnr.
Qed.

Lemma step_args_kinds (f : flags) (args rest : list arg) :
  one_object_per_identity args -> plain_operands args ->
  forall st st',
  incl rest args -> existsb is_reduction_arg rest = false ->
  step_args f st rest = inr st' ->
  operands_coherent f args st -> kinds_follow_tokens args st ->
  operands_coherent f args st' /\ kinds_follow_tokens args st'.
Proof.
  intros Hone Hplain. induction rest as [| a rest IH]; intros st st' Hincl Hnr H Hco Hk;
    cbn [step_args] in H.
  - injection H as <-. auto.
  - apply bind_inr in H. destruct H as (s1 & Hstep & H).
    cbn [existsb] in Hnr. apply orb_false_iff in Hnr. destruct Hnr as [Ha Hrest].
    assert (Hin : In a args) by (apply Hincl; now left).
    apply (IH s1 st'); [intros x Hx; apply Hincl; now right | exact Hrest | exact H | |].
    + eapply step_arg_coherent; eassumption.
    + eapply step_arg_kinds; eassumption.
Qed.

(** X14.  For an invocation without reductions (an elementwise kernel,
    one-hot and take operands included) whose stream has its only [assign]
    as last token and is consumed into one tree: when
    [_get_compound_kernel] builds the kernel, the string it gives to
    [kernel.prepare] has one character for each entry of [kernel_args], of
    the kind of that entry, in the same order: the random state, then
    pointer and two strides (and take pointer) of each distinct tensor,
    the value of each distinct constant, the one-hot index pointers, and
    the loop bound and mantissa size of the [assign]. *)
Theorem X14_elementwise_arguments_match_signature (rand_state : Z) (args : list arg)
        (f : flags) (st : call_state) (k : kernel) :
  prepare_call rand_state args = inr (f, st) ->
  existsb is_reduction_arg args = false ->
  one_object_per_identity args ->
  plain_operands args ->
  assign_last (cs_type_args st) = true ->
  ~ leftover (cs_type_args st) ->
  _get_compound_kernel (cs_type_args st) = inr k ->
  map karg_kind (cs_kernel_args st) = k_sig k.
Proof.
  unfold prepare_call. intros H Hnr Hone Hplain Hal Hno Hk.
  apply bind_inr in H. destruct H as (f0 & _ & H).
  apply bind_inr in H. destruct H as (s1 & Hs & H). injection H as <- <-.
  destruct (@step_args_kinds f0 args args Hone Hplain (init_call rand_state) s1
              (incl_refl _) Hnr Hs (init_coherent f0 args rand_state))
    as ((_ & _ & _ & I4) & (K1 & _ & K3 & _)).
  - unfold kinds_follow_tokens.
    cbn [init_call cs_kernel_args cs_type_args cs_op_cnt cs_out map karg_kind
         first_occurrences flat_map op_ids].
    split; [reflexivity|]. split; [intros c []|]. split; [intros a []|]. discriminate.
  - rewrite K1. symmetry. now apply elementwise_sig.
Qed.

Lemma X14_elementwise_arguments_match_signature_witness :
  map karg_kind (cs_kernel_args (snd (prepared 77 call_const_twice)))
  = k_sig (compiled (cs_type_args (snd (prepared 77 call_const_twice)))).
Proof.
  apply (@X14_elementwise_arguments_match_signature 77 call_const_twice
           (fst (prepared 77 call_const_twice)) (snd (prepared 77 call_const_twice))).
  - vm_compute. reflexivity.
  - reflexivity.
  - intros t1 t2 H1 H2 Hid. simpl in H1, H2.
    repeat (destruct H1 as [H1 | H1]; try discriminate H1; try contradiction);
      repeat (destruct H2 as [H2 | H2]; try discriminate H2; try contradiction);
      injection H1 as <-; injection H2 as <-; try reflexivity; discriminate Hid.
  - intros t Ht. simpl in Ht.
    repeat (destruct Ht as [Ht | Ht]; try discriminate Ht; try contradiction);
      injection Ht as <-; split; intros; discriminate.
  - vm_compute. reflexivity.
  - intros (stack & Hs & Hl). vm_compute in Hs. injection Hs as <-. simpl in Hl. lia.
  - vm_compute. reflexivity.
Defined.
(** * Broadcast strides *)

(** X15.  A two-dimensional tensor that the driver registers with its
    native dimensions (broadcast, reduction, transpose, take or
    non-contiguous invocation) is passed as its pointer and two strides:
    the stride of a dimension of extent 1 is replaced by 0, so that the
    kernel re-reads the same element along it, and for a reduction along
    axis 0 the two strides are passed in reverse order.  The index
    arithmetic on the stride list ([strides[1-axis]], [strides[axis]])
    stays within the list. *)
Theorem X15_unit_extents_get_zero_strides (f : flags) (t : GPUTensor) (st : call_state)
        (rows cols srow scol : Z) :
  f_axis f = 0 \/ f_axis f = 1 ->
  complex_call f = true ->
  t_shape t = [rows; cols] ->
  t_strides t = [srow; scol] ->
  ids_get Nat.eqb (cs_array_ids st) (t_ident t) = None ->
  exists st',
    step_tensor f t st = inr st' /\
    cs_shape_stack st' = (rows, cols) :: cs_shape_stack st /\
    cs_kernel_args st' =
      cs_kernel_args st
      ++ [KPtr (t_gpudata t);
          KInt (if f_axis f =? 1 then broadcast_stride rows srow
                else broadcast_stride cols scol);
          KInt (if f_axis f =? 1 then broadcast_stride cols scol
                else broadcast_stride rows srow)]
      ++ match t_take_array t with Some (ptr, _) => [KPtr ptr] | None => [] end.
Proof.
  intros Hax Hc Hshape Hstr Hnew.
  unfold step_tensor, tensor_dims. unfold complex_call in Hc. rewrite Hc, Hshape, Hstr.
  cbn [bind fst snd]. unfold register_tensor. rewrite Hnew. unfold broadcast_stride.
  destruct Hax as [Ha | Ha]; rewrite Ha; cbn [Z.eqb slice_step rev app Z.sub Z.to_nat fst snd];
    destruct (rows =? 1), (cols =? 1);
    cbn [list_put bind list_get nth_error Z.to_nat Pos.to_nat Pos.iter_op Nat.add];
    eexists; (split; [reflexivity|]); split; reflexivity.
Qed.

Lemma X15_unit_extents_get_zero_strides_witness :
  exists st',
    step_tensor (mkFlags true true true false false false 0)
                (dense_tensor 1 4 1 2000) (init_call 77) = inr st' /\
    cs_shape_stack st' = (4, 1) :: cs_shape_stack (init_call 77) /\
    cs_kernel_args st' =
      cs_kernel_args (init_call 77)
      ++ [KPtr (t_gpudata (dense_tensor 1 4 1 2000));
          KInt (if f_axis (mkFlags true true true false false false 0) =? 1
                then broadcast_stride 4 1 else broadcast_stride 1 1);
          KInt (if f_axis (mkFlags true true true false false false 0) =? 1
                then broadcast_stride 1 1 else broadcast_stride 4 1)]
      ++ match t_take_array (dense_tensor 1 4 1 2000) with
         | Some (ptr, _) => [KPtr ptr]
         | None => []
         end.
Proof.
  apply (@X15_unit_extents_get_zero_strides (mkFlags true true true false false false 0)
           (dense_tensor 1 4 1 2000) (init_call 77) 4 1 1 1);
    try reflexivity. now left.
Defined.
(** * Plain elementwise invocations *)

(** ** The shape arithmetic on two values *)

Lemma unify_axis_two (x m s : Z) :
  1 <= x -> (m = 1 \/ m = x) -> (s = 1 \/ s = x) ->
  unify_axis m s = inr (Z.max m s).
Proof.
  intros Hx Hm Hs. unfold unify_axis.
  destruct (s =? m) eqn:E; cbn [negb].
  - apply Z.eqb_eq in E. subst. now rewrite Z.max_id.
  - apply Z.eqb_neq in E.
    assert (Hone : (s =? 1) || (m =? 1) = true).
    { destruct Hm as [-> | ->], Hs as [-> | ->]; try congruence;
        rewrite ?Z.eqb_refl, ?orb_true_r; reflexivity. }
    now rewrite Hone.
Qed.

Lemma unify_shapes_two (S : Z * Z) (k : nat) :
  1 <= fst S -> 1 <= snd S ->
  forall m stack m' rest,
  (m = (1, 1) \/ m = S) ->
  (forall s, In s stack -> s = (1, 1) \/ s = S) ->
  unify_shapes k m stack = inr (m', rest) ->
  exists popped,
    stack = popped ++ rest /\ List.length popped = k /\
    (m' = (1, 1) \/ m' = S) /\
    (m = S \/ In S popped -> m' = S).
Proof.
  intros H0 H1. induction k as [| k IH]; intros m stack m' rest Hm Hst H;
    cbn [unify_shapes] in H.
  - injection H as <- <-. exists []. cbn. repeat split; [exact Hm | intros [? | []]; assumption].
  - destruct stack as [| s stack']; [discriminate|].
    assert (Hs : s = (1, 1) \/ s = S) by (apply Hst; now left).
    assert (Ha : unify_axis (fst m) (fst s) = inr (Z.max (fst m) (fst s))).
    { apply (@unify_axis_two (fst S)); [exact H0 | |];
        [destruct Hm as [-> | ->] | destruct Hs as [-> | ->]]; cbn [fst]; auto. }
    assert (Hb : unify_axis (snd m) (snd s) = inr (Z.max (snd m) (snd s))).
    { apply (@unify_axis_two (snd S)); [exact H1 | |];
        [destruct Hm as [-> | ->] | destruct Hs as [-> | ->]]; cbn [snd]; auto. }
    rewrite Ha, Hb in H. cbn [bind] in H.
    assert (Hmax : ((Z.max (fst m) (fst s), Z.max (snd m) (snd s)) = (1, 1) \/
                    (Z.max (fst m) (fst s), Z.max (snd m) (snd s)) = S) /\
                   (m = S \/ s = S ->
                    (Z.max (fst m) (fst s), Z.max (snd m) (snd s)) = S)).
    { destruct S as [a b]. cbn [fst snd] in *.
      destruct Hm as [-> | ->], Hs as [-> | ->]; cbn [fst snd];
        rewrite ?Z.max_id, ?(Z.max_l a 1), ?(Z.max_r 1 a), ?(Z.max_l b 1), ?(Z.max_r 1 b) by lia;
        split; auto; intros [E | E]; try reflexivity; now rewrite E. }
    destruct Hmax as [Hin Hs'].
    destruct (IH _ stack' m' rest Hin (fun x Hx => Hst x (or_intror Hx)) H)
      as (popped & -> & Hl & Hm' & Himp).
    exists (s :: popped). cbn [app List.length]. repeat split; [now rewrite Hl | exact Hm'|].
    intros [Hms | [Hss | Hp]]; apply Himp; auto.
Qed.

(** ** The scan of a plain invocation *)

Lemma scan_args_no_reduction (args : list arg) :
  forall f f',
  scan_args f args = inr f' ->
  f_reduction f' = false ->
  existsb is_reduction_arg args = false /\ f_axis f' = f_axis f.
Proof.
  induction args as [| a rest IH]; intros f f' H Hr; cbn [scan_args] in H.
  - injection H as <-. auto.
  - apply bind_inr in H. destruct H as (f1 & Hstep & H).
    destruct (@IH f1 f' H Hr) as (Hrest & Hax).
    pose proof (@scan_args_flags rest f1 f' H) as (Hred & _). rewrite Hr in Hred.
    symmetry in Hred. apply orb_false_iff in Hred. destruct Hred as [Hr1 _].
    apply scan_arg_inr in Hstep.
    destruct Hstep as [(Hnr & _ & Ha & _) | (d & ax & _ & _ & _ & _ & Hr1' & _)].
    + cbn [existsb]. rewrite Hnr, Hrest, Hax, Ha. auto.
    + congruence.
Qed.

(** ** The shape stack of a plain invocation *)

Lemma step_arg_plain (f : flags) (st st' : call_state) (a : arg) (n e : Z) :
  complex_call f = false ->
  1 <= e -> 1 <= n / e ->
  (exists strides, _get_fast_ew_dims n = inr ((n / e, e), strides)) ->
  is_assign_arg a = false -> is_reduction_arg a = false ->
  (forall t, a = ATensor t -> tensor_size t = n) ->
  step_arg f st a = inr st' ->
  plain_shapes (n / e, e) st -> plain_shapes (n / e, e) st'.
Proof.
  intros Hplain He Hne (strides & Hdims) Hna Hnr Hsize H (J1 & J2).
  destruct a as [t | c | d]; cbn [step_arg] in H.
  - destruct (@step_tensor_shape f t st st' H) as (dims & Hd & Hss).
    destruct (@tensor_dims_cases f t dims Hd) as [[Hc _] | (_ & strides' & Hf)]; [congruence|].
    rewrite (Hsize t eq_refl), Hdims in Hf. injection Hf as Hf _.
    unfold plain_shapes. rewrite Hss, <- Hf. split.
    + intros s [<- | Hs]; auto.
    + intros _. now left.
  - injection H as <-. unfold step_const, plain_shapes.
    destruct (ids_get Z.eqb (cs_const_ids st) c); cbn [cs_shape_stack cs_out];
      (split; [intros s [<- | Hs]; auto | intros Ho; right; auto]).
  - cbn [is_assign_arg is_reduction_arg] in Hna, Hnr.
    unfold step_op in H. rewrite Hna in H.
    apply bind_inr in H. destruct H as (s1 & H1 & H). injection H as <-.
    unfold plain_shapes. cbn [cs_shape_stack cs_out] in *.
    destruct (float_op_arity (o_op d)) as [k |]; [|rewrite Hnr in H1; discriminate].
    apply bind_inr in H1. destruct H1 as ([m rest] & Hu & H1).
    destruct (@unify_shapes_two (n / e, e) k Hne He (1, 1) (cs_shape_stack st) m rest
                (or_introl eq_refl) J1 Hu) as (popped & Hst & _ & Hm & Himp).
    assert (Hres : cs_shape_stack s1 = m :: rest /\ cs_out s1 = cs_out st).
    { destruct (String.eqb (o_op d) "onehot").
      - destruct (o_axis d); [|discriminate]. destruct (o_idx d); [|discriminate].
        injection H1 as <-. auto.
      - injection H1 as <-. auto. }
    destruct Hres as [-> Ho]. split.
    + intros s [<- | Hs]; [exact Hm|]. apply J1. rewrite Hst. apply in_app_iff. now right.
    + intros Hne'. rewrite Ho in Hne'. specialize (J2 Hne'). rewrite Hst in J2.
      apply in_app_iff in J2. destruct J2 as [Hp | Hr]; [left; apply Himp; now right | now right].
Qed.

Lemma step_args_plain (f : flags) (args : list arg) (n e : Z) :
  complex_call f = false ->
  1 <= e -> 1 <= n / e ->
  (exists strides, _get_fast_ew_dims n = inr ((n / e, e), strides)) ->
  forall st st',
  existsb is_assign_arg args = false -> existsb is_reduction_arg args = false ->
  (forall t, In (ATensor t) args -> tensor_size t = n) ->
  step_args f st args = inr st' ->
  plain_shapes (n / e, e) st -> plain_shapes (n / e, e) st'.
Proof.
  intros Hplain He Hne Hdims.
  induction args as [| a rest IH]; intros st st' Hna Hnr Hsize H HJ; cbn [step_args] in H.
  - now injection H as <-.
  - apply bind_inr in H. destruct H as (s1 & Hstep & H).
    cbn [existsb] in Hna, Hnr. apply orb_false_iff in Hna, Hnr.
    destruct Hna as [Ha Hna], Hnr as [Hr Hnr].
    apply (IH s1 st' Hna Hnr); [intros t Ht; apply Hsize; now right | exact H|].
    eapply step_arg_plain; try eassumption.
    intros t ->. apply Hsize. now left.
Qed.

(** X16.  A plain elementwise invocation (no broadcast, reduction,
    transpose, take, one-hot or non-contiguous operand) over tensors of one
    size [n], ending with its only [assign] and leaving the shape stack
    empty: with [e] the second extent of [_get_fast_ew_dims(n)], the
    unified shape is [(n // e, e)], the loop bound appended to
    [kernel_args] for the [assign] is [e], and every launch has [n // e]
    blocks and no shared memory; [n // e * e = n], so the launch covers
    each element once. *)
Theorem X16_plain_call_covers_every_element (dev : device) (rand_state : Z)
        (body : list arg) (d : op_desc) (f : flags) (st : call_state) (n : Z) :
  prepare_call rand_state (body ++ [AOp d]) = inr (f, st) ->
  o_op d = "assign" ->
  existsb is_assign_arg body = false ->
  complex_call f = false ->
  0 < n ->
  (forall t, In (ATensor t) body -> tensor_size t = n) ->
  cs_shape_stack st = [] ->
  exists e,
    1 <= e <= 256 /\ n / e * e = n /\
    cs_max_shape st = Some (n / e, e) /\
    (exists ks tail,
       cs_kernel_args st = ks ++ KInt e :: tail /\ (List.length tail <= 1)%nat) /\
    forall kernel dev1,
      get_compound_kernel dev (cs_type_args st) = (inr kernel, dev1) ->
      exists out reps,
        (1 <= reps)%nat /\
        call_compound_kernel dev rand_state (body ++ [AOp d]) =
          (inr out,
           mkDevice (d_cache dev1) (d_compiles dev1)
             (d_launches dev1
              ++ repeat (mkLaunch (n / e) (cs_threads st) (cs_kernel_args st) 0) reps)).
Proof.
  intros Hprep Hd Hna Hplain Hn Hsize Hempty.
  pose proof Hprep as H. unfold prepare_call in H.
  apply bind_inr in H. destruct H as (f0 & Hscan & H).
  apply bind_inr in H. destruct H as (s2 & Hs & H). injection H as Hf Hst. subst f0 s2.
  assert (Hred : f_reduction f = false).
  { unfold complex_call in Hplain. destruct (f_reduction f); [|reflexivity].
    rewrite orb_true_r in Hplain. cbn [orb] in Hplain. discriminate. }
  destruct (@scan_args_no_reduction (body ++ [AOp d]) init_flags f Hscan Hred) as (Hnr & Hax).
  cbn [init_flags f_axis] in Hax.
  rewrite existsb_app in Hnr. apply orb_false_iff in Hnr. destruct Hnr as [Hnr _].
  destruct (fast_ew_dims_cover Hn) as (e & He & Hdims & Hmul).
  assert (Hne : 1 <= n / e) by nia.
  rewrite step_args_app in Hs. apply bind_inr in Hs. destruct Hs as (s1 & Hbody & Hs).
  cbn [step_args] in Hs. apply bind_inr in Hs. destruct Hs as (s2 & Hop & Hs).
  injection Hs as Hs. subst s2.
  assert (HJ : plain_shapes (n / e, e) s1).
  { apply (@step_args_plain f body n e Hplain ltac:(lia) Hne (ex_intro _ _ Hdims)
             (init_call rand_state) s1 Hna Hnr Hsize Hbody).
    split; [intros s [] | intros Ho; now destruct Ho]. }
  destruct HJ as (J1 & J2).
  cbn [step_arg] in Hop. unfold step_op in Hop. rewrite Hd in Hop.
  change (float_op_arity "assign") with (Some 2%nat) in Hop.
  change (String.eqb "assign" "assign") with true in Hop. cbv iota in Hop.
  apply bind_inr in Hop. destruct Hop as (s1' & H1 & Hop).
  apply bind_inr in H1. destruct H1 as ([m rest] & Hu & H1).
  destruct (cs_out s1) as [out |] eqn:Eo; [|discriminate].
  injection H1 as <-. injection Hop as <-.
  cbn [cs_shape_stack cs_max_shape cs_kernel_args cs_out cs_threads cs_type_args] in *.
  subst rest.
  destruct (@unify_shapes_two (n / e, e) 2 Hne ltac:(cbn [snd]; lia) (1, 1) (cs_shape_stack s1)
              m [] (or_introl eq_refl) J1 Hu) as (popped & Hstack & _ & _ & Himp).
  rewrite app_nil_r in Hstack.
  assert (Hm : m = (n / e, e)).
  { apply Himp. right. rewrite <- Hstack. apply J2. discriminate. }
  subst m. rewrite Hax. cbn [pair_get Z.eqb fst snd].
  exists e. split; [exact He|]. split; [exact Hmul|]. split; [reflexivity|]. split.
  - destruct (rounding_value (t_dtype out) (t_rounding out)) as [r |].
    + exists (cs_kernel_args s1), [KInt (Z.max r 1)]. rewrite <- app_assoc. split; [reflexivity|].
      cbn [List.length]. lia.
    + exists (cs_kernel_args s1), []. split; [reflexivity | cbn [List.length]; lia].
  - intros kernel dev1 Hget. unfold call_compound_kernel. rewrite Hprep.
    cbn [cs_type_args] in Hget |- *. rewrite Hget.
    cbn [cs_out cs_max_shape cs_threads cs_kernel_args]. rewrite Hred, Hax.
    cbn [andb pair_get Z.sub Z.eqb fst snd Z.pos_sub Z.opp].
    exists out, (if t_bench out >? 1 then Z.to_nat (t_bench out) else 1%nat).
    split; [|reflexivity].
    destruct (t_bench out >? 1) eqn:Eb; [|lia]. apply Z.gtb_lt in Eb. lia.
Qed.

Lemma X16_plain_call_covers_every_element_witness :
  exists e,
    1 <= e <= 256 /\ 12 / e * e = 12 /\
    cs_max_shape (snd (prepared 77 call_const_twice)) = Some (12 / e, e) /\
    (exists ks tail,
       cs_kernel_args (snd (prepared 77 call_const_twice)) = ks ++ KInt e :: tail /\
       (List.length tail <= 1)%nat) /\
    forall kernel dev1,
      get_compound_kernel empty_device (cs_type_args (snd (prepared 77 call_const_twice)))
        = (inr kernel, dev1) ->
      exists out reps,
        (1 <= reps)%nat /\
        call_compound_kernel empty_device 77 (removelast call_const_twice ++ [AOp (mkOp "assign" None None)]) =
          (inr out,
           mkDevice (d_cache dev1) (d_compiles dev1)
             (d_launches dev1
              ++ repeat (mkLaunch (12 / e) (cs_threads (snd (prepared 77 call_const_twice)))
                                  (cs_kernel_args (snd (prepared 77 call_const_twice))) 0)
                        reps)).
Proof.
  apply (@X16_plain_call_covers_every_element empty_device 77
           (removelast call_const_twice) (mkOp "assign" None None)
           (fst (prepared 77 call_const_twice)) (snd (prepared 77 call_const_twice)) 12).
  - vm_compute. reflexivity.
  - reflexivity.
  - reflexivity.
  - vm_compute. reflexivity.
  - lia.
  - intros t Ht. simpl in Ht.
    repeat (destruct Ht as [Ht | Ht]; try discriminate Ht; try contradiction);
      injection Ht as <-; reflexivity.
  - vm_compute. reflexivity.
Defined.
